(** * Resonance: ingestion pipeline and retrieval core

    A shallow embedding of the TypeScript sources of the Resonance engine
    (graph store, FAFCAS vector codec, LouvainGate, the weavers, the Ingestor,
    the BentoBoxer, the hybrid search handler and the pipeline validator),
    followed by the properties established about them.

    Conventions of the embedding.
    - A JavaScript string is a [string] of 8-bit characters; the character
      classes of the regular expressions ([\s], [\w], [a-z0-9]) and
      [toLowerCase]/[toUpperCase] are the ASCII ones.
    - A JavaScript number is an IEEE-754 binary64 value and an element of a
      [Float32Array] a binary32 value, both represented by [spec_float] and
      computed with the operations of [SpecFloat] (round to nearest even);
      the real number that such a value denotes, needed only to bound the
      rounding errors of [toFafcas], is [FloatValue.value].
    - A table of the SQLite store is the list of its rows in scan order.
    - A regular expression of the sources is a term of [RegExp.re], run by
      a backtracking matcher with the greedy and lazy quantifiers of
      JavaScript.
    - What the sources obtain from outside the repository (the embedding
      model, the NLP tokenizer, the date parser, the FTS5 engine, the remark
      parser, the UUID generator) is a field of a record that the functions
      take as argument. *)

From Stdlib Require Import ZArith List String Ascii Bool Lia Arith DecimalString.
From Stdlib Require Import Sorted Permutation.
From Stdlib Require Import SpecFloat.
From Stdlib Require Reals Lra.
Import ListNotations.

Local Open Scope list_scope.
Local Open Scope string_scope.

(* ------------------------------------------------------------------------- *)
(** ** JavaScript string primitives used by the sources *)

Module JS.
Local Open Scope nat_scope.

Definition code (c : ascii) : nat := nat_of_ascii c.

(** [\s] restricted to one-byte characters: TAB, LF, VT, FF, CR, SPACE. *)
Definition isSpace (c : ascii) : bool :=
  let n := code c in
  ((9 <=? n) && (n <=? 13)) || (n =? 32).

Definition isLower (c : ascii) : bool :=
  let n := code c in (97 <=? n) && (n <=? 122).

Definition isUpper (c : ascii) : bool :=
  let n := code c in (65 <=? n) && (n <=? 90).

Definition isDigit (c : ascii) : bool :=
  let n := code c in (48 <=? n) && (n <=? 57).

Definition toLowerChar (c : ascii) : ascii :=
  if isUpper c then ascii_of_nat (code c + 32) else c.

Definition toUpperChar (c : ascii) : ascii :=
  if isLower c then ascii_of_nat (code c - 32) else c.

Fixpoint map (f : ascii -> ascii) (s : string) : string :=
  match s with
  | EmptyString => EmptyString
  | String c r => String (f c) (map f r)
  end.

Definition toLowerCase : string -> string := map toLowerChar.

(** [toUpperCase] on the letters [a-z]. The sources call it once, on
    [relType] in [processMetadataTags], a lower-cased word of [[\w_]], on
    which [String.prototype.toUpperCase] does exactly this; nothing below
    relies on it on other texts. *)
Definition toUpperCase : string -> string := map toUpperChar.

Fixpoint trimStart (s : string) : string :=
  match s with
  | EmptyString => EmptyString
  | String c r => if isSpace c then trimStart r else s
  end.

Fixpoint trimEnd (s : string) : string :=
  match s with
  | EmptyString => EmptyString
  | String c r =>
      match trimEnd r with
      | EmptyString => if isSpace c then EmptyString else String c EmptyString
      | r' => String c r'
      end
  end.

(** [String.prototype.trim]. *)
Definition trim (s : string) : string := trimEnd (trimStart s).

(** A JavaScript string is falsy exactly when it is empty. *)
Definition truthy (s : string) : bool :=
  match s with EmptyString => false | _ => true end.

Fixpoint startsWith (p s : string) : bool :=
  match p, s with
  | EmptyString, _ => true
  | String a p', String b s' => Ascii.eqb a b && startsWith p' s'
  | _, _ => false
  end.

Fixpoint drop (n : nat) (s : string) : string :=
  match n, s with
  | O, _ => s
  | S n', String _ r => drop n' r
  | S _, EmptyString => EmptyString
  end.

Fixpoint take (n : nat) (s : string) : string :=
  match n, s with
  | O, _ => EmptyString
  | S n', String c r => String c (take n' r)
  | S _, EmptyString => EmptyString
  end.

(** [s.indexOf(p)]: the number of characters before the first occurrence
    of [p] in [s]. *)
Fixpoint indexOf (p s : string) : option nat :=
  if startsWith p s then Some O
  else match s with
       | EmptyString => None
       | String _ r => option_map S (indexOf p r)
       end.

Definition includes (p s : string) : bool :=
  match indexOf p s with Some _ => true | None => false end.

(** [s.split(sep)] for a one-character separator. *)
Fixpoint split (sep : ascii) (s : string) : list string :=
  match s with
  | EmptyString => [EmptyString]
  | String c r =>
      if Ascii.eqb c sep then EmptyString :: split sep r
      else match split sep r with
           | [] => [String c EmptyString]
           | h :: t => String c h :: t
           end
  end.

(** [parts.join(sep)]. *)
Fixpoint join (sep : string) (parts : list string) : string :=
  match parts with
  | [] => EmptyString
  | [p] => p
  | p :: rest => p ++ sep ++ join sep rest
  end.

(** [s.replace(p, r)] for a string pattern: the first occurrence only. *)
Definition replaceFirst (p r s : string) : string :=
  match indexOf p s with
  | Some i => take i s ++ r ++ drop (i + String.length p) s
  | None => s
  end.

End JS.

(* ------------------------------------------------------------------------- *)
(** ** Regular expressions

    The fragment of ECMAScript regular expressions that the sources use,
    with the backtracking semantics of the language: alternatives are tried
    left to right, a greedy quantifier tries one more iteration first and a
    lazy one tries to stop first. *)

Module RegExp.
Local Open Scope nat_scope.

Inductive re : Type :=
| Eps                                  (* the empty pattern *)
| Chr (p : ascii -> bool)              (* one character of a class *)
| Seq (a b : re)
| Alt (a b : re)                       (* a|b *)
| Star (greedy : bool) (a : re)        (* a* and a*? *)
| Group (n : nat) (a : re)             (* capture group number n *)
| Look (a : re)                        (* (?=a) *)
| Bol                                  (* ^ (no m flag) *)
| Eol                                  (* $ (no m flag) *)
| WordB.                               (* \b *)

Definition Plus (greedy : bool) (a : re) : re := Seq a (Star greedy a).
Definition Opt (a : re) : re := Alt a Eps.

Fixpoint lit (s : string) : re :=
  match s with
  | EmptyString => Eps
  | String c r => Seq (Chr (Ascii.eqb c)) (lit r)
  end.

(** A literal under the [i] flag. *)
Fixpoint litI (s : string) : re :=
  match s with
  | EmptyString => Eps
  | String c r =>
      Seq (Chr (fun x => Ascii.eqb (JS.toLowerChar x) (JS.toLowerChar c))) (litI r)
  end.

Fixpoint times (n : nat) (a : re) : re :=
  match n with
  | O => Eps
  | S n' => Seq a (times n' a)
  end.

(** Character classes. *)
Definition isLineTerminator (c : ascii) : bool :=
  (JS.code c =? 10) || (JS.code c =? 13).
Definition dot (c : ascii) : bool := negb (isLineTerminator c).
Definition any (c : ascii) : bool := true.                 (* [\s\S] *)
Definition space : ascii -> bool := JS.isSpace.            (* \s *)
Definition digit : ascii -> bool := JS.isDigit.            (* \d *)
Definition word (c : ascii) : bool :=                      (* \w *)
  JS.isLower c || JS.isUpper c || JS.isDigit c || (JS.code c =? 95).
Definition only (x : ascii) (c : ascii) : bool := Ascii.eqb x c.
Definition orC (p q : ascii -> bool) (c : ascii) : bool := p c || q c.
Definition notC (p : ascii -> bool) (c : ascii) : bool := negb (p c).

Definition Caps : Type := list (nat * string).

Fixpoint cap (n : nat) (cs : Caps) : option string :=
  match cs with
  | [] => None
  | (m, s) :: r => if m =? n then Some s else cap n r
  end.

(** A position in the subject: the character before it (if any) and the
    text from it on. *)
Definition Res : Type := (option ascii * string * Caps)%type.

Definition isWordOpt (c : option ascii) : bool :=
  match c with Some x => word x | None => false end.
Definition headOf (s : string) : option ascii :=
  match s with String c _ => Some c | EmptyString => None end.

Fixpoint lastOf (prev : option ascii) (s : string) : option ascii :=
  match s with
  | EmptyString => prev
  | String c r => lastOf (Some c) r
  end.

(** [run r prev s caps k]: match [r] at the position [(prev, s)] and
    continue with [k]; [None] when every way of matching fails. *)
Fixpoint run (r : re) (prev : option ascii) (s : string) (caps : Caps)
         (k : option ascii -> string -> Caps -> option Res) {struct r}
  : option Res :=
  match r with
  | Eps => k prev s caps
  | Chr p =>
      match s with
      | String c s' => if p c then k (Some c) s' caps else None
      | EmptyString => None
      end
  | Seq a b => run a prev s caps (fun p1 s1 c1 => run b p1 s1 c1 k)
  | Alt a b =>
      match run a prev s caps k with
      | Some res => Some res
      | None => run b prev s caps k
      end
  | Star greedy a =>
      (fix loop (n : nat) (prev : option ascii) (s : string) (caps : Caps)
         {struct n} : option Res :=
         match n with
         | O => k prev s caps
         | S n' =>
             if greedy then
               match run a prev s caps
                       (fun p1 s1 c1 =>
                          if String.length s1 <? String.length s
                          then loop n' p1 s1 c1 else None) with
               | Some res => Some res
               | None => k prev s caps
               end
             else
               match k prev s caps with
               | Some res => Some res
               | None =>
                   run a prev s caps
                     (fun p1 s1 c1 =>
                        if String.length s1 <? String.length s
                        then loop n' p1 s1 c1 else None)
               end
         end) (String.length s) prev s caps
  | Group n a =>
      run a prev s caps
        (fun p1 s1 c1 =>
           k p1 s1 ((n, JS.take (String.length s - String.length s1) s) :: c1))
  | Look a =>
      match run a prev s caps (fun p1 s1 c1 => Some (p1, s1, c1)) with
      | Some (_, _, c1) => k prev s c1
      | None => None
      end
  | Bol => match prev with None => k prev s caps | Some _ => None end
  | Eol => match s with EmptyString => k prev s caps | _ => None end
  | WordB =>
      if xorb (isWordOpt prev) (isWordOpt (headOf s)) then k prev s caps
      else None
  end.

(** One match: the matched text and the captures. *)
Record Match : Type := { text : string; caps : Caps }.

(** The match of [r] that starts exactly at [(prev, s)], if any. *)
Definition matchAt (r : re) (prev : option ascii) (s : string) : option Match :=
  match run r prev s [] (fun p1 s1 c1 => Some (p1, s1, c1)) with
  | Some (_, s1, c1) =>
      Some {| text := JS.take (String.length s - String.length s1) s; caps := c1 |}
  | None => None
  end.

(** The subject cut by the successive matches of a [g] regular
    expression: the characters outside the matches, and the matches. *)
Inductive piece : Type :=
| Out (c : ascii)
| Hit (m : Match).

Fixpoint scan (r : re) (prev : option ascii) (s : string) (skip : nat)
  : list piece :=
  match skip with
  | S skip' =>
      match s with
      | String c s' => scan r (Some c) s' skip'
      | EmptyString => []
      end
  | O =>
      match matchAt r prev s with
      | Some m =>
          Hit m ::
            match s with
            | String c s' =>
                match String.length (text m) with
                | O => Out c :: scan r (Some c) s' O
                | S n => scan r (Some c) s' n
                end
            | EmptyString => []
            end
      | None =>
          match s with
          | String c s' => Out c :: scan r (Some c) s' O
          | EmptyString => []
          end
      end
  end.

Definition pieces (r : re) (s : string) : list piece := scan r None s O.

(** [s.matchAll(r)], and the successive results of [r.exec(s)]. *)
Definition matchAll (r : re) (s : string) : list Match :=
  flat_map (fun p => match p with Hit m => [m] | Out _ => [] end) (pieces r s).

(** [s.match(r)] for a regular expression without the [g] flag. *)
Definition firstMatch (r : re) (s : string) : option Match :=
  match matchAll r s with
  | m :: _ => Some m
  | [] => None
  end.

(** [s.replace(r, by)] for a [g] regular expression. *)
Definition replaceAll (r : re) (by_ : string) (s : string) : string :=
  fold_right
    (fun p acc => match p with Hit _ => by_ ++ acc | Out c => String c acc end)
    EmptyString (pieces r s).

(** [s.split(r).length] for an expression that matches no empty text. *)
Definition splitLength (r : re) (s : string) : nat :=
  S (List.length (matchAll r s)).

(** [match[n]] as a JavaScript value: [undefined] and [""] are falsy. *)
Definition group (n : nat) (m : Match) : string :=
  match cap n (caps m) with Some s => s | None => EmptyString end.

End RegExp.

(* ------------------------------------------------------------------------- *)
(** ** MD5 (RFC 1321), as computed by [Bun.CryptoHasher("md5")] *)

Module MD5.
Local Open Scope Z_scope.

Definition w32 (x : Z) : Z := x mod 4294967296.
Definition notw (x : Z) : Z := Z.lxor x 4294967295.
Definition rotl (x n : Z) : Z :=
  w32 (Z.lor (Z.shiftl x n) (Z.shiftr x (32 - n))).

Definition K : list Z :=
  [ 3614090360; 3905402710; 606105819; 3250441966; 4118548399; 1200080426;
    2821735955; 4249261313; 1770035416; 2336552879; 4294925233; 2304563134;
    1804603682; 4254626195; 2792965006; 1236535329; 4129170786; 3225465664;
    643717713; 3921069994; 3593408605; 38016083; 3634488961; 3889429448;
    568446438; 3275163606; 4107603335; 1163531501; 2850285829; 4243563512;
    1735328473; 2368359562; 4294588738; 2272392833; 1839030562; 4259657740;
    2763975236; 1272893353; 4139469664; 3200236656; 681279174; 3936430074;
    3572445317; 76029189; 3654602809; 3873151461; 530742520; 3299628645;
    4096336452; 1126891415; 2878612391; 4237533241; 1700485571; 2399980690;
    4293915773; 2240044497; 1873313359; 4264355552; 2734768916; 1309151649;
    4149444226; 3174756917; 718787259; 3951481745 ].

Definition R : list Z :=
  [ 7; 12; 17; 22; 7; 12; 17; 22; 7; 12; 17; 22; 7; 12; 17; 22;
    5; 9; 14; 20; 5; 9; 14; 20; 5; 9; 14; 20; 5; 9; 14; 20;
    4; 11; 16; 23; 4; 11; 16; 23; 4; 11; 16; 23; 4; 11; 16; 23;
    6; 10; 15; 21; 6; 10; 15; 21; 6; 10; 15; 21; 6; 10; 15; 21 ].

Definition bytesOf (s : string) : list Z :=
  List.map (fun c => Z.of_nat (nat_of_ascii c)) (list_ascii_of_string s).

Fixpoint leBytes (n : nat) (x : Z) : list Z :=
  match n with
  | O => []
  | S n' => (x mod 256) :: leBytes n' (x / 256)
  end.

Definition pad (msg : list Z) : list Z :=
  let len := Z.of_nat (List.length msg) in
  (msg ++ [128] ++ repeat 0 (Z.to_nat ((55 - len) mod 64)) ++ leBytes 8 (8 * len))%list.

Fixpoint words (bs : list Z) : list Z :=
  match bs with
  | b0 :: b1 :: b2 :: b3 :: rest =>
      (b0 + 256 * b1 + 65536 * b2 + 16777216 * b3) :: words rest
  | _ => []
  end.

Definition state : Type := (Z * Z * Z * Z)%type.

Definition init : state := (1732584193, 4023233417, 2562383102, 271733878).

Definition round (M : list Z) (st : state) (i : nat) : state :=
  let '(A, B, C, D) := st in
  let iz := Z.of_nat i in
  let '(F, g) :=
    if (i <? 16)%nat then (Z.lor (Z.land B C) (Z.land (notw B) D), iz)
    else if (i <? 32)%nat then
      (Z.lor (Z.land D B) (Z.land (notw D) C), (5 * iz + 1) mod 16)
    else if (i <? 48)%nat then (Z.lxor (Z.lxor B C) D, (3 * iz + 5) mod 16)
    else (Z.lxor C (Z.lor B (notw D)), (7 * iz) mod 16) in
  let F' := w32 (F + A + nth i K 0 + nth (Z.to_nat g) M 0) in
  (D, w32 (B + rotl F' (nth i R 0)), B, C).

Definition compress (st : state) (M : list Z) : state :=
  let '(a0, b0, c0, d0) := st in
  let '(A, B, C, D) := fold_left (round M) (seq 0 64) st in
  (w32 (a0 + A), w32 (b0 + B), w32 (c0 + C), w32 (d0 + D)).

Fixpoint blocks (fuel : nat) (ws : list Z) (st : state) : state :=
  match fuel, ws with
  | S f, _ :: _ => blocks f (skipn 16 ws) (compress st (firstn 16 ws))
  | _, _ => st
  end.

Definition hexDigit (n : Z) : ascii :=
  if n <? 10 then ascii_of_nat (Z.to_nat (48 + n))
  else ascii_of_nat (Z.to_nat (87 + n)).

Fixpoint hexBytes (bs : list Z) : string :=
  match bs with
  | [] => EmptyString
  | b :: rest => String (hexDigit (b / 16)) (String (hexDigit (b mod 16)) (hexBytes rest))
  end.

Definition digest (msg : list Z) : list Z :=
  let ws := words (pad msg) in
  let '(a, b, c, d) := blocks (List.length ws) ws init in
  (leBytes 4 a ++ leBytes 4 b ++ leBytes 4 c ++ leBytes 4 d)%list.

(** [hasher.update(s); hasher.digest("hex")]. *)
Definition hex (s : string) : string := hexBytes (digest (bytesOf s)).

End MD5.

(* ------------------------------------------------------------------------- *)
(** ** Numbers: binary64 arithmetic and binary32 storage *)

Module F64.
Local Open Scope Z_scope.

Definition num : Type := spec_float.

Definition add : num -> num -> num := SFadd 53 1024.
Definition mul : num -> num -> num := SFmul 53 1024.
Definition div : num -> num -> num := SFdiv 53 1024.
Definition sqrt : num -> num := SFsqrt 53 1024.

(** [a > b]; false as soon as one side is NaN. *)
Definition gtb (a b : num) : bool := SFltb b a.
Definition ltb (a b : num) : bool := SFltb a b.

Definition zero : num := S754_zero false.
Definition one : num := S754_finite false 4503599627370496 (-52).

(** The literals of the sources, as the binary64 values nearest to them. *)
Definition lit_1e_6 : num := S754_finite false 4722366482869645 (-72).
Definition lit_0_85 : num := S754_finite false 7656119366529843 (-53).

(** A number is falsy when it is [0], [-0] or [NaN]. *)
Definition truthy (x : num) : bool :=
  match x with
  | S754_zero _ | S754_nan => false
  | _ => true
  end.

(** [x || 0]. *)
Definition orZero (x : num) : num := if truthy x then x else zero.

Definition isNaN (x : num) : bool :=
  match x with S754_nan => true | _ => false end.

(** The comparator [(a, b) => b - a] orders [a] before [b] when the
    difference is negative, and keeps the order of the two otherwise
    (a zero difference, or NaN). [before a b] is "b - a < 0". *)
Definition descBefore (a b : num) : bool := SFltb b a.

End F64.

Module F32.
Local Open Scope Z_scope.

(** An element of a [Float32Array]. *)
Definition single : Type := spec_float.

Definition valid (x : single) : bool := valid_binary 24 128 x.

(** Storing a number into a [Float32Array] rounds it to binary32. *)
Definition ofNumber (x : F64.num) : single :=
  match x with
  | S754_finite s m e => binary_round 24 128 s m e
  | _ => x
  end.

(** Reading an element yields the same value as a number (exact). *)
Definition toNumber (x : single) : F64.num :=
  match x with
  | S754_finite s m e => binary_round 53 1024 s m e
  | _ => x
  end.

Definition signBit (s : bool) : Z := if s then 2147483648 else 0.

(** The 32 bits of an element. NaN is the quiet NaN [0x7fc00000]. *)
Definition bits (x : single) : Z :=
  match x with
  | S754_zero s => signBit s
  | S754_infinity s => signBit s + 2139095040
  | S754_nan => 2143289344
  | S754_finite s m e =>
      if Zpos m <? 8388608 then signBit s + Zpos m
      else signBit s + (e + 150) * 8388608 + (Zpos m - 8388608)
  end.

(** [new Uint8Array(v.buffer, v.byteOffset, v.byteLength)]: the
    little-endian bytes of the elements. *)
Definition bytes (v : list single) : list Z :=
  flat_map (fun x => MD5.leBytes 4 (bits x)) v.

Definition allZeroBytes (v : list single) : bool :=
  forallb (fun b => b =? 0) (bytes v).

(** [2^298] times the square of an element (an integer for every finite
    binary32 value); [None] for infinities and NaN. *)
Definition square298 (x : single) : option Z :=
  match x with
  | S754_zero _ => Some 0
  | S754_finite _ m e =>
      let k := Zpos m * 2 ^ (e + 149) in Some (k * k)
  | _ => None
  end.

Fixpoint sumSquares298 (v : list single) : option Z :=
  match v with
  | [] => Some 0
  | x :: r =>
      match square298 x, sumSquares298 r with
      | Some a, Some b => Some (a + b)
      | _, _ => None
      end
  end.

(** The L2 norm of [v] lies in [[1 - 1e-5, 1 + 1e-5]], decided exactly on
    the squares: [(1 - 1e-5)^2 <= sum <= (1 + 1e-5)^2]. *)
Definition unitNorm (v : list single) : bool :=
  match sumSquares298 v with
  | Some s =>
      (99999 * 99999 * 2 ^ 298 <=? s * 10 ^ 10)
      && (s * 10 ^ 10 <=? 100001 * 100001 * 2 ^ 298)
  | None => false
  end.

End F32.

(* ------------------------------------------------------------------------- *)
(** ** VectorCodec: [toFafcas] and [dotProduct] (ResonanceDB module) *)

Module Fafcas.

(** The loop [sum += val * val] with [val = vector[i] || 0]. *)
Definition sumOfSquares (vector : list F32.single) : F64.num :=
  fold_left
    (fun sum x =>
       let val := F64.orZero (F32.toNumber x) in
       F64.add sum (F64.mul val val))
    vector F64.zero.

Definition magnitude (vector : list F32.single) : F64.num :=
  F64.sqrt (sumOfSquares vector).

(** [toFafcas]: the vector after the in-place normalisation; the returned
    [Uint8Array] is the byte view [F32.bytes] of it. *)
Definition toFafcas (vector : list F32.single) : list F32.single :=
  let magnitude := magnitude vector in
  if F64.gtb magnitude F64.lit_1e_6 then
    List.map
      (fun x =>
         let val := F64.orZero (F32.toNumber x) in
         F32.ofNumber (F64.div val magnitude))
      vector
  else vector.

(** [dotProduct(a, b)]: [i] ranges over [a]; a missing [b[i]] is
    [undefined], hence [0]. *)
Fixpoint dotFrom (sum : F64.num) (a b : list F32.single) : F64.num :=
  match a with
  | [] => sum
  | x :: a' =>
      let y := match b with [] => F64.zero | y :: _ => F32.toNumber y end in
      let b' := match b with [] => [] | _ :: b' => b' end in
      dotFrom (F64.add sum (F64.mul (F64.orZero (F32.toNumber x)) (F64.orZero y))) a' b'
  end.

Definition dotProduct (a b : list F32.single) : F64.num :=
  dotFrom F64.zero a b.

End Fafcas.

(* ------------------------------------------------------------------------- *)
(** ** Values shared by the components *)

(** [Array.prototype.sort] is stable; with a comparator [(a, b) => key b - key a]
    the element [a] is moved after [b] only when [before b a], that is when
    the comparator is negative on [(b, a)]. *)
Section StableSort.
Context {A : Type} (before : A -> A -> bool).

Fixpoint insertSorted (x : A) (l : list A) : list A :=
  match l with
  | [] => [x]
  | y :: r => if before y x then y :: insertSorted x r else x :: y :: r
  end.

Definition sortBy (l : list A) : list A := fold_right insertSorted [] l.
End StableSort.

(** [l.slice(0, limit)] for an integral [limit]. *)
Definition slice0 {A : Type} (limit : Z) (l : list A) : list A :=
  if (limit <? 0)%Z then firstn (Z.to_nat (Z.of_nat (List.length l) + limit)) l
  else firstn (Z.to_nat limit) l.

(** The completion of a call: a value, or a thrown exception. *)
Inductive Completion (A : Type) : Type :=
| Normal (a : A)
| Thrown (message : string).
Arguments Normal {A} a.
Arguments Thrown {A} message.

Definition tryCatch {A : Type} (body : Completion A) (handler : string -> Completion A)
  : Completion A :=
  match body with
  | Normal a => Normal a
  | Thrown e => handler e
  end.

(** Output of [TokenizerService.extract]. *)
Record SemanticTags : Type := {
  people : list string;
  places : list string;
  organizations : list string;
  topics : list string;
  money : list string;
  protocols : list string;
  concepts : list string
}.

(** The [meta] bag of a node: a JSON object, as its key/value pairs. *)
Inductive MetaValue : Type :=
| MStr (s : string)
| MStrs (l : list string)
| MTags (t : SemanticTags).

Definition Meta : Type := list (string * MetaValue).

Fixpoint metaGet (k : string) (m : Meta) : option MetaValue :=
  match m with
  | [] => None
  | (k', v) :: r => if String.eqb k' k then Some v else metaGet k r
  end.

(** [obj[k] = v]: an existing key keeps its place. *)
Fixpoint metaSet (k : string) (v : MetaValue) (m : Meta) : Meta :=
  match m with
  | [] => [(k, v)]
  | (k', v') :: r => if String.eqb k' k then (k, v) :: r else (k', v') :: metaSet k v r
  end.

(** A property of the bag read as a string, when it is there and truthy;
    the pipeline writes strings under the keys read this way ([title],
    [date], [source]). *)
Definition metaString (k : string) (m : option Meta) : option string :=
  match m with
  | Some kv =>
      match metaGet k kv with
      | Some (MStr s) => if JS.truthy s then Some s else None
      | _ => None
      end
  | None => None
  end.

(** [x ? String(x) : null] for an optional string. *)
Definition truthyOrNull (x : option string) : option string :=
  match x with
  | Some s => if JS.truthy s then Some s else None
  | None => None
  end.

(** [x || d] for an optional string. *)
Definition orElse (x : option string) (d : string) : string :=
  match truthyOrNull x with Some s => s | None => d end.

(* ------------------------------------------------------------------------- *)
(** ** GraphStore: [ResonanceDB] *)

(** The [Node] interface: the argument of [insertNode]. *)
Module Node.
Record t : Type := {
  id : string;
  type : string;
  label : option string;
  content : option string;
  domain : option string;
  layer : option string;
  embedding : option (list F32.single);
  hash : option string;
  meta : option Meta
}.
End Node.

(** A row of the table [nodes]. *)
Module Row.
Record t : Type := {
  id : string;
  type : string;
  title : option string;
  content : option string;
  domain : string;
  layer : string;
  embedding : option (list F32.single);
  hash : option string;
  meta : option Meta
}.
End Row.

(** A row of the table [edges]; primary key [(source, target, type)]. *)
Module Edge.
Record t : Type := { source : string; target : string; type : string }.

Definition eqb (a b : t) : bool :=
  String.eqb (source a) (source b) && String.eqb (target a) (target b)
  && String.eqb (type a) (type b).
End Edge.

Record Store : Type := { nodes : list Row.t; edges : list Edge.t }.

Module ResonanceDB.

Definition emptyStore : Store := {| nodes := []; edges := [] |}.

(** [INSERT OR REPLACE INTO nodes]: the row with the same id is deleted
    and the new row is added. *)
Definition insertNode (db : Store) (node : Node.t) : Store :=
  let blob := option_map Fafcas.toFafcas (Node.embedding node) in
  let row :=
    {| Row.id := Node.id node;
       Row.type := Node.type node;
       Row.title := truthyOrNull (Node.label node);
       Row.content := truthyOrNull (Node.content node);
       Row.domain := orElse (Node.domain node) "knowledge";
       Row.layer := orElse (Node.layer node) "experience";
       Row.embedding := blob;
       Row.hash := truthyOrNull (Node.hash node);
       Row.meta := Node.meta node |} in
  {| nodes :=
       (filter (fun r => negb (String.eqb (Row.id r) (Node.id node))) (nodes db)
          ++ [row])%list;
     edges := edges db |}.

(** [INSERT OR IGNORE INTO edges]. *)
Definition insertEdge (db : Store) (source target type : string) : Store :=
  let e := {| Edge.source := source; Edge.target := target; Edge.type := type |} in
  if existsb (Edge.eqb e) (edges db) then db
  else {| nodes := nodes db; edges := (edges db ++ [e])%list |}.

Definition findRow (db : Store) (id : string) : option Row.t :=
  find (fun r => String.eqb (Row.id r) id) (nodes db).

(** [getNodeHash]: [null] when the row is missing or its hash is NULL. *)
Definition getNodeHash (db : Store) (id : string) : option string :=
  match findRow db id with
  | Some row => Row.hash row
  | None => None
  end.

Definition mapRowToNode (row : Row.t) : Node.t :=
  {| Node.id := Row.id row;
     Node.type := Row.type row;
     Node.label := Row.title row;
     Node.content := Row.content row;
     Node.domain := Some (Row.domain row);
     Node.layer := Some (Row.layer row);
     Node.embedding := Row.embedding row;
     Node.hash := Row.hash row;
     Node.meta := Some (match Row.meta row with Some m => m | None => [] end) |}.

Definition getNodesByType (db : Store) (type : string) : list Node.t :=
  List.map mapRowToNode
    (filter (fun r => String.eqb (Row.type r) type) (nodes db)).

Record Similar : Type := { sim_id : string; sim_label : string; sim_score : F64.num }.

(** [findSimilar(queryVec, limit, domain)]. *)
Definition findSimilar (db : Store) (queryVec : list F32.single) (limit : Z)
           (domain : option string) : list Similar :=
  let rows :=
    filter
      (fun r =>
         match Row.embedding r with
         | Some _ =>
             match truthyOrNull domain with
             | Some d => String.eqb (Row.domain r) d
             | None => true
             end
         | None => false
         end)
      (nodes db) in
  let results :=
    flat_map
      (fun r =>
         match Row.embedding r with
         | Some vec =>
             [ {| sim_id := Row.id r;
                  sim_label := orElse (Row.title r) (Row.id r);
                  sim_score := Fafcas.dotProduct queryVec vec |} ]
         | None => []
         end)
      rows in
  slice0 limit
    (sortBy (fun a b => F64.descBefore (sim_score a) (sim_score b)) results).

Definition countRows {A : Type} (p : A -> bool) (l : list A) : Z :=
  Z.of_nat (List.length (filter p l)).

Definition hasEmbedding (r : Row.t) : bool :=
  match Row.embedding r with Some _ => true | None => false end.

(** A row produced by the FTS5 query of [searchText]. *)
Record FtsRow : Type := {
  fts_id : string;
  fts_title : option string;
  fts_snippet : option string;
  fts_rank : F64.num
}.

(** The SQLite FTS5 engine: the rows of the [MATCH ... ORDER BY rank
    LIMIT ?] query, or the exception it raises. *)
Definition FtsEngine : Type := Store -> string -> Z -> Completion (list FtsRow).

Record TextHit : Type := {
  hit_id : string;
  hit_title : string;
  hit_snippet : string;
  hit_rank : F64.num
}.

Definition searchText (fts : FtsEngine) (db : Store) (query : string) (limit : Z)
  : Completion (list TextHit) :=
  tryCatch
    (match fts db query limit with
     | Normal rows =>
         Normal
           (List.map
              (fun row =>
                 {| hit_id := fts_id row;
                    hit_title := orElse (fts_title row) (fts_id row);
                    hit_snippet := orElse (fts_snippet row) "";
                    hit_rank := fts_rank row |})
              rows)
     | Thrown e => Thrown e
     end)
    (fun _ => Normal []).

End ResonanceDB.

(* ------------------------------------------------------------------------- *)
(** ** LouvainGate *)

Module LouvainGate.
Local Open Scope Z_scope.

Record Verdict : Type := { allowed : bool; reason : option string }.

Definition incident (id : string) (e : Edge.t) : bool :=
  String.eqb (Edge.target e) id || String.eqb (Edge.source e) id.

(** [SELECT COUNT( * ) FROM edges WHERE target = ? OR source = ?]. *)
Definition degree (db : Store) (id : string) : Z :=
  ResonanceDB.countRows (incident id) (edges db).

Definition isSuperNode (db : Store) (id : string) (threshold : Z) : bool :=
  threshold <? degree db id.

(** The [ON] clause of the self-join. *)
Definition joined (e1 e2 : Edge.t) : bool :=
  String.eqb (Edge.target e1) (Edge.target e2)
  || String.eqb (Edge.source e1) (Edge.source e2)
  || String.eqb (Edge.target e1) (Edge.source e2)
  || String.eqb (Edge.source e1) (Edge.target e2).

(** The query of [sharesNeighbor] has a row. *)
Definition sharesNeighbor (db : Store) (a b : string) : bool :=
  existsb
    (fun e1 =>
       existsb
         (fun e2 =>
            joined e1 e2
            && (String.eqb (Edge.source e1) a || String.eqb (Edge.target e1) a)
            && (String.eqb (Edge.source e2) b || String.eqb (Edge.target e2) b))
         (edges db))
    (edges db).

Definition showZ (n : Z) : string :=
  DecimalString.NilZero.string_of_int (Z.to_int n).

Definition check (db : Store) (source target : string) (threshold : Z) : Verdict :=
  let isSuper := isSuperNode db target threshold in
  if isSuper then
    let shares := sharesNeighbor db source target in
    if negb shares then
      {| allowed := false;
         reason :=
           Some ("Rejected edge " ++ source ++ " -> " ++ target
                 ++ " due to low modularity (Target is SuperNode with "
                 ++ showZ threshold ++ "+ edges and 0 shared neighbors).") |}
    else {| allowed := true; reason := None |}
  else {| allowed := true; reason := None |}.

(** The default value of the parameter [threshold]. *)
Definition defaultThreshold : Z := 50.

End LouvainGate.

(* ------------------------------------------------------------------------- *)
(** ** EdgeWeaver *)

Module EdgeWeaver.
Import RegExp.

(** An entry of the constructor's [context]. *)
Record LexiconItem : Type := {
  id : string;
  title : option string;
  aliases : list string
}.

(** The [Map] from slug to concept id. *)
Definition Lexicon : Type := list (string * string).

Fixpoint get (k : string) (m : Lexicon) : option string :=
  match m with
  | [] => None
  | (k', v) :: r => if String.eqb k' k then Some v else get k r
  end.

Fixpoint set (k v : string) (m : Lexicon) : Lexicon :=
  match m with
  | [] => [(k, v)]
  | (k', v') :: r => if String.eqb k' k then (k, v) :: r else (k', v') :: set k v r
  end.

(** [/[^a-z0-9]+/g] and [/^-|-$/g]. *)
Definition reNonAlnum : re := Plus true (Chr (notC (orC JS.isLower JS.isDigit))).
Definition reEdgeDash : re := Alt (Seq Bol (lit "-")) (Seq (lit "-") Eol).

Definition slugify (text : string) : string :=
  replaceAll reEdgeDash "" (replaceAll reNonAlnum "-" (JS.toLowerCase text)).

(** The constructor: the lookup map built from the context. *)
Definition indexItem (lexicon : Lexicon) (item : LexiconItem) : Lexicon :=
  if negb (JS.truthy (id item)) then lexicon
  else
    let byId := set (JS.toLowerCase (id item)) (id item) lexicon in
    let byTitle :=
      match truthyOrNull (title item) with
      | Some t => set (slugify t) (id item) byId
      | None => byId
      end in
    fold_left (fun m alias => set (slugify alias) (id item) m) (aliases item) byTitle.

Definition buildLexicon (context : list LexiconItem) : Lexicon :=
  fold_left indexItem context [].

(** The state of an [EdgeWeaver] object is its lexicon; the database is
    threaded through the calls. *)
Definition safeInsertEdge (db : Store) (source target type : string) : Store :=
  let check := LouvainGate.check db source target LouvainGate.defaultThreshold in
  if LouvainGate.allowed check then ResonanceDB.insertEdge db source target type
  else db.

(** [/\[tag:\s*(.*?)\]/gi] *)
Definition reExplicitTag : re :=
  Seq (litI "[tag:")
    (Seq (Star true (Chr space)) (Seq (Group 1 (Star false (Chr dot))) (lit "]"))).

(** [/\btag-([\w-]+)/g] *)
Definition reLegacyTag : re :=
  Seq WordB (Seq (lit "tag-") (Group 1 (Plus true (Chr (orC word (only "-")))))).

(** [/<!-- tags: (.*?) -->/] *)
Definition reTagBlock : re :=
  Seq (lit "<!-- tags: ") (Seq (Group 1 (Star false (Chr dot))) (lit " -->")).

(** [/\[([\w_]+):\s*([^\]]+)\]/g] *)
Definition reTagPair : re :=
  Seq (lit "[")
    (Seq (Group 1 (Plus true (Chr (orC word (only "_")))))
       (Seq (lit ":")
          (Seq (Star true (Chr space))
             (Seq (Group 2 (Plus true (Chr (notC (only "]"))))) (lit "]"))))).

(** [/\[\[(.*?)(?:\|.*?)?\]\]/g] *)
Definition reWikiLink : re :=
  Seq (lit "[[")
    (Seq (Group 1 (Star false (Chr dot)))
       (Seq (Opt (Seq (lit "|") (Star false (Chr dot)))) (lit "]]"))).

Definition processTags (lexicon : Lexicon) (db : Store) (sourceId content : string)
  : Store :=
  let db1 :=
    fold_left
      (fun db m =>
         if JS.truthy (group 1 m) then
           let tagValue := JS.trim (group 1 m) in
           match get (slugify tagValue) lexicon with
           | Some conceptId =>
               if JS.truthy conceptId
               then safeInsertEdge db sourceId conceptId "TAGGED_AS" else db
           | None => db
           end
         else db)
      (matchAll reExplicitTag content) db in
  fold_left
    (fun db m =>
       if JS.truthy (group 1 m) then
         let tagStub := JS.toLowerCase (group 1 m) in
         match get tagStub lexicon with
         | Some conceptId =>
             if JS.truthy conceptId
             then safeInsertEdge db sourceId conceptId "EXEMPLIFIES" else db
         | None => db
         end
       else db)
    (matchAll reLegacyTag content) db1.

Definition processMetadataTags (db : Store) (sourceId content : string) : Store :=
  match firstMatch reTagBlock content with
  | Some tagBlockMatch =>
      if JS.truthy (group 1 tagBlockMatch) then
        let tagString := group 1 tagBlockMatch in
        fold_left
          (fun db m =>
             if JS.truthy (group 1 m) && JS.truthy (group 2 m) then
               let relType := JS.toLowerCase (group 1 m) in
               let targetId := JS.trim (group 2 m) in
               if String.eqb relType "quality" || JS.startsWith "#" relType then db
               else safeInsertEdge db sourceId targetId (JS.toUpperCase relType)
             else db)
          (matchAll reTagPair tagString) db
      else db
  | None => db
  end.

Definition processWikiLinks (lexicon : Lexicon) (db : Store)
           (sourceId content : string) : Store :=
  fold_left
    (fun db m =>
       if negb (JS.truthy (group 1 m)) then db
       else
         let rawTarget := JS.trim (group 1 m) in
         match get (slugify rawTarget) lexicon with
         | Some conceptId =>
             if JS.truthy conceptId
             then safeInsertEdge db sourceId conceptId "CITES" else db
         | None => db
         end)
    (matchAll reWikiLink content) db.

Definition weave (lexicon : Lexicon) (db : Store) (sourceNodeId content : string)
  : Store :=
  let db1 := processTags lexicon db sourceNodeId content in
  let db2 := processWikiLinks lexicon db1 sourceNodeId content in
  processMetadataTags db2 sourceNodeId content.

End EdgeWeaver.

(* ------------------------------------------------------------------------- *)
(** ** TimelineWeaver and SemanticWeaver *)

Module TimelineWeaver.
Import RegExp.

(** [new Date(s).getTime()], or [None] for an invalid date. *)
Definition DateParser : Type := string -> option Z.

(** [/^(\d{4}-\d{2}-\d{2})/] *)
Definition reDatePrefix : re :=
  Seq Bol
    (Group 1
       (Seq (times 4 (Chr digit))
          (Seq (lit "-") (Seq (times 2 (Chr digit))
             (Seq (lit "-") (times 2 (Chr digit))))))).

(** [path.split("/").pop() || ""] *)
Definition basename (path : string) : string :=
  last (JS.split "/" path) "".

Definition dateStrOf (node : Node.t) : option string :=
  match metaString "date" (Node.meta node) with
  | Some d => Some d
  | None =>
      match metaString "source" (Node.meta node) with
      | Some source =>
          match firstMatch reDatePrefix (basename source) with
          | Some m => Some (group 1 m)
          | None => None
          end
      | None => None
      end
  end.

(** The dated nodes: id and time of the nodes with a valid date. *)
Definition dated (parseDate : DateParser) (nodes : list Node.t) : list (string * Z) :=
  flat_map
    (fun node =>
       match dateStrOf node with
       | Some dateStr =>
           match parseDate dateStr with
           | Some t => [(Node.id node, t)]
           | None => []
           end
       | None => []
       end)
    nodes.

Fixpoint chain (db : Store) (datedNodes : list (string * Z)) : Store :=
  match datedNodes with
  | current :: ((previous :: _) as rest) =>
      chain (ResonanceDB.insertEdge db (fst current) (fst previous) "SUCCEEDS") rest
  | _ => db
  end.

Definition weave (parseDate : DateParser) (db : Store) : Store :=
  let nodes := ResonanceDB.getNodesByType db "debrief" in
  if (List.length nodes <? 2)%nat then db
  else
    let datedNodes :=
      sortBy (fun a b => (snd b <? snd a)%Z) (dated parseDate nodes) in
    chain db datedNodes.

End TimelineWeaver.

Module SemanticWeaver.

(** The orphan query: nodes that are neither source nor target of an
    edge, have an embedding, and are not of type [root] or [domain]. *)
Definition isOrphan (db : Store) (n : Row.t) : bool :=
  negb (existsb (fun e => String.eqb (Edge.source e) (Row.id n)) (edges db))
  && negb (existsb (fun e => String.eqb (Edge.target e) (Row.id n)) (edges db))
  && ResonanceDB.hasEmbedding n
  && negb (String.eqb (Row.type n) "root")
  && negb (String.eqb (Row.type n) "domain").

Definition orphans (db : Store) : list Row.t := filter (isOrphan db) (nodes db).

(** The body of the rescue loop for one orphan. *)
Definition rescue (db : Store) (orphan : Row.t) : Store :=
  match Row.embedding orphan with
  | Some vec =>
      let matches := ResonanceDB.findSimilar db vec 3 (Some "experience") in
      let validMatches :=
        filter
          (fun m =>
             F64.gtb (ResonanceDB.sim_score m) F64.lit_0_85
             && negb (String.eqb (ResonanceDB.sim_id m) (Row.id orphan)))
          matches in
      match validMatches with
      | best :: _ =>
          ResonanceDB.insertEdge db (Row.id orphan) (ResonanceDB.sim_id best) "RELATED_TO"
      | [] => db
      end
  | None => db
  end.

Definition weave (db : Store) : Store :=
  fold_left rescue (orphans db) db.

End SemanticWeaver.

(* ------------------------------------------------------------------------- *)
(** ** LocusLedger *)

Module LocusLedger.

(** [hashContent]: MD5 of the trimmed text, in hexadecimal. *)
Definition hashContent (text : string) : string := MD5.hex (JS.trim text).

(** The table [bento_map] and the number of identifiers minted so far;
    [randomUUID n] is the [n]-th identifier drawn by [crypto.randomUUID]. *)
Record Ledger : Type := { bento_map : list (string * string); minted : nat }.

Definition empty : Ledger := {| bento_map := []; minted := 0 |}.

Fixpoint lookup (h : string) (rows : list (string * string)) : option string :=
  match rows with
  | [] => None
  | (h', i) :: r => if String.eqb h' h then Some i else lookup h r
  end.

Definition getOrMintId (randomUUID : nat -> string) (ledger : Ledger)
           (contentHash : string) : string * Ledger :=
  match lookup contentHash (bento_map ledger) with
  | Some locus_id => (locus_id, ledger)
  | None =>
      let newId := randomUUID (minted ledger) in
      (newId,
       {| bento_map := (bento_map ledger ++ [(contentHash, newId)])%list;
          minted := S (minted ledger) |})
  end.

End LocusLedger.

(* ------------------------------------------------------------------------- *)
(** ** Ingestor *)

(** The completion of a procedure that works on the store: the store is
    kept up to the point where an exception is thrown. *)
Inductive Outcome (A : Type) : Type :=
| Returned (a : A) (db : Store)
| Threw (message : string) (db : Store).
Arguments Returned {A} a db.
Arguments Threw {A} message db.

Definition andThen {A B : Type} (o : Outcome A) (k : A -> Store -> Outcome B)
  : Outcome B :=
  match o with
  | Returned a db => k a db
  | Threw e db => Threw e db
  end.

Definition storeOf {A : Type} (o : Outcome A) : Store :=
  match o with
  | Returned _ db => db
  | Threw _ db => db
  end.

Notation "x <- c ;; k" := (andThen c (fun x => k))
  (at level 61, c at next level, right associativity).

Module Ingestor.
Import RegExp.

(** What the pipeline calls outside the repository. *)
Record Services : Type := {
  (** [Embedder.embed]: a vector, [null], or an exception. *)
  embed : string -> Completion (option (list F32.single));
  (** [TokenizerService.extract] once [loadLexicon] has been called. *)
  extract : list EdgeWeaver.LexiconItem -> string -> SemanticTags;
  (** [new Date(s).getTime()]. *)
  parseDate : TimelineWeaver.DateParser
}.

(** An element of the lexicon JSON artifact. *)
Record Concept : Type := {
  c_id : string;
  c_title : option string;
  c_description : option string;
  c_category : option string;
  c_tags : option (list string);
  c_aliases : option (list string)
}.

Record Relationship : Type := { rel_type : string; rel_target : string }.

(** An [EnrichedCdaEntry] of [cda-enriched.json]. *)
Record CdaEntry : Type := {
  e_id : string;
  e_title : string;
  e_definition : string;
  e_section : option string;
  e_explicit_tags : list string;
  validated_relationships : list Relationship
}.

(** An entry of [getFilesToProcess] with the text of the file. *)
Record FileEntry : Type := { path : string; type : string; text : string }.

(** The artifacts and sources read by one run; [None] is a file that
    does not exist. *)
Record Corpus : Type := {
  lexiconFile : option (list Concept);
  cdaFile : option (list CdaEntry);
  files : list FileEntry
}.

Definition optMeta (k : string) (v : option MetaValue) : Meta :=
  match v with Some x => [(k, x)] | None => [] end.

Definition lexiconItemOf (c : Concept) : EdgeWeaver.LexiconItem :=
  {| EdgeWeaver.id := c_id c;
     EdgeWeaver.title := c_title c;
     EdgeWeaver.aliases := match c_aliases c with Some l => l | None => [] end |}.

Definition conceptNode (item : Concept) : Node.t :=
  {| Node.id := c_id item;
     Node.type := "concept";
     Node.label := c_title item;
     Node.content :=
       match truthyOrNull (c_description item) with
       | Some d => Some d
       | None => c_title item
       end;
     Node.domain := Some "persona";
     Node.layer := Some "ontology";
     Node.embedding := None;
     Node.hash := None;
     Node.meta :=
       Some (optMeta "category" (option_map MStr (c_category item))
             ++ optMeta "tags" (option_map MStrs (c_tags item)))%list |}.

Definition bootstrapLexicon (corpus : Corpus) (db : Store)
  : list EdgeWeaver.LexiconItem * Store :=
  match lexiconFile corpus with
  | Some items =>
      (List.map lexiconItemOf items,
       fold_left (fun db item => ResonanceDB.insertNode db (conceptNode item)) items db)
  | None => ([], db)
  end.

Definition directiveNode (entry : CdaEntry) : Node.t :=
  {| Node.id := e_id entry;
     Node.type := "directive";
     Node.label := Some (e_title entry);
     Node.content := Some (e_definition entry);
     Node.domain := Some "persona";
     Node.layer := Some "directive";
     Node.embedding := None;
     Node.hash := None;
     Node.meta :=
       Some (optMeta "section" (option_map MStr (e_section entry))
             ++ [("tags", MStrs (e_explicit_tags entry))])%list |}.

Definition ingestRelationship (id : string) (db : Store) (rel : Relationship) : Store :=
  let check :=
    LouvainGate.check db id (rel_target rel) LouvainGate.defaultThreshold in
  if LouvainGate.allowed check
  then ResonanceDB.insertEdge db id (rel_target rel) (rel_type rel)
  else db.

Definition ingestEntry (db : Store) (entry : CdaEntry) : Store :=
  fold_left (ingestRelationship (e_id entry)) (validated_relationships entry)
    (ResonanceDB.insertNode db (directiveNode entry)).

Definition ingestCDA (corpus : Corpus) (db : Store) : Store :=
  match cdaFile corpus with
  | Some entries => fold_left ingestEntry entries db
  | None => db
  end.

Definition runPersona (corpus : Corpus) (db : Store)
  : list EdgeWeaver.LexiconItem * Store :=
  let '(lexicon, db1) := bootstrapLexicon corpus db in
  (lexicon, ingestCDA corpus db1).

(** [loadLexiconFromDB] over [getLexicon]: the rows of domain [lexicon]
    and type [concept]; [getLexicon] spreads the parsed [meta] over the
    columns, so that a string [id] or [label] of the meta replaces them. *)
Definition loadLexiconFromDB (db : Store) : list EdgeWeaver.LexiconItem :=
  List.map
    (fun row =>
       let meta := match Row.meta row with Some m => m | None => [] end in
       {| EdgeWeaver.id :=
            match metaGet "id" meta with
            | Some (MStr s) => s
            | _ => Row.id row
            end;
          EdgeWeaver.title :=
            match metaGet "label" meta with
            | Some (MStr s) => Some s
            | _ => Row.title row
            end;
          EdgeWeaver.aliases :=
            match metaGet "aliases" meta with
            | Some (MStrs l) => l
            | _ => []
            end |})
    (filter
       (fun r => String.eqb (Row.domain r) "lexicon" && String.eqb (Row.type r) "concept")
       (nodes db)).

Definition newline : string := String (ascii_of_nat 10) EmptyString.

(** [/^---\n([\s\S]*?)\n---/] *)
Definition reFrontmatter : re :=
  Seq Bol
    (Seq (lit ("---" ++ newline))
       (Seq (Group 1 (Star false (Chr any))) (lit (newline ++ "---")))).

(** [/<!-- locus:([a-zA-Z0-9-]+) -->\n([\s\S]*?)(?=<!-- locus:|$)/g] *)
Definition boxRegex : re :=
  Seq (lit "<!-- locus:")
    (Seq (Group 1 (Plus true (Chr (orC JS.isLower (orC JS.isUpper (orC JS.isDigit (only "-")))))))
       (Seq (lit (" -->" ++ newline))
          (Seq (Group 2 (Star false (Chr any)))
             (Look (Alt (lit "<!-- locus:") Eol))))).

(** [/[^a-z0-9-]/g] *)
Definition reNotSlugChar : re :=
  Chr (notC (orC JS.isLower (orC JS.isDigit (only "-")))).

(** [meta[key] = value] on the plain object [meta], for a string [value]:
    the key [__proto__] is the accessor of [Object.prototype], whose setter
    ignores a value that is neither an object nor [null]; every other key
    becomes (or stays) an own property. *)
Definition assign (key value : string) (meta : Meta) : Meta :=
  if String.eqb key "__proto__" then meta else metaSet key (MStr value) meta.

Definition parseFrontmatter (text : string) : Meta :=
  fold_left
    (fun meta line =>
       match JS.split ":" line with
       | key :: vals =>
           if JS.truthy key && negb (List.length vals =? 0)%nat
           then assign (JS.trim key) (JS.trim (JS.join ":" vals)) meta
           else meta
       | [] => meta
       end)
    (JS.split (ascii_of_nat 10) text) [].

(** [fmMatch && fmMatch[1] ? this.parseFrontmatter(fmMatch[1]) : {}] *)
Definition frontmatterOf (content : string) : Meta :=
  match firstMatch reFrontmatter content with
  | Some fmMatch =>
      if JS.truthy (group 1 fmMatch) then parseFrontmatter (group 1 fmMatch) else []
  | None => []
  end.

Definition processBox (svc : Services) (lexicon : list EdgeWeaver.LexiconItem)
           (weaver : EdgeWeaver.Lexicon)
           (id content type : string) (meta : Meta) (sourcePath : string)
           (db : Store) : Outcome unit :=
  let tokens := extract svc lexicon content in
  let currentHash := LocusLedger.hashContent content in
  let storedHash := ResonanceDB.getNodeHash db id in
  if match storedHash with Some h => String.eqb h currentHash | None => false end
  then Returned tt db
  else
    embedding <-
      (if (50 <? String.length content)%nat then
         match embed svc content with
         | Normal v => Returned v db
         | Thrown e => Threw e db
         end
       else Returned None db) ;;
    fun db =>
      let node :=
        {| Node.id := id;
           Node.type := type;
           Node.label :=
             Some (orElse (metaString "title" (Some meta))
                          (TimelineWeaver.basename sourcePath));
           Node.content := Some content;
           Node.domain := Some "experience";
           Node.layer := Some "note";
           Node.embedding := embedding;
           Node.hash := Some currentHash;
           Node.meta :=
             Some (metaSet "semantic_tokens" (MTags tokens)
                     (metaSet "source" (MStr sourcePath) meta)) |} in
      let db1 := ResonanceDB.insertNode db node in
      Returned tt (EdgeWeaver.weave weaver db1 id content).

(** The boxes found by the [exec] loop: the matches with a non-empty
    id and a non-empty body, as [(locusId, boxContent)]. *)
Definition boxesOf (content : string) : list (string * string) :=
  flat_map
    (fun m =>
       if negb (JS.truthy (group 1 m)) || negb (JS.truthy (group 2 m)) then []
       else [(group 1 m, JS.trim (group 2 m))])
    (matchAll boxRegex content).

Definition fileId (filePath : string) : string :=
  let filename := orElse (Some (TimelineWeaver.basename filePath)) "unknown" in
  replaceAll reNotSlugChar "-" (JS.toLowerCase (JS.replaceFirst ".md" "" filename)).

Fixpoint processBoxes (svc : Services) (lexicon : list EdgeWeaver.LexiconItem)
         (weaver : EdgeWeaver.Lexicon) (type : string) (frontmatter : Meta)
         (filePath : string) (boxes : list (string * string))
         (totalBoxChars : nat) (db : Store) : Outcome nat :=
  match boxes with
  | [] => Returned totalBoxChars db
  | (locusId, boxContent) :: rest =>
      _ <- processBox svc lexicon weaver locusId boxContent type frontmatter filePath db ;;
      processBoxes svc lexicon weaver type frontmatter filePath rest
        (totalBoxChars + String.length boxContent)
  end.

Definition processFile (svc : Services) (lexicon : list EdgeWeaver.LexiconItem)
           (weaver : EdgeWeaver.Lexicon) (fileEntry : FileEntry) (db : Store)
  : Outcome nat :=
  let filePath := path fileEntry in
  let type := type fileEntry in
  let content := text fileEntry in
  let frontmatter := frontmatterOf content in
  match boxesOf content with
  | [] =>
      let id := fileId filePath in
      if (10 <? String.length content)%nat then
        _ <- processBox svc lexicon weaver id content type frontmatter filePath db ;;
        Returned (String.length content)
      else Returned 0 db
  | boxes => processBoxes svc lexicon weaver type frontmatter filePath boxes 0 db
  end.

Definition runWeavers (svc : Services) (db : Store) : Store :=
  SemanticWeaver.weave (TimelineWeaver.weave (parseDate svc) db).

Fixpoint processFiles (svc : Services) (lexicon : list EdgeWeaver.LexiconItem)
         (weaver : EdgeWeaver.Lexicon) (filesToProcess : list FileEntry)
         (db : Store) : Outcome unit :=
  match filesToProcess with
  | [] => Returned tt db
  | f :: rest =>
      _ <- processFile svc lexicon weaver f db ;;
      processFiles svc lexicon weaver rest
  end.

(** Phase 2. The validation that closes it only reads the store. *)
Definition runExperience (svc : Services) (corpus : Corpus)
           (lexicon : list EdgeWeaver.LexiconItem) (db : Store) : Outcome unit :=
  let lexicon :=
    if (List.length lexicon =? 0)%nat then loadLexiconFromDB db else lexicon in
  let weaver := EdgeWeaver.buildLexicon lexicon in
  _ <- processFiles svc lexicon weaver (files corpus) db ;;
  fun db => Returned tt (runWeavers svc db).

(** [run]: [init] warms the embedder up, then Phase 1 and Phase 2. *)
Definition run (svc : Services) (corpus : Corpus) (db : Store) : Outcome bool :=
  match embed svc "init" with
  | Thrown e => Threw e db
  | Normal _ =>
      let '(lexiconItems, db1) := runPersona corpus db in
      _ <- runExperience svc corpus lexiconItems db1 ;;
      Returned true
  end.

End Ingestor.

(* ------------------------------------------------------------------------- *)
(** ** BentoBoxer and the [box] / [audit] commands *)

Module BentoBoxer.
Import RegExp.

(** A node of the Markdown syntax tree (the subset of the [Node]
    interface that the boxer declares). *)
#[local] Unset Elimination Schemes.
Inductive MdNode : Type :=
| mdNode (type : string) (depth : option nat) (value : option string)
         (children : list MdNode).
#[local] Set Elimination Schemes.

Definition type (n : MdNode) : string := let '(mdNode t _ _ _) := n in t.
Definition depth (n : MdNode) : option nat := let '(mdNode _ d _ _) := n in d.

(** The unified processor: [parse] gives the children of the root,
    [stringify] serialises a root made of the given children. *)
Record Processor : Type := {
  parse : string -> list MdNode;
  stringify : list MdNode -> string
}.

Record BentoBox : Type := {
  locusId : string;
  content : string;
  tokenCount : nat;
  isLeaf : bool;
  tags : option (list string)
}.

(** What a boxer object holds: the processor, [SEAMAN_CONSTANTS.MAX_SIZE]
    and the source of fresh identifiers of its ledger. *)
Record Boxer : Type := {
  processor : Processor;
  MAX_SIZE : nat;
  randomUUID : nat -> string
}.

(** [text.split(/\s+/).length] *)
Definition countTokens (text : string) : nat :=
  splitLength (Plus true (Chr space)) text.

Definition createBox (b : Boxer) (ledger : LocusLedger.Ledger)
           (content : string) (tokenCount : nat) : BentoBox * LocusLedger.Ledger :=
  let hash := LocusLedger.hashContent content in
  let '(id, ledger') := LocusLedger.getOrMintId (randomUUID b) ledger hash in
  ({| locusId := id; content := content; tokenCount := tokenCount;
      isLeaf := true; tags := None |}, ledger').

Definition isThematicBreak (n : MdNode) : bool := String.eqb (type n) "thematicBreak".

(** [nodes.findIndex(p)] *)
Fixpoint findIndex {A : Type} (p : A -> bool) (l : list A) : option nat :=
  match l with
  | [] => None
  | x :: r => if p x then Some 0 else option_map S (findIndex p r)
  end.

(** [packageContent]; the recursion is on strictly shorter lists, and
    [fuel] bounds its depth. *)
Fixpoint packageContentFrom (fuel : nat) (b : Boxer) (nodes : list MdNode)
         (ledger : LocusLedger.Ledger) : list BentoBox * LocusLedger.Ledger :=
  let content := JS.trim (stringify (processor b) nodes) in
  let tokenCount := countTokens content in
  let single :=
    let '(box, ledger') := createBox b ledger content tokenCount in
    ([box], ledger') in
  if (tokenCount <=? MAX_SIZE b)%nat then single
  else
    match fuel with
    | O => single
    | S fuel' =>
        match findIndex isThematicBreak nodes with
        | Some hrIndex =>
            let left := firstn hrIndex nodes in
            let right := skipn (hrIndex + 1) nodes in
            let '(boxesL, ledger1) := packageContentFrom fuel' b left ledger in
            let '(boxesR, ledger2) := packageContentFrom fuel' b right ledger1 in
            ((boxesL ++ boxesR)%list, ledger2)
        | None =>
            if (1 <? List.length nodes)%nat then
              let mid := Nat.div (List.length nodes) 2 in
              let left := firstn mid nodes in
              let right := skipn mid nodes in
              let '(boxesL, ledger1) := packageContentFrom fuel' b left ledger in
              let '(boxesR, ledger2) := packageContentFrom fuel' b right ledger1 in
              ((boxesL ++ boxesR)%list, ledger2)
            else single
        end
    end.

Definition packageContent (b : Boxer) (nodes : list MdNode)
           (ledger : LocusLedger.Ledger) : list BentoBox * LocusLedger.Ledger :=
  packageContentFrom (List.length nodes) b nodes ledger.

(** A heading that opens a new group: [node.type === "heading" &&
    node.depth && node.depth <= 4]. *)
Definition opensGroup (n : MdNode) : bool :=
  String.eqb (type n) "heading"
  && match depth n with
     | Some d => negb (d =? 0)%nat && (d <=? 4)%nat
     | None => false
     end.

(** The loop of [process] over the children of the root; [currentNodes]
    is kept in document order. *)
Fixpoint processNodes (b : Boxer) (children : list MdNode)
         (currentNodes : list MdNode) (boxes : list BentoBox)
         (ledger : LocusLedger.Ledger) : list BentoBox * LocusLedger.Ledger :=
  match children with
  | [] =>
      match currentNodes with
      | [] => (boxes, ledger)
      | _ =>
          let '(bs, ledger') := packageContent b currentNodes ledger in
          ((boxes ++ bs)%list, ledger')
      end
  | node :: rest =>
      if opensGroup node then
        match currentNodes with
        | [] => processNodes b rest [node] boxes ledger
        | _ =>
            let '(bs, ledger') := packageContent b currentNodes ledger in
            processNodes b rest [node] (boxes ++ bs)%list ledger'
        end
      else processNodes b rest (currentNodes ++ [node])%list boxes ledger
  end.

Definition process (b : Boxer) (text : string) (ledger : LocusLedger.Ledger)
  : list BentoBox * LocusLedger.Ledger :=
  if negb (JS.truthy (JS.trim text)) then ([], ledger)
  else processNodes b (parse (processor b) text) [] [] ledger.

End BentoBoxer.

(** The command line of the boxer: [box] and [audit]. *)
Module BentoCli.
Import RegExp.

Definition newline : string := Ingestor.newline.

Definition assembleBox (box : BentoBoxer.BentoBox) : string :=
  let header := "<!-- locus:" ++ BentoBoxer.locusId box ++ " -->" in
  let header :=
    match BentoBoxer.tags box with
    | Some (t :: ts) =>
        header ++ newline ++ "<!-- tags: " ++ JS.join ", " (t :: ts) ++ " -->"
    | _ => header
    end in
  header ++ newline ++ BentoBoxer.content box.

(** The text written by [box] (without [--tag]). *)
Definition outputText (boxes : list BentoBoxer.BentoBox) : string :=
  JS.join (newline ++ newline) (List.map assembleBox boxes).

(** [/<!-- locus:.*? -->/g] and [/<!-- tags:.*? -->/g] *)
Definition reLocusComment : re :=
  Seq (lit "<!-- locus:") (Seq (Star false (Chr dot)) (lit " -->")).
Definition reTagsComment : re :=
  Seq (lit "<!-- tags:") (Seq (Star false (Chr dot)) (lit " -->")).

Definition normalize (str : string) : string :=
  replaceAll (Plus true (Chr space)) " " str.

(** The comparison of [runAuditCommand] on the texts of the two files:
    [true] is "AUDIT PASSED", [false] is the exit with status 1. *)
Definition audit (source boxed : string) : bool :=
  let sourceText := JS.trim source in
  let boxedText := JS.trim boxed in
  let strippedBoxed :=
    JS.trim (replaceAll reTagsComment "" (replaceAll reLocusComment "" boxedText)) in
  String.eqb (normalize sourceText) (normalize strippedBoxed).

End BentoCli.

(* ------------------------------------------------------------------------- *)
(** ** HybridSearch: [VectorEngine] and the [search_documents] tool *)

Module VectorEngine.

Record SearchResult : Type := {
  id : string;
  score : F64.num;
  content : option string
}.

(** The module's own [toFafcas] and [dotProduct] (elements are used as
    they are; a missing element is [undefined], hence NaN). *)
Definition magnitude (vector : list F32.single) : F64.num :=
  F64.sqrt
    (fold_left
       (fun sum x => F64.add sum (F64.mul (F32.toNumber x) (F32.toNumber x)))
       vector F64.zero).

Definition toFafcas (vector : list F32.single) : list F32.single :=
  let magnitude := magnitude vector in
  if F64.gtb magnitude F64.lit_1e_6 then
    List.map (fun x => F32.ofNumber (F64.div (F32.toNumber x) magnitude)) vector
  else vector.

Fixpoint dotFrom (sum : F64.num) (a b : list F32.single) : F64.num :=
  match a with
  | [] => sum
  | x :: a' =>
      let y := match b with [] => S754_nan | y :: _ => F32.toNumber y end in
      let b' := match b with [] => [] | _ :: b' => b' end in
      dotFrom (F64.add sum (F64.mul (F32.toNumber x) y)) a' b'
  end.

Definition dotProduct (a b : list F32.single) : F64.num := dotFrom F64.zero a b.

(** The FastEmbed model: the first vector of the first batch, if any, or
    an exception. *)
Definition Model : Type := string -> Completion (option (list F32.single)).

Definition embed (model : Model) (text : string) : option (list F32.single) :=
  match model text with
  | Normal (Some vector) => Some (toFafcas vector)
  | Normal None => None
  | Thrown _ => None
  end.

Definition search (model : Model) (db : Store) (query : string) (limit : Z)
  : list SearchResult :=
  match embed model query with
  | None => []
  | Some queryFloats =>
      let results :=
        flat_map
          (fun candidate =>
             match Row.embedding candidate with
             | Some candidateFloats =>
                 let score := dotProduct queryFloats candidateFloats in
                 if F64.gtb score F64.zero then
                   [ {| id := Row.id candidate; score := score;
                        content := Row.content candidate |} ]
                 else []
             | None => []
             end)
          (nodes db) in
      slice0 limit (sortBy (fun a b => F64.descBefore (score a) (score b)) results)
  end.

End VectorEngine.

Module McpServer.
Import RegExp.

Inductive Source : Type := vector | keyword | hybrid.

Record Candidate : Type := {
  id : string;
  score : F64.num;
  preview : string;
  source : Source
}.

(** The [Map] of candidates, in insertion order. *)
Definition Candidates : Type := list (string * Candidate).

Fixpoint get (k : string) (m : Candidates) : option Candidate :=
  match m with
  | [] => None
  | (k', v) :: r => if String.eqb k' k then Some v else get k r
  end.

Fixpoint set (k : string) (v : Candidate) (m : Candidates) : Candidates :=
  match m with
  | [] => [(k, v)]
  | (k', v') :: r => if String.eqb k' k then (k, v) :: r else (k', v') :: set k v r
  end.










End McpServer.

(* ------------------------------------------------------------------------- *)
(** ** PipelineValidator *)

Module PipelineValidator.
Local Open Scope Z_scope.

Record Baseline : Type := { b_nodes : Z; b_edges : Z; b_vectors : Z }.

Inductive Coverage : Type := all | experience | none.

Record Expectation : Type := {
  files_to_process : option Z;
  min_nodes_added : option Z;
  max_errors : option Z;
  required_vector_coverage : option Coverage
}.

Inductive Severity : Type := error | warning.

Record ValidationError : Type := {
  rule : string;
  message : string;
  severity : Severity
}.

Record ValidationReport : Type := {
  passed : bool;
  baseline : Baseline;
  results : Baseline;
  errors : list ValidationError;
  warnings : list ValidationError;
  summary : string
}.

(** The fields of a validator object that [validate] reads. *)
Record Validator : Type := {
  v_baseline : option Baseline;
  v_expectations : Expectation
}.

Definition noExpectations : Expectation :=
  {| files_to_process := None; min_nodes_added := None; max_errors := None;
     required_vector_coverage := None |}.

Definition counts (db : Store) : Baseline :=
  {| b_nodes := ResonanceDB.countRows (fun _ => true) (nodes db);
     b_edges := ResonanceDB.countRows (fun _ => true) (edges db);
     b_vectors := ResonanceDB.countRows ResonanceDB.hasEmbedding (nodes db) |}.

Definition captureBaseline (v : Validator) (db : Store) : Validator :=
  {| v_baseline := Some (counts db); v_expectations := v_expectations v |}.

Definition expect (v : Validator) (expectations : Expectation) : Validator :=
  {| v_baseline := v_baseline v; v_expectations := expectations |}.

Definition showZ : Z -> string := LouvainGate.showZ.

Definition addError (rule message : string) : ValidationError :=
  {| rule := rule; message := message; severity := error |}.
Definition addWarning (rule message : string) : ValidationError :=
  {| rule := rule; message := message; severity := warning |}.

(** The pictographs that open the status, U+2705 and U+274C, as the bytes
    of their UTF-8 encoding. *)
Definition checkMark : string :=
  String (ascii_of_nat 226) (String (ascii_of_nat 156) (String (ascii_of_nat 133) "")).
Definition crossMark : string :=
  String (ascii_of_nat 226) (String (ascii_of_nat 157) (String (ascii_of_nat 140) "")).

Definition buildSummary (nodesAdded edgesAdded vectorsAdded : Z) (passed : bool) : string :=
  let status := if passed then checkMark ++ " PASSED" else crossMark ++ " FAILED" in
  status ++ " | +" ++ showZ nodesAdded ++ " nodes, +" ++ showZ edgesAdded
  ++ " edges, +" ++ showZ vectorsAdded ++ " vectors".

Definition nodeExists (db : Store) (id : string) : bool :=
  existsb (fun r => String.eqb (Row.id r) id) (nodes db).

(** The vector-coverage check: the errors and the warnings it adds. *)
Definition checkCoverage (expectations : Expectation) (db : Store) (results : Baseline)
  : list ValidationError * list ValidationError :=
  match required_vector_coverage expectations with
  | Some all =>
      if b_vectors results <? b_nodes results then
        ([addError "vector_coverage"
            ("Expected vectors for all nodes (" ++ showZ (b_nodes results)
             ++ "), got " ++ showZ (b_vectors results) ++ " ("
             ++ showZ (b_nodes results - b_vectors results) ++ " missing)")], [])
      else ([], [])
  | Some experience =>
      let experienceNodes :=
        ResonanceDB.countRows (fun r => String.eqb (Row.domain r) "resonance") (nodes db) in
      if b_vectors results <? experienceNodes then
        ([], [addWarning "vector_coverage"
                ("Expected vectors for all experience nodes (" ++ showZ experienceNodes
                 ++ "), got " ++ showZ (b_vectors results))])
      else ([], [])
  | _ => ([], [])
  end.

Definition validate (v : Validator) (db : Store) : Completion ValidationReport :=
  match v_baseline v with
  | None => Thrown "No baseline captured. Call captureBaseline() before validate()."
  | Some baseline =>
      let results := counts db in
      let nodesAdded := b_nodes results - b_nodes baseline in
      let edgesAdded := b_edges results - b_edges baseline in
      let vectorsAdded := b_vectors results - b_vectors baseline in
      let errMin :=
        match min_nodes_added (v_expectations v) with
        | Some m =>
            if nodesAdded <? m then
              [addError "min_nodes_added"
                 ("Expected at least " ++ showZ m ++ " nodes added, got "
                  ++ showZ nodesAdded)]
            else []
        | None => []
        end in
      let '(errCov, warnCov) := checkCoverage (v_expectations v) db results in
      let orphanedEdges :=
        ResonanceDB.countRows
          (fun e => negb (nodeExists db (Edge.source e))
                    || negb (nodeExists db (Edge.target e)))
          (edges db) in
      let errOrphan :=
        if 0 <? orphanedEdges then
          [addError "orphaned_edges"
             ("Found " ++ showZ orphanedEdges
              ++ " orphaned edges (pointing to non-existent nodes)")]
        else [] in
      let duplicateNodes :=
        ResonanceDB.countRows
          (fun id =>
             1 <? ResonanceDB.countRows (fun r => String.eqb (Row.id r) id) (nodes db))
          (nodup string_dec (List.map Row.id (nodes db))) in
      let errDup :=
        if 0 <? duplicateNodes then
          [addError "duplicate_nodes"
             ("Found " ++ showZ duplicateNodes ++ " duplicate node IDs")]
        else [] in
      let errors := (errMin ++ errCov ++ errOrphan ++ errDup)%list in
      let passed := (List.length errors =? 0)%nat in
      Normal
        {| passed := passed;
           baseline := baseline;
           results := results;
           errors := errors;
           warnings := warnCov;
           summary := buildSummary nodesAdded edgesAdded vectorsAdded passed |}
  end.

End PipelineValidator.

(* ------------------------------------------------------------------------- *)
(** ** The other tools of the MCP server *)

Module McpTools.

(** [s.endsWith(suffix)] *)
Definition endsWith (suffix s : string) : bool :=
  (String.length suffix <=? String.length s)%nat
  && String.eqb (JS.drop (String.length s - String.length suffix) s) suffix.

(** [read_node_content]: the text of the answer, [null] when the column
    [content] of the row is NULL. *)
Definition readNodeContent (db : Store) (id : string) : option string :=
  match ResonanceDB.findRow db id with
  | None => Some "Node not found."
  | Some row => Row.content row
  end.

(** [explore_links]: the rows [(target, type)] of the answer. *)
Definition exploreLinks (db : Store) (id : string) (relation : option string)
  : list (string * string) :=
  let relation := truthyOrNull relation in
  List.map (fun e => (Edge.target e, Edge.type e))
    (filter
       (fun e =>
          String.eqb (Edge.source e) id
          && match relation with
             | Some r => String.eqb (Edge.type e) r
             | None => true
             end)
       (edges db)).

(** [`\n<!-- tags: ${tags.join(", ")} -->\n`] *)
Definition tagBlock (tags : list string) : string :=
  Ingestor.newline ++ "<!-- tags: " ++ JS.join ", " tags ++ " -->" ++ Ingestor.newline.

(** [inject_tags]: the text written back to the file. *)
Definition injectTags (content : string) (tags : list string) : string :=
  let tagBlock := tagBlock tags in
  if endsWith Ingestor.newline content then content ++ tagBlock
  else content ++ Ingestor.newline ++ tagBlock.

End McpTools.

(* ------------------------------------------------------------------------- *)
(** ** Gardeners: [AutoTagger] *)

Module AutoTagger.
Local Open Scope Z_scope.

Record Candidate : Type := {
  nodeId : string;
  filePath : string;
  content : string;
  type : string
}.

(** Truthiness and [String(v)] of a value of the [meta] bag. *)
Definition metaTruthy (v : MetaValue) : bool :=
  match v with
  | MStr s => JS.truthy s
  | MStrs _ => true
  | MTags _ => true
  end.

Definition metaToString (v : MetaValue) : string :=
  match v with
  | MStr s => s
  | MStrs l => JS.join "," l
  | MTags _ => "[object Object]"
  end.

(** [node.meta?.source], when it is truthy. *)
Definition sourceOf (node : Node.t) : option MetaValue :=
  match Node.meta node with
  | Some meta =>
      match metaGet "source" meta with
      | Some v => if metaTruthy v then Some v else None
      | None => None
      end
  | None => None
  end.

(** The loop of [scan] over the nodes fetched. *)
Fixpoint scanFrom (limit : Z) (nodes : list Node.t) (candidates : list Candidate)
  : list Candidate :=
  match nodes with
  | [] => candidates
  | node :: rest =>
      if limit <=? Z.of_nat (List.length candidates) then candidates
      else
        match sourceOf node with
        | None => scanFrom limit rest candidates
        | Some source =>
            if match truthyOrNull (Node.content node) with
               | Some c => JS.includes "<!-- tags:" c
               | None => false
               end
            then scanFrom limit rest candidates
            else
              scanFrom limit rest
                (candidates
                   ++ [{| nodeId := Node.id node;
                          filePath := metaToString source;
                          content := orElse (Node.content node) "";
                          type := Node.type node |}])%list
        end
  end.

Definition scan (db : Store) (limit : Z) : list Candidate :=
  let nodes :=
    (ResonanceDB.getNodesByType db "note"
       ++ ResonanceDB.getNodesByType db "debrief"
       ++ ResonanceDB.getNodesByType db "section"
       ++ ResonanceDB.getNodesByType db "document")%list in
  scanFrom limit nodes [].

(** The tags of the mock mode. *)
Definition mockTags (candidate : Candidate) : list string :=
  ["[concept: auto-generated-tag]"; "[concept: " ++ type candidate ++ "]"].

(** [cultivate]: the text written to [candidate.filePath], if any, given
    the result of reading that file. *)
Definition cultivate (candidate : Candidate) (file : Completion string)
  : Completion (option string) :=
  let tags := mockTags candidate in
  if (List.length tags =? 0)%nat then Normal None
  else
    let tagBlock := McpTools.tagBlock tags in
    match file with
    | Thrown e => Thrown e
    | Normal fileContent =>
        if String.eqb (type candidate) "section" then Normal None
        else
          Normal
            (Some
               (if McpTools.endsWith Ingestor.newline fileContent
                then fileContent ++ tagBlock
                else fileContent ++ Ingestor.newline ++ tagBlock))
    end.

End AutoTagger.

(* ------------------------------------------------------------------------- *)
(** ** TokenizerService *)

Module Tokenizer.
Import RegExp.

(** An element of the array given to [loadLexicon], with the properties
    that the method reads. *)
Record Item : Type := {
  type : option string;
  category : option string;
  title : option string;
  id : option string
}.

(** The [Map] from normalised term to tag, in insertion order. *)
Definition Vocabulary : Type := list (string * string).

Definition get : string -> Vocabulary -> option string := EdgeWeaver.get.
Definition set : string -> string -> Vocabulary -> Vocabulary := EdgeWeaver.set.

Definition isString (v : option string) (s : string) : bool :=
  match v with Some x => String.eqb x s | None => false end.

Definition tagOf (item : Item) : string :=
  let tag := "Concept" in
  let tag := if isString (type item) "operational-heuristic" then "Protocol" else tag in
  if isString (category item) "Tool" then "Organization" else tag.

(** The body of the loop of [loadLexicon]. *)
Definition learn (vocabulary : Vocabulary) (item : Item) : Vocabulary :=
  let tag := tagOf item in
  let vocabulary :=
    match truthyOrNull (title item) with
    | Some t => set (JS.toLowerCase t) tag vocabulary
    | None => vocabulary
    end in
  match truthyOrNull (id item) with
  | Some i =>
      let vocabulary := set (JS.toLowerCase i) tag vocabulary in
      if JS.includes "-" i
      then set (replaceAll (Chr (only "-")) " " (JS.toLowerCase i)) tag vocabulary
      else vocabulary
  | None => vocabulary
  end.

(** The state of the service: the vocabulary and the search keys. *)
Record State : Type := { vocabulary : Vocabulary; searchKeys : list string }.

Definition loadLexicon (lexicon : list Item) : State :=
  let vocabulary := fold_left learn lexicon [] in
  {| vocabulary := vocabulary;
     searchKeys :=
       sortBy (fun a b => (String.length b <? String.length a)%nat)
         (List.map fst vocabulary) |}.

(** The items as the Ingestor passes them: [{ id, title, aliases }]. *)
Definition itemOfLexicon (item : EdgeWeaver.LexiconItem) : Item :=
  {| type := None; category := None;
     title := EdgeWeaver.title item; id := Some (EdgeWeaver.id item) |}.

(** The generic recognisers of the NLP library. *)
Record Nlp : Type := {
  nlpPeople : string -> list string;
  nlpPlaces : string -> list string;
  nlpOrganizations : string -> list string;
  nlpTopics : string -> list string
}.

(** [new RegExp(`\\b${escaped}\\b`, "i")]: the term, taken literally,
    between two word boundaries. *)
Definition boundaryRegex (term : string) : re :=
  Seq WordB (Seq (litI term) WordB).

(** [if (!l.includes(x)) l.push(x)] *)
Definition pushNew (x : string) (l : list string) : list string :=
  if existsb (String.eqb x) l then l else (l ++ [x])%list.

(** The body of the loop over the search keys. *)
Definition scanTerm (vocabulary : Vocabulary) (text lowerText : string)
           (result : SemanticTags) (term : string) : SemanticTags :=
  if JS.includes term lowerText then
    match firstMatch (boundaryRegex term) text with
    | Some m =>
        let tag := get term vocabulary in
        let realTerm := RegExp.text m in
        if isString tag "Protocol" then
          {| people := people result; places := places result;
             organizations := organizations result; topics := topics result;
             money := money result;
             protocols := pushNew realTerm (protocols result);
             concepts := concepts result |}
        else if isString tag "Concept" then
          {| people := people result; places := places result;
             organizations := organizations result; topics := topics result;
             money := money result; protocols := protocols result;
             concepts := pushNew realTerm (concepts result) |}
        else if isString tag "Organization" then
          {| people := people result; places := places result;
             organizations := pushNew realTerm (organizations result);
             topics := topics result;
             money := money result; protocols := protocols result;
             concepts := concepts result |}
        else
          {| people := people result; places := places result;
             organizations := organizations result; topics := topics result;
             money := money result; protocols := protocols result;
             concepts := pushNew realTerm (concepts result) |}
    | None => result
    end
  else result.

Definition extract (nlp : Nlp) (st : State) (text : string) : SemanticTags :=
  let result :=
    {| people := nlpPeople nlp text;
       places := nlpPlaces nlp text;
       organizations := nlpOrganizations nlp text;
       topics := nlpTopics nlp text;
       money := [];
       protocols := [];
       concepts := [] |} in
  let lowerText := JS.toLowerCase text in
  fold_left (scanTerm (vocabulary st) text lowerText) (searchKeys st) result.

End Tokenizer.

(* ------------------------------------------------------------------------- *)
(** ** Specification vocabulary and scenarios *)

Module Spec.

(** There is an edge between [a] and [n], in either direction. *)
Definition connects (db : Store) (a n : string) : bool :=
existsb
  (fun e =>
     (String.eqb (Edge.source e) a && String.eqb (Edge.target e) n)
     || (String.eqb (Edge.source e) n && String.eqb (Edge.target e) a))
  (edges db).

(** [n] is a common neighbour of [a] and [b]. *)
Definition commonNeighbor (db : Store) (a b n : string) : bool :=
connects db a n && connects db b n.

(** The other ends of the edges incident on [a]. *)
Definition neighborsOf (db : Store) (a : string) : list string :=
flat_map
  (fun e =>
     (if String.eqb (Edge.source e) a then [Edge.target e] else [])
     ++ (if String.eqb (Edge.target e) a then [Edge.source e] else []))%list
  (edges db).

(** Two edges have an end in common. *)
Definition touch (e1 e2 : Edge.t) : Prop :=
Edge.target e1 = Edge.target e2 \/ Edge.source e1 = Edge.source e2
\/ Edge.target e1 = Edge.source e2 \/ Edge.source e1 = Edge.target e2.

(** The row [(s, t, ty)] is in the table [edges]. *)
Definition hasEdge (db : Store) (s t ty : string) : bool :=
existsb
  (Edge.eqb {| Edge.source := s; Edge.target := t; Edge.type := ty |})
  (edges db).

(** [gated db db']: the store [db'] is obtained from [db] by upserting
    nodes and by inserting edges that [LouvainGate.check] allowed on the
    store as it was just before the insertion. *)
Inductive gated (db : Store) : Store -> Prop :=
| gated_refl : gated db db
| gated_node (db1 : Store) (node : Node.t) :
    gated db db1 -> gated db (ResonanceDB.insertNode db1 node)
| gated_edge (db1 : Store) (s t ty : string) :
    gated db db1 ->
    LouvainGate.allowed (LouvainGate.check db1 s t LouvainGate.defaultThreshold) = true ->
    gated db (ResonanceDB.insertEdge db1 s t ty).

(** A stored row whose content and hash are both present carries the MD5
    of its trimmed content. *)
Definition hashConsistent (row : Row.t) : bool :=
match Row.content row, Row.hash row with
| Some c, Some h => String.eqb h (LocusLedger.hashContent c)
| _, _ => true
end.

(** Invariant I2 as the specification words it: a row with content
    carries the MD5 of its trimmed content. *)
Definition hashIsContentDigest (row : Row.t) : bool :=
match Row.content row with
| Some c =>
    match Row.hash row with
    | Some h => String.eqb h (LocusLedger.hashContent c)
    | None => false
    end
| None => true
end.

(** The calls of [processBox] that [processFile] makes for a file: the
    marked boxes, or the whole file under the id of its name when it is
    longer than 10 characters. *)
Definition fileBoxes (f : Ingestor.FileEntry) : list (string * string) :=
match Ingestor.boxesOf (Ingestor.text f) with
| [] =>
    if (10 <? String.length (Ingestor.text f))%nat
    then [(Ingestor.fileId (Ingestor.path f), Ingestor.text f)]
    else []
| boxes => boxes
end.


(** A locus marker, [<!-- locus:ID -->] with a non-empty id of
    [[a-zA-Z0-9-]]. *)
Definition locusMarker : RegExp.re :=
RegExp.Seq (RegExp.lit "<!-- locus:")
  (RegExp.Seq
     (RegExp.Plus true
        (RegExp.Chr
           (RegExp.orC JS.isLower
              (RegExp.orC JS.isUpper (RegExp.orC JS.isDigit (RegExp.only "-"))))))
     (RegExp.lit " -->")).

(** A character of a slug: [a-z0-9-]. *)
Definition isSlugChar (c : ascii) : bool :=
JS.isLower c || JS.isDigit c || Ascii.eqb "-" c.

Fixpoint allChars (p : ascii -> bool) (s : string) : bool :=
match s with
| EmptyString => true
| String c r => p c && allChars p r
end.

(** Every character of class [p] replaced by [by_]. *)
Fixpoint substChars (p : ascii -> bool) (by_ : string) (s : string) : string :=
match s with
| EmptyString => EmptyString
| String c r => if p c then by_ ++ substChars p by_ r else String c (substChars p by_ r)
end.


(** An order-preserving key of the numbers other than NaN: sign class,
    then exponent, then mantissa. *)
Definition orderKey (x : F64.num) : Z * Z * Z :=
match x with
| S754_infinity true => (-2, 0, 0)
| S754_finite true m e => (-1, - e, - Zpos m)
| S754_zero _ => (0, 0, 0)
| S754_finite false m e => (1, e, Zpos m)
| S754_infinity false => (2, 0, 0)
| S754_nan => (3, 0, 0)
end%Z.

Definition lexLt (a b : Z * Z * Z) : Prop :=
let '(a1, a2, a3) := a in
let '(b1, b2, b3) := b in
(a1 < b1 \/ (a1 = b1 /\ (a2 < b2 \/ (a2 = b2 /\ a3 < b3))))%Z.



(** The vector results that the loop of the vector path records: reading
    the content of a result whose content is NULL throws, so the loop stops
    at the first of them and records the results before it. *)
Fixpoint recorded (V : list VectorEngine.SearchResult) : list VectorEngine.SearchResult :=
match V with
| [] => []
| r :: rest =>
    match VectorEngine.content r with
    | Some _ => r :: recorded rest
    | None => []
    end
end.




(** The groups of blocks that [packageContent] serialises, one per box:
    the recursion of [packageContentFrom] without the ledger. *)
Fixpoint leafGroupsFrom (fuel : nat) (b : BentoBoxer.Boxer)
         (nodes : list BentoBoxer.MdNode) : list (list BentoBoxer.MdNode) :=
let content := JS.trim (BentoBoxer.stringify (BentoBoxer.processor b) nodes) in
if (BentoBoxer.countTokens content <=? BentoBoxer.MAX_SIZE b)%nat then [nodes]
else
  match fuel with
  | O => [nodes]
  | S fuel' =>
      match BentoBoxer.findIndex BentoBoxer.isThematicBreak nodes with
      | Some hrIndex =>
          (leafGroupsFrom fuel' b (firstn hrIndex nodes)
             ++ leafGroupsFrom fuel' b (skipn (hrIndex + 1) nodes))%list
      | None =>
          if (1 <? List.length nodes)%nat then
            (leafGroupsFrom fuel' b (firstn (Nat.div (List.length nodes) 2) nodes)
               ++ leafGroupsFrom fuel' b (skipn (Nat.div (List.length nodes) 2) nodes))%list
          else [nodes]
      end
  end.

Definition leafGroups (b : BentoBoxer.Boxer) (nodes : list BentoBoxer.MdNode)
  : list (list BentoBoxer.MdNode) :=
leafGroupsFrom (List.length nodes) b nodes.

(** The groups behind the boxes of [processNodes], in order. *)
Fixpoint groupsOfNodes (b : BentoBoxer.Boxer) (children currentNodes : list BentoBoxer.MdNode)
  : list (list BentoBoxer.MdNode) :=
match children with
| [] =>
    match currentNodes with
    | [] => []
    | _ => leafGroups b currentNodes
    end
| node :: rest =>
    if BentoBoxer.opensGroup node then
      (match currentNodes with
       | [] => []
       | _ => leafGroups b currentNodes
       end ++ groupsOfNodes b rest [node])%list
    else groupsOfNodes b rest (currentNodes ++ [node])%list
end.

(** The groups of blocks behind the boxes of a document. *)
Definition boxGroups (b : BentoBoxer.Boxer) (text : string)
  : list (list BentoBoxer.MdNode) :=
groupsOfNodes b (BentoBoxer.parse (BentoBoxer.processor b) text) [].

Definition notBreak (n : BentoBoxer.MdNode) : bool :=
negb (BentoBoxer.isThematicBreak n).

End Spec.

Module Scenario.

Definition edge (s t ty : string) : Edge.t :=
{| Edge.source := s; Edge.target := t; Edge.type := ty |}.

(** [n] spokes [x0 -> hub], [x1 -> hub], ... *)
Definition spokes (hub : string) (n : nat) : list Edge.t :=
List.map (fun i => edge ("x" ++ LouvainGate.showZ (Z.of_nat i)) hub "MENTIONS") (seq 0 n).

(** A hub [T] with 50 spokes and one existing edge [S -> T]. *)
Definition linkedHub : Store :=
{| nodes := []; edges := (edge "S" "T" "CITES" :: spokes "T" 50)%list |}.

(** One node of the experience domain and no embedding at all; the
    validator has captured its baseline and expects experience coverage. *)
Definition bareNote : Row.t :=
{| Row.id := "n1"; Row.type := "note"; Row.title := Some "Note";
   Row.content := Some "short note"; Row.domain := "experience";
   Row.layer := "note"; Row.embedding := None; Row.hash := None;
   Row.meta := None |}.

Definition oneBareNote : Store := {| nodes := [bareNote]; edges := [] |}.

Definition experienceValidator : PipelineValidator.Validator :=
PipelineValidator.expect
  (PipelineValidator.captureBaseline
     {| PipelineValidator.v_baseline := None;
        PipelineValidator.v_expectations := PipelineValidator.noExpectations |}
     oneBareNote)
  {| PipelineValidator.files_to_process := None;
     PipelineValidator.min_nodes_added := None;
     PipelineValidator.max_errors := None;
     PipelineValidator.required_vector_coverage := Some PipelineValidator.experience |}.

(** The binary32 vector [[1]]. *)
Definition e1 : list F32.single := [F32.ofNumber F64.one].

Definition embeddedNote (id : string) : Node.t :=
{| Node.id := id; Node.type := "note"; Node.label := Some id;
   Node.content := Some ("The note " ++ id);
   Node.domain := Some "experience"; Node.layer := Some "note";
   Node.embedding := Some e1; Node.hash := None; Node.meta := None |}.

(** Two notes [H] and [O] with the same embedding; [H] is a hub with 51
    spokes and [O] has no edge. *)
Definition hubAndOrphan : Store :=
fold_left
  (fun db e => ResonanceDB.insertEdge db (Edge.source e) (Edge.target e) (Edge.type e))
  (spokes "H" 51)
  (ResonanceDB.insertNode
     (ResonanceDB.insertNode ResonanceDB.emptyStore (embeddedNote "H"))
     (embeddedNote "O")).

(** Services that answer every text with the vector [[1]], find no
    entity and know no date. *)
Definition noTags : SemanticTags :=
{| people := []; places := []; organizations := []; topics := []; money := [];
   protocols := []; concepts := [] |}.

Definition services : Ingestor.Services :=
{| Ingestor.embed := fun _ => Normal (Some e1);
   Ingestor.extract := fun _ _ => noTags;
   Ingestor.parseDate := fun _ => None |}.

(** A lexicon of one concept and a directive catalogue of one entry. *)
Definition personaCorpus : Ingestor.Corpus :=
{| Ingestor.lexiconFile :=
     Some [ {| Ingestor.c_id := "term-flow-state";
               Ingestor.c_title := Some "Flow State";
               Ingestor.c_description := Some "A state of deep focus.";
               Ingestor.c_category := Some "Concept";
               Ingestor.c_tags := None;
               Ingestor.c_aliases := None |} ];
   Ingestor.cdaFile :=
     Some [ {| Ingestor.e_id := "phi-1";
               Ingestor.e_title := "Clarity";
               Ingestor.e_definition := "Prefer clarity over cleverness.";
               Ingestor.e_section := Some "PHI";
               Ingestor.e_explicit_tags := [];
               Ingestor.validated_relationships :=
                 [ {| Ingestor.rel_type := "IMPLEMENTS";
                      Ingestor.rel_target := "term-flow-state" |} ] |} ];
   Ingestor.files := [] |}.

(** A file of three characters without any marker. *)
Definition shortFile : Ingestor.FileEntry :=
{| Ingestor.path := "notes/Todo.md"; Ingestor.type := "note"; Ingestor.text := "- a" |}.

(** A file with two marked boxes, and one without marker. *)
Definition boxedFile : Ingestor.FileEntry :=
{| Ingestor.path := "notes/2025-01-02-plan.md"; Ingestor.type := "note";
   Ingestor.text :=
     "<!-- locus:box-1 -->" ++ Ingestor.newline ++ "# Plan" ++ Ingestor.newline
     ++ "See [[Flow State]]." ++ Ingestor.newline
     ++ "<!-- locus:box-2 -->" ++ Ingestor.newline ++ "Second box." |}.

Definition plainFile : Ingestor.FileEntry :=
{| Ingestor.path := "notes/Read Me.md"; Ingestor.type := "note";
   Ingestor.text := "A plain note without any marker." |}.

Definition notesCorpus : Ingestor.Corpus :=
{| Ingestor.lexiconFile := Ingestor.lexiconFile personaCorpus;
   Ingestor.cdaFile := Ingestor.cdaFile personaCorpus;
   Ingestor.files := [boxedFile; plainFile] |}.






(** Scenario 6 of the specification: [A] matches the word "fox" only,
    [B] is near the query only, [C] does both. The model maps every query
    to the vector [[1]]; the full-text engine returns the rows whose content
    contains the query. *)
Definition searchNode (id content : string) (embedding : option (list F32.single))
  : Node.t :=
{| Node.id := id; Node.type := "note"; Node.label := Some id;
   Node.content := Some content; Node.domain := Some "experience";
   Node.layer := Some "note"; Node.embedding := embedding;
   Node.hash := None; Node.meta := None |}.

Definition foxStore : Store :=
fold_left ResonanceDB.insertNode
  [ searchNode "A" "quick brown fox" None;
    searchNode "B" "lazy dog" (Some e1);
    searchNode "C" "fox den" (Some e1) ]
  ResonanceDB.emptyStore.




(** The one-element vector [[2^-24]]: its norm, about 6e-8, is below the
    guard of [toFafcas]. *)
Definition tinyVector : list F32.single := [S754_finite false 8388608 (-47)].

(** The unified processor on the documents made of one-line paragraphs
    of plain words, one-line ATX headings of depth 1 or 2 and thematic
    breaks, separated by blank lines: [parse] reads one block per non-empty
    line, [stringify] writes the blocks back separated by blank lines, a
    thematic break as three asterisks. *)
Definition textNode (t : string) : BentoBoxer.MdNode :=
BentoBoxer.mdNode "text" None (Some t) [].

Definition blockOfLine (line : string) : BentoBoxer.MdNode :=
if String.eqb line "***" || String.eqb line "---" then
  BentoBoxer.mdNode "thematicBreak" None None []
else if JS.startsWith "# " line then
  BentoBoxer.mdNode "heading" (Some 1) None [textNode (JS.drop 2 line)]
else if JS.startsWith "## " line then
  BentoBoxer.mdNode "heading" (Some 2) None [textNode (JS.drop 3 line)]
else BentoBoxer.mdNode "paragraph" None None [textNode line].

Definition lineOfBlock (n : BentoBoxer.MdNode) : string :=
match n with
| BentoBoxer.mdNode type depth _ children =>
    let inner :=
      match children with
      | BentoBoxer.mdNode _ _ (Some t) _ :: _ => t
      | _ => EmptyString
      end in
    if String.eqb type "thematicBreak" then "***"
    else if String.eqb type "heading" then
      match depth with
      | Some 2 => "## " ++ inner
      | _ => "# " ++ inner
      end
    else inner
end.

Definition plainProcessor : BentoBoxer.Processor :=
{| BentoBoxer.parse :=
     fun text =>
       List.map blockOfLine
         (filter JS.truthy (JS.split (ascii_of_nat 10) text));
   BentoBoxer.stringify :=
     fun nodes =>
       JS.join (Ingestor.newline ++ Ingestor.newline) (List.map lineOfBlock nodes)
       ++ Ingestor.newline |}.

(** Modelled from the spec: [SEAMAN_CONSTANTS.MAX_SIZE], declared in
    [config/constants], is the token budget of a box, "default ~400
    whitespace-tokens". *)
Definition plainBoxer : BentoBoxer.Boxer :=
{| BentoBoxer.processor := plainProcessor;
   BentoBoxer.MAX_SIZE := 400;
   BentoBoxer.randomUUID := fun n => "locus-" ++ LouvainGate.showZ (Z.of_nat n) |}.

Definition blankLine : string := Ingestor.newline ++ Ingestor.newline.

(** [n] words. *)
Definition words (n : nat) : string := JS.join " " (repeat "word" n).

(** A paragraph of 399 words, a thematic break, and a closing paragraph:
    401 tokens once serialised, one more than the budget. *)
Definition longDocument : string :=
words 399 ++ blankLine ++ "***" ++ blankLine ++ "tail" ++ Ingestor.newline.

(** A heading, a paragraph, a thematic break and a second section. *)
Definition smallDocument : string :=
"# Title" ++ blankLine ++ "first paragraph" ++ blankLine ++ "***" ++ blankLine
++ "## Section" ++ blankLine ++ "second paragraph" ++ Ingestor.newline.

End Scenario.

(* ------------------------------------------------------------------------- *)
(** ** Further vocabulary *)

Module Props.

(** The primary keys of the two tables hold: one row per node id, one row
    per edge. *)
Definition wellKeyed (db : Store) : Prop :=
NoDup (List.map Row.id (nodes db)) /\ NoDup (edges db).

(** [built db db']: the store [db'] is obtained from [db] by upserting
    nodes and inserting edges. *)
Inductive built (db : Store) : Store -> Prop :=
| built_refl : built db db
| built_node (db1 : Store) (node : Node.t) :
    built db db1 -> built db (ResonanceDB.insertNode db1 node)
| built_edge (db1 : Store) (s t ty : string) :
    built db db1 -> built db (ResonanceDB.insertEdge db1 s t ty).

(** A lowercase hexadecimal digit. *)
Definition isHexDigit (c : ascii) : bool :=
JS.isDigit c || ((97 <=? JS.code c)%nat && (JS.code c <=? 102)%nat).

(** A string of white space only. *)
Definition isBlank (s : string) : bool := Spec.allChars JS.isSpace s.

(** The edges of the chain over a list of dated nodes: each node succeeds
    the one that follows it. *)
Fixpoint successions (l : list (string * Z)) : list Edge.t :=
match l with
| current :: ((previous :: _) as rest) =>
    {| Edge.source := fst current; Edge.target := fst previous;
       Edge.type := "SUCCEEDS" |} :: successions rest
| _ => []
end.

(** Insertion of a list of edge rows, in order. *)
Definition insertEdges (db : Store) (es : list Edge.t) : Store :=
fold_left
  (fun db e => ResonanceDB.insertEdge db (Edge.source e) (Edge.target e) (Edge.type e))
  es db.

(** The debriefs with a valid date, as [TimelineWeaver] reads them. *)
Definition datedDebriefs (parseDate : TimelineWeaver.DateParser) (db : Store)
  : list (string * Z) :=
TimelineWeaver.dated parseDate (ResonanceDB.getNodesByType db "debrief").

(** [e] is an edge that rescues [orphan] on the nodes of [db]: a
    [RELATED_TO] edge from the orphan to another node of the domain
    [experience] whose vector has a dot product above 0.85 with the
    orphan's. *)
Definition rescueEdge (db : Store) (orphan : Row.t) (e : Edge.t) : Prop :=
Edge.source e = Row.id orphan
/\ Edge.type e = "RELATED_TO"
/\ Edge.target e <> Edge.source e
/\ exists row vecOrphan vecRow,
    In row (nodes db)
    /\ Row.id row = Edge.target e
    /\ Row.embedding orphan = Some vecOrphan
    /\ Row.embedding row = Some vecRow
    /\ F64.gtb (Fafcas.dotProduct vecOrphan vecRow) F64.lit_0_85 = true
    /\ Row.domain row = "experience".


(** The types of node that [AutoTagger.scan] fetches. *)
Definition gardenedTypes : list string := ["note"; "debrief"; "section"; "document"].

(** The validation that closes Phase 2: a fresh validator captures its
    baseline and validates at once, on the same store. *)
Definition closingReport (db : Store) : Completion PipelineValidator.ValidationReport :=
PipelineValidator.validate
  (PipelineValidator.captureBaseline
     {| PipelineValidator.v_baseline := None;
        PipelineValidator.v_expectations := PipelineValidator.noExpectations |}
     db)
  db.

(** Both ends of the edge are ids of nodes. *)
Definition anchored (db : Store) (e : Edge.t) : bool :=
PipelineValidator.nodeExists db (Edge.source e)
&& PipelineValidator.nodeExists db (Edge.target e).

(** *** Regular expressions, seen from the text

    A continuation of the matcher, the loop of a quantifier (the local
    function of [RegExp.run], by its fuel), and what a quantified
    character class does: the greedy one goes as far as the class allows
    and comes back one character at a time until the continuation
    succeeds, the lazy one tries the continuation first. *)
Definition Cont : Type := option ascii -> string -> RegExp.Caps -> option RegExp.Res.

Fixpoint starLoop (greedy : bool)
         (step : option ascii -> string -> RegExp.Caps -> Cont -> option RegExp.Res)
         (k : Cont) (n : nat) (prev : option ascii) (s : string)
         (caps : RegExp.Caps) {struct n} : option RegExp.Res :=
match n with
| O => k prev s caps
| S n' =>
    if greedy then
      match step prev s caps
              (fun p1 s1 c1 =>
                 if (String.length s1 <? String.length s)%nat
                 then starLoop greedy step k n' p1 s1 c1 else None) with
      | Some res => Some res
      | None => k prev s caps
      end
    else
      match k prev s caps with
      | Some res => Some res
      | None =>
          step prev s caps
            (fun p1 s1 c1 =>
               if (String.length s1 <? String.length s)%nat
               then starLoop greedy step k n' p1 s1 c1 else None)
      end
end.

Fixpoint greedyChars (p : ascii -> bool) (k : Cont) (prev : option ascii)
         (s : string) (caps : RegExp.Caps) : option RegExp.Res :=
match s with
| String c s' =>
    if p c then
      match greedyChars p k (Some c) s' caps with
      | Some res => Some res
      | None => k prev s caps
      end
    else k prev s caps
| EmptyString => k prev s caps
end.

Fixpoint lazyChars (p : ascii -> bool) (k : Cont) (prev : option ascii)
         (s : string) (caps : RegExp.Caps) : option RegExp.Res :=
match k prev s caps with
| Some res => Some res
| None =>
    match s with
    | String c s' => if p c then lazyChars p k (Some c) s' caps else None
    | EmptyString => None
    end
end.

(** The continuation that ends a match. *)
Definition done : Cont := fun p1 s1 c1 => Some (p1, s1, c1).

(** The text written by [replaceAll] for a list of pieces. *)
Definition rewrite (by_ : string) (ps : list RegExp.piece) : string :=
fold_right
  (fun p acc => match p with RegExp.Hit _ => by_ ++ acc | RegExp.Out c => String c acc end)
  EmptyString ps.

(** The longest prefix of characters of a class, and what follows it. *)
Fixpoint takeWhile (p : ascii -> bool) (s : string) : string :=
match s with
| String c r => if p c then String c (takeWhile p r) else EmptyString
| EmptyString => EmptyString
end.

Fixpoint dropWhile (p : ascii -> bool) (s : string) : string :=
match s with
| String c r => if p c then dropWhile p r else s
| EmptyString => EmptyString
end.

(** Every maximal run of characters of class [p] replaced by [by_];
    [inRun] tells that the previous character was of the class. *)
Fixpoint squeeze (p : ascii -> bool) (by_ : string) (inRun : bool) (s : string) : string :=
match s with
| EmptyString => EmptyString
| String c r =>
    if p c then (if inRun then squeeze p by_ true r else by_ ++ squeeze p by_ true r)
    else String c (squeeze p by_ false r)
end.

(** One leading and one trailing character [x] removed. *)
Definition stripStart (x : ascii) (s : string) : string :=
match s with
| String c r => if Ascii.eqb c x then r else s
| EmptyString => EmptyString
end.

Fixpoint stripEnd (x : ascii) (s : string) : string :=
match s with
| EmptyString => EmptyString
| String c EmptyString => if Ascii.eqb c x then EmptyString else s
| String c r => String c (stripEnd x r)
end.

(** A slug: characters of [a-z0-9-] only, no dash at either end and no
    two dashes in a row. *)
Fixpoint noDoubleDash (s : string) : bool :=
match s with
| String a ((String b _) as r) => negb (Ascii.eqb a "-" && Ascii.eqb b "-") && noDoubleDash r
| _ => true
end.

Definition headIs (x : ascii) (s : string) : bool :=
match s with String c _ => Ascii.eqb c x | EmptyString => false end.

Definition lastIs (x : ascii) (s : string) : bool :=
match RegExp.lastOf None s with Some c => Ascii.eqb c x | None => false end.

Definition isSlug (s : string) : bool :=
Spec.allChars Spec.isSlugChar s
&& noDoubleDash s
&& negb (headIs "-" s)
&& negb (lastIs "-" s).






(** The character [c] does not occur in [s]. *)
Definition without (c : ascii) (s : string) : bool :=
Spec.allChars (fun x => negb (Ascii.eqb x c)) s.

(** A line [key:value] of a frontmatter block, and the entry read from it. *)
Definition frontmatterLine (kv : string * string) : string := fst kv ++ ":" ++ snd kv.

Definition frontmatterEntry (kv : string * string) : string * MetaValue :=
(JS.trim (fst kv), MStr (JS.trim (snd kv))).

(** A line that binds its key: the key is not empty, holds neither colon
    nor line feed and is not [__proto__] once trimmed; the value holds no
    line feed. *)
Definition wellFormedLine (kv : string * string) : bool :=
JS.truthy (fst kv)
&& without ":" (fst kv)
&& without (ascii_of_nat 10) (fst kv)
&& without (ascii_of_nat 10) (snd kv)
&& negb (String.eqb (JS.trim (fst kv)) "__proto__").

(** The class [[a-zA-Z0-9-]] of the characters of a locus id. *)
Definition locusChar : ascii -> bool :=
RegExp.orC JS.isLower (RegExp.orC JS.isUpper (RegExp.orC JS.isDigit (RegExp.only "-"))).

(** A box written without tags, whose id is a non-empty word of
    [locusChar] and whose content is not empty and holds no locus marker. *)
Definition readable (box : BentoBoxer.BentoBox) : bool :=
JS.truthy (BentoBoxer.locusId box)
&& Spec.allChars locusChar (BentoBoxer.locusId box)
&& JS.truthy (BentoBoxer.content box)
&& negb (JS.includes "<!-- locus:" (BentoBoxer.content box))
&& match BentoBoxer.tags box with Some (_ :: _) => false | _ => true end.

(** The text of a box without tags. *)
Definition boxText (id body : string) : string :=
"<!-- locus:" ++ id ++ (" -->" ++ Ingestor.newline) ++ body.

(** A ledger that still resolves every hash that another one resolves,
    to the same id. *)
Definition keeps (l l' : LocusLedger.Ledger) : Prop :=
forall h id,
  LocusLedger.lookup h (LocusLedger.bento_map l) = Some id ->
  LocusLedger.lookup h (LocusLedger.bento_map l') = Some id.

(** A box whose id is the one that the ledger holds for its content. *)
Definition recorded (l : LocusLedger.Ledger) (box : BentoBoxer.BentoBox) : Prop :=
LocusLedger.lookup (LocusLedger.hashContent (BentoBoxer.content box))
  (LocusLedger.bento_map l) = Some (BentoBoxer.locusId box).

(** A boxing step that only adds to the ledger, records the boxes it
    returns, and returns them again without minting once they are
    recorded. *)
Definition stable
         (f : LocusLedger.Ledger -> list BentoBoxer.BentoBox * LocusLedger.Ledger) : Prop :=
forall l,
  keeps l (snd (f l))
  /\ Forall (recorded (snd (f l))) (fst (f l))
  /\ forall l1, keeps (snd (f l)) l1 -> f l1 = (fst (f l), l1).

End Props.

(** Further stores and inputs, on which the properties below are
    instantiated. *)
Module Samples.

(** A date parser for the texts [YYYY-MM-DD] of one month: the day of the
    month, read from the last two digits. *)
Definition dayOf : TimelineWeaver.DateParser :=
fun s =>
  match JS.drop 8 s with
  | String a (String b EmptyString) =>
      if JS.isDigit a && JS.isDigit b
      then Some (Z.of_nat ((JS.code a - 48) * 10 + (JS.code b - 48)))
      else None
  | _ => None
  end.

Definition debrief (id source : string) : Node.t :=
{| Node.id := id; Node.type := "debrief"; Node.label := Some id;
   Node.content := Some id; Node.domain := Some "experience";
   Node.layer := Some "note"; Node.embedding := None;
   Node.hash := None; Node.meta := Some [("source", MStr source)] |}.

(** Two debriefs, dated by their file names. *)
Definition twoDebriefs : Store :=
fold_left ResonanceDB.insertNode
  [ debrief "d1" "debriefs/2025-01-02-first.md";
    debrief "d2" "debriefs/2025-01-05-second.md" ]
  ResonanceDB.emptyStore.



(** Two boxes as the [box] command writes them without [--tag]. *)
Definition box (id content : string) : BentoBoxer.BentoBox :=
{| BentoBoxer.locusId := id; BentoBoxer.content := content;
   BentoBoxer.tokenCount := BentoBoxer.countTokens content;
   BentoBoxer.isLeaf := true; BentoBoxer.tags := None |}.

Definition twoBoxes : list BentoBoxer.BentoBox :=
[ box "3f2a-01" "# Plan"; box "3f2a-02" "Second box." ].

(** The lines of a frontmatter block; the second value holds colons. *)
Definition planLines : list (string * string) :=
[ ("title", " Plan"); ("date", " 2025-01-02T10:00") ].

End Samples.

(* ------------------------------------------------------------------------- *)
(** ** The real numbers that the floating-point data denote *)

Module FloatValue.
Import Reals.
Local Open Scope R_scope.

Definition pow2 (e : Z) : R := powerRZ 2 e.

(** The absolute value of a float; [0] for zeros, and for infinities and
    NaN, which the statements below exclude. *)
Definition value (x : spec_float) : R :=
  match x with
  | S754_finite _ m e => IZR (Zpos m) * pow2 e
  | _ => 0
  end.

(** A zero or a finite number. *)
Definition finite (x : spec_float) : Prop :=
  match x with
  | S754_zero _ | S754_finite _ _ _ => True
  | _ => False
  end.

(** [+0] or a positive finite number. *)
Definition nonneg (x : spec_float) : Prop :=
  match x with
  | S754_zero s | S754_finite s _ _ => s = false
  | _ => False
  end.

Definition notInfinite (x : spec_float) : bool :=
  match x with
  | S754_infinity _ => false
  | _ => true
  end.

(** The bound on the error of a rounding of the real [v]: relative
    [2^(3-prec)], or [2^(emin+1)] in the subnormal range. *)
Definition roundingBound (prec emax : Z) (v : R) : R :=
  Rmax (pow2 (3 - prec) * v) (pow2 (emin prec emax + 1)).

(** The sum of the squares of the values of a vector. *)
Fixpoint sumSquares (v : list spec_float) : R :=
  match v with
  | [] => 0
  | x :: r => value x * value x + sumSquares r
  end.

End FloatValue.

(* ------------------------------------------------------------------------- *)
(** * Properties *)

(** ** GraphStore: [searchText] *)

(** C10. [searchText] completes normally for every query: when the FTS
    query raises, the result is the empty list, and otherwise there is one
    hit per row of the query; an engine failure cannot be told from a query
    without matches. *)
Theorem searchText_never_throws :
  forall (fts : ResonanceDB.FtsEngine) (db : Store) (query : string) (limit : Z),
    exists hits,
      ResonanceDB.searchText fts db query limit = Normal hits
      /\ match fts db query limit with
         | Thrown _ => hits = []
         | Normal rows =>
             List.map ResonanceDB.hit_id hits = List.map ResonanceDB.fts_id rows
         end.
Proof.
  intros fts db query limit.
  unfold ResonanceDB.searchText, tryCatch.
  destruct (fts db query limit) as [rows | e].
  - eexists; split; [reflexivity |].
    rewrite map_map. reflexivity.
  - exists []. split; reflexivity.
Qed.


(** ** LouvainGate *)

Lemma check_allowed :
  forall db source target threshold,
    LouvainGate.allowed (LouvainGate.check db source target threshold)
    = negb (LouvainGate.isSuperNode db target threshold
            && negb (LouvainGate.sharesNeighbor db source target)).
Proof.
  intros. unfold LouvainGate.check.
  destruct (LouvainGate.isSuperNode db target threshold); simpl; [| reflexivity].
  destruct (LouvainGate.sharesNeighbor db source target); reflexivity.
Qed.

(** P7: a target whose degree does not exceed the threshold is never
    refused. *)
Lemma check_small_degree :
  forall db source target threshold,
    (LouvainGate.degree db target <= threshold)%Z ->
    LouvainGate.allowed (LouvainGate.check db source target threshold) = true.
Proof.
  intros db source target threshold Hdeg.
  rewrite check_allowed. unfold LouvainGate.isSuperNode.
  destruct (Z.ltb_spec threshold (LouvainGate.degree db target)); [lia | reflexivity].
Qed.

Lemma incident_iff :
  forall id e,
    LouvainGate.incident id e = true <-> Edge.target e = id \/ Edge.source e = id.
Proof.
  intros. unfold LouvainGate.incident.
  rewrite orb_true_iff, !String.eqb_eq. tauto.
Qed.

(** What the query of [sharesNeighbor] decides: an edge at [a] and an edge
    at [b] that have an end in common, whichever end it is. *)
Lemma sharesNeighbor_iff :
  forall db a b,
    LouvainGate.sharesNeighbor db a b = true
    <-> exists e1 e2,
        In e1 (edges db) /\ In e2 (edges db) /\ Spec.touch e1 e2
        /\ (Edge.source e1 = a \/ Edge.target e1 = a)
        /\ (Edge.source e2 = b \/ Edge.target e2 = b).
Proof.
  intros db a b. unfold LouvainGate.sharesNeighbor, LouvainGate.joined, Spec.touch.
  rewrite existsb_exists. split.
  - intros (e1 & H1 & H). apply existsb_exists in H as (e2 & H2 & H).
    rewrite !andb_true_iff, !orb_true_iff, !String.eqb_eq in H.
    exists e1, e2. tauto.
  - intros (e1 & e2 & H1 & H2 & H). exists e1. split; [assumption |].
    apply existsb_exists. exists e2. split; [assumption |].
    rewrite !andb_true_iff, !orb_true_iff, !String.eqb_eq. tauto.
Qed.

Lemma connects_iff :
  forall db a n,
    Spec.connects db a n = true
    <-> exists e, In e (edges db)
                  /\ ((Edge.source e = a /\ Edge.target e = n)
                      \/ (Edge.source e = n /\ Edge.target e = a)).
Proof.
  intros. unfold Spec.connects. rewrite existsb_exists.
  split; intros (e & He & H); exists e; split; try assumption.
  - rewrite orb_true_iff, !andb_true_iff, !String.eqb_eq in H. exact H.
  - rewrite orb_true_iff, !andb_true_iff, !String.eqb_eq. exact H.
Qed.

(** A common neighbour is always seen by the query: the gate never refuses
    an edge whose ends have one. *)
Lemma commonNeighbor_shares :
  forall db a b n,
    Spec.commonNeighbor db a b n = true -> LouvainGate.sharesNeighbor db a b = true.
Proof.
  intros db a b n H. unfold Spec.commonNeighbor in H.
  apply andb_true_iff in H as [Ha Hb].
  apply connects_iff in Ha as (e1 & He1 & Ha).
  apply connects_iff in Hb as (e2 & He2 & Hb).
  apply sharesNeighbor_iff. exists e1, e2. unfold Spec.touch.
  repeat split; try assumption;
    destruct Ha as [[? ?] | [? ?]], Hb as [[? ?] | [? ?]]; subst; auto; congruence.
Qed.

Lemma connects_neighborsOf :
  forall db a n, Spec.connects db a n = true -> In n (Spec.neighborsOf db a).
Proof.
  intros db a n H. apply connects_iff in H as (e & He & H).
  unfold Spec.neighborsOf. apply in_flat_map. exists e. split; [assumption |].
  apply in_or_app.
  destruct H as [[Hs Ht] | [Hs Ht]].
  - left. rewrite <- Hs, String.eqb_refl, <- Ht. left. reflexivity.
  - right. rewrite <- Ht, String.eqb_refl, <- Hs. left. reflexivity.
Qed.

Lemma no_commonNeighbor :
  forall db a b,
    forallb (fun n => negb (Spec.connects db b n)) (Spec.neighborsOf db a) = true ->
    forall n, Spec.commonNeighbor db a b n = false.
Proof.
  intros db a b H n. unfold Spec.commonNeighbor.
  destruct (Spec.connects db a n) eqn:Ha; [| reflexivity].
  apply connects_neighborsOf in Ha.
  rewrite forallb_forall in H. specialize (H n Ha).
  apply negb_true_iff in H. rewrite H. reflexivity.
Qed.

(** C5, at the store [Scenario.linkedHub]: [T] has 51 incident edges, [S]
    and [T] have no common neighbour, and [check] allows [S -> T] because
    the edge [S -> T] that already links them satisfies the join of
    [sharesNeighbor] with itself. *)
Theorem check_allows_linked_hub_without_common_neighbor :
  LouvainGate.degree Scenario.linkedHub "T" = 51%Z
  /\ (forall n, Spec.commonNeighbor Scenario.linkedHub "S" "T" n = false)
  /\ LouvainGate.allowed
       (LouvainGate.check Scenario.linkedHub "S" "T" LouvainGate.defaultThreshold)
     = true.
Proof.
  split; [vm_compute; reflexivity |].
  split; [apply no_commonNeighbor; vm_compute; reflexivity |].
  vm_compute; reflexivity.
Qed.

(** ** PipelineValidator *)

Lemma checkCoverage_all :
  forall expectations db results,
    PipelineValidator.required_vector_coverage expectations = Some PipelineValidator.all ->
    fst (PipelineValidator.checkCoverage expectations db results) <> []
    <-> (PipelineValidator.b_vectors results < PipelineValidator.b_nodes results)%Z.
Proof.
  intros expectations db results H. unfold PipelineValidator.checkCoverage.
  rewrite H.
  destruct (Z.ltb_spec (PipelineValidator.b_vectors results)
                       (PipelineValidator.b_nodes results)); simpl.
  - split; [intros _; assumption | discriminate].
  - split; [congruence | lia].
Qed.

(** The warning of the ["experience"] coverage is decided by the number of
    rows whose domain is ['resonance']. *)
Lemma checkCoverage_experience :
  forall expectations db results,
    PipelineValidator.required_vector_coverage expectations
    = Some PipelineValidator.experience ->
    snd (PipelineValidator.checkCoverage expectations db results) <> []
    <-> (PipelineValidator.b_vectors results
         < ResonanceDB.countRows (fun r => String.eqb (Row.domain r) "resonance") (nodes db))%Z.
Proof.
  intros expectations db results H. unfold PipelineValidator.checkCoverage.
  rewrite H.
  match goal with |- context [Z.ltb ?a ?b] => destruct (Z.ltb_spec a b) end; simpl.
  - split; [intros _; assumption | discriminate].
  - split; [congruence | lia].
Qed.

(** C8, at the store [Scenario.oneBareNote]: one node of the experience
    domain, no vector, coverage ["experience"] expected; [validate] reports
    no warning, because it counts the nodes of domain ['resonance']. *)
Theorem validate_experience_coverage_counts_resonance_domain :
  ResonanceDB.countRows ResonanceDB.hasEmbedding (nodes Scenario.oneBareNote) = 0%Z
  /\ ResonanceDB.countRows (fun r => String.eqb (Row.domain r) "experience")
       (nodes Scenario.oneBareNote) = 1%Z
  /\ match PipelineValidator.validate Scenario.experienceValidator Scenario.oneBareNote with
     | Normal report => PipelineValidator.warnings report = []
     | Thrown _ => False
     end.
Proof.
  vm_compute. repeat split.
Qed.

(** ** Edge insertions and the gate *)

Lemma gated_trans :
  forall db1 db2 db3, Spec.gated db1 db2 -> Spec.gated db2 db3 -> Spec.gated db1 db3.
Proof.
  intros db1 db2 db3 H12 H23. induction H23.
  - assumption.
  - apply Spec.gated_node. assumption.
  - apply Spec.gated_edge; assumption.
Qed.

Lemma gated_fold :
  forall (A : Type) (f : Store -> A -> Store) (l : list A),
    (forall db x, Spec.gated db (f db x)) ->
    forall db, Spec.gated db (fold_left f l db).
Proof.
  intros A f l Hf. induction l as [| x l IH]; intros db; simpl.
  - apply Spec.gated_refl.
  - eapply gated_trans; [apply Hf | apply IH].
Qed.

Lemma safeInsertEdge_gated :
  forall db s t ty, Spec.gated db (EdgeWeaver.safeInsertEdge db s t ty).
Proof.
  intros. unfold EdgeWeaver.safeInsertEdge.
  destruct (LouvainGate.allowed _) eqn:Hc.
  - apply Spec.gated_edge; [apply Spec.gated_refl | exact Hc].
  - apply Spec.gated_refl.
Qed.

Create HintDb gate.
#[local] Hint Resolve Spec.gated_refl safeInsertEdge_gated : gate.

Ltac gate_cases :=
  cbv beta zeta;
  repeat match goal with
         | |- Spec.gated _ (if ?c then _ else _) => destruct c
         | |- Spec.gated _ (match ?c with Some _ => _ | None => _ end) => destruct c
         end; auto with gate.

Lemma processTags_gated :
  forall lexicon db sourceId content,
    Spec.gated db (EdgeWeaver.processTags lexicon db sourceId content).
Proof.
  intros. unfold EdgeWeaver.processTags.
  eapply gated_trans; apply gated_fold; intros; gate_cases.
Qed.

Lemma processWikiLinks_gated :
  forall lexicon db sourceId content,
    Spec.gated db (EdgeWeaver.processWikiLinks lexicon db sourceId content).
Proof.
  intros. unfold EdgeWeaver.processWikiLinks.
  apply gated_fold; intros; gate_cases.
Qed.

Lemma processMetadataTags_gated :
  forall db sourceId content,
    Spec.gated db (EdgeWeaver.processMetadataTags db sourceId content).
Proof.
  intros. unfold EdgeWeaver.processMetadataTags.
  destruct (RegExp.firstMatch _ _); [| apply Spec.gated_refl].
  destruct (JS.truthy _); [| apply Spec.gated_refl].
  apply gated_fold; intros; gate_cases.
Qed.

Lemma weave_gated :
  forall lexicon db sourceNodeId content,
    Spec.gated db (EdgeWeaver.weave lexicon db sourceNodeId content).
Proof.
  intros. unfold EdgeWeaver.weave.
  eapply gated_trans; [apply processTags_gated |].
  eapply gated_trans; [apply processWikiLinks_gated | apply processMetadataTags_gated].
Qed.

Lemma ingestCDA_gated :
  forall corpus db, Spec.gated db (Ingestor.ingestCDA corpus db).
Proof.
  intros. unfold Ingestor.ingestCDA.
  destruct (Ingestor.cdaFile corpus); [| apply Spec.gated_refl].
  apply gated_fold. intros db0 entry. unfold Ingestor.ingestEntry.
  eapply gated_trans; [apply Spec.gated_node, Spec.gated_refl |].
  apply gated_fold. intros db1 rel. unfold Ingestor.ingestRelationship.
  destruct (LouvainGate.allowed _) eqn:Hc.
  - apply Spec.gated_edge; [apply Spec.gated_refl | exact Hc].
  - apply Spec.gated_refl.
Qed.

Lemma runPersona_gated :
  forall corpus db, Spec.gated db (snd (Ingestor.runPersona corpus db)).
Proof.
  intros. unfold Ingestor.runPersona.
  destruct (Ingestor.bootstrapLexicon corpus db) as [lexicon db1] eqn:Hb. simpl.
  eapply gated_trans; [| apply ingestCDA_gated].
  unfold Ingestor.bootstrapLexicon in Hb.
  destruct (Ingestor.lexiconFile corpus); inversion Hb; subst.
  - apply gated_fold. intros. apply Spec.gated_node, Spec.gated_refl.
  - apply Spec.gated_refl.
Qed.

Lemma processBox_gated :
  forall svc lexicon weaver id content type meta sourcePath db,
    Spec.gated db
      (storeOf (Ingestor.processBox svc lexicon weaver id content type meta sourcePath db)).
Proof.
  intros. unfold Ingestor.processBox.
  destruct (match ResonanceDB.getNodeHash db id with Some _ => _ | None => _ end);
    [apply Spec.gated_refl |].
  destruct (50 <? String.length content)%nat; simpl.
  - destruct (Ingestor.embed svc content); simpl.
    + eapply gated_trans; [apply Spec.gated_node, Spec.gated_refl | apply weave_gated].
    + apply Spec.gated_refl.
  - eapply gated_trans; [apply Spec.gated_node, Spec.gated_refl | apply weave_gated].
Qed.

Lemma andThen_gated :
  forall (A B : Type) (o : Outcome A) (k : A -> Store -> Outcome B) db,
    Spec.gated db (storeOf o) ->
    (forall a db1, Spec.gated db1 (storeOf (k a db1))) ->
    Spec.gated db (storeOf (andThen o k)).
Proof.
  intros A B o k db Ho Hk. destruct o as [a db1 | e db1]; simpl in *.
  - eapply gated_trans; [exact Ho | apply Hk].
  - exact Ho.
Qed.

Lemma processBoxes_gated :
  forall svc lexicon weaver type frontmatter filePath boxes total db,
    Spec.gated db
      (storeOf (Ingestor.processBoxes svc lexicon weaver type frontmatter filePath
                  boxes total db)).
Proof.
  intros svc lexicon weaver type frontmatter filePath boxes.
  induction boxes as [| [locusId boxContent] rest IH]; intros total db; simpl.
  - apply Spec.gated_refl.
  - apply andThen_gated; [apply processBox_gated | intros; apply IH].
Qed.

Lemma processFile_gated :
  forall svc lexicon weaver fileEntry db,
    Spec.gated db (storeOf (Ingestor.processFile svc lexicon weaver fileEntry db)).
Proof.
  intros. unfold Ingestor.processFile.
  destruct (Ingestor.boxesOf _) eqn:Hboxes.
  - destruct (10 <? _)%nat; [| apply Spec.gated_refl].
    apply andThen_gated; [apply processBox_gated | intros; apply Spec.gated_refl].
  - apply processBoxes_gated.
Qed.

Lemma processFiles_gated :
  forall svc lexicon weaver filesToProcess db,
    Spec.gated db (storeOf (Ingestor.processFiles svc lexicon weaver filesToProcess db)).
Proof.
  intros svc lexicon weaver filesToProcess.
  induction filesToProcess as [| f rest IH]; intros db; simpl.
  - apply Spec.gated_refl.
  - apply andThen_gated; [apply processFile_gated | intros; apply IH].
Qed.

(** C1 (amended). The edges inserted by [EdgeWeaver.weave], by Phase 1
    ([runPersona], which contains [ingestCDA]) and by the file processing
    of Phase 2 are all admitted by [LouvainGate.check] on the store as it is
    just before the insertion. *)
Theorem gate_admits_weaver_and_ingestor_edges :
  (forall lexicon db sourceNodeId content,
      Spec.gated db (EdgeWeaver.weave lexicon db sourceNodeId content))
  /\ (forall corpus db, Spec.gated db (snd (Ingestor.runPersona corpus db)))
  /\ (forall svc lexicon weaver filesToProcess db,
         Spec.gated db
           (storeOf (Ingestor.processFiles svc lexicon weaver filesToProcess db))).
Proof.
  split; [exact weave_gated |].
  split; [exact runPersona_gated | exact processFiles_gated].
Qed.

(** The verdict of the gate is read from the table [edges] alone. *)
Lemma check_edges :
  forall db db' s t threshold,
    edges db' = edges db ->
    LouvainGate.check db' s t threshold = LouvainGate.check db s t threshold.
Proof.
  intros db db' s t threshold H.
  unfold LouvainGate.check, LouvainGate.isSuperNode, LouvainGate.degree,
    LouvainGate.sharesNeighbor.
  rewrite H. reflexivity.
Qed.

(** A gated run appends to the table [edges], and the first edge it
    appends was allowed on the store it started from. *)
Lemma gated_appends :
  forall db db',
    Spec.gated db db' ->
    exists l,
      edges db' = (edges db ++ l)%list
      /\ match l with
         | [] => True
         | e :: _ =>
             LouvainGate.allowed
               (LouvainGate.check db (Edge.source e) (Edge.target e)
                  LouvainGate.defaultThreshold) = true
         end.
Proof.
  intros db db' H.
  induction H as [| db1 node _ [l [Hl Hhead]] | db1 s t ty _ [l [Hl Hhead]] Hcheck].
  - exists []. split; [symmetry; apply app_nil_r | exact I].
  - exists l. split; [exact Hl | exact Hhead].
  - unfold ResonanceDB.insertEdge.
    destruct (existsb _ (edges db1)).
    + exists l. split; [exact Hl | exact Hhead].
    + cbn [edges]. rewrite Hl, <- app_assoc.
      destruct l as [| e l].
      * eexists. split; [reflexivity |]. cbn [app Edge.source Edge.target].
        rewrite <- Hcheck. symmetry. f_equal. apply check_edges.
        rewrite Hl. apply app_nil_r.
      * eexists. split; [reflexivity | exact Hhead].
Qed.

(** C1 (counterexample). On [Scenario.hubAndOrphan] the orphan [O] is
    rescued by an edge [O -RELATED_TO-> H] although [LouvainGate.check]
    refuses [O -> H]: [SemanticWeaver] inserts without asking the gate, and
    the store it leaves is not reachable by gated insertions. *)
Theorem semantic_weaver_inserts_edge_refused_by_gate :
  Spec.hasEdge Scenario.hubAndOrphan "O" "H" "RELATED_TO" = false
  /\ Spec.hasEdge (SemanticWeaver.weave Scenario.hubAndOrphan) "O" "H" "RELATED_TO" = true
  /\ LouvainGate.allowed
       (LouvainGate.check Scenario.hubAndOrphan "O" "H" LouvainGate.defaultThreshold)
     = false
  /\ ~ Spec.gated Scenario.hubAndOrphan (SemanticWeaver.weave Scenario.hubAndOrphan).
Proof.
  split; [vm_compute; reflexivity |].
  split; [vm_compute; reflexivity |].
  assert (Hrefused :
            LouvainGate.allowed
              (LouvainGate.check Scenario.hubAndOrphan "O" "H"
                 LouvainGate.defaultThreshold) = false)
    by (vm_compute; reflexivity).
  split; [exact Hrefused |].
  intros Hgated.
  destruct (gated_appends _ _ Hgated) as [l [Hl Hhead]].
  assert (Hwoven :
            edges (SemanticWeaver.weave Scenario.hubAndOrphan)
            = (edges Scenario.hubAndOrphan
                 ++ [{| Edge.source := "O"; Edge.target := "H";
                        Edge.type := "RELATED_TO" |}])%list)
    by (vm_compute; reflexivity).
  rewrite Hwoven in Hl. apply app_inv_head in Hl. subst l.
  cbn [Edge.source Edge.target] in Hhead.
  rewrite Hrefused in Hhead. discriminate Hhead.
Qed.

(** ** The store under the operations of the pipeline *)

Lemma insertEdge_nodes :
  forall db s t ty, nodes (ResonanceDB.insertEdge db s t ty) = nodes db.
Proof.
  intros. unfold ResonanceDB.insertEdge. destruct (existsb _ _); reflexivity.
Qed.

Lemma fold_nodes :
  forall (A : Type) (f : Store -> A -> Store) (l : list A),
    (forall db x, nodes (f db x) = nodes db) ->
    forall db, nodes (fold_left f l db) = nodes db.
Proof.
  intros A f l Hf. induction l as [| x l IH]; intros db; simpl.
  - reflexivity.
  - rewrite IH. apply Hf.
Qed.

Lemma safeInsertEdge_nodes :
  forall db s t ty, nodes (EdgeWeaver.safeInsertEdge db s t ty) = nodes db.
Proof.
  intros. unfold EdgeWeaver.safeInsertEdge.
  destruct (LouvainGate.allowed _); [apply insertEdge_nodes | reflexivity].
Qed.

Ltac nodes_cases :=
  cbv beta zeta;
  repeat match goal with
         | |- nodes (if ?c then _ else _) = _ => destruct c
         | |- nodes (match ?c with Some _ => _ | None => _ end) = _ => destruct c
         end;
  try reflexivity; try apply safeInsertEdge_nodes.

Lemma weave_nodes :
  forall lexicon db sourceNodeId content,
    nodes (EdgeWeaver.weave lexicon db sourceNodeId content) = nodes db.
Proof.
  intros. unfold EdgeWeaver.weave, EdgeWeaver.processMetadataTags,
    EdgeWeaver.processWikiLinks, EdgeWeaver.processTags.
  destruct (RegExp.firstMatch EdgeWeaver.reTagBlock content) as [m |].
  - destruct (JS.truthy (RegExp.group 1 m)).
    + rewrite fold_nodes by (intros; nodes_cases).
      rewrite fold_nodes by (intros; nodes_cases).
      rewrite fold_nodes by (intros; nodes_cases).
      apply fold_nodes. intros; nodes_cases.
    + rewrite fold_nodes by (intros; nodes_cases).
      rewrite fold_nodes by (intros; nodes_cases).
      apply fold_nodes. intros; nodes_cases.
  - rewrite fold_nodes by (intros; nodes_cases).
    rewrite fold_nodes by (intros; nodes_cases).
    apply fold_nodes. intros; nodes_cases.
Qed.

Lemma timeline_chain_nodes :
  forall datedNodes db, nodes (TimelineWeaver.chain db datedNodes) = nodes db.
Proof.
  induction datedNodes as [| current rest IH]; intros db; simpl.
  - reflexivity.
  - destruct rest as [| previous rest']; [reflexivity |].
    rewrite IH. apply insertEdge_nodes.
Qed.

Lemma timeline_weave_nodes :
  forall parseDate db, nodes (TimelineWeaver.weave parseDate db) = nodes db.
Proof.
  intros. unfold TimelineWeaver.weave.
  destruct (_ <? 2)%nat; [reflexivity | apply timeline_chain_nodes].
Qed.

Lemma semantic_weave_nodes :
  forall db, nodes (SemanticWeaver.weave db) = nodes db.
Proof.
  intros. unfold SemanticWeaver.weave. apply fold_nodes.
  intros db0 orphan. unfold SemanticWeaver.rescue.
  destruct (Row.embedding orphan); [| reflexivity].
  destruct (filter _ _); [reflexivity | apply insertEdge_nodes].
Qed.

Lemma runWeavers_nodes :
  forall svc db, nodes (Ingestor.runWeavers svc db) = nodes db.
Proof.
  intros. unfold Ingestor.runWeavers.
  rewrite semantic_weave_nodes. apply timeline_weave_nodes.
Qed.

Lemma find_app_first :
  forall (A : Type) (p : A -> bool) (l1 l2 : list A),
    find p (l1 ++ l2)
    = match find p l1 with Some x => Some x | None => find p l2 end.
Proof.
  intros A p l1 l2. induction l1 as [| x l1 IH]; simpl.
  - reflexivity.
  - destruct (p x); [reflexivity | exact IH].
Qed.

Lemma find_filter_other :
  forall (l : list Row.t) (id id' : string),
    id <> id' ->
    find (fun r => String.eqb (Row.id r) id)
      (filter (fun r => negb (String.eqb (Row.id r) id')) l)
    = find (fun r => String.eqb (Row.id r) id) l.
Proof.
  intros l id id' Hne. induction l as [| r l IH]; simpl.
  - reflexivity.
  - destruct (String.eqb_spec (Row.id r) id') as [E' | N']; simpl.
    + destruct (String.eqb_spec (Row.id r) id) as [E | N]; [congruence | exact IH].
    + rewrite IH. reflexivity.
Qed.

Lemma find_filter_same :
  forall (l : list Row.t) (id : string),
    find (fun r => String.eqb (Row.id r) id)
      (filter (fun r => negb (String.eqb (Row.id r) id)) l) = None.
Proof.
  intros l id. induction l as [| r l IH]; simpl.
  - reflexivity.
  - destruct (String.eqb_spec (Row.id r) id) as [E | N]; simpl.
    + exact IH.
    + destruct (String.eqb_spec (Row.id r) id); [contradiction | exact IH].
Qed.

(** The row read back after an upsert is the row written. *)
Lemma findRow_insertNode_same :
  forall db node,
    exists row,
      ResonanceDB.findRow (ResonanceDB.insertNode db node) (Node.id node) = Some row
      /\ Row.id row = Node.id node
      /\ Row.content row = truthyOrNull (Node.content node)
      /\ Row.hash row = truthyOrNull (Node.hash node).
Proof.
  intros db node. unfold ResonanceDB.findRow, ResonanceDB.insertNode. simpl.
  rewrite find_app_first, find_filter_same. simpl.
  rewrite String.eqb_refl. eexists. split; [reflexivity |]. simpl. auto.
Qed.

Lemma findRow_insertNode_other :
  forall db node id,
    id <> Node.id node ->
    ResonanceDB.findRow (ResonanceDB.insertNode db node) id = ResonanceDB.findRow db id.
Proof.
  intros db node id Hne. unfold ResonanceDB.findRow, ResonanceDB.insertNode. simpl.
  rewrite find_app_first, find_filter_other by assumption.
  destruct (find _ (nodes db)); [reflexivity |]. simpl.
  destruct (String.eqb_spec (Node.id node) id); [congruence | reflexivity].
Qed.

Lemma findRow_same_nodes :
  forall db db' id, nodes db' = nodes db ->
                    ResonanceDB.findRow db' id = ResonanceDB.findRow db id.
Proof.
  intros db db' id H. unfold ResonanceDB.findRow. rewrite H. reflexivity.
Qed.

(** The digest is never the empty string: 16 bytes print as 32 digits. *)
Lemma hashContent_truthy :
  forall text, JS.truthy (LocusLedger.hashContent text) = true.
Proof.
  intros text. unfold LocusLedger.hashContent, MD5.hex, MD5.digest.
  destruct (MD5.blocks _ _ _) as [[[a b] c] d]. reflexivity.
Qed.

(** ** [processBox] *)

(** The node that [processBox] upserts when the hash differs. *)
Lemma processBox_cases :
  forall svc lexicon weaver id content type meta sourcePath db,
    (* skipped *)
    (ResonanceDB.getNodeHash db id = Some (LocusLedger.hashContent content)
     /\ Ingestor.processBox svc lexicon weaver id content type meta sourcePath db
        = Returned tt db)
    \/ (* the embedder throws *)
    (ResonanceDB.getNodeHash db id <> Some (LocusLedger.hashContent content)
     /\ exists e,
        Ingestor.processBox svc lexicon weaver id content type meta sourcePath db
        = Threw e db)
    \/ (* upserted and woven *)
    (ResonanceDB.getNodeHash db id <> Some (LocusLedger.hashContent content)
     /\ exists node,
        Node.id node = id
        /\ Node.content node = Some content
        /\ Node.hash node = Some (LocusLedger.hashContent content)
        /\ Ingestor.processBox svc lexicon weaver id content type meta sourcePath db
           = Returned tt (EdgeWeaver.weave weaver (ResonanceDB.insertNode db node) id content)).
Proof.
  intros. unfold Ingestor.processBox.
  destruct (ResonanceDB.getNodeHash db id) as [h |] eqn:Hh.
  - destruct (String.eqb_spec h (LocusLedger.hashContent content)) as [E | N].
    + left. subst h. auto.
    + right.
      assert (Hne : Some h <> Some (LocusLedger.hashContent content)) by congruence.
      destruct (50 <? String.length content)%nat.
      * destruct (Ingestor.embed svc content) as [v | e]; simpl.
        -- right. split; [exact Hne |]. eexists. repeat split; simpl; reflexivity.
        -- left. split; [exact Hne |]. exists e. reflexivity.
      * simpl. right. split; [exact Hne |]. eexists. repeat split; simpl; reflexivity.
  - right.
    assert (Hne : @None string <> Some (LocusLedger.hashContent content)) by discriminate.
    destruct (50 <? String.length content)%nat.
    + destruct (Ingestor.embed svc content) as [v | e]; simpl.
      * right. split; [exact Hne |]. eexists. repeat split; simpl; reflexivity.
      * left. split; [exact Hne |]. exists e. reflexivity.
    + simpl. right. split; [exact Hne |]. eexists. repeat split; simpl; reflexivity.
Qed.

(** After a completed [processBox] the row of the box carries the digest
    of its content. *)
Lemma processBox_hash :
  forall svc lexicon weaver id content type meta sourcePath db db',
    Ingestor.processBox svc lexicon weaver id content type meta sourcePath db
    = Returned tt db' ->
    ResonanceDB.getNodeHash db' id = Some (LocusLedger.hashContent content).
Proof.
  intros until db'. intros Hrun.
  destruct (processBox_cases svc lexicon weaver id content type meta sourcePath db)
    as [[Hh Hs] | [[_ [e He]] | [_ (node & Hid & Hc & Hhash & Hu)]]].
  - rewrite Hs in Hrun. inversion Hrun; subst. exact Hh.
  - rewrite He in Hrun. discriminate.
  - rewrite Hu in Hrun. inversion Hrun; subst db'.
    unfold ResonanceDB.getNodeHash.
    rewrite (findRow_same_nodes (ResonanceDB.insertNode db node)) by apply weave_nodes.
    destruct (findRow_insertNode_same db node) as (row & Hf & _ & _ & Hrh).
    rewrite Hid in Hf. rewrite Hf, Hrh, Hhash. simpl.
    rewrite hashContent_truthy. reflexivity.
Qed.


(** ** Change detection *)



Section Boxes.
Variables (svc : Ingestor.Services) (lexicon : list EdgeWeaver.LexiconItem)
          (weaver : EdgeWeaver.Lexicon).




(** [processFile] runs [processBox] on the boxes of the file, in order. *)
Lemma processFile_boxes :
  forall f db,
    Ingestor.processFile svc lexicon weaver f db
    = Ingestor.processBoxes svc lexicon weaver (Ingestor.type f)
        (Ingestor.frontmatterOf (Ingestor.text f)) (Ingestor.path f)
        (Spec.fileBoxes f) 0 db.
Proof.
  intros f db. unfold Ingestor.processFile, Spec.fileBoxes.
  destruct (Ingestor.boxesOf (Ingestor.text f)) as [| box boxes].
  - destruct (10 <? String.length (Ingestor.text f))%nat; reflexivity.
  - reflexivity.
Qed.




End Boxes.



(** ** Content hashes *)

Lemma insertNode_consistent :
  forall db node,
    Spec.hashConsistent
      {| Row.id := Node.id node; Row.type := Node.type node;
         Row.title := truthyOrNull (Node.label node);
         Row.content := truthyOrNull (Node.content node);
         Row.domain := orElse (Node.domain node) "knowledge";
         Row.layer := orElse (Node.layer node) "experience";
         Row.embedding := option_map Fafcas.toFafcas (Node.embedding node);
         Row.hash := truthyOrNull (Node.hash node);
         Row.meta := Node.meta node |} = true ->
    Forall (fun r => Spec.hashConsistent r = true) (nodes db) ->
    Forall (fun r => Spec.hashConsistent r = true) (nodes (ResonanceDB.insertNode db node)).
Proof.
  intros db node Hrow Hall. unfold ResonanceDB.insertNode. simpl.
  apply Forall_app. split.
  - rewrite Forall_forall in *. intros r Hin. apply filter_In in Hin as [Hin _]. auto.
  - constructor; [exact Hrow | constructor].
Qed.

Lemma insertNode_no_hash_consistent :
  forall db node,
    Node.hash node = None ->
    Forall (fun r => Spec.hashConsistent r = true) (nodes db) ->
    Forall (fun r => Spec.hashConsistent r = true) (nodes (ResonanceDB.insertNode db node)).
Proof.
  intros db node Hnone. apply insertNode_consistent.
  unfold Spec.hashConsistent. simpl. rewrite Hnone. simpl.
  destruct (truthyOrNull (Node.content node)); reflexivity.
Qed.

Lemma fold_consistent :
  forall (A : Type) (f : Store -> A -> Store) (l : list A),
    (forall db x,
        Forall (fun r => Spec.hashConsistent r = true) (nodes db) ->
        Forall (fun r => Spec.hashConsistent r = true) (nodes (f db x))) ->
    forall db,
      Forall (fun r => Spec.hashConsistent r = true) (nodes db) ->
      Forall (fun r => Spec.hashConsistent r = true) (nodes (fold_left f l db)).
Proof.
  intros A f l Hf. induction l as [| x l IH]; intros db Hdb; simpl; auto.
Qed.

Lemma runPersona_consistent :
  forall corpus db,
    Forall (fun r => Spec.hashConsistent r = true) (nodes db) ->
    Forall (fun r => Spec.hashConsistent r = true)
      (nodes (snd (Ingestor.runPersona corpus db))).
Proof.
  intros corpus db Hdb. unfold Ingestor.runPersona, Ingestor.bootstrapLexicon,
    Ingestor.ingestCDA.
  assert (Hcda :
            forall db0,
              Forall (fun r => Spec.hashConsistent r = true) (nodes db0) ->
              Forall (fun r => Spec.hashConsistent r = true)
                (nodes match Ingestor.cdaFile corpus with
                       | Some entries => fold_left Ingestor.ingestEntry entries db0
                       | None => db0
                       end)).
  { intros db0 H0. destruct (Ingestor.cdaFile corpus); [| exact H0].
    apply fold_consistent; [| exact H0].
    intros db1 entry H1. unfold Ingestor.ingestEntry.
    rewrite fold_nodes.
    - apply insertNode_no_hash_consistent; [reflexivity | exact H1].
    - intros db2 rel. unfold Ingestor.ingestRelationship.
      destruct (LouvainGate.allowed _); [apply insertEdge_nodes | reflexivity]. }
  destruct (Ingestor.lexiconFile corpus); simpl; apply Hcda; [| exact Hdb].
  apply fold_consistent; [| exact Hdb].
  intros db1 item H1. apply insertNode_no_hash_consistent; [reflexivity | exact H1].
Qed.

Lemma processBox_consistent :
  forall svc lexicon weaver id content type meta sourcePath db,
    Forall (fun r => Spec.hashConsistent r = true) (nodes db) ->
    Forall (fun r => Spec.hashConsistent r = true)
      (nodes (storeOf (Ingestor.processBox svc lexicon weaver id content type meta
                         sourcePath db))).
Proof.
  intros until db. intros Hdb.
  destruct (processBox_cases svc lexicon weaver id content type meta sourcePath db)
    as [[_ Hs] | [[_ [e He]] | [_ (node & Hid & Hc & Hh & Hu)]]].
  - rewrite Hs. exact Hdb.
  - rewrite He. exact Hdb.
  - rewrite Hu. simpl. rewrite weave_nodes.
    apply insertNode_consistent; [| exact Hdb].
    unfold Spec.hashConsistent. simpl. rewrite Hc, Hh. simpl.
    rewrite hashContent_truthy.
    destruct (JS.truthy content); [apply String.eqb_refl | reflexivity].
Qed.

Lemma andThen_consistent :
  forall (A B : Type) (o : Outcome A) (k : A -> Store -> Outcome B),
    Forall (fun r => Spec.hashConsistent r = true) (nodes (storeOf o)) ->
    (forall a db1,
        Forall (fun r => Spec.hashConsistent r = true) (nodes db1) ->
        Forall (fun r => Spec.hashConsistent r = true) (nodes (storeOf (k a db1)))) ->
    Forall (fun r => Spec.hashConsistent r = true) (nodes (storeOf (andThen o k))).
Proof.
  intros A B o k Ho Hk. destruct o as [a db1 | e db1]; simpl in *; auto.
Qed.

Lemma processFiles_consistent :
  forall svc lexicon weaver files db,
    Forall (fun r => Spec.hashConsistent r = true) (nodes db) ->
    Forall (fun r => Spec.hashConsistent r = true)
      (nodes (storeOf (Ingestor.processFiles svc lexicon weaver files db))).
Proof.
  intros svc lexicon weaver files.
  induction files as [| f rest IH]; intros db Hdb; simpl; [exact Hdb |].
  apply andThen_consistent; [| intros; apply IH; assumption].
  rewrite processFile_boxes.
  generalize 0%nat as total. revert db Hdb.
  induction (Spec.fileBoxes f) as [| [locusId boxContent] boxes IHb];
    intros db Hdb total; simpl; [exact Hdb |].
  apply andThen_consistent; [apply processBox_consistent; exact Hdb |].
  intros _ db1 H1. apply IHb. exact H1.
Qed.

Lemma run_consistent :
  forall svc corpus db,
    Forall (fun r => Spec.hashConsistent r = true) (nodes db) ->
    Forall (fun r => Spec.hashConsistent r = true)
      (nodes (storeOf (Ingestor.run svc corpus db))).
Proof.
  intros svc corpus db Hdb. unfold Ingestor.run.
  destruct (Ingestor.embed svc "init"); [| exact Hdb].
  pose proof (runPersona_consistent corpus db Hdb) as Hp.
  destruct (Ingestor.runPersona corpus db) as [lexiconItems db1]. simpl in Hp.
  apply andThen_consistent; [| intros; assumption].
  unfold Ingestor.runExperience.
  apply andThen_consistent.
  - apply processFiles_consistent. exact Hp.
  - intros _ db2 H2. simpl. rewrite runWeavers_nodes. exact H2.
Qed.

(** C2 (amended). Through a whole run, every stored row that has both a
    content and a hash carries the MD5 of its trimmed content; and the row
    of a box that [processBox] has processed always has that hash. (The
    rows upserted in Phase 1 are written with a NULL hash.) *)
Theorem stored_hash_is_content_digest :
  (forall svc corpus db,
      Forall (fun r => Spec.hashConsistent r = true) (nodes db) ->
      Forall (fun r => Spec.hashConsistent r = true)
        (nodes (storeOf (Ingestor.run svc corpus db))))
  /\ (forall svc lexicon weaver id content type meta sourcePath db db',
         Ingestor.processBox svc lexicon weaver id content type meta sourcePath db
         = Returned tt db' ->
         ResonanceDB.getNodeHash db' id = Some (LocusLedger.hashContent content)).
Proof.
  split; [exact run_consistent | exact processBox_hash].
Qed.

(** C2 (counterexample). After Phase 1 on [Scenario.personaCorpus] the
    concept and the directive are stored with their content and a NULL
    hash. *)
Theorem persona_nodes_are_stored_without_hash :
  List.map (fun r => (Row.id r, Row.content r, Row.hash r, Spec.hashIsContentDigest r))
    (nodes (snd (Ingestor.runPersona Scenario.personaCorpus ResonanceDB.emptyStore)))
  = [ ("term-flow-state", Some "A state of deep focus.", None, false);
      ("phi-1", Some "Prefer clarity over cleverness.", None, false) ].
Proof.
  vm_compute. reflexivity.
Qed.

(** Witness of C2: a run on [Scenario.notesCorpus] from the empty store,
    and the box [box-2] of its first file. *)
Lemma stored_hash_is_content_digest_witness :
  Forall (fun r => Spec.hashConsistent r = true)
    (nodes (storeOf (Ingestor.run Scenario.services Scenario.notesCorpus
                       ResonanceDB.emptyStore)))
  /\ ResonanceDB.getNodeHash
       (storeOf (Ingestor.processBox Scenario.services [] [] "box-2" "Second box."
                   "note" [] "notes/2025-01-02-plan.md" ResonanceDB.emptyStore))
       "box-2"
     = Some (LocusLedger.hashContent "Second box.").
Proof.
  split.
  - apply (proj1 stored_hash_is_content_digest Scenario.services Scenario.notesCorpus
             ResonanceDB.emptyStore).
    simpl. constructor.
  - apply (proj2 stored_hash_is_content_digest Scenario.services [] [] "box-2"
             "Second box." "note" [] "notes/2025-01-02-plan.md" ResonanceDB.emptyStore).
    vm_compute. reflexivity.
Defined.


(** ** Regular expressions that begin with a literal *)

Lemma run_lit_fail :
  forall L prev s caps k,
    JS.startsWith L s = false -> RegExp.run (RegExp.lit L) prev s caps k = None.
Proof.
  induction L as [| a L IH]; intros prev s caps k H; simpl in *.
  - discriminate.
  - destruct s as [| b s']; [reflexivity |].
    destruct (Ascii.eqb a b); simpl in H; [apply IH; exact H | reflexivity].
Qed.




Lemma replaceAll_Chr :
  forall p by_ s, RegExp.replaceAll (RegExp.Chr p) by_ s = Spec.substChars p by_ s.
Proof.
  intros p by_ s. unfold RegExp.replaceAll, RegExp.pieces.
  generalize (@None ascii) as prev.
  induction s as [| c s' IH]; intros prev; [reflexivity |].
  cbn [RegExp.scan]. unfold RegExp.matchAt. cbn [RegExp.run].
  destruct (p c) eqn:Hp.
  - cbn [RegExp.text String.length].
    replace (S (String.length s') - String.length s')%nat with 1%nat by lia.
    cbn [JS.take String.length fold_right Spec.substChars].
    rewrite Hp, IH. reflexivity.
  - cbn [fold_right Spec.substChars]. rewrite Hp, IH. reflexivity.
Qed.

Lemma fileId_is_slug :
  forall filePath, Spec.allChars Spec.isSlugChar (Ingestor.fileId filePath) = true.
Proof.
  intros filePath. unfold Ingestor.fileId, Ingestor.reNotSlugChar.
  rewrite replaceAll_Chr.
  induction (JS.toLowerCase _) as [| c s IH]; [reflexivity |].
  cbn [Spec.substChars].
  destruct (RegExp.notC _ c) eqn:Hc.
  - simpl. exact IH.
  - cbn [Spec.allChars]. rewrite IH, andb_true_r.
    unfold RegExp.notC, RegExp.orC, RegExp.only in Hc.
    apply negb_false_iff in Hc. unfold Spec.isSlugChar.
    rewrite orb_assoc in Hc. exact Hc.
Qed.

(** ** Success of a match does not depend on the captures *)

(** A match that succeeds with a continuation succeeds with every
    continuation that accepts wherever the first one does. *)
Lemma run_succeeds :
  forall r prev s caps1 caps2
         (k1 k2 : option ascii -> string -> RegExp.Caps -> option RegExp.Res),
    (forall p1 s1 c1 c2, k1 p1 s1 c1 <> None -> k2 p1 s1 c2 <> None) ->
    RegExp.run r prev s caps1 k1 <> None -> RegExp.run r prev s caps2 k2 <> None.
Proof.
  induction r as [| p | a IHa b IHb | a IHa b IHb | greedy a IHa | n a IHa | a IHa | | |];
    intros prev s caps1 caps2 k1 k2 Hk; cbn [RegExp.run].
  - apply Hk.
  - destruct s as [| c s']; [auto |]. destruct (p c); [apply Hk | auto].
  - apply IHa. intros p1 s1 c1 c2. apply IHb, Hk.
  - intros H.
    destruct (RegExp.run a prev s caps1 k1) eqn:H1.
    + assert (H2 : RegExp.run a prev s caps2 k2 <> None)
        by (apply (IHa prev s caps1 caps2 k1 k2 Hk); rewrite H1; discriminate).
      destruct (RegExp.run a prev s caps2 k2); [discriminate | contradiction].
    + destruct (RegExp.run a prev s caps2 k2); [discriminate |].
      apply (IHb prev s caps1 caps2 k1 k2 Hk H).
  - generalize (String.length s) as fuel. intros fuel. revert prev s caps1 caps2.
    induction fuel as [| fuel IHf]; intros prev s caps1 caps2; [apply Hk |].
    destruct greedy.
    + intros H.
      match goal with
      | |- match RegExp.run a prev s caps2 ?K2 with _ => _ end <> None =>
          destruct (RegExp.run a prev s caps2 K2) eqn:H2; [discriminate |]
      end.
      match type of H with
      | match RegExp.run a prev s caps1 ?K1 with _ => _ end <> None =>
          destruct (RegExp.run a prev s caps1 K1) eqn:H1
      end.
      * exfalso. revert H2.
        match goal with
        | |- RegExp.run a prev s caps2 ?K2 = None -> False =>
            apply (IHa prev s caps1 caps2
                     (fun p1 s1 c1 =>
                        if (String.length s1 <? String.length s)%nat
                        then
                          (fix loop (n : nat) (prev : option ascii) (s : string)
                                    (caps : RegExp.Caps) {struct n} : option RegExp.Res :=
                             match n with
                             | O => k1 prev s caps
                             | S n' =>
                                 match
                                   RegExp.run a prev s caps
                                     (fun p1 s1 c1 =>
                                        if (String.length s1 <? String.length s)%nat
                                        then loop n' p1 s1 c1 else None)
                                 with
                                 | Some res => Some res
                                 | None => k1 prev s caps
                                 end
                             end) fuel p1 s1 c1
                        else None) K2)
        end.
        -- intros p1 s1 c1 c2. destruct (String.length s1 <? String.length s)%nat;
             [apply IHf | auto].
        -- rewrite H1. discriminate.
      * apply (Hk prev s caps1 caps2 H).
    + intros H.
      destruct (k2 prev s caps2) eqn:H2; [discriminate |].
      destruct (k1 prev s caps1) eqn:H1.
      * exfalso. apply (Hk prev s caps1 caps2); [rewrite H1; discriminate | exact H2].
      * revert H. apply IHa. intros p1 s1 c1 c2.
        destruct (String.length s1 <? String.length s)%nat; [apply IHf | auto].
  - apply IHa. intros p1 s1 c1 c2. apply Hk.
  - intros H.
    destruct (RegExp.run a prev s caps1 (fun p1 s1 c1 => Some (p1, s1, c1)))
      as [[[q1 t1] d1] |] eqn:H1; [| contradiction].
    assert (H2 : RegExp.run a prev s caps2 (fun p1 s1 c1 => Some (p1, s1, c1)) <> None).
    { apply (IHa prev s caps1 caps2 (fun p1 s1 c1 => Some (p1, s1, c1))
               (fun p1 s1 c1 => Some (p1, s1, c1))); [discriminate |].
      rewrite H1. discriminate. }
    destruct (RegExp.run a prev s caps2 (fun p1 s1 c1 => Some (p1, s1, c1)))
      as [[[q2 t2] d2] |]; [| contradiction].
    apply (Hk prev s d1 d2 H).
  - destruct prev; [auto | apply Hk].
  - destruct s; [apply Hk | auto].
  - destruct (xorb _ _); [apply Hk | auto].
Qed.

Lemma startsWith_prefix :
  forall a b s, JS.startsWith (a ++ b) s = true -> JS.startsWith a s = true.
Proof.
  induction a as [| x a IH]; intros b s H; [destruct s; reflexivity |].
  destruct s as [| y s]; cbn [append JS.startsWith] in *; [discriminate H |].
  apply andb_true_iff in H as [Hxy H]. rewrite Hxy. apply (IH b s H).
Qed.

Lemma run_lit_succeeds :
  forall L prev s caps,
    JS.startsWith L s = true ->
    RegExp.run (RegExp.lit L) prev s caps (fun p1 s1 c1 => Some (p1, s1, c1)) <> None.
Proof.
  intros L prev s caps H.
  assert (G : forall k : option ascii -> string -> RegExp.Caps -> option RegExp.Res,
             (forall p1 s1 c1, k p1 s1 c1 <> None) ->
             RegExp.run (RegExp.lit L) prev s caps k <> None);
    [| apply G; discriminate].
  revert prev s H. induction L as [| x L IH]; intros prev s H k Hk; cbn [RegExp.lit RegExp.run].
  - apply Hk.
  - destruct s as [| y s]; cbn [JS.startsWith] in H; [discriminate H |].
    apply andb_true_iff in H as [Hxy H]. rewrite Hxy. apply IH; assumption.
Qed.

(** Where the pattern of the boxes matches, there is a locus marker. *)
Lemma boxRegex_needs_marker :
  forall prev s,
    RegExp.matchAt Spec.locusMarker prev s = None ->
    RegExp.matchAt Ingestor.boxRegex prev s = None.
Proof.
  intros prev s H. unfold RegExp.matchAt in *.
  destruct (RegExp.run Ingestor.boxRegex prev s [] (fun p1 s1 c1 => Some (p1, s1, c1)))
    as [res |] eqn:Hbox; [exfalso | reflexivity].
  assert (Hm : RegExp.run Spec.locusMarker prev s [] (fun p1 s1 c1 => Some (p1, s1, c1))
               <> None).
  { unfold Spec.locusMarker. unfold Ingestor.boxRegex in Hbox.
    cbn [RegExp.run] in Hbox |- *.
    revert Hbox.
    match goal with
    | |- RegExp.run (RegExp.lit ?L) prev s [] ?K1 = Some res -> _ =>
        intros Hbox;
        apply (run_succeeds (RegExp.lit L) prev s [] [] K1)
    end; [| rewrite Hbox; discriminate].
    intros p1 s1 c1 c2.
    apply (run_succeeds
             (RegExp.Plus true
                (RegExp.Chr
                   (RegExp.orC JS.isLower
                      (RegExp.orC JS.isUpper (RegExp.orC JS.isDigit (RegExp.only "-"))))))).
    intros p2 s2 c3 c4 Hrest.
    destruct (JS.startsWith (" -->" ++ Ingestor.newline) s2) eqn:Hs.
    - apply run_lit_succeeds. apply (startsWith_prefix _ Ingestor.newline), Hs.
    - exfalso. apply Hrest. apply run_lit_fail, Hs. }
  destruct (RegExp.run Spec.locusMarker prev s [] (fun p1 s1 c1 => Some (p1, s1, c1)))
    as [[[q t] d] |]; [discriminate H | contradiction].
Qed.

Lemma matchAll_nil :
  forall r s prev,
    flat_map (fun p => match p with RegExp.Hit m => [m] | RegExp.Out _ => [] end)
      (RegExp.scan r prev s 0) = [] ->
    RegExp.matchAt r prev s = None
    /\ match s with
       | String c s' =>
           flat_map (fun p => match p with RegExp.Hit m => [m] | RegExp.Out _ => [] end)
             (RegExp.scan r (Some c) s' 0) = []
       | EmptyString => True
       end.
Proof.
  intros r s prev H. destruct s as [| c s']; cbn [RegExp.scan] in H.
  - destruct (RegExp.matchAt r prev ""); [discriminate H | auto].
  - destruct (RegExp.matchAt r prev (String c s')); [discriminate H |].
    split; [reflexivity | exact H].
Qed.

Lemma markerless_has_no_box :
  forall text,
    RegExp.matchAll Spec.locusMarker text = [] -> Ingestor.boxesOf text = [].
Proof.
  intros text H. unfold Ingestor.boxesOf.
  assert (Hnone : RegExp.matchAll Ingestor.boxRegex text = []); [| rewrite Hnone; reflexivity].
  unfold RegExp.matchAll, RegExp.pieces in *. revert H.
  generalize (@None ascii) as prev.
  induction text as [| c s IH]; intros prev H; apply matchAll_nil in H as [Hm Hrest];
    cbn [RegExp.scan]; rewrite (boxRegex_needs_marker _ _ Hm).
  - reflexivity.
  - cbn [flat_map app]. apply IH, Hrest.
Qed.

(** ** [processFile] on a file without marker *)

(** C9 (amended). A text without locus marker has no box, and a file in
    which the loop of [processFile] finds no box is, when it is longer than
    10 characters, passed whole to [processBox] under the id made from its
    name (first [.md] removed, lowercased, every character outside
    [a-z0-9-] replaced by [-]); when it has at most 10 characters it is
    skipped and the store is returned untouched. *)
Theorem markerless_file_is_one_box_when_longer_than_10 :
  (forall text,
      RegExp.matchAll Spec.locusMarker text = [] -> Ingestor.boxesOf text = [])
  /\ (forall svc lexicon weaver f db,
        Ingestor.boxesOf (Ingestor.text f) = [] ->
        Spec.allChars Spec.isSlugChar (Ingestor.fileId (Ingestor.path f)) = true
        /\ Ingestor.processFile svc lexicon weaver f db
           = if (10 <? String.length (Ingestor.text f))%nat then
               _ <- Ingestor.processBox svc lexicon weaver
                      (Ingestor.fileId (Ingestor.path f)) (Ingestor.text f)
                      (Ingestor.type f)
                      (Ingestor.frontmatterOf (Ingestor.text f)) (Ingestor.path f) db ;;
               Returned (String.length (Ingestor.text f))
             else Returned 0%nat db).
Proof.
  split; [exact markerless_has_no_box |].
  intros svc lexicon weaver f db H. split; [apply fileId_is_slug |].
  unfold Ingestor.processFile. rewrite H. reflexivity.
Qed.

Lemma markerless_file_is_one_box_when_longer_than_10_witness :
  Spec.allChars Spec.isSlugChar (Ingestor.fileId (Ingestor.path Scenario.plainFile)) = true
  /\ Ingestor.processFile Scenario.services [] [] Scenario.plainFile ResonanceDB.emptyStore
     = if (10 <? String.length (Ingestor.text Scenario.plainFile))%nat then
         _ <- Ingestor.processBox Scenario.services [] []
                (Ingestor.fileId (Ingestor.path Scenario.plainFile))
                (Ingestor.text Scenario.plainFile) (Ingestor.type Scenario.plainFile)
                (Ingestor.frontmatterOf (Ingestor.text Scenario.plainFile))
                (Ingestor.path Scenario.plainFile) ResonanceDB.emptyStore ;;
         Returned (String.length (Ingestor.text Scenario.plainFile))
       else Returned 0%nat ResonanceDB.emptyStore.
Proof.
  apply (proj2 markerless_file_is_one_box_when_longer_than_10 Scenario.services [] []
           Scenario.plainFile ResonanceDB.emptyStore).
  apply (proj1 markerless_file_is_one_box_when_longer_than_10).
  vm_compute. reflexivity.
Defined.

(** C9 (counterexample). [Scenario.shortFile] has no marker and three
    characters: [processFile] returns 0 and stores nothing, whereas the box
    path would have stored the node [todo]. *)
Theorem short_markerless_file_is_not_ingested :
  JS.includes "<!-- locus:" (Ingestor.text Scenario.shortFile) = false
  /\ RegExp.matchAll Spec.locusMarker (Ingestor.text Scenario.shortFile) = []
  /\ Ingestor.fileId (Ingestor.path Scenario.shortFile) = "todo"
  /\ Ingestor.processFile Scenario.services [] [] Scenario.shortFile ResonanceDB.emptyStore
     = Returned 0%nat ResonanceDB.emptyStore
  /\ ResonanceDB.getNodeHash
       (storeOf (Ingestor.processBox Scenario.services [] [] "todo"
                   (Ingestor.text Scenario.shortFile) (Ingestor.type Scenario.shortFile)
                   (Ingestor.frontmatterOf (Ingestor.text Scenario.shortFile))
                   (Ingestor.path Scenario.shortFile) ResonanceDB.emptyStore))
       "todo"
     = Some (LocusLedger.hashContent "- a").
Proof.
  vm_compute. repeat split.
Qed.

(** ** The order of the numbers *)

Lemma ltb_key :
  forall x y,
    x <> S754_nan -> y <> S754_nan ->
    (F64.ltb x y = true <-> Spec.lexLt (Spec.orderKey x) (Spec.orderKey y)).
Proof.
  intros x y Hx Hy. unfold F64.ltb, SFltb, SFcompare.
  destruct x as [sx | sx | | sx mx ex], y as [sy | sy | | sy my ey]; try congruence;
    try destruct sx; try destruct sy; simpl;
    try (split; [discriminate | lia]);
    try (split; [intros _; lia | reflexivity]).
  all: fold (Pos.compare mx my);
    destruct (Z.compare_spec ex ey); destruct (Pos.compare_spec mx my); simpl;
    split; try discriminate; try lia; try reflexivity.
Qed.

Lemma ltb_false_trans :
  forall x y z,
    x <> S754_nan -> y <> S754_nan -> z <> S754_nan ->
    F64.ltb x y = false -> F64.ltb y z = false -> F64.ltb x z = false.
Proof.
  intros x y z Hx Hy Hz Hxy Hyz.
  apply not_true_iff_false. apply not_true_iff_false in Hxy, Hyz.
  rewrite ltb_key in * by assumption.
  destruct (Spec.orderKey x) as [[x1 x2] x3], (Spec.orderKey y) as [[y1 y2] y3],
    (Spec.orderKey z) as [[z1 z2] z3].
  unfold Spec.lexLt in *. lia.
Qed.

Lemma ltb_asym :
  forall x y,
    x <> S754_nan -> y <> S754_nan -> F64.ltb x y = true -> F64.ltb y x = false.
Proof.
  intros x y Hx Hy Hxy. apply not_true_iff_false.
  rewrite ltb_key in * by assumption.
  destruct (Spec.orderKey x) as [[x1 x2] x3], (Spec.orderKey y) as [[y1 y2] y3].
  unfold Spec.lexLt in *. lia.
Qed.

Lemma gtb_zero_not_nan :
  forall x, F64.gtb x F64.zero = true -> x <> S754_nan.
Proof.
  intros x H ->. discriminate.
Qed.

Lemma shr_1_nonneg :
  forall mrs, (0 <= shr_m mrs)%Z -> (0 <= shr_m (shr_1 mrs))%Z.
Proof.
  intros [m r s] H. simpl in *.
  destruct m as [| [p | p |] | [p | p |]]; simpl; lia.
Qed.

Lemma iter_shr_1_nonneg :
  forall p mrs, (0 <= shr_m mrs)%Z -> (0 <= shr_m (iter_pos shr_1 p mrs))%Z.
Proof.
  induction p as [p IH | p IH |]; intros mrs H; simpl.
  - apply IH, IH, shr_1_nonneg, H.
  - apply IH, IH, H.
  - apply shr_1_nonneg, H.
Qed.




(** ** Stable sorting and slicing *)

Lemma insertSorted_perm :
  forall (A : Type) (before : A -> A -> bool) (x : A) (l : list A),
    Permutation (insertSorted before x l) (x :: l).
Proof.
  intros A before x l. induction l as [| y r IH]; simpl.
  - apply Permutation_refl.
  - destruct (before y x).
    + eapply perm_trans; [apply perm_skip, IH | apply perm_swap].
    + apply Permutation_refl.
Qed.

Lemma sortBy_perm :
  forall (A : Type) (before : A -> A -> bool) (l : list A),
    Permutation (sortBy before l) l.
Proof.
  intros A before l. induction l as [| x l IH]; simpl.
  - apply perm_nil.
  - eapply perm_trans; [apply insertSorted_perm | apply perm_skip, IH].
Qed.

Lemma Forall_perm :
  forall (A : Type) (P : A -> Prop) (l1 l2 : list A),
    Permutation l1 l2 -> Forall P l1 -> Forall P l2.
Proof.
  intros A P l1 l2 Hp H. rewrite Forall_forall in *. intros x Hx.
  apply H. eapply Permutation_in; [apply Permutation_sym, Hp | exact Hx].
Qed.

Lemma firstn_In :
  forall (A : Type) (n : nat) (l : list A) (x : A), In x (firstn n l) -> In x l.
Proof.
  intros A n. induction n as [| n IH]; intros l x H; simpl in H; [contradiction |].
  destruct l as [| y l]; [contradiction |].
  destruct H as [-> | H]; [left; reflexivity | right; apply IH, H].
Qed.

(** Insertion keeps a list sorted when, on the elements at hand, [before]
    is asymmetric and "not before" is transitive. *)
Lemma insertSorted_sorted :
  forall (A : Type) (before : A -> A -> bool) (P : A -> Prop),
    (forall a b, P a -> P b -> before a b = true -> before b a = false) ->
    (forall a b c, P a -> P b -> P c ->
                   before b a = false -> before c b = false -> before c a = false) ->
    forall x l,
      P x -> Forall P l ->
      StronglySorted (fun a b => before b a = false) l ->
      StronglySorted (fun a b => before b a = false) (insertSorted before x l).
Proof.
  intros A before P Hasym Htrans x l Px Pl Hs.
  induction l as [| y r IH]; simpl.
  - constructor; constructor.
  - inversion Pl as [| y' r' Py Pr]; subst.
    inversion Hs as [| y' r' Hsr Hyr]; subst.
    destruct (before y x) eqn:Hyx.
    + constructor; [apply IH; assumption |].
      apply (Forall_perm _ _ (x :: r)).
      * apply Permutation_sym, insertSorted_perm.
      * constructor; [apply Hasym; assumption | exact Hyr].
    + constructor; [exact Hs |].
      constructor; [exact Hyx |].
      rewrite Forall_forall in *. intros z Hz.
      apply (Htrans x y z); auto.
Qed.

Lemma sortBy_sorted :
  forall (A : Type) (before : A -> A -> bool) (P : A -> Prop),
    (forall a b, P a -> P b -> before a b = true -> before b a = false) ->
    (forall a b c, P a -> P b -> P c ->
                   before b a = false -> before c b = false -> before c a = false) ->
    forall l,
      Forall P l -> StronglySorted (fun a b => before b a = false) (sortBy before l).
Proof.
  intros A before P Hasym Htrans l Pl. induction l as [| x l IH]; simpl.
  - constructor.
  - inversion Pl as [| x' l' Px Pl']; subst.
    eapply insertSorted_sorted; eauto.
    apply (Forall_perm _ _ l); [apply Permutation_sym, sortBy_perm | exact Pl'].
Qed.

Lemma StronglySorted_firstn :
  forall (A : Type) (R : A -> A -> Prop) (n : nat) (l : list A),
    StronglySorted R l -> StronglySorted R (firstn n l).
Proof.
  intros A R n. induction n as [| n IH]; intros l Hs; simpl.
  - constructor.
  - destruct l as [| x l]; [constructor |].
    inversion Hs as [| x' l' Hsl Hx]; subst.
    constructor; [apply IH, Hsl |].
    rewrite Forall_forall in *. intros y Hy. apply Hx.
    eapply firstn_In; eassumption.
Qed.

Lemma In_slice0 :
  forall (A : Type) (limit : Z) (l : list A) (x : A), In x (slice0 limit l) -> In x l.
Proof.
  intros A limit l x. unfold slice0.
  destruct (limit <? 0)%Z; apply firstn_In.
Qed.


Lemma slice0_length :
  forall (A : Type) (limit : Z) (l : list A),
    (0 <= limit)%Z -> (Z.of_nat (List.length (slice0 limit l)) <= limit)%Z.
Proof.
  intros A limit l H. unfold slice0.
  destruct (Z.ltb_spec limit 0); [lia |].
  pose proof (firstn_le_length (Z.to_nat limit) l). lia.
Qed.

(** ** The candidate map of the hybrid search *)





Lemma get_None :
  forall k m, ~ In k (List.map fst m) -> McpServer.get k m = None.
Proof.
  intros k m. induction m as [| [k0 v0] r IH]; simpl; intros H; [reflexivity |].
  destruct (String.eqb_spec k0 k); [tauto | apply IH; tauto].
Qed.

















(** ** The vector path *)



(** ** Hybrid search *)





(** ** VectorCodec *)

Lemma bytes_length :
  forall v, List.length (F32.bytes v) = 4 * List.length v.
Proof.
  induction v as [| x v IH]; [reflexivity |].
  change (F32.bytes (x :: v)) with (MD5.leBytes 4 (F32.bits x) ++ F32.bytes v)%list.
  rewrite length_app, IH. cbn [MD5.leBytes List.length]. lia.
Qed.

Lemma toFafcas_length :
  forall v, List.length (Fafcas.toFafcas v) = List.length v.
Proof.
  intros v. unfold Fafcas.toFafcas.
  destruct (F64.gtb _ _); [apply length_map | reflexivity].
Qed.

Lemma digits2_pos_bound :
  forall m, (Zpos m < 2 ^ Zpos (digits2_pos m))%Z.
Proof.
  induction m as [p IH | p IH |]; simpl digits2_pos.
  - rewrite Pos2Z.inj_succ, Z.pow_succ_r by lia. lia.
  - rewrite Pos2Z.inj_succ, Z.pow_succ_r by lia. lia.
  - reflexivity.
Qed.

(** The bit pattern of a binary32 value fits 32 bits and is zero for [+0]
    only. *)
Lemma bits_range :
  forall x,
    F32.valid x = true ->
    (0 <= F32.bits x < 4294967296)%Z /\ (F32.bits x = 0%Z <-> x = S754_zero false).
Proof.
  intros x Hv. destruct x as [s | s | | s m e]; unfold F32.bits, F32.signBit.
  - destruct s; (split; [lia |]); split; try discriminate; try lia; reflexivity.
  - destruct s; (split; [lia |]); split; try discriminate; lia.
  - split; [lia |]. split; [lia | discriminate].
  - unfold F32.valid, valid_binary, bounded, canonical_mantissa, fexp, emin in Hv.
    apply andb_true_iff in Hv as [Hc He].
    apply Z.eqb_eq in Hc. apply Z.leb_le in He.
    pose proof (digits2_pos_bound m) as Hd.
    assert (Hd24 : (Zpos (digits2_pos m) <= 24)%Z) by lia.
    assert (Hm : (Zpos m < 2 ^ 24)%Z).
    { eapply Z.lt_le_trans; [exact Hd |]. apply Z.pow_le_mono_r; lia. }
    change (2 ^ 24)%Z with 16777216%Z in Hm.
    assert (He' : (-149 <= e <= 104)%Z) by lia.
    destruct (Z.ltb_spec (Zpos m) 8388608); destruct s;
      (split; [lia |]); split; try discriminate; lia.
Qed.

Lemma leBytes4_zero :
  forall n,
    (0 <= n < 4294967296)%Z ->
    (forallb (fun b => (b =? 0)%Z) (MD5.leBytes 4 n) = true <-> n = 0%Z).
Proof.
  intros n Hn. cbn [MD5.leBytes forallb].
  rewrite !andb_true_iff, !Z.eqb_eq.
  pose proof (Z.div_mod n 256). pose proof (Z.div_mod (n / 256) 256).
  pose proof (Z.div_mod (n / 256 / 256) 256).
  pose proof (Z.div_mod (n / 256 / 256 / 256) 256).
  pose proof (Z.mod_pos_bound n 256). pose proof (Z.mod_pos_bound (n / 256) 256).
  pose proof (Z.mod_pos_bound (n / 256 / 256) 256).
  pose proof (Z.mod_pos_bound (n / 256 / 256 / 256) 256).
  assert (0 <= n / 256 / 256 / 256 / 256)%Z by (repeat apply Z.div_pos; lia).
  split.
  - intros (Hb0 & Hb1 & Hb2 & Hb3 & _). lia.
  - intros ->. repeat split.
Qed.

Lemma allZeroBytes_iff :
  forall v,
    forallb F32.valid v = true ->
    (F32.allZeroBytes v = true <-> Forall (fun x => x = S754_zero false) v).
Proof.
  unfold F32.allZeroBytes.
  induction v as [| x v IH]; intros Hv.
  - split; [constructor | reflexivity].
  - change (F32.bytes (x :: v)) with (MD5.leBytes 4 (F32.bits x) ++ F32.bytes v)%list.
    simpl in Hv. apply andb_true_iff in Hv as [Hx Hv].
    destruct (bits_range x Hx) as [Hr Hz].
    rewrite forallb_app, andb_true_iff, leBytes4_zero, Hz, IH by assumption.
    split.
    + intros [? ?]. constructor; assumption.
    + intros H. inversion H; subst. auto.
Qed.

(** ** Rounding: what [binary_round_aux] does to a mantissa *)

Lemma digits2_pos_low :
  forall m, (2 ^ (Zpos (digits2_pos m) - 1) <= Zpos m)%Z.
Proof.
  induction m as [p IH | p IH |]; simpl digits2_pos.
  - rewrite Pos2Z.inj_succ. replace (Z.succ (Zpos (digits2_pos p)) - 1)%Z
      with (Z.succ (Zpos (digits2_pos p) - 1))%Z by lia.
    rewrite Z.pow_succ_r by lia. lia.
  - rewrite Pos2Z.inj_succ. replace (Z.succ (Zpos (digits2_pos p)) - 1)%Z
      with (Z.succ (Zpos (digits2_pos p) - 1))%Z by lia.
    rewrite Z.pow_succ_r by lia. lia.
  - reflexivity.
Qed.

Lemma Zdigits2_nonneg :
  forall m, (0 <= m)%Z -> (0 <= Zdigits2 m)%Z.
Proof.
  intros [| p | p] H; simpl; lia.
Qed.

(** A number below [2^k] has at most [k] binary digits. *)
Lemma Zdigits2_le :
  forall m k, (0 <= m < 2 ^ k)%Z -> (0 <= k)%Z -> (Zdigits2 m <= k)%Z.
Proof.
  intros [| p | p] k [H0 H] Hk; simpl; [lia | | lia].
  pose proof (digits2_pos_low p) as Hl.
  destruct (Z_le_gt_dec (Zpos (digits2_pos p)) k) as [Hle | Hgt]; [exact Hle | exfalso].
  assert (2 ^ k <= 2 ^ (Zpos (digits2_pos p) - 1))%Z by (apply Z.pow_le_mono_r; lia).
  lia.
Qed.

Lemma shr_1_half :
  forall mrs, (0 <= shr_m mrs)%Z -> shr_m (shr_1 mrs) = (shr_m mrs / 2)%Z.
Proof.
  intros [m r s] H. simpl in *.
  destruct m as [| [p | p |] | q]; simpl shr_m; try lia.
  - reflexivity.
  - apply Z.div_unique with (r := 1%Z); lia.
  - apply Z.div_unique with (r := 0%Z); lia.
  - reflexivity.
Qed.

Lemma iter_shr_1_div :
  forall p mrs,
    (0 <= shr_m mrs)%Z ->
    shr_m (iter_pos shr_1 p mrs) = (shr_m mrs / 2 ^ Zpos p)%Z.
Proof.
  induction p as [p IH | p IH |]; intros mrs H; simpl iter_pos.
  - rewrite IH, IH, shr_1_half by
      (try apply iter_shr_1_nonneg; try apply shr_1_nonneg; exact H).
    rewrite !Z.div_div by lia.
    f_equal. rewrite Pos2Z.inj_xI.
    replace (2 * Zpos p + 1)%Z with (1 + Zpos p + Zpos p)%Z by lia.
    rewrite !Z.pow_add_r by lia. change (2 ^ 1)%Z with 2%Z. ring.
  - rewrite IH, IH by (try apply iter_shr_1_nonneg; exact H).
    rewrite !Z.div_div by lia.
    f_equal. rewrite <- Z.pow_add_r by lia. f_equal. lia.
  - apply shr_1_half, H.
Qed.

(** [shr] divides the mantissa by [2^n] and adds [n] to the exponent, for
    a positive [n], and does nothing otherwise. *)
Lemma shr_div :
  forall mrs e n,
    (0 <= shr_m mrs)%Z ->
    shr_m (fst (shr mrs e n)) = (shr_m mrs / 2 ^ Z.max 0 n)%Z
    /\ snd (shr mrs e n) = (e + Z.max 0 n)%Z.
Proof.
  intros mrs e n H. destruct n as [| p | p]; cbn [shr fst snd].
  - rewrite Z.max_l, Z.div_1_r by lia. split; [reflexivity | lia].
  - rewrite Z.max_r by lia. split; [apply iter_shr_1_div, H | reflexivity].
  - rewrite Z.max_l, Z.div_1_r by lia. split; [reflexivity | lia].
Qed.

Lemma shr_fexp_div :
  forall prec emax m e l,
    (0 <= m)%Z ->
    let n := Z.max 0 (fexp prec emax (Zdigits2 m + e) - e) in
    shr_m (fst (shr_fexp prec emax m e l)) = (m / 2 ^ n)%Z
    /\ snd (shr_fexp prec emax m e l) = (e + n)%Z.
Proof.
  intros prec emax m e l H n. unfold shr_fexp.
  assert (Hm : shr_m (shr_record_of_loc m l) = m) by (destruct l as [| []]; reflexivity).
  rewrite <- Hm at 3. apply shr_div. rewrite Hm. exact H.
Qed.

Lemma round_nearest_even_range :
  forall m l, (m <= round_nearest_even m l <= m + 1)%Z.
Proof.
  intros m l. unfold round_nearest_even.
  destruct l as [| []]; try lia. destruct (Z.even m); lia.
Qed.

(** The shape of a rounded result: the mantissa [mx] is divided by [2^n1],
    moved by at most one, and divided once more by [2^n2]; the exponent of
    the result is bounded by that of the input and by its magnitude. *)
Lemma binary_round_aux_shape :
  forall prec emax s mx ex lx,
    (0 < prec)%Z -> (0 <= mx)%Z ->
    exists n1 m2 n2,
      (0 <= n1)%Z /\ (0 <= n2)%Z
      /\ (mx / 2 ^ n1 <= m2 <= mx / 2 ^ n1 + 1)%Z
      /\ (emin prec emax <= ex + n1)%Z
      /\ (ex + n1 + n2
          <= Z.max ex (Z.max (Zdigits2 mx + ex + 1 - prec) (emin prec emax)))%Z
      /\ ((ex < fexp prec emax (Zdigits2 mx + ex))%Z ->
          (ex + n1 + n2 <= Z.max (Zdigits2 mx + ex + 1 - prec) (emin prec emax))%Z)
      /\ (lx = loc_Exact -> (fexp prec emax (Zdigits2 mx + ex) <= ex)%Z ->
          n1 = 0%Z /\ n2 = 0%Z /\ m2 = mx)
      /\ binary_round_aux prec emax s mx ex lx
         = match (m2 / 2 ^ n2)%Z with
           | Z0 => S754_zero s
           | Zpos m =>
               if (ex + n1 + n2 <=? emax - prec)%Z
               then S754_finite s m (ex + n1 + n2) else S754_infinity s
           | Zneg _ => S754_nan
           end.
Proof.
  intros prec emax s mx ex lx Hprec Hmx.
  unfold binary_round_aux.
  destruct (shr_fexp_div prec emax mx ex lx Hmx) as [Hm1 He1].
  destruct (shr_fexp prec emax mx ex lx) as [mrs' e'] eqn:E1. cbn [fst snd] in Hm1, He1.
  set (n1 := Z.max 0 (fexp prec emax (Zdigits2 mx + ex) - ex)) in *.
  set (m2 := round_nearest_even (shr_m mrs') (loc_of_shr_record mrs')).
  pose proof (round_nearest_even_range (shr_m mrs') (loc_of_shr_record mrs')) as Hr.
  fold m2 in Hr. rewrite Hm1 in Hr.
  assert (Hq : (0 <= mx / 2 ^ n1)%Z) by (apply Z.div_pos; [exact Hmx | apply Z.pow_pos_nonneg; lia]).
  assert (Hm2 : (0 <= m2)%Z) by lia.
  destruct (shr_fexp_div prec emax m2 e' loc_Exact Hm2) as [Hm3 He2].
  destruct (shr_fexp prec emax m2 e' loc_Exact) as [mrs'' e''] eqn:E2.
  cbn [fst snd] in Hm3, He2.
  set (n2 := Z.max 0 (fexp prec emax (Zdigits2 m2 + e') - e')) in *.
  exists n1, m2, n2.
  assert (Hn1 : (0 <= n1)%Z) by (unfold n1; lia).
  assert (Hn2 : (0 <= n2)%Z) by (unfold n2; lia).
  (* the number of digits of the moved mantissa *)
  assert (Hd : (Zdigits2 m2 <= Z.max (Zdigits2 mx - n1) 0 + 1)%Z).
  { apply Zdigits2_le; [| pose proof (Zdigits2_nonneg mx Hmx); lia].
    split; [exact Hm2 |].
    assert (Hlt : (mx / 2 ^ n1 < 2 ^ Z.max (Zdigits2 mx - n1) 0)%Z).
    { destruct mx as [| p | p]; [| | lia].
      - rewrite Z.div_0_l by (apply Z.pow_nonzero; lia). apply Z.pow_pos_nonneg; lia.
      - cbn [Zdigits2]. pose proof (digits2_pos_bound p) as Hb.
        apply Z.div_lt_upper_bound; [apply Z.pow_pos_nonneg; lia |].
        rewrite <- Z.pow_add_r by lia.
        eapply Z.lt_le_trans; [exact Hb |]. apply Z.pow_le_mono_r; lia. }
    rewrite Z.pow_add_r by lia. change (2 ^ 1)%Z with 2%Z.
    assert (0 < 2 ^ Z.max (Zdigits2 mx - n1) 0)%Z by (apply Z.pow_pos_nonneg; lia).
    lia. }
  split; [exact Hn1 |]. split; [exact Hn2 |]. split; [lia |].
  split; [unfold n1, fexp; lia |].
  split; [subst e'; unfold n2, n1, fexp in *; lia |].
  split; [intros Hlt; subst e'; unfold n2, n1, fexp in *; lia |].
  split.
  - subst e'. intros Hl Hle.
    assert (Hz : n1 = 0%Z) by (unfold n1; lia).
    assert (Hm : m2 = mx).
    { unfold m2. unfold shr_fexp, shr in E1. subst lx.
      destruct (fexp prec emax (Zdigits2 mx + ex) - ex)%Z eqn:En;
        [| lia |]; inversion E1; reflexivity. }
    split; [exact Hz |]. split; [| exact Hm].
    unfold n2. rewrite Hm, Hz, Z.add_0_r. lia.
  - rewrite Hm3, He2, He1. reflexivity.
Qed.

Module Rounding.
Import Reals Lra FloatValue.
Local Open Scope R_scope.

Lemma pow2_pos :
  forall e, 0 < pow2 e.
Proof.
  intros e. apply powerRZ_lt. lra.
Qed.

Lemma pow2_add :
  forall a b, pow2 (a + b) = pow2 a * pow2 b.
Proof.
  intros a b. apply powerRZ_add. lra.
Qed.

Lemma pow2_IZR :
  forall n, (0 <= n)%Z -> pow2 n = IZR (2 ^ n).
Proof.
  intros n Hn. unfold pow2.
  rewrite <- (Z2Nat.id n Hn) at 1 2.
  rewrite <- pow_powerRZ, pow_IZR. reflexivity.
Qed.

Lemma pow2_ge_1 :
  forall n, (0 <= n)%Z -> 1 <= pow2 n.
Proof.
  intros n Hn. rewrite pow2_IZR by exact Hn. apply IZR_le.
  pose proof (Z.pow_pos_nonneg 2 n). lia.
Qed.

Lemma pow2_le :
  forall a b, (a <= b)%Z -> pow2 a <= pow2 b.
Proof.
  intros a b H. replace b with (a + (b - a))%Z by lia. rewrite pow2_add.
  pose proof (pow2_pos a). pose proof (pow2_ge_1 (b - a) ltac:(lia)). nra.
Qed.

Lemma pow2_lt_inv :
  forall a b, pow2 a < pow2 b -> (a < b)%Z.
Proof.
  intros a b H. destruct (Z_lt_le_dec a b) as [Hlt | Hle]; [exact Hlt | exfalso].
  pose proof (pow2_le b a Hle). lra.
Qed.

Lemma pow2_succ :
  forall e, pow2 (e + 1) = 2 * pow2 e.
Proof.
  intros e. rewrite pow2_add. unfold pow2 at 2. simpl. lra.
Qed.

(** Division by a power of two, on the reals. *)
Lemma div_pow2_bracket :
  forall m n e,
    (0 <= n)%Z ->
    IZR (m / 2 ^ n) * pow2 (e + n) <= IZR m * pow2 e
    /\ IZR (m + 1) * pow2 e <= (IZR (m / 2 ^ n) + 1) * pow2 (e + n).
Proof.
  intros m n e Hn.
  assert (H2 : (0 < 2 ^ n)%Z) by (apply Z.pow_pos_nonneg; lia).
  pose proof (Z.mul_div_le m (2 ^ n) H2) as Hlo.
  pose proof (Z.mul_succ_div_gt m (2 ^ n) H2) as Hhi.
  rewrite pow2_add, (pow2_IZR n Hn).
  pose proof (pow2_pos e) as He.
  assert (Ha : IZR (m / 2 ^ n) * IZR (2 ^ n) <= IZR m)
    by (rewrite <- mult_IZR; apply IZR_le; lia).
  assert (Hb : IZR (m + 1) <= (IZR (m / 2 ^ n) + 1) * IZR (2 ^ n)).
  { replace (IZR (m / 2 ^ n) + 1) with (IZR (m / 2 ^ n + 1)) by (rewrite plus_IZR; reflexivity).
    rewrite <- mult_IZR. apply IZR_le. lia. }
  split; nra.
Qed.

(** The error of a rounding: the result is a zero or a finite number
    within [2^(E+1)] of the rounded real, [E] bounding the exponent of the
    result; it is the rounded real itself when no digit has to go. *)
Lemma binary_round_aux_error :
  forall prec emax s mx ex lx v,
    (0 < prec)%Z -> (0 <= mx)%Z ->
    IZR mx * pow2 ex <= v <= IZR (mx + 1) * pow2 ex ->
    (Z.max ex (Z.max (Zdigits2 mx + ex + 1 - prec) (emin prec emax)) <= emax - prec)%Z ->
    (binary_round_aux prec emax s mx ex lx = S754_zero s
     \/ exists m e,
         binary_round_aux prec emax s mx ex lx = S754_finite s m e
         /\ (emin prec emax <= e)%Z)
    /\ Rabs (value (binary_round_aux prec emax s mx ex lx) - v)
       <= pow2 (Z.max ex (Z.max (Zdigits2 mx + ex + 1 - prec) (emin prec emax)) + 1)
    /\ ((ex < fexp prec emax (Zdigits2 mx + ex))%Z ->
        Rabs (value (binary_round_aux prec emax s mx ex lx) - v)
        <= pow2 (Z.max (Zdigits2 mx + ex + 1 - prec) (emin prec emax) + 1))
    /\ (lx = loc_Exact -> (fexp prec emax (Zdigits2 mx + ex) <= ex)%Z ->
        v = IZR mx * pow2 ex ->
        value (binary_round_aux prec emax s mx ex lx) = v).
Proof.
  intros prec emax s mx ex lx v Hprec Hmx Hv HE.
  destruct (binary_round_aux_shape prec emax s mx ex lx Hprec Hmx)
    as (n1 & m2 & n2 & Hn1 & Hn2 & Hm2 & Hlow & He & Hshift & Hexact & Hr).
  assert (Hq : (0 <= mx / 2 ^ n1)%Z)
    by (apply Z.div_pos; [exact Hmx | apply Z.pow_pos_nonneg; lia]).
  assert (Hq2 : (0 <= m2 / 2 ^ n2)%Z)
    by (apply Z.div_pos; [lia | apply Z.pow_pos_nonneg; lia]).
  assert (Hval : value (binary_round_aux prec emax s mx ex lx)
                 = IZR (m2 / 2 ^ n2) * pow2 (ex + n1 + n2)).
  { rewrite Hr. destruct (m2 / 2 ^ n2)%Z as [| p | p]; [simpl; lra | | lia].
    destruct (Z.leb_spec (ex + n1 + n2) (emax - prec)); [reflexivity | lia]. }
  split.
  { rewrite Hr. destruct (m2 / 2 ^ n2)%Z as [| p | p]; [left; reflexivity | | lia].
    right. exists p, (ex + n1 + n2)%Z.
    destruct (Z.leb_spec (ex + n1 + n2) (emax - prec)); [| lia].
    split; [reflexivity | lia]. }
  (* the three reals: before, between and after the two shifts *)
  destruct (div_pow2_bracket mx n1 ex Hn1) as [Ha1 Ha2].
  destruct (div_pow2_bracket m2 n2 (ex + n1) Hn2) as [Hb1 Hb2].
  pose proof (pow2_pos (ex + n1)) as Hp1.
  pose proof (pow2_pos (ex + n1 + n2)) as Hp2.
  pose proof (pow2_le (ex + n1) (ex + n1 + n2) ltac:(lia)) as Hp12.
  assert (Hc1 : IZR (mx / 2 ^ n1) * pow2 (ex + n1) <= IZR m2 * pow2 (ex + n1)).
  { apply Rmult_le_compat_r; [lra | apply IZR_le; lia]. }
  assert (Hc2 : IZR m2 * pow2 (ex + n1) <= (IZR (mx / 2 ^ n1) + 1) * pow2 (ex + n1)).
  { apply Rmult_le_compat_r; [lra |]. rewrite <- (plus_IZR _ 1). apply IZR_le. lia. }
  assert (Hc3 : IZR m2 * pow2 (ex + n1) <= IZR (m2 + 1) * pow2 (ex + n1)).
  { apply Rmult_le_compat_r; [lra | apply IZR_le; lia]. }
  assert (Herr : Rabs (value (binary_round_aux prec emax s mx ex lx) - v)
                 <= pow2 (ex + n1 + n2 + 1)).
  { rewrite Hval, pow2_succ. apply Rabs_le. lra. }
  split; [| split].
  - eapply Rle_trans; [exact Herr |]. apply pow2_le. lia.
  - intros Hlt. eapply Rle_trans; [exact Herr |]. apply pow2_le.
    specialize (Hshift Hlt). lia.
  - intros Hl Hle Hvx. destruct (Hexact Hl Hle) as (Hz1 & Hz2 & Hm).
    rewrite Hval, Hz1, Hz2, Hm, Hvx, !Z.add_0_r.
    change (2 ^ 0)%Z with 1%Z. rewrite Z.div_1_r. reflexivity.
Qed.

Lemma pow2_max_le :
  forall a b B, pow2 (a + 1) <= B -> pow2 (b + 1) <= B -> pow2 (Z.max a b + 1) <= B.
Proof.
  intros a b B Ha Hb. destruct (Z.max_spec a b) as [[_ ->] | [_ ->]]; assumption.
Qed.

(** A positive mantissa of [d] digits lies in [[2^(d-1), 2^d]]. *)
Lemma mantissa_range :
  forall p,
    pow2 (Zpos (digits2_pos p) - 1) <= IZR (Zpos p)
    /\ IZR (Zpos p) <= pow2 (Zpos (digits2_pos p)).
Proof.
  intros p. pose proof (digits2_pos_low p) as Hl. pose proof (digits2_pos_bound p) as Hu.
  rewrite !pow2_IZR by lia. split; apply IZR_le; lia.
Qed.

Lemma digits_below :
  forall m e v k,
    (0 < m)%Z -> IZR m * pow2 e <= v -> v < pow2 k -> (Zdigits2 m + e <= k)%Z.
Proof.
  intros [| p | p] e v k Hm Hv Hk; try lia. cbn [Zdigits2].
  destruct (mantissa_range p) as [Hl _].
  assert (H : pow2 (Zpos (digits2_pos p) - 1 + e) < pow2 k).
  { rewrite pow2_add. pose proof (pow2_pos e). nra. }
  apply pow2_lt_inv in H. lia.
Qed.

Lemma roundingBound_nonneg :
  forall prec emax v, 0 <= roundingBound prec emax v.
Proof.
  intros prec emax v. unfold roundingBound.
  eapply Rle_trans; [| apply Rmax_r]. pose proof (pow2_pos (emin prec emax + 1)). lra.
Qed.

(** The part of the bound that depends on the number of digits. *)
Lemma digits_term :
  forall prec emax m e v,
    (0 < m)%Z -> IZR m * pow2 e <= v ->
    pow2 (Zdigits2 m + e + 1 - prec + 1) <= roundingBound prec emax v.
Proof.
  intros prec emax [| p | p] e v Hm Hv; try lia. cbn [Zdigits2].
  destruct (mantissa_range p) as [Hl _].
  unfold roundingBound. eapply Rle_trans; [| apply Rmax_l].
  replace (Zpos (digits2_pos p) + e + 1 - prec + 1)%Z
    with ((3 - prec) + ((Zpos (digits2_pos p) - 1) + e))%Z by lia.
  rewrite !pow2_add.
  pose proof (pow2_pos (3 - prec)). pose proof (pow2_pos e).
  pose proof (pow2_pos (Zpos (digits2_pos p) - 1)).
  apply Rmult_le_compat_l; [lra |]. nra.
Qed.

(** Rounding an exactly known mantissa: relative error [2^(3-prec)]
    above the subnormal range. *)
Lemma round_exact :
  forall prec emax s p ex,
    (0 < prec)%Z -> (2 <= emax)%Z ->
    IZR (Zpos p) * pow2 ex < pow2 (emax - prec) ->
    (binary_round_aux prec emax s (Zpos p) ex loc_Exact = S754_zero s
     \/ exists m e,
         binary_round_aux prec emax s (Zpos p) ex loc_Exact = S754_finite s m e
         /\ (emin prec emax <= e)%Z)
    /\ Rabs (value (binary_round_aux prec emax s (Zpos p) ex loc_Exact)
             - IZR (Zpos p) * pow2 ex)
       <= roundingBound prec emax (IZR (Zpos p) * pow2 ex).
Proof.
  intros prec emax s p ex Hprec Hemax Hv.
  set (v := IZR (Zpos p) * pow2 ex) in *.
  assert (Hd : (Zdigits2 (Zpos p) + ex <= emax - prec)%Z)
    by (apply (digits_below (Zpos p) ex v); [lia | unfold v; lra | exact Hv]).
  assert (Hex : (ex < emax - prec)%Z).
  { apply pow2_lt_inv. eapply Rle_lt_trans; [| exact Hv]. unfold v.
    pose proof (pow2_pos ex). assert (1 <= IZR (Zpos p)) by (apply IZR_le; lia). nra. }
  assert (Hb : IZR (Zpos p) * pow2 ex <= v <= IZR (Zpos p + 1) * pow2 ex).
  { unfold v. split; [lra |]. apply Rmult_le_compat_r; [pose proof (pow2_pos ex); lra |].
    apply IZR_le. lia. }
  assert (HE : (Z.max ex (Z.max (Zdigits2 (Zpos p) + ex + 1 - prec) (emin prec emax))
                <= emax - prec)%Z) by (unfold emin; lia).
  destruct (binary_round_aux_error prec emax s (Zpos p) ex loc_Exact v Hprec ltac:(lia) Hb HE)
    as (Hshape & _ & Hshift & Hexact).
  split; [exact Hshape |].
  destruct (Z_lt_le_dec ex (fexp prec emax (Zdigits2 (Zpos p) + ex))) as [Hlt | Hle].
  - eapply Rle_trans; [apply Hshift, Hlt |].
    apply pow2_max_le.
    + apply (digits_term prec emax (Zpos p) ex v); [lia | unfold v; lra].
    + apply Rmax_r.
  - rewrite (Hexact eq_refl Hle eq_refl).
    replace (v - v) with 0 by lra. rewrite Rabs_R0. apply roundingBound_nonneg.
Qed.

(** Rounding a bracketed mantissa (a quotient, a square root), whose
    exponent is small enough for the real it brackets. *)
Lemma round_inexact :
  forall prec emax s q e l v,
    (0 < prec)%Z -> (2 <= emax)%Z -> (0 <= q)%Z ->
    IZR q * pow2 e <= v <= IZR (q + 1) * pow2 e ->
    v < pow2 (emax - prec) ->
    pow2 (e + 1) <= roundingBound prec emax v ->
    (binary_round_aux prec emax s q e l = S754_zero s
     \/ exists m e',
         binary_round_aux prec emax s q e l = S754_finite s m e'
         /\ (emin prec emax <= e')%Z)
    /\ Rabs (value (binary_round_aux prec emax s q e l) - v) <= roundingBound prec emax v.
Proof.
  intros prec emax s q e l v Hprec Hemax Hq Hb Hv Hfine.
  assert (He : (e <= emax - prec)%Z).
  { unfold roundingBound in Hfine. apply Rmax_Rle in Hfine as [Hfine | Hfine].
    - assert (H : pow2 (e + 1) < pow2 ((3 - prec) + (emax - prec))).
      { rewrite (pow2_add (3 - prec)). eapply Rle_lt_trans; [exact Hfine |].
        apply Rmult_lt_compat_l; [apply pow2_pos | exact Hv]. }
      apply pow2_lt_inv in H. lia.
    - destruct (Z_le_gt_dec (e + 1) (emin prec emax + 1)) as [Hle | Hgt];
        [unfold emin in *; lia | exfalso].
      pose proof (pow2_le (emin prec emax + 1 + 1) (e + 1) ltac:(lia)) as H.
      rewrite pow2_succ in H. pose proof (pow2_pos (emin prec emax + 1)). lra. }
  assert (Hd : (0 < q)%Z -> (Zdigits2 q + e <= emax - prec)%Z).
  { intros Hq0. apply (digits_below q e v); [exact Hq0 | lra | exact Hv]. }
  assert (Hd0 : q = 0%Z -> Zdigits2 q = 0%Z) by (intros ->; reflexivity).
  assert (HE : (Z.max e (Z.max (Zdigits2 q + e + 1 - prec) (emin prec emax))
                <= emax - prec)%Z) by (unfold emin; lia).
  destruct (binary_round_aux_error prec emax s q e l v Hprec Hq Hb HE)
    as (Hshape & Herr & _).
  split; [exact Hshape |].
  eapply Rle_trans; [exact Herr |].
  apply pow2_max_le; [exact Hfine |]. apply pow2_max_le; [| apply Rmax_r].
  destruct (Z.eq_dec q 0) as [-> | Hne].
  - cbn [Zdigits2]. eapply Rle_trans; [| exact Hfine]. apply pow2_le. lia.
  - apply digits_term; [lia | lra].
Qed.

(** ** The operations on numbers, up to rounding *)

Lemma iter_xO_pow :
  forall d m, Zpos (Pos.iter xO m d) = (Zpos m * 2 ^ Zpos d)%Z.
Proof.
  induction d as [| d IH] using Pos.peano_ind; intros m.
  - cbn. lia.
  - rewrite Pos.iter_succ, Pos2Z.inj_xO, IH, Pos2Z.inj_succ, Z.pow_succ_r by lia. ring.
Qed.

(** [shl_align] changes the representation, not the number. *)
Lemma shl_align_value :
  forall p e e',
    IZR (Zpos (fst (shl_align p e e'))) * pow2 (snd (shl_align p e e'))
    = IZR (Zpos p) * pow2 e.
Proof.
  intros p e e'. unfold shl_align. destruct (e' - e)%Z as [| d | d] eqn:Hd; cbn [fst snd];
    try reflexivity.
  rewrite iter_xO_pow, mult_IZR, <- pow2_IZR by lia.
  replace e with (Zpos d + e')%Z by lia. rewrite pow2_add. ring.
Qed.

Lemma shl_align_snd :
  forall p e e', (e' <= e)%Z -> snd (shl_align p e e') = e'.
Proof.
  intros p e e' H. unfold shl_align. destruct (e' - e)%Z eqn:Hd; cbn [snd]; lia.
Qed.

Lemma roundingBound_relative :
  forall prec emax v,
    pow2 (emin prec emax + prec - 2) <= v ->
    roundingBound prec emax v = pow2 (3 - prec) * v.
Proof.
  intros prec emax v H. unfold roundingBound. apply Rmax_left.
  replace (emin prec emax + 1)%Z with ((3 - prec) + (emin prec emax + prec - 2))%Z by lia.
  rewrite pow2_add. apply Rmult_le_compat_l; [pose proof (pow2_pos (3 - prec)); lra | exact H].
Qed.

(** [binary_round]: the rounding of [m x 2^e]. *)
Lemma binary_round_error :
  forall prec emax s p e,
    (0 < prec)%Z -> (2 <= emax)%Z ->
    IZR (Zpos p) * pow2 e < pow2 (emax - prec) ->
    (binary_round prec emax s p e = S754_zero s
     \/ exists m e',
         binary_round prec emax s p e = S754_finite s m e' /\ (emin prec emax <= e')%Z)
    /\ Rabs (value (binary_round prec emax s p e) - IZR (Zpos p) * pow2 e)
       <= roundingBound prec emax (IZR (Zpos p) * pow2 e).
Proof.
  intros prec emax s p e Hprec Hemax Hv. unfold binary_round.
  pose proof (shl_align_value p e (fexp prec emax (Zpos (digits2_pos p) + e))) as Hs.
  destruct (shl_align p e (fexp prec emax (Zpos (digits2_pos p) + e))) as [mz ez].
  cbn [fst snd] in Hs. rewrite <- Hs in *. apply round_exact; assumption.
Qed.

(** [sum + x], for two numbers that are not negative. *)
Lemma add_error :
  forall prec emax a b,
    (0 < prec)%Z -> (2 <= emax)%Z ->
    nonneg a -> nonneg b ->
    value a + value b < pow2 (emax - prec) ->
    nonneg (SFadd prec emax a b)
    /\ Rabs (value (SFadd prec emax a b) - (value a + value b))
       <= roundingBound prec emax (value a + value b).
Proof.
  intros prec emax a b Hprec Hemax Ha Hb Hv.
  destruct a as [sa | sa | | sa ma ea]; try contradiction;
    destruct b as [sb | sb | | sb mb eb]; try contradiction;
    cbn [nonneg] in Ha, Hb; subst.
  - cbn. split; [reflexivity |]. replace (0 - (0 + 0)) with 0 by lra.
    rewrite Rabs_R0. apply roundingBound_nonneg.
  - cbn [SFadd value nonneg]. split; [reflexivity |].
    match goal with |- Rabs ?x <= _ => replace x with 0 by lra end.
    rewrite Rabs_R0. apply roundingBound_nonneg.
  - cbn [SFadd value nonneg]. split; [reflexivity |].
    match goal with |- Rabs ?x <= _ => replace x with 0 by lra end.
    rewrite Rabs_R0. apply roundingBound_nonneg.
  - cbn [SFadd cond_Zopp value] in *.
    pose proof (shl_align_value ma ea (Z.min ea eb)) as Va.
    pose proof (shl_align_value mb eb (Z.min ea eb)) as Vb.
    rewrite (shl_align_snd ma ea (Z.min ea eb)) in Va by lia.
    rewrite (shl_align_snd mb eb (Z.min ea eb)) in Vb by lia.
    set (ma' := fst (shl_align ma ea (Z.min ea eb))) in *.
    set (mb' := fst (shl_align mb eb (Z.min ea eb))) in *.
    change (Zpos ma' + Zpos mb')%Z with (Zpos (ma' + mb')). cbn [binary_normalize].
    assert (Hsum : IZR (Zpos (ma' + mb')) * pow2 (Z.min ea eb)
                   = IZR (Zpos ma) * pow2 ea + IZR (Zpos mb) * pow2 eb).
    { rewrite <- Va, <- Vb, Pos2Z.inj_add, plus_IZR. ring. }
    rewrite <- Hsum in *.
    destruct (binary_round_error prec emax false (ma' + mb') (Z.min ea eb) Hprec Hemax Hv)
      as [Hshape Herr].
    split; [| exact Herr].
    destruct Hshape as [-> | (m & e & -> & _)]; reflexivity.
Qed.

(** [val * val]. *)
Lemma square_error :
  forall prec emax a,
    (0 < prec)%Z -> (2 <= emax)%Z ->
    finite a ->
    value a * value a < pow2 (emax - prec) ->
    nonneg (SFmul prec emax a a)
    /\ Rabs (value (SFmul prec emax a a) - value a * value a)
       <= roundingBound prec emax (value a * value a).
Proof.
  intros prec emax a Hprec Hemax Ha Hv.
  destruct a as [sa | sa | | sa ma ea]; try contradiction.
  - cbn. split; [destruct sa; reflexivity |]. replace (0 - 0 * 0) with 0 by lra.
    rewrite Rabs_R0. apply roundingBound_nonneg.
  - cbn [SFmul value] in *.
    assert (Hsq : IZR (Zpos (ma * ma)) * pow2 (ea + ea)
                  = IZR (Zpos ma) * pow2 ea * (IZR (Zpos ma) * pow2 ea)).
    { rewrite Pos2Z.inj_mul, mult_IZR, pow2_add. ring. }
    rewrite <- Hsq in *.
    destruct (round_exact prec emax (xorb sa sa) (ma * ma) (ea + ea) Hprec Hemax Hv)
      as [Hshape Herr].
    split; [| exact Herr].
    destruct Hshape as [-> | (m & e & -> & _)]; destruct sa; reflexivity.
Qed.

(** The quotient and the exponent that [SFdiv] hands to the rounding. *)
Lemma div_core_bracket :
  forall prec emax m1 e1 m2 e2,
    let '(q, e', l) := SFdiv_core_binary prec emax (Zpos m1) e1 (Zpos m2) e2 in
    (0 <= q)%Z
    /\ (e' <= fexp prec emax
                (Zpos (digits2_pos m1) + e1 - (Zpos (digits2_pos m2) + e2)))%Z
    /\ IZR q * pow2 e' * (IZR (Zpos m2) * pow2 e2) <= IZR (Zpos m1) * pow2 e1
    /\ IZR (Zpos m1) * pow2 e1 <= IZR (q + 1) * pow2 e' * (IZR (Zpos m2) * pow2 e2).
Proof.
  intros prec emax m1 e1 m2 e2. unfold SFdiv_core_binary. cbn [Zdigits2].
  set (e' := Z.min (fexp prec emax
                      (Zpos (digits2_pos m1) + e1 - (Zpos (digits2_pos m2) + e2)))
               (e1 - e2)).
  set (s := (e1 - e2 - e')%Z).
  assert (Hs : (0 <= s)%Z) by (unfold s, e'; lia).
  set (m' := match s with
             | Z0 => Zpos m1
             | Zpos _ => Z.shiftl (Zpos m1) s
             | Zneg _ => 0%Z
             end).
  assert (Hm' : m' = (Zpos m1 * 2 ^ s)%Z).
  { unfold m'. destruct s eqn:Es; [cbn; lia | | lia].
    apply Z.shiftl_mul_pow2. lia. }
  pose proof (Z_div_mod m' (Zpos m2) ltac:(lia)) as Hdiv.
  destruct (Z.div_eucl m' (Zpos m2)) as [q r]. destruct Hdiv as [Heq Hr].
  assert (H2s : (0 < 2 ^ s)%Z) by (apply Z.pow_pos_nonneg; lia).
  assert (Hq : (0 <= q)%Z) by nia.
  split; [exact Hq |]. split; [unfold e'; lia |].
  assert (He1 : e1 = (s + (e' + e2))%Z) by (unfold s; lia).
  assert (Hpow : IZR (Zpos m1) * pow2 e1 = IZR m' * (pow2 e' * pow2 e2)).
  { rewrite Hm', mult_IZR, <- pow2_IZR by exact Hs. rewrite He1 at 1.
    rewrite !pow2_add. ring. }
  rewrite Hpow. pose proof (pow2_pos e'). pose proof (pow2_pos e2).
  assert (0 < pow2 e' * pow2 e2) by nra.
  split.
  - replace (IZR q * pow2 e' * (IZR (Zpos m2) * pow2 e2))
      with (IZR (q * Zpos m2) * (pow2 e' * pow2 e2)) by (rewrite mult_IZR; ring).
    apply Rmult_le_compat_r; [lra | apply IZR_le; lia].
  - replace (IZR (q + 1) * pow2 e' * (IZR (Zpos m2) * pow2 e2))
      with (IZR ((q + 1) * Zpos m2) * (pow2 e' * pow2 e2)) by (rewrite mult_IZR; ring).
    apply Rmult_le_compat_r; [lra | apply IZR_le; lia].
Qed.

(** [val / magnitude]. *)
Lemma div_error :
  forall prec emax a sb mb eb,
    (0 < prec)%Z -> (2 <= emax)%Z ->
    finite a ->
    value a / value (S754_finite sb mb eb) < pow2 (emax - prec) ->
    finite (SFdiv prec emax a (S754_finite sb mb eb))
    /\ Rabs (value (SFdiv prec emax a (S754_finite sb mb eb))
             - value a / value (S754_finite sb mb eb))
       <= roundingBound prec emax (value a / value (S754_finite sb mb eb)).
Proof.
  intros prec emax a sb mb eb Hprec Hemax Ha Hv.
  assert (Hy : 0 < value (S754_finite sb mb eb)).
  { cbn. pose proof (pow2_pos eb). assert (1 <= IZR (Zpos mb)) by (apply IZR_le; lia). nra. }
  set (y := value (S754_finite sb mb eb)) in *.
  destruct a as [sa | sa | | sa ma ea]; try contradiction.
  - cbn [SFdiv value finite]. split; [exact I |].
    replace (0 - 0 / y) with 0 by (unfold Rdiv; ring).
    rewrite Rabs_R0. apply roundingBound_nonneg.
  - cbn [SFdiv].
    pose proof (div_core_bracket prec emax ma ea mb eb) as Hcore.
    destruct (SFdiv_core_binary prec emax (Zpos ma) ea (Zpos mb) eb) as [[q e'] l].
    destruct Hcore as (Hq & He' & Hlo & Hhi).
    set (x := value (S754_finite sa ma ea)) in *.
    assert (Hxy : x = x / y * y) by (field; lra).
    assert (Hb : IZR q * pow2 e' <= x / y <= IZR (q + 1) * pow2 e').
    { change (IZR (Zpos mb) * pow2 eb) with y in Hlo, Hhi.
      change (IZR (Zpos ma) * pow2 ea) with x in Hlo, Hhi.
      rewrite Hxy in Hlo, Hhi. split; nra. }
    (* the quotient is at least [2^(delta - 1)] *)
    assert (Hlow : pow2 (Zpos (digits2_pos ma) + ea - (Zpos (digits2_pos mb) + eb) - 1)
                   <= x / y).
    { destruct (mantissa_range ma) as [Hla _]. destruct (mantissa_range mb) as [_ Hub].
      set (da := Zpos (digits2_pos ma)) in *. set (db := Zpos (digits2_pos mb)) in *.
      assert (Hyu : y <= pow2 (db + eb)).
      { unfold y. cbn [value]. rewrite pow2_add. pose proof (pow2_pos eb). nra. }
      assert (Hxl : pow2 (da - 1 + ea) <= x).
      { unfold x. cbn [value]. rewrite pow2_add. pose proof (pow2_pos ea). nra. }
      assert (Hsplit : pow2 (da - 1 + ea)
                       = pow2 (da + ea - (db + eb) - 1) * pow2 (db + eb)).
      { rewrite <- pow2_add. f_equal. lia. }
      pose proof (pow2_pos (da + ea - (db + eb) - 1)).
      assert (pow2 (da + ea - (db + eb) - 1) * y <= x / y * y) by (rewrite <- Hxy; nra).
      nra. }
    assert (Hfine : pow2 (e' + 1) <= roundingBound prec emax (x / y)).
    { unfold fexp in He'.
      set (delta := (Zpos (digits2_pos ma) + ea - (Zpos (digits2_pos mb) + eb))%Z) in *.
      destruct (Z.max_spec (delta - prec) (emin prec emax)) as [[_ Hmax] | [_ Hmax]];
        rewrite Hmax in He'; unfold roundingBound.
      - eapply Rle_trans; [| apply Rmax_r]. apply pow2_le. lia.
      - eapply Rle_trans; [| apply Rmax_l].
        eapply Rle_trans; [apply (pow2_le _ ((3 - prec) + (delta - 1))); lia |].
        rewrite pow2_add. apply Rmult_le_compat_l; [pose proof (pow2_pos (3 - prec)); lra |].
        exact Hlow. }
    destruct (round_inexact prec emax (xorb sa sb) q e' l (x / y)
                Hprec Hemax Hq Hb Hv Hfine) as [Hshape Herr].
    split; [| exact Herr].
    destruct Hshape as [-> | (m & e & -> & _)]; exact I.
Qed.

(** The root and the exponent that [SFsqrt] hands to the rounding. *)
Lemma sqrt_core_bracket :
  forall prec emax m e,
    let '(q, e', l) := SFsqrt_core_binary prec emax (Zpos m) e in
    (0 <= q)%Z
    /\ (e' <= fexp prec emax (Z.div2 (Zpos (digits2_pos m) + e + 1)))%Z
    /\ IZR q * pow2 e' * (IZR q * pow2 e') <= IZR (Zpos m) * pow2 e
    /\ IZR (Zpos m) * pow2 e <= IZR (q + 1) * pow2 e' * (IZR (q + 1) * pow2 e').
Proof.
  intros prec emax m e. unfold SFsqrt_core_binary. cbn [Zdigits2].
  set (e' := Z.min (fexp prec emax (Z.div2 (Zpos (digits2_pos m) + e + 1))) (Z.div2 e)).
  set (s := (e - 2 * e')%Z).
  assert (Hhalf : (2 * Z.div2 e <= e)%Z).
  { pose proof (Z.div2_odd e) as H. destruct (Z.odd e); cbn [Z.b2z] in H; lia. }
  assert (Hs : (0 <= s)%Z) by (unfold s, e'; lia).
  set (m' := match s with
             | Z0 => Zpos m
             | Zpos _ => Z.shiftl (Zpos m) s
             | Zneg _ => 0%Z
             end).
  assert (Hm' : m' = (Zpos m * 2 ^ s)%Z).
  { unfold m'. destruct s eqn:Es; [cbn; lia | | lia].
    apply Z.shiftl_mul_pow2. lia. }
  assert (H2s : (0 < 2 ^ s)%Z) by (apply Z.pow_pos_nonneg; lia).
  pose proof (Z.sqrtrem_spec m' ltac:(nia)) as Hsq.
  destruct (Z.sqrtrem m') as [q r]. destruct Hsq as [Heq Hr].
  assert (Hq : (0 <= q)%Z) by lia.
  split; [exact Hq |]. split; [unfold e'; lia |].
  assert (He : e = (s + (e' + e'))%Z) by (unfold s; lia).
  assert (Hpow : IZR (Zpos m) * pow2 e = IZR m' * (pow2 e' * pow2 e')).
  { rewrite Hm', mult_IZR, <- pow2_IZR by exact Hs. rewrite He at 1.
    rewrite !pow2_add. ring. }
  rewrite Hpow. pose proof (pow2_pos e').
  assert (0 < pow2 e' * pow2 e') by nra.
  split.
  - replace (IZR q * pow2 e' * (IZR q * pow2 e'))
      with (IZR (q * q) * (pow2 e' * pow2 e')) by (rewrite mult_IZR; ring).
    apply Rmult_le_compat_r; [lra | apply IZR_le; lia].
  - replace (IZR (q + 1) * pow2 e' * (IZR (q + 1) * pow2 e'))
      with (IZR ((q + 1) * (q + 1)) * (pow2 e' * pow2 e')) by (rewrite mult_IZR; ring).
    apply Rmult_le_compat_r; [lra | apply IZR_le; nia].
Qed.

Lemma square_le_inv :
  forall a b, 0 <= a -> 0 <= b -> a * a <= b * b -> a <= b.
Proof.
  intros a b Ha Hb H. nra.
Qed.

(** [Math.sqrt(sum)]. *)
Lemma sqrt_error :
  forall prec emax m e,
    (0 < prec)%Z -> (2 <= emax)%Z ->
    sqrt (value (S754_finite false m e)) < pow2 (emax - prec) ->
    nonneg (SFsqrt prec emax (S754_finite false m e))
    /\ Rabs (value (SFsqrt prec emax (S754_finite false m e))
             - sqrt (value (S754_finite false m e)))
       <= roundingBound prec emax (sqrt (value (S754_finite false m e))).
Proof.
  intros prec emax m e Hprec Hemax Hv.
  assert (Hx : 0 < value (S754_finite false m e)).
  { cbn. pose proof (pow2_pos e). assert (1 <= IZR (Zpos m)) by (apply IZR_le; lia). nra. }
  cbn [SFsqrt].
  pose proof (sqrt_core_bracket prec emax m e) as Hcore.
  destruct (SFsqrt_core_binary prec emax (Zpos m) e) as [[q e'] l].
  destruct Hcore as (Hq & He' & Hlo & Hhi).
  change (IZR (Zpos m) * pow2 e) with (value (S754_finite false m e)) in Hlo, Hhi.
  set (x := value (S754_finite false m e)) in *.
  pose proof (sqrt_sqrt x ltac:(lra)) as Hss.
  pose proof (sqrt_pos x) as Hs0.
  pose proof (pow2_pos e') as Hpe.
  assert (Hq0 : 0 <= IZR q) by (apply IZR_le; exact Hq).
  assert (Hq1 : 0 <= IZR (q + 1)) by (apply IZR_le; lia).
  assert (Hb : IZR q * pow2 e' <= sqrt x <= IZR (q + 1) * pow2 e').
  { split; apply square_le_inv; try nra. }
  set (h := Z.div2 (Zpos (digits2_pos m) + e + 1)) in *.
  assert (Hlow : pow2 (h - 1) <= sqrt x).
  { apply square_le_inv; [pose proof (pow2_pos (h - 1)); lra | exact Hs0 |].
    rewrite Hss, <- pow2_add.
    destruct (mantissa_range m) as [Hl _].
    assert (Hh : (2 * h <= Zpos (digits2_pos m) + e + 1)%Z).
    { unfold h. pose proof (Z.div2_odd (Zpos (digits2_pos m) + e + 1)) as H.
      destruct (Z.odd (Zpos (digits2_pos m) + e + 1)); cbn [Z.b2z] in H; lia. }
    eapply Rle_trans; [apply (pow2_le _ ((Zpos (digits2_pos m) - 1) + e)); lia |].
    rewrite pow2_add. unfold x. cbn [value]. pose proof (pow2_pos e). nra. }
  assert (Hfine : pow2 (e' + 1) <= roundingBound prec emax (sqrt x)).
  { unfold fexp in He'.
    destruct (Z.max_spec (h - prec) (emin prec emax)) as [[_ Hmax] | [_ Hmax]];
      rewrite Hmax in He'; unfold roundingBound.
    - eapply Rle_trans; [| apply Rmax_r]. apply pow2_le. lia.
    - eapply Rle_trans; [| apply Rmax_l].
      eapply Rle_trans; [apply (pow2_le _ ((3 - prec) + (h - 1))); lia |].
      rewrite pow2_add. apply Rmult_le_compat_l; [pose proof (pow2_pos (3 - prec)); lra |].
      exact Hlow. }
  destruct (round_inexact prec emax false q e' l (sqrt x)
              Hprec Hemax Hq Hb Hv Hfine) as [Hshape Herr].
  split; [| exact Herr].
  destruct Hshape as [-> | (m0 & e0 & -> & _)]; reflexivity.
Qed.

(** ** The norm computed by [toFafcas] *)

Lemma pow2_opp :
  forall n, (0 <= n)%Z -> pow2 (- n) = / IZR (2 ^ n).
Proof.
  intros n Hn. unfold pow2. rewrite powerRZ_neg'. fold (pow2 n).
  rewrite pow2_IZR by exact Hn. reflexivity.
Qed.

Lemma abs_le_inv :
  forall a b, Rabs a <= b -> - b <= a <= b.
Proof.
  intros a b H. pose proof (Rle_abs a). pose proof (Rle_abs (- a)) as Hn.
  rewrite Rabs_Ropp in Hn. lra.
Qed.

(** The unit of the error of a binary64 operation. *)
Lemma unit64 :
  pow2 (3 - 53) = / 1125899906842624.
Proof.
  apply (pow2_opp 50). lia.
Qed.

Lemma normal64 :
  forall v, pow2 (-1023) <= v -> roundingBound 53 1024 v = pow2 (3 - 53) * v.
Proof.
  intros v H. apply roundingBound_relative. exact H.
Qed.

(** A finite element of a [Float32Array] lies in [[2^-149, 2^128)]. *)
Lemma element_range :
  forall s m e,
    F32.valid (S754_finite s m e) = true ->
    pow2 (-149) <= value (S754_finite s m e) < pow2 128.
Proof.
  intros s m e H.
  unfold F32.valid, valid_binary, bounded, canonical_mantissa, fexp, emin in H.
  apply andb_true_iff in H as [Hc He]. apply Z.eqb_eq in Hc. apply Z.leb_le in He.
  unfold fexp, emin in Hc.
  destruct (mantissa_range m) as [Hl Hu]. cbn [value].
  pose proof (pow2_pos e) as Hpe.
  assert (H1 : 1 <= IZR (Zpos m)) by (apply IZR_le; lia).
  assert (Hd : (Zpos (digits2_pos m) <= 24)%Z) by lia.
  assert (He0 : (-149 <= e)%Z) by lia.
  split.
  - pose proof (pow2_le (-149) e He0). nra.
  - assert (Hm : IZR (Zpos m) < pow2 24).
    { rewrite pow2_IZR by lia. apply IZR_lt.
      eapply Z.lt_le_trans; [apply digits2_pos_bound |]. apply Z.pow_le_mono_r; lia. }
    replace 128%Z with (24 + 104)%Z by reflexivity. rewrite pow2_add.
    pose proof (pow2_le e 104 He). pose proof (pow2_pos 24). nra.
Qed.

(** [val = vector[i] || 0]: a zero or a finite number, the element up
    to the rounding of the conversion. *)
Lemma val_error :
  forall x,
    F32.valid x = true -> notInfinite x = true ->
    finite (F64.orZero (F32.toNumber x))
    /\ (value x = 0 -> F64.orZero (F32.toNumber x) = S754_zero false)
    /\ Rabs (value (F64.orZero (F32.toNumber x)) - value x) <= pow2 (3 - 53) * value x.
Proof.
  intros x Hv Hi. destruct x as [s | s | | s m e]; [| discriminate Hi | |].
  - cbn. split; [exact I |]. split; [reflexivity |].
    replace (0 - 0) with 0 by lra. rewrite Rabs_R0. lra.
  - cbn. split; [exact I |]. split; [reflexivity |].
    replace (0 - 0) with 0 by lra. rewrite Rabs_R0. lra.
  - destruct (element_range s m e Hv) as [Hlo Hhi].
    assert (Hbig : value (S754_finite s m e) < pow2 (1024 - 53)).
    { eapply Rlt_le_trans; [exact Hhi |]. apply pow2_le. lia. }
    destruct (binary_round_error 53 1024 s m e ltac:(lia) ltac:(lia) Hbig) as [Hshape Herr].
    rewrite normal64 in Herr
      by (eapply Rle_trans; [apply (pow2_le (-1023) (-149)); lia | exact Hlo]).
    cbn [F32.toNumber]. cbn [value] in *.
    split; [| split].
    + destruct Hshape as [-> | (m' & e' & -> & _)]; exact I.
    + intros H0. pose proof (pow2_pos (-149)). lra.
    + destruct Hshape as [Hz | (m' & e' & Hf & _)].
      * rewrite Hz in *. exact Herr.
      * rewrite Hf in *. exact Herr.
Qed.

Lemma square_le :
  forall x y, 0 <= x <= y -> x * x <= y * y.
Proof.
  intros x y [H0 H]. apply Rmult_le_compat; lra.
Qed.

(** Three roundings of relative error [u] make one of relative error [4u]. *)
Lemma square_within :
  forall u a w s,
    0 <= u <= / 8 -> 0 <= a ->
    Rabs (w - a) <= u * a -> Rabs (s - w * w) <= u * (w * w) ->
    (1 - 4 * u) * (a * a) <= s <= (1 + 4 * u) * (a * a).
Proof.
  intros u a w s Hu Ha Hw Hs.
  apply abs_le_inv in Hw. apply abs_le_inv in Hs.
  assert (Hua : 0 <= u * a) by (apply Rmult_le_pos; lra).
  assert (Hua1 : u * a <= a) by (rewrite <- (Rmult_1_l a) at 2; apply Rmult_le_compat_r; lra).
  assert (Hw0 : 0 <= w) by lra.
  assert (Hlo : (1 - u) * (1 - u) * (a * a) <= w * w).
  { replace ((1 - u) * (1 - u) * (a * a)) with ((a - u * a) * (a - u * a)) by ring.
    apply square_le. lra. }
  assert (Hhi : w * w <= (1 + u) * (1 + u) * (a * a)).
  { replace ((1 + u) * (1 + u) * (a * a)) with ((a + u * a) * (a + u * a)) by ring.
    apply square_le. lra. }
  assert (Haa : 0 <= a * a) by nra.
  assert (Hww : 0 <= w * w) by nra.
  assert (H3lo : 1 - 4 * u <= (1 - u) * ((1 - u) * (1 - u))) by nra.
  assert (H3hi : (1 + u) * ((1 + u) * (1 + u)) <= 1 + 4 * u) by nra.
  split.
  - apply Rle_trans with ((1 - u) * ((1 - u) * (1 - u)) * (a * a)); [nra |].
    apply Rle_trans with ((1 - u) * (w * w)); [| lra].
    replace ((1 - u) * ((1 - u) * (1 - u)) * (a * a))
      with ((1 - u) * ((1 - u) * (1 - u) * (a * a))) by ring.
    apply Rmult_le_compat_l; lra.
  - apply Rle_trans with ((1 + u) * ((1 + u) * (1 + u)) * (a * a)); [| nra].
    apply Rle_trans with ((1 + u) * (w * w)); [lra |].
    replace ((1 + u) * ((1 + u) * (1 + u)) * (a * a))
      with ((1 + u) * ((1 + u) * (1 + u) * (a * a))) by ring.
    apply Rmult_le_compat_l; lra.
Qed.

(** [val * val]: not negative, [+0] for a zero, and the square of the
    element up to [4u]. *)
Lemma square_of_element :
  forall x,
    F32.valid x = true -> notInfinite x = true ->
    let val := F64.orZero (F32.toNumber x) in
    nonneg (F64.mul val val)
    /\ (value x = 0 -> F64.mul val val = S754_zero false)
    /\ (1 - 4 * pow2 (3 - 53)) * (value x * value x) <= value (F64.mul val val)
       <= (1 + 4 * pow2 (3 - 53)) * (value x * value x)
    /\ (value x = 0 \/ pow2 (-149) <= value x < pow2 128).
Proof.
  intros x Hv Hi val.
  destruct (val_error x Hv Hi) as (Hfin & Hzero & Herr). fold val in Hfin, Hzero, Herr.
  pose proof unit64 as Hu. set (u := pow2 (3 - 53)) in *.
  assert (Hu0 : 0 <= u <= / 8) by (rewrite Hu; lra).
  assert (Hrange : value x = 0 \/ pow2 (-149) <= value x < pow2 128).
  { destruct x as [s | s | | s m e]; [left; reflexivity | discriminate Hi | left; reflexivity |].
    right. apply element_range, Hv. }
  destruct Hrange as [H0 | [Hlo Hhi]].
  - rewrite (Hzero H0), H0. cbn. split; [reflexivity |]. split; [reflexivity |].
    split; [lra | left; reflexivity].
  - pose proof (pow2_pos (-149)) as Hp.
    pose proof (abs_le_inv _ _ Herr) as Hw.
    assert (Hv2 : value val * value val < pow2 (1024 - 53)).
    { apply Rlt_le_trans with (pow2 129 * pow2 129);
        [| rewrite <- pow2_add; apply pow2_le; lia].
      assert (Hw1 : value val < pow2 129).
      { replace 129%Z with (128 + 1)%Z by reflexivity. rewrite pow2_succ. nra. }
      assert (0 <= value val) by nra.
      pose proof (pow2_pos 129). nra. }
    destruct (square_error 53 1024 val ltac:(lia) ltac:(lia) Hfin Hv2) as [Hnn Hsq].
    assert (Hnormal : pow2 (-1023) <= value val * value val).
    { apply Rle_trans with (pow2 (-150) * pow2 (-150));
        [rewrite <- pow2_add; apply pow2_le; lia |].
      assert (Hw1 : pow2 (-150) <= value val).
      { assert (Hh : pow2 (-149) = 2 * pow2 (-150)) by (rewrite <- pow2_succ; reflexivity).
        nra. }
      pose proof (pow2_pos (-150)). nra. }
    rewrite (normal64 _ Hnormal) in Hsq. fold u in Hsq.
    split; [exact Hnn |]. split; [intros H0; lra |].
    split; [| right; split; assumption].
    apply (square_within u (value x) (value val)); try assumption; lra.
Qed.

(** One turn of the loop [sum += val * val]: the sum stays within [c] of
    the sum [T] of the squares of the elements, [c] growing by [2u]. *)
Lemma sum_step :
  forall c B S T x,
    4 * pow2 (3 - 53) <= c <= / 2 ->
    B + pow2 256 <= pow2 900 ->
    nonneg S ->
    T = 0 \/ pow2 (-298) <= T ->
    0 <= T <= B ->
    (1 - c) * T <= value S <= (1 + c) * T ->
    F32.valid x = true -> notInfinite x = true ->
    let val := F64.orZero (F32.toNumber x) in
    let S' := F64.add S (F64.mul val val) in
    let T' := T + value x * value x in
    nonneg S'
    /\ (T' = 0 \/ pow2 (-298) <= T')
    /\ 0 <= T' <= B + pow2 256
    /\ (1 - (c + 2 * pow2 (3 - 53))) * T' <= value S'
       <= (1 + (c + 2 * pow2 (3 - 53))) * T'.
Proof.
  intros c B S T x Hc HB HS HT0 HT HvS Hv Hi val S' T'.
  destruct (square_of_element x Hv Hi) as (Hnn & Hzero & Hsq & Hrange).
  fold val in Hnn, Hzero, Hsq.
  pose proof unit64 as Hu. set (u := pow2 (3 - 53)) in *.
  assert (Hu0 : 0 < u <= / 8) by (rewrite Hu; lra).
  pose proof (pow2_pos 256) as Hp256.
  destruct Hrange as [H0 | [Hlo Hhi]].
  - (* a zero element leaves the sum as it is *)
    assert (HS' : S' = S).
    { unfold S'. rewrite (Hzero H0).
      destruct S as [s | s | | s m e]; try contradiction; cbn [nonneg] in HS; subst;
        reflexivity. }
    assert (HT' : T' = T) by (unfold T'; rewrite H0; ring).
    rewrite HS', HT'. split; [exact HS |]. split; [exact HT0 |]. split; [lra |].
    assert (0 <= u * T) by (apply Rmult_le_pos; lra). lra.
  - set (a := value x) in *. set (q := a * a) in *.
    pose proof (pow2_pos (-149)) as Hp149.
    assert (Hq : pow2 (-298) <= q < pow2 256).
    { unfold q. replace (-298)%Z with (-149 + -149)%Z by reflexivity.
      replace 256%Z with (128 + 128)%Z by reflexivity. rewrite !pow2_add.
      pose proof (pow2_pos 128). split; [apply square_le; lra |].
      apply Rmult_le_0_lt_compat; lra. }
    pose proof (pow2_pos (-298)) as Hp298.
    set (sq := value (F64.mul val val)) in *.
    assert (Huq : 0 <= u * q) by (apply Rmult_le_pos; lra).
    assert (HcT : 0 <= c * T) by (apply Rmult_le_pos; lra).
    assert (Hcq : 4 * (u * q) <= c * q).
    { replace (4 * (u * q)) with (4 * u * q) by ring.
      apply Rmult_le_compat_r; lra. }
    assert (HcTq : c * (T + q) = c * T + c * q) by ring.
    assert (HcTq1 : c * (T + q) <= T + q).
    { rewrite <- (Rmult_1_l (T + q)) at 2. apply Rmult_le_compat_r; lra. }
    assert (Hcq1 : c * q <= q).
    { rewrite <- (Rmult_1_l q) at 2. apply Rmult_le_compat_r; lra. }
    assert (HcT1 : c * T <= T).
    { rewrite <- (Rmult_1_l T) at 2. apply Rmult_le_compat_r; lra. }
    assert (Hnormal : pow2 (-1023) <= value S + sq).
    { apply Rle_trans with (pow2 (-299)); [apply pow2_le; lia |].
      assert (Hh : pow2 (-298) = 2 * pow2 (-299)) by (rewrite <- pow2_succ; reflexivity).
      assert (8 * (u * q) <= q).
      { replace (8 * (u * q)) with (8 * u * q) by ring.
        rewrite <- (Rmult_1_l q) at 2. apply Rmult_le_compat_r; lra. }
      lra. }
    assert (Hbig : value S + sq < pow2 (1024 - 53)).
    { apply Rle_lt_trans with (2 * pow2 900).
      - lra.
      - rewrite <- pow2_succ.
        apply Rlt_le_trans with (pow2 (900 + 1 + 1)); [| apply pow2_le; lia].
        rewrite (pow2_succ (900 + 1)). pose proof (pow2_pos (900 + 1)). lra. }
    destruct (add_error 53 1024 S (F64.mul val val) ltac:(lia) ltac:(lia) HS Hnn Hbig)
      as [HnS' Herr].
    fold sq in Herr. rewrite (normal64 _ Hnormal) in Herr. fold u in Herr.
    apply abs_le_inv in Herr.
    change (SFadd 53 1024 S (F64.mul val val)) with S' in HnS', Herr.
    split; [exact HnS' |]. split; [right; unfold T'; fold a; fold q; lra |].
    split; [unfold T'; fold a; fold q; lra |].
    unfold T'. fold a. fold q.
    (* the exact sum lies within [c] of [T + q] *)
    assert (Hup : value S + sq <= (1 + c) * (T + q)) by lra.
    assert (Hdn : (1 - c) * (T + q) <= value S + sq) by lra.
    assert (Huv1 : u * (value S + sq) <= u * ((1 + c) * (T + q)))
      by (apply Rmult_le_compat_l; lra).
    assert (Huv2 : 0 <= u * (value S + sq))
      by (apply Rmult_le_pos; lra).
    assert (Huc : u * (c * (T + q)) <= u * (T + q))
      by (apply Rmult_le_compat_l; lra).
    assert (HuT : 0 <= u * (T + q)) by (apply Rmult_le_pos; lra).
    split.
    + replace ((1 - (c + 2 * u)) * (T + q))
        with ((1 - c) * (T + q) - 2 * (u * (T + q))) by ring.
      replace (u * ((1 + c) * (T + q))) with (u * (T + q) + u * (c * (T + q))) in Huv1
        by ring.
      lra.
    + replace ((1 + (c + 2 * u)) * (T + q))
        with ((1 + c) * (T + q) + 2 * (u * (T + q))) by ring.
      replace (u * ((1 + c) * (T + q))) with (u * (T + q) + u * (c * (T + q))) in Huv1
        by ring.
      lra.
Qed.

Lemma sumSquares_nonneg :
  forall v, 0 <= sumSquares v.
Proof.
  induction v as [| x v IH]; cbn [sumSquares]; [lra |].
  pose proof (Rle_0_sqr (value x)) as H. unfold Rsqr in H. lra.
Qed.

Lemma sumSquares_In :
  forall v x, In x v -> value x * value x <= sumSquares v.
Proof.
  induction v as [| y v IH]; intros x H; [contradiction |]. cbn [sumSquares].
  pose proof (sumSquares_nonneg v). pose proof (Rle_0_sqr (value y)) as Hy. unfold Rsqr in Hy.
  destruct H as [-> | H]; [lra | specialize (IH x H); lra].
Qed.

(** The loop of [toFafcas], started after [k] turns. *)
Lemma sum_fold :
  forall vector k S T,
    INR k + INR (List.length vector) <= 4294967296 ->
    nonneg S ->
    T = 0 \/ pow2 (-298) <= T ->
    0 <= T <= INR k * pow2 256 ->
    (1 - 2 * pow2 (3 - 53) * (INR k + 2)) * T <= value S
    <= (1 + 2 * pow2 (3 - 53) * (INR k + 2)) * T ->
    forallb (fun x => F32.valid x && notInfinite x) vector = true ->
    let S' :=
      fold_left
        (fun sum x =>
           let val := F64.orZero (F32.toNumber x) in F64.add sum (F64.mul val val))
        vector S in
    let T' := T + sumSquares vector in
    let n := INR k + INR (List.length vector) in
    nonneg S'
    /\ (T' = 0 \/ pow2 (-298) <= T')
    /\ 0 <= T' <= n * pow2 256
    /\ (1 - 2 * pow2 (3 - 53) * (n + 2)) * T' <= value S'
       <= (1 + 2 * pow2 (3 - 53) * (n + 2)) * T'.
Proof.
  induction vector as [| x vector IH]; intros k S T Hlen HS HT0 HT HvS Hok.
  - cbn [fold_left sumSquares List.length INR]. rewrite !Rplus_0_r.
    split; [exact HS |]. split; [exact HT0 |]. split; assumption.
  - cbn [forallb] in Hok. apply andb_true_iff in Hok as [Hx Hok].
    apply andb_true_iff in Hx as [Hv Hi].
    cbn [List.length] in Hlen. rewrite S_INR in Hlen.
    pose proof (pos_INR k) as Hk. pose proof (pos_INR (List.length vector)) as Hl.
    pose proof unit64 as Hu.
    assert (Hc : 4 * pow2 (3 - 53) <= 2 * pow2 (3 - 53) * (INR k + 2) <= / 2)
      by (rewrite Hu; lra).
    assert (HB : INR k * pow2 256 + pow2 256 <= pow2 900).
    { apply Rle_trans with (pow2 33 * pow2 256);
        [| rewrite <- pow2_add; apply pow2_le; lia].
      replace (INR k * pow2 256 + pow2 256) with ((INR k + 1) * pow2 256) by ring.
      apply Rmult_le_compat_r; [pose proof (pow2_pos 256); lra |].
      rewrite (pow2_IZR 33) by lia. change (2 ^ 33)%Z with 8589934592%Z. lra. }
    destruct (sum_step _ _ S T x Hc HB HS HT0 HT HvS Hv Hi) as (HS1 & HT1 & HB1 & Hv1).
    cbn [fold_left sumSquares List.length].
    replace (T + (value x * value x + sumSquares vector))
      with (T + value x * value x + sumSquares vector) by ring.
    replace (INR k + INR (Datatypes.S (List.length vector)))
      with (INR (Datatypes.S k) + INR (List.length vector)) by (rewrite !S_INR; ring).
    apply IH; try assumption; rewrite S_INR.
    + lra.
    + replace ((INR k + 1) * pow2 256) with (INR k * pow2 256 + pow2 256) by ring.
      exact HB1.
    + replace (2 * pow2 (3 - 53) * (INR k + 1 + 2))
        with (2 * pow2 (3 - 53) * (INR k + 2) + 2 * pow2 (3 - 53)) by ring.
      exact Hv1.
Qed.

Lemma sqrt_below :
  forall x, 0 <= x -> sqrt x <= 1 + x.
Proof.
  intros x Hx. pose proof (sqrt_sqrt x Hx) as Hs. pose proof (sqrt_pos x) as H0.
  destruct (Rle_dec (sqrt x) 1) as [H1 | H1]; [lra |].
  assert (sqrt x * 1 <= sqrt x * sqrt x) by (apply Rmult_le_compat_l; lra). lra.
Qed.

(** The computed norm, when it passes the guard: a positive number whose
    square is the sum of the squares of the elements up to [2^-16]. *)
Lemma magnitude_error :
  forall vector,
    forallb (fun x => F32.valid x && notInfinite x) vector = true ->
    (Z.of_nat (List.length vector) <= 2 ^ 32)%Z ->
    F64.gtb (Fafcas.magnitude vector) F64.lit_1e_6 = true ->
    exists m e,
      Fafcas.magnitude vector = S754_finite false m e
      /\ pow2 (-298) <= sumSquares vector <= pow2 288
      /\ (1 - / 65536) * sumSquares vector
         <= value (S754_finite false m e) * value (S754_finite false m e)
         <= (1 + / 65536) * sumSquares vector.
Proof.
  intros vector Hok Hlen Hguard.
  assert (HD : INR (List.length vector) <= 4294967296).
  { rewrite INR_IZR_INZ. apply IZR_le. exact Hlen. }
  pose proof (pos_INR (List.length vector)) as HD0.
  pose proof unit64 as Hu.
  assert (Hinit : INR 0 + INR (List.length vector) <= 4294967296)
    by (cbn [INR]; lra).
  destruct (sum_fold vector 0 F64.zero 0 Hinit eq_refl (or_introl eq_refl)
              ltac:(cbn [INR]; lra) ltac:(cbn [value F64.zero]; lra) Hok)
    as (HS & HT0 & HT & HvS).
  cbn [INR] in HT, HvS. rewrite !Rplus_0_l in *.
  unfold Fafcas.magnitude, Fafcas.sumOfSquares in *.
  set (T := sumSquares vector) in *.
  set (D := INR (List.length vector)) in *.
  match type of HS with nonneg ?S0 => destruct S0 as [s | s | | s m e] end;
    try contradiction; [discriminate Hguard |].
  cbn [nonneg] in HS. subst s.
  set (x := value (S754_finite false m e)) in *.
  assert (Hx : 0 < x).
  { unfold x. cbn. pose proof (pow2_pos e). assert (1 <= IZR (Zpos m)) by (apply IZR_le; lia).
    nra. }
  (* the bound [c] of the loop, as a number *)
  assert (Hc : 0 <= 2 * pow2 (3 - 53) * (D + 2) <= / 131000) by (rewrite Hu; lra).
  set (c := 2 * pow2 (3 - 53) * (D + 2)) in *.
  assert (HcT : c * T <= / 131000 * T) by (apply Rmult_le_compat_r; lra).
  assert (HcT0 : 0 <= c * T) by (apply Rmult_le_pos; lra).
  assert (HTpos : pow2 (-298) <= T).
  { destruct HT0 as [H0 | H]; [| exact H]. rewrite H0 in HvS. lra. }
  pose proof (pow2_pos (-298)) as Hp298.
  assert (HT288 : T <= pow2 288).
  { replace 288%Z with (32 + 256)%Z by reflexivity. rewrite pow2_add.
    rewrite (pow2_IZR 32) by lia. change (2 ^ 32)%Z with 4294967296%Z.
    apply Rle_trans with (D * pow2 256); [lra |].
    apply Rmult_le_compat_r; [pose proof (pow2_pos 256) |]; lra. }
  assert (Hxlo : T / 2 <= x) by lra.
  assert (Hxhi : x <= 2 * T) by lra.
  pose proof (sqrt_sqrt x ltac:(lra)) as Hss. pose proof (sqrt_pos x) as Hs0.
  assert (Hbig : sqrt x < pow2 (1024 - 53)).
  { apply Rle_lt_trans with (1 + x); [apply sqrt_below; lra |].
    apply Rle_lt_trans with (pow2 290).
    - replace 290%Z with (288 + 1 + 1)%Z by reflexivity. rewrite !pow2_succ.
      pose proof (pow2_ge_1 288 ltac:(lia)). lra.
    - apply Rlt_le_trans with (pow2 (290 + 1)); [| apply pow2_le; lia].
      rewrite pow2_succ. pose proof (pow2_pos 290). lra. }
  assert (Hnormal : pow2 (-1023) <= sqrt x).
  { apply square_le_inv; [pose proof (pow2_pos (-1023)); lra | exact Hs0 |].
    rewrite Hss, <- pow2_add.
    apply Rle_trans with (pow2 (-299)); [apply pow2_le; lia |].
    assert (Hh : pow2 (-298) = 2 * pow2 (-299)) by (rewrite <- pow2_succ; reflexivity).
    lra. }
  destruct (sqrt_error 53 1024 m e ltac:(lia) ltac:(lia) Hbig) as [Hnn Herr].
  fold x in Herr. rewrite (normal64 _ Hnormal) in Herr.
  unfold F64.sqrt in *.
  destruct (SFsqrt 53 1024 (S754_finite false m e)) as [s' | s' | | s' m' e'];
    try contradiction; [discriminate Hguard |].
  cbn [nonneg] in Hnn. subst s'.
  exists m', e'. split; [reflexivity |]. split; [split; assumption |].
  set (mu := value (S754_finite false m' e')) in *.
  apply abs_le_inv in Herr. rewrite Hu in Herr.
  set (u := / 1125899906842624) in *.
  set (r := sqrt x) in *.
  assert (Hur : 0 <= u * r) by (apply Rmult_le_pos; [unfold u; lra | exact Hs0]).
  assert (Hur1 : u * r <= r).
  { rewrite <- (Rmult_1_l r) at 2. apply Rmult_le_compat_r; [exact Hs0 | unfold u; lra]. }
  assert (Hlo : (r - u * r) * (r - u * r) <= mu * mu) by (apply square_le; lra).
  assert (Hhi : mu * mu <= (r + u * r) * (r + u * r)) by (apply square_le; lra).
  replace ((r - u * r) * (r - u * r)) with ((1 - u) * (1 - u) * (r * r)) in Hlo by ring.
  replace ((r + u * r) * (r + u * r)) with ((1 + u) * (1 + u) * (r * r)) in Hhi by ring.
  rewrite Hss in Hlo, Hhi. unfold u in Hlo, Hhi. lra.
Qed.

(** ** The elements stored by [toFafcas] *)

(** The integer that [F32.square298] gives for a zero or a finite
    binary32 value is [2^298] times the square of the value. *)
Lemma square298_value :
  forall y,
    (exists s, y = S754_zero s)
    \/ (exists s m e, y = S754_finite s m e /\ (-149 <= e)%Z) ->
    exists z, F32.square298 y = Some z /\ IZR z = pow2 298 * (value y * value y).
Proof.
  intros y [(s & ->) | (s & m & e & -> & He)]; cbn [F32.square298 value].
  - exists 0%Z. split; [reflexivity | ring].
  - eexists. split; [reflexivity |].
    rewrite !mult_IZR, <- pow2_IZR by lia.
    replace 298%Z with (149 + 149)%Z by reflexivity.
    rewrite (Z.add_comm e 149), !pow2_add. ring.
Qed.

Lemma unit32 :
  pow2 (3 - 24) = / 2097152.
Proof.
  apply (pow2_opp 21). lia.
Qed.

(** The element stored for [x] when the norm is [mu]: the quotient
    [x / mu] up to [2^-20], and up to [2^-148] near zero. *)
Lemma output_element :
  forall x sb mm em,
    F32.valid x = true -> notInfinite x = true ->
    let mu := value (S754_finite sb mm em) in
    value x * value x <= 2 * (mu * mu) ->
    mu * mu <= pow2 300 ->
    let y := F32.ofNumber (F64.div (F64.orZero (F32.toNumber x)) (S754_finite sb mm em)) in
    let t := value x / mu in
    (exists z, F32.square298 y = Some z /\ IZR z = pow2 298 * (value y * value y))
    /\ (1 - / 1048576) * (1 - / 1048576) * (t * t) - 4 * pow2 (-148)
       <= value y * value y
       <= (1 + / 1048576) * (1 + / 1048576) * (t * t) + 6 * pow2 (-148).
Proof.
  intros x sb mm em Hv Hi mu Ha Hmu y t.
  destruct (val_error x Hv Hi) as (Hfin & Hzero & Herr).
  pose proof (pow2_pos (-148)) as Htau.
  assert (Hmu0 : 0 < mu).
  { unfold mu. cbn. pose proof (pow2_pos em).
    assert (1 <= IZR (Zpos mm)) by (apply IZR_le; lia). nra. }
  assert (Hrange : value x = 0 \/ pow2 (-149) <= value x < pow2 128).
  { destruct x as [s | s | | s m e]; [left; reflexivity | discriminate Hi | left; reflexivity |].
    right. apply element_range, Hv. }
  destruct Hrange as [H0 | [Hlo Hhi]].
  - (* a zero element is stored as a zero *)
    assert (Hy : exists s, y = S754_zero s).
    { unfold y. rewrite (Hzero H0). eexists. reflexivity. }
    destruct Hy as (s & Hy).
    split; [apply square298_value; left; exists s; exact Hy |].
    unfold t. rewrite Hy, H0. cbn [value]. unfold Rdiv. rewrite !Rmult_0_l, !Rmult_0_r. lra.
  - set (a := value x) in *. set (w := value (F64.orZero (F32.toNumber x))) in *.
    pose proof (pow2_pos (-149)) as Hp149.
    pose proof unit64 as Hu. rewrite Hu in Herr. set (u := / 1125899906842624) in *.
    apply abs_le_inv in Herr.
    set (i := / mu). assert (Hi0 : 0 < i) by (apply Rinv_0_lt_compat; exact Hmu0).
    assert (Hmi : mu * i = 1) by (unfold i; field; lra).
    assert (Ht : t = a * i) by reflexivity.
    assert (Ht0 : 0 < t) by (rewrite Ht; apply Rmult_lt_0_compat; lra).
    (* [t <= 2] *)
    assert (Htt : t * t <= 2).
    { replace (t * t) with (a * a * (i * i)) by (rewrite Ht; ring).
      replace 2 with (2 * (mu * mu) * (i * i))
        by (replace (2 * (mu * mu) * (i * i)) with (2 * (mu * i) * (mu * i)) by ring;
            rewrite Hmi; ring).
      apply Rmult_le_compat_r; [| exact Ha]. apply Rmult_le_pos; lra. }
    assert (Ht2 : t <= 2) by (apply square_le_inv; lra).
    (* [2^-299 <= t] *)
    assert (Hmu150 : mu <= pow2 150).
    { apply square_le_inv; [lra | pose proof (pow2_pos 150); lra |].
      rewrite <- pow2_add. exact Hmu. }
    assert (Hi150 : pow2 (-150) <= i).
    { assert (Hone : pow2 (-150) * pow2 150 = 1) by (rewrite <- pow2_add; reflexivity).
      pose proof (pow2_pos (-150)) as Hp.
      assert (pow2 (-150) * mu <= i * mu) by (rewrite (Rmult_comm i), Hmi, <- Hone;
        apply Rmult_le_compat_l; lra).
      apply Rmult_le_reg_r with mu; assumption. }
    assert (Htlow : pow2 (-299) <= t).
    { replace (-299)%Z with (-149 + -150)%Z by reflexivity. rewrite pow2_add, Ht.
      pose proof (pow2_pos (-150)). apply Rmult_le_compat; lra. }
    (* the quotient of the numbers *)
    set (t' := w / mu).
    assert (Ht' : t' = w * i) by reflexivity.
    assert (Hut : u * t = u * a * i) by (rewrite Ht; ring).
    assert (Ht'lo : t - u * t <= t').
    { rewrite Ht', Hut, Ht. replace (a * i - u * a * i) with ((a - u * a) * i) by ring.
      apply Rmult_le_compat_r; lra. }
    assert (Ht'hi : t' <= t + u * t).
    { rewrite Ht', Hut, Ht. replace (a * i + u * a * i) with ((a + u * a) * i) by ring.
      apply Rmult_le_compat_r; lra. }
    assert (Hut0 : 0 <= u * t) by (apply Rmult_le_pos; [unfold u |]; lra).
    assert (Hut1 : u * t <= / 8 * t) by (apply Rmult_le_compat_r; [| unfold u]; lra).
    assert (Hbig : t' < pow2 (1024 - 53)).
    { apply Rle_lt_trans with 4; [lra |].
      apply Rlt_le_trans with (pow2 3); [| apply pow2_le; lia].
      rewrite (pow2_IZR 3) by lia. change (2 ^ 3)%Z with 8%Z. lra. }
    assert (Hnormal : pow2 (-1023) <= t').
    { apply Rle_trans with (pow2 (-300)); [apply pow2_le; lia |].
      assert (Hh : pow2 (-299) = 2 * pow2 (-300)) by (rewrite <- pow2_succ; reflexivity).
      lra. }
    destruct (div_error 53 1024 _ sb mm em ltac:(lia) ltac:(lia) Hfin Hbig) as [Hq Hqerr].
    fold mu in Hqerr. fold w in Hqerr. fold t' in Hqerr.
    rewrite (normal64 _ Hnormal), Hu in Hqerr. fold u in Hqerr.
    apply abs_le_inv in Hqerr.
    change (SFdiv 53 1024 (F64.orZero (F32.toNumber x)) (S754_finite sb mm em))
      with (F64.div (F64.orZero (F32.toNumber x)) (S754_finite sb mm em)) in Hq, Hqerr.
    unfold y.
    set (q := F64.div (F64.orZero (F32.toNumber x)) (S754_finite sb mm em)) in *.
    assert (Hut' : 0 <= u * t') by (apply Rmult_le_pos; [unfold u |]; lra).
    assert (Hut'1 : u * t' <= u * (t + u * t)) by (apply Rmult_le_compat_l; [unfold u |]; lra).
    assert (Hut'2 : u * (t - u * t) <= u * t') by (apply Rmult_le_compat_l; [unfold u |]; lra).
    destruct q as [sq | sq | | sq mq eq]; try contradiction.
    { exfalso. cbn [value] in Hqerr. unfold u in *. lra. }
    set (vq := value (S754_finite sq mq eq)) in *.
    assert (Hvq : t * (1 - / 1000000000) <= vq <= t * (1 + / 1000000000)).
    { unfold u in *. lra. }
    cbn [F32.ofNumber].
    assert (Hbig32 : vq < pow2 (128 - 24)).
    { apply Rle_lt_trans with 4; [lra |].
      apply Rlt_le_trans with (pow2 3); [| apply pow2_le; lia].
      rewrite (pow2_IZR 3) by lia. change (2 ^ 3)%Z with 8%Z. lra. }
    destruct (binary_round_error 24 128 sq mq eq ltac:(lia) ltac:(lia) Hbig32)
      as [Hshape Hyerr].
    change (IZR (Zpos mq) * pow2 eq) with vq in Hyerr.
    split.
    { apply square298_value.
      destruct Hshape as [Hz | (m' & e' & Hf & He')];
        [left; exists sq; exact Hz | right; exists sq, m', e'; split; [exact Hf |]].
      unfold emin in He'. lia. }
    set (vy := value (binary_round 24 128 sq mq eq)) in *.
    assert (Hvy0 : 0 <= vy).
    { unfold vy. destruct (binary_round 24 128 sq mq eq) as [s1 | s1 | | s1 m1 e1];
        cbn [value]; try lra.
      pose proof (pow2_pos e1). assert (1 <= IZR (Zpos m1)) by (apply IZR_le; lia). nra. }
    assert (Hbound : roundingBound 24 128 vq <= / 2097152 * vq + pow2 (-148)).
    { unfold roundingBound. rewrite unit32.
      change (emin 24 128 + 1)%Z with (-148)%Z.
      apply Rmax_lub; [| assert (0 <= / 2097152 * vq) by (apply Rmult_le_pos; lra)]; lra. }
    apply abs_le_inv in Hyerr.
    set (tau := pow2 (-148)) in *.
    assert (Htau1 : tau <= 1).
    { unfold tau. replace 1 with (pow2 0) by reflexivity. apply pow2_le. lia. }
    assert (Hyhi : vy <= (1 + / 1048576) * t + tau) by lra.
    assert (Hylo : (1 - / 1048576) * t - tau <= vy) by lra.
    assert (Htt0 : 0 <= t * t) by (apply Rmult_le_pos; lra).
    assert (Httau : t * tau <= 2 * tau) by (apply Rmult_le_compat_r; lra).
    assert (Httau0 : 0 <= t * tau) by (apply Rmult_le_pos; lra).
    assert (Htau2 : tau * tau <= tau).
    { rewrite <- (Rmult_1_l tau) at 3. apply Rmult_le_compat_r; lra. }
    assert (Htau20 : 0 <= tau * tau) by (apply Rmult_le_pos; lra).
    split.
    + destruct (Rle_dec 0 ((1 - / 1048576) * t - tau)) as [Hpos | Hneg].
      * assert (Hsq : ((1 - / 1048576) * t - tau) * ((1 - / 1048576) * t - tau) <= vy * vy)
          by (apply square_le; lra).
        replace (((1 - / 1048576) * t - tau) * ((1 - / 1048576) * t - tau))
          with ((1 - / 1048576) * (1 - / 1048576) * (t * t)
                - 2 * (1 - / 1048576) * (t * tau) + tau * tau) in Hsq by ring.
        lra.
      * assert (Hsq : (1 - / 1048576) * t * ((1 - / 1048576) * t) <= tau * tau)
          by (apply square_le; lra).
        replace ((1 - / 1048576) * t * ((1 - / 1048576) * t))
          with ((1 - / 1048576) * (1 - / 1048576) * (t * t)) in Hsq by ring.
        assert (0 <= vy * vy) by (apply Rmult_le_pos; lra).
        lra.
    + assert (Hsq : vy * vy <= ((1 + / 1048576) * t + tau) * ((1 + / 1048576) * t + tau))
        by (apply square_le; lra).
      replace (((1 + / 1048576) * t + tau) * ((1 + / 1048576) * t + tau))
        with ((1 + / 1048576) * (1 + / 1048576) * (t * t)
              + 2 * (1 + / 1048576) * (t * tau) + tau * tau) in Hsq by ring.
      lra.
Qed.

(** The squares of the stored elements add up to the squares of the
    quotients, up to [2^-19] and [6 x 2^-148] an element. *)
Lemma output_sum :
  forall sb mm em l,
    let mu := value (S754_finite sb mm em) in
    mu * mu <= pow2 300 ->
    (forall x, In x l ->
       F32.valid x = true /\ notInfinite x = true /\ value x * value x <= 2 * (mu * mu)) ->
    exists z Y,
      F32.sumSquares298
        (List.map
           (fun x =>
              F32.ofNumber
                (F64.div (F64.orZero (F32.toNumber x)) (S754_finite sb mm em)))
           l) = Some z
      /\ IZR z = pow2 298 * Y
      /\ (1 - / 1048576) * (1 - / 1048576) * (sumSquares l / (mu * mu))
         - 4 * pow2 (-148) * INR (List.length l)
         <= Y
         <= (1 + / 1048576) * (1 + / 1048576) * (sumSquares l / (mu * mu))
            + 6 * pow2 (-148) * INR (List.length l).
Proof.
  intros sb mm em l mu Hmu.
  assert (Hmu0 : 0 < mu).
  { unfold mu. cbn. pose proof (pow2_pos em).
    assert (1 <= IZR (Zpos mm)) by (apply IZR_le; lia). nra. }
  induction l as [| x l IH]; intros Hl.
  - exists 0%Z, 0. cbn [List.map F32.sumSquares298 sumSquares List.length INR].
    split; [reflexivity |]. split; [ring |].
    unfold Rdiv. rewrite !Rmult_0_l, !Rmult_0_r. lra.
  - destruct (Hl x (or_introl eq_refl)) as (Hv & Hi & Ha).
    destruct (output_element x sb mm em Hv Hi Ha Hmu) as ((z1 & Hz1 & Hy1) & Hb1).
    destruct (IH (fun y Hy => Hl y (or_intror Hy))) as (z2 & Y2 & Hz2 & Hy2 & Hb2).
    cbn [List.map F32.sumSquares298]. rewrite Hz1, Hz2.
    eexists. eexists. split; [reflexivity |].
    split; [rewrite plus_IZR, Hy1, Hy2; rewrite <- Rmult_plus_distr_l; reflexivity |].
    fold mu in Hb1.
    cbn [sumSquares List.length]. rewrite S_INR.
    replace ((value x * value x + sumSquares l) / (mu * mu))
      with (value x / mu * (value x / mu) + sumSquares l / (mu * mu)) by (field; lra).
    lra.
Qed.

Lemma unitNorm_intro :
  forall l z Y,
    F32.sumSquares298 l = Some z ->
    IZR z = pow2 298 * Y ->
    99999 * 99999 <= Y * 10000000000 <= 100001 * 100001 ->
    F32.unitNorm l = true.
Proof.
  intros l z Y Hz HY [Hlo Hhi]. unfold F32.unitNorm. rewrite Hz.
  pose proof (pow2_pos 298) as Hp.
  apply andb_true_intro. split; apply Z.leb_le; apply le_IZR;
    change (10 ^ 10)%Z with 10000000000%Z;
    rewrite !mult_IZR, HY, <- (pow2_IZR 298) by lia.
  - replace (99999 * 99999 * pow2 298) with (pow2 298 * (99999 * 99999)) by ring.
    rewrite Rmult_assoc. apply Rmult_le_compat_l; lra.
  - replace (100001 * 100001 * pow2 298) with (pow2 298 * (100001 * 100001)) by ring.
    rewrite Rmult_assoc. apply Rmult_le_compat_l; lra.
Qed.

(** What [toFafcas] stores from a vector of finite elements whose
    computed norm passes the guard has unit norm. *)
Lemma toFafcas_unit_norm :
  forall vector,
    forallb (fun x => F32.valid x && notInfinite x) vector = true ->
    (Z.of_nat (List.length vector) <= 2 ^ 32)%Z ->
    F64.gtb (Fafcas.magnitude vector) F64.lit_1e_6 = true ->
    F32.unitNorm (Fafcas.toFafcas vector) = true.
Proof.
  intros vector Hok Hlen Hguard.
  destruct (magnitude_error vector Hok Hlen Hguard) as (m & e & Hmag & [HTlo HThi] & Hmu).
  unfold Fafcas.toFafcas. rewrite Hguard, Hmag.
  set (mu := value (S754_finite false m e)) in *.
  set (T := sumSquares vector) in *.
  pose proof (pow2_pos (-298)) as Hp298.
  assert (Hmupos : 0 < mu).
  { unfold mu. cbn. pose proof (pow2_pos e).
    assert (1 <= IZR (Zpos m)) by (apply IZR_le; lia). nra. }
  assert (Hmu0 : 0 < mu * mu) by lra.
  assert (Hmu300 : mu * mu <= pow2 300).
  { apply Rle_trans with (pow2 (288 + 1)); [rewrite pow2_succ; lra | apply pow2_le; lia]. }
  assert (Hall : forall x, In x vector ->
                   F32.valid x = true /\ notInfinite x = true
                   /\ value x * value x <= 2 * (mu * mu)).
  { intros x Hx. rewrite forallb_forall in Hok.
    specialize (Hok x Hx). apply andb_true_iff in Hok as [Hv Hi].
    split; [exact Hv |]. split; [exact Hi |].
    pose proof (sumSquares_In vector x Hx) as Hle. fold T in Hle. lra. }
  destruct (output_sum false m e vector Hmu300 Hall) as (z & Y & Hz & HY & Hb).
  fold mu in Hb. fold T in Hb.
  apply (unitNorm_intro _ z Y Hz HY).
  (* the quotient of the two sums *)
  set (Q := T / (mu * mu)) in *.
  assert (HQ : T = Q * (mu * mu)) by (unfold Q; field; lra).
  assert (HQ0 : 0 <= Q) by (unfold Q; apply Rmult_le_pos; [| apply Rlt_le, Rinv_0_lt_compat]; lra).
  assert (HQlo : 1 <= (1 + / 65536) * Q).
  { apply Rmult_le_reg_r with (mu * mu); [exact Hmu0 |].
    replace ((1 + / 65536) * Q * (mu * mu)) with ((1 + / 65536) * (Q * (mu * mu))) by ring.
    rewrite <- HQ. lra. }
  assert (HQhi : (1 - / 65536) * Q <= 1).
  { apply Rmult_le_reg_r with (mu * mu); [exact Hmu0 |].
    replace ((1 - / 65536) * Q * (mu * mu)) with ((1 - / 65536) * (Q * (mu * mu))) by ring.
    rewrite <- HQ. lra. }
  assert (HD : INR (List.length vector) <= 4294967296).
  { rewrite INR_IZR_INZ. apply IZR_le. exact Hlen. }
  pose proof (pos_INR (List.length vector)) as HD0.
  assert (Htau : pow2 (-148) = / 356811923176489970264571492362373784095686656).
  { apply (pow2_opp 148). lia. }
  rewrite Htau in Hb. lra.
Qed.

End Rounding.


(** C3 (amended). [toFafcas] returns the [4 x D] bytes of the vector. When
    the computed norm [mu] is greater than 1e-6, it rescales the elements,
    each to the binary32 rounding of [val / mu], and the stored vector has
    L2 norm within 1e-5 of 1, for every vector of at most [2^32] elements
    none of which is infinite. Otherwise (norm at most 1e-6, or NaN) the
    vector is emitted as it is, and its bytes are all zero exactly when
    every element is [+0]. *)
Theorem toFafcas_rescales_only_above_the_guard :
  forall vector,
    List.length (F32.bytes (Fafcas.toFafcas vector)) = 4 * List.length vector
    /\ (F64.gtb (Fafcas.magnitude vector) F64.lit_1e_6 = true ->
        Fafcas.toFafcas vector
        = List.map
            (fun x =>
               F32.ofNumber
                 (F64.div (F64.orZero (F32.toNumber x)) (Fafcas.magnitude vector)))
            vector
        /\ (forallb (fun x => F32.valid x && FloatValue.notInfinite x) vector = true ->
            (Z.of_nat (List.length vector) <= 2 ^ 32)%Z ->
            F32.unitNorm (Fafcas.toFafcas vector) = true))
    /\ (F64.gtb (Fafcas.magnitude vector) F64.lit_1e_6 = false ->
        Fafcas.toFafcas vector = vector
        /\ (forallb F32.valid vector = true ->
            (F32.allZeroBytes (Fafcas.toFafcas vector) = true
             <-> Forall (fun x => x = S754_zero false) vector))).
Proof.
  intros vector. split; [| split].
  - rewrite bytes_length, toFafcas_length. reflexivity.
  - intros Hg. split.
    + unfold Fafcas.toFafcas. rewrite Hg. reflexivity.
    + intros Hok Hlen. apply Rounding.toFafcas_unit_norm; assumption.
  - intros Hg.
    assert (Hid : Fafcas.toFafcas vector = vector)
      by (unfold Fafcas.toFafcas; rewrite Hg; reflexivity).
    split; [exact Hid |].
    intros Hv. rewrite Hid. apply allZeroBytes_iff, Hv.
Qed.

(** Witness of C3: the vector [[3; 4]] is rescaled to [[0.6; 0.8]] (in
    binary32), of unit norm, and the vector [[+0; +0]] is emitted as
    all-zero bytes. *)
Lemma toFafcas_rescales_only_above_the_guard_witness :
  Fafcas.toFafcas
    [S754_finite false 12582912 (-22); S754_finite false 8388608 (-21)]
  = [S754_finite false 10066330 (-24); S754_finite false 13421773 (-24)]
  /\ F32.unitNorm
       (Fafcas.toFafcas
          [S754_finite false 12582912 (-22); S754_finite false 8388608 (-21)]) = true
  /\ F32.allZeroBytes (Fafcas.toFafcas [S754_zero false; S754_zero false]) = true.
Proof.
  split; [| split].
  - rewrite (proj1 (proj1 (proj2 (toFafcas_rescales_only_above_the_guard
                                    [S754_finite false 12582912 (-22);
                                     S754_finite false 8388608 (-21)]))
                      eq_refl)).
    vm_compute. reflexivity.
  - apply (proj2 (proj1 (proj2 (toFafcas_rescales_only_above_the_guard
                                  [S754_finite false 12582912 (-22);
                                   S754_finite false 8388608 (-21)]))
                    eq_refl)).
    + vm_compute. reflexivity.
    + vm_compute. discriminate.
  - apply (proj2 (proj2 (proj2 (toFafcas_rescales_only_above_the_guard
                                  [S754_zero false; S754_zero false]))
                          eq_refl) eq_refl).
    repeat constructor.
Defined.

(** C3 (counterexample). The valid vector [[2^-24]] has norm [2^-24], not
    greater than 1e-6: [toFafcas] returns it as it is, with bytes
    [00 00 80 33]; the blob is neither of unit norm nor all zero, and this is
    the embedding that [insertNode] stores. *)
Theorem tiny_vector_is_stored_unnormalised :
  forallb F32.valid Scenario.tinyVector = true
  /\ Fafcas.magnitude Scenario.tinyVector = S754_finite false 4503599627370496 (-76)
  /\ Fafcas.toFafcas Scenario.tinyVector = Scenario.tinyVector
  /\ F32.bytes (Fafcas.toFafcas Scenario.tinyVector) = [0; 0; 128; 51]%Z
  /\ F32.unitNorm (Fafcas.toFafcas Scenario.tinyVector) = false
  /\ F32.allZeroBytes (Fafcas.toFafcas Scenario.tinyVector) = false
  /\ List.map Row.embedding
       (nodes (ResonanceDB.insertNode ResonanceDB.emptyStore
                 (Scenario.searchNode "t" "tiny" (Some Scenario.tinyVector))))
     = [Some Scenario.tinyVector].
Proof.
  vm_compute. repeat split.
Qed.

(** An infinite element cannot be admitted above: the computed norm is
    then infinite, the infinite element is stored as NaN and the finite
    ones as zeros. *)
Example infinite_element_is_stored_as_nan :
  Fafcas.toFafcas [S754_infinity false; S754_finite false 8388608 (-23)]
  = [S754_nan; S754_zero false]
  /\ F32.unitNorm
       (Fafcas.toFafcas [S754_infinity false; S754_finite false 8388608 (-23)]) = false
  /\ F32.allZeroBytes
       (Fafcas.toFafcas [S754_infinity false; S754_finite false 8388608 (-23)]) = false.
Proof.
  vm_compute. repeat split.
Qed.

(** ** BentoBoxer *)

Ltac case_budget :=
  match goal with
  | |- context [(?a <=? ?b)%nat] => destruct (a <=? b)%nat
  end.

Lemma findIndex_Some :
  forall (A : Type) (p : A -> bool) (l : list A) (i : nat),
    BentoBoxer.findIndex p l = Some i ->
    exists x, p x = true /\ l = (firstn i l ++ x :: skipn (i + 1) l)%list.
Proof.
  intros A p l. induction l as [| y l IH]; intros i H; simpl in H; [discriminate |].
  destruct (p y) eqn:Hy.
  - inversion H; subst. exists y. split; [exact Hy | reflexivity].
  - destruct (BentoBoxer.findIndex p l) as [j |]; [| discriminate].
    inversion H; subst. destruct (IH j eq_refl) as (x & Hx & Hl).
    exists x. split; [exact Hx |]. simpl. f_equal. exact Hl.
Qed.

Lemma findIndex_None :
  forall (A : Type) (p : A -> bool) (l : list A),
    forallb (fun x => negb (p x)) l = true -> BentoBoxer.findIndex p l = None.
Proof.
  intros A p l. induction l as [| y l IH]; intros H; simpl in *; [reflexivity |].
  apply andb_true_iff in H as [Hy Hl]. apply negb_true_iff in Hy.
  rewrite Hy, IH by exact Hl. reflexivity.
Qed.

Lemma split_lengths :
  forall (A : Type) (l : list A) (i : nat) (x : A),
    l = (firstn i l ++ x :: skipn (i + 1) l)%list ->
    List.length (firstn i l) < List.length l
    /\ List.length (skipn (i + 1) l) < List.length l.
Proof.
  intros A l i x H. apply (f_equal (@List.length A)) in H.
  rewrite length_app in H. simpl in H. lia.
Qed.

Lemma halves_lengths :
  forall (A : Type) (l : list A),
    1 < List.length l ->
    List.length (firstn (Nat.div (List.length l) 2) l) < List.length l
    /\ List.length (skipn (Nat.div (List.length l) 2) l) < List.length l.
Proof.
  intros A l H. rewrite length_firstn, length_skipn.
  pose proof (Nat.div_lt (List.length l) 2 ltac:(lia) ltac:(lia)).
  assert (0 < Nat.div (List.length l) 2).
  { apply Nat.div_str_pos. lia. }
  lia.
Qed.

(** The fuel given by [packageContent] is enough: with any fuel at least
    the length of the list, [packageContentFrom] returns the same boxes. *)
Lemma packageContent_fuel :
  forall b fuel1 fuel2 nodes ledger,
    List.length nodes <= fuel1 -> List.length nodes <= fuel2 ->
    BentoBoxer.packageContentFrom fuel1 b nodes ledger
    = BentoBoxer.packageContentFrom fuel2 b nodes ledger.
Proof.
  intros b fuel1. induction fuel1 as [| f1 IH]; intros fuel2 nodes ledger H1 H2.
  - destruct nodes; [| simpl in H1; lia].
    destruct fuel2; [reflexivity |].
    cbn [BentoBoxer.packageContentFrom BentoBoxer.findIndex List.length Nat.ltb Nat.leb].
    case_budget; reflexivity.
  - destruct fuel2 as [| f2].
    + destruct nodes; [| simpl in H2; lia].
      cbn [BentoBoxer.packageContentFrom BentoBoxer.findIndex List.length Nat.ltb Nat.leb].
      case_budget; reflexivity.
    + cbn [BentoBoxer.packageContentFrom].
      case_budget; [reflexivity |].
      destruct (BentoBoxer.findIndex BentoBoxer.isThematicBreak nodes) as [i |] eqn:Hi.
      * destruct (findIndex_Some _ _ _ _ Hi) as (x & _ & Hl).
        destruct (split_lengths _ _ _ _ Hl) as [Hl1 Hl2].
        rewrite (IH f2 (firstn i nodes)) by lia.
        destruct (BentoBoxer.packageContentFrom f2 b (firstn i nodes) ledger)
          as [boxesL ledger1].
        rewrite (IH f2 (skipn (i + 1) nodes)) by lia. reflexivity.
      * destruct (Nat.ltb_spec 1 (List.length nodes)) as [Hlen |]; [| reflexivity].
        destruct (halves_lengths _ nodes Hlen) as [Hl1 Hl2].
        rewrite (IH f2 (firstn _ nodes)) by lia.
        destruct (BentoBoxer.packageContentFrom f2 b (firstn _ nodes) ledger)
          as [boxesL ledger1].
        rewrite (IH f2 (skipn _ nodes)) by lia. reflexivity.
Qed.

Lemma createBox_content :
  forall b ledger content tokenCount,
    BentoBoxer.content (fst (BentoBoxer.createBox b ledger content tokenCount)) = content.
Proof.
  intros. unfold BentoBoxer.createBox.
  destruct (LocusLedger.getOrMintId _ _ _). reflexivity.
Qed.

(** The boxes of [packageContent] are the trimmed serialisations of the
    groups of [leafGroups]. *)
Lemma packageContentFrom_contents :
  forall b fuel nodes ledger,
    List.map BentoBoxer.content (fst (BentoBoxer.packageContentFrom fuel b nodes ledger))
    = List.map (fun g => JS.trim (BentoBoxer.stringify (BentoBoxer.processor b) g))
        (Spec.leafGroupsFrom fuel b nodes).
Proof.
  intros b fuel. induction fuel as [| f IH]; intros nodes ledger.
  - cbn [BentoBoxer.packageContentFrom Spec.leafGroupsFrom].
    pose proof (createBox_content b ledger
                  (JS.trim (BentoBoxer.stringify (BentoBoxer.processor b) nodes))
                  (BentoBoxer.countTokens
                     (JS.trim (BentoBoxer.stringify (BentoBoxer.processor b) nodes)))) as Hc.
    destruct (BentoBoxer.createBox _ _ _ _) as [box ledger'].
    case_budget; simpl in *; rewrite Hc; reflexivity.
  - cbn [BentoBoxer.packageContentFrom Spec.leafGroupsFrom].
    pose proof (createBox_content b ledger
                  (JS.trim (BentoBoxer.stringify (BentoBoxer.processor b) nodes))
                  (BentoBoxer.countTokens
                     (JS.trim (BentoBoxer.stringify (BentoBoxer.processor b) nodes)))) as Hc.
    destruct (BentoBoxer.createBox _ _ _ _) as [box ledger'].
    case_budget; [simpl in *; rewrite Hc; reflexivity |].
    destruct (BentoBoxer.findIndex BentoBoxer.isThematicBreak nodes) as [i |].
    + pose proof (IH (firstn i nodes) ledger) as HL.
      destruct (BentoBoxer.packageContentFrom f b (firstn i nodes) ledger)
        as [boxesL ledger1].
      pose proof (IH (skipn (i + 1) nodes) ledger1) as HR.
      destruct (BentoBoxer.packageContentFrom f b (skipn (i + 1) nodes) ledger1)
        as [boxesR ledger2].
      simpl in *. rewrite !map_app, HL, HR. reflexivity.
    + destruct (1 <? List.length nodes)%nat; [| simpl in *; rewrite Hc; reflexivity].
      pose proof (IH (firstn (Nat.div (List.length nodes) 2) nodes) ledger) as HL.
      destruct (BentoBoxer.packageContentFrom f b (firstn _ nodes) ledger)
        as [boxesL ledger1].
      pose proof (IH (skipn (Nat.div (List.length nodes) 2) nodes) ledger1) as HR.
      destruct (BentoBoxer.packageContentFrom f b (skipn _ nodes) ledger1)
        as [boxesR ledger2].
      simpl in *. rewrite !map_app, HL, HR. reflexivity.
Qed.

(** The groups keep every block but the thematic breaks at which a group
    was fractured. *)
Lemma leafGroupsFrom_blocks :
  forall b fuel nodes,
    filter Spec.notBreak (List.concat (Spec.leafGroupsFrom fuel b nodes))
    = filter Spec.notBreak nodes
    /\ (forallb Spec.notBreak nodes = true ->
        List.concat (Spec.leafGroupsFrom fuel b nodes) = nodes).
Proof.
  intros b fuel. induction fuel as [| f IH]; intros nodes;
    cbn [Spec.leafGroupsFrom].
  - case_budget; simpl; rewrite app_nil_r; auto.
  - case_budget; [simpl; rewrite app_nil_r; auto |].
    destruct (BentoBoxer.findIndex BentoBoxer.isThematicBreak nodes) as [i |] eqn:Hi.
    + destruct (findIndex_Some _ _ _ _ Hi) as (x & Hx & Hl).
      destruct (IH (firstn i nodes)) as [HL _].
      destruct (IH (skipn (i + 1) nodes)) as [HR _].
      split.
      * rewrite concat_app, filter_app, HL, HR.
        assert (Hnb : Spec.notBreak x = false)
          by (unfold Spec.notBreak; rewrite Hx; reflexivity).
        set (left := firstn i nodes) in *. set (right := skipn (i + 1) nodes) in *.
        rewrite Hl, filter_app. cbn [filter]. rewrite Hnb. reflexivity.
      * intros Hall. rewrite findIndex_None in Hi by exact Hall. discriminate.
    + destruct (1 <? List.length nodes)%nat; [| simpl; rewrite app_nil_r; auto].
      destruct (IH (firstn (Nat.div (List.length nodes) 2) nodes)) as [HL HL'].
      destruct (IH (skipn (Nat.div (List.length nodes) 2) nodes)) as [HR HR'].
      split.
      * rewrite concat_app, filter_app, HL, HR, <- filter_app, firstn_skipn.
        reflexivity.
      * intros Hall. rewrite <- (firstn_skipn (Nat.div (List.length nodes) 2) nodes) in Hall.
        rewrite forallb_app in Hall. apply andb_true_iff in Hall as [H1 H2].
        rewrite concat_app, HL', HR' by assumption. apply firstn_skipn.
Qed.

Lemma processNodes_contents :
  forall b children currentNodes boxes ledger,
    List.map BentoBoxer.content
      (fst (BentoBoxer.processNodes b children currentNodes boxes ledger))
    = (List.map BentoBoxer.content boxes
       ++ List.map (fun g => JS.trim (BentoBoxer.stringify (BentoBoxer.processor b) g))
            (Spec.groupsOfNodes b children currentNodes))%list.
Proof.
  intros b children.
  induction children as [| node rest IH]; intros currentNodes boxes ledger;
    cbn [BentoBoxer.processNodes Spec.groupsOfNodes].
  - destruct currentNodes as [| n0 ns]; [simpl; rewrite app_nil_r; reflexivity |].
    unfold BentoBoxer.packageContent, Spec.leafGroups.
    pose proof (packageContentFrom_contents b (List.length (n0 :: ns)) (n0 :: ns) ledger) as H.
    destruct (BentoBoxer.packageContentFrom _ b (n0 :: ns) ledger) as [bs ledger'].
    simpl fst in *. rewrite map_app, H. reflexivity.
  - destruct (BentoBoxer.opensGroup node).
    + destruct currentNodes as [| n0 ns]; [apply IH |].
      unfold BentoBoxer.packageContent, Spec.leafGroups.
      pose proof (packageContentFrom_contents b (List.length (n0 :: ns)) (n0 :: ns) ledger) as H.
      destruct (BentoBoxer.packageContentFrom _ b (n0 :: ns) ledger) as [bs ledger'].
      simpl fst in *. rewrite IH, !map_app, H, app_assoc. reflexivity.
    + apply IH.
Qed.

Lemma leafGroups_nil_or :
  forall b currentNodes,
    filter Spec.notBreak
      (List.concat match currentNodes with [] => [] | _ => Spec.leafGroups b currentNodes end)
    = filter Spec.notBreak currentNodes
    /\ (forallb Spec.notBreak currentNodes = true ->
        List.concat match currentNodes with [] => [] | _ => Spec.leafGroups b currentNodes end
        = currentNodes).
Proof.
  intros b currentNodes. destruct currentNodes as [| n0 ns]; [auto |].
  apply leafGroupsFrom_blocks.
Qed.

Lemma groupsOfNodes_blocks :
  forall b children currentNodes,
    filter Spec.notBreak (List.concat (Spec.groupsOfNodes b children currentNodes))
    = filter Spec.notBreak (currentNodes ++ children)
    /\ (forallb Spec.notBreak (currentNodes ++ children) = true ->
        List.concat (Spec.groupsOfNodes b children currentNodes)
        = (currentNodes ++ children)%list).
Proof.
  intros b children.
  induction children as [| node rest IH]; intros currentNodes;
    cbn [Spec.groupsOfNodes].
  - rewrite app_nil_r. apply leafGroups_nil_or.
  - destruct (BentoBoxer.opensGroup node).
    + destruct (leafGroups_nil_or b currentNodes) as [Hc Hc'].
      destruct (IH [node]) as [Hr Hr']. cbn [app] in Hr, Hr'.
      split.
      * rewrite concat_app, filter_app, Hc, Hr. symmetry. apply filter_app.
      * intros Hall. rewrite forallb_app in Hall. apply andb_true_iff in Hall as [H1 H2].
        rewrite concat_app, Hc', Hr' by assumption. reflexivity.
    + destruct (IH (currentNodes ++ [node])%list) as [Hr Hr'].
      rewrite <- app_assoc in Hr, Hr'. exact (conj Hr Hr').
Qed.

(** C4 (amended). The boxes of a document are the trimmed serialisations
    of consecutive groups of its top-level blocks; the groups hold, in
    document order, every block that is not a thematic break, and all the
    blocks when the document has no thematic break. *)
Theorem process_keeps_blocks_except_thematic_breaks :
  forall b text ledger,
    JS.truthy (JS.trim text) = true ->
    List.map BentoBoxer.content (fst (BentoBoxer.process b text ledger))
    = List.map (fun g => JS.trim (BentoBoxer.stringify (BentoBoxer.processor b) g))
        (Spec.boxGroups b text)
    /\ filter Spec.notBreak (List.concat (Spec.boxGroups b text))
       = filter Spec.notBreak (BentoBoxer.parse (BentoBoxer.processor b) text)
    /\ (forallb Spec.notBreak (BentoBoxer.parse (BentoBoxer.processor b) text) = true ->
        List.concat (Spec.boxGroups b text) = BentoBoxer.parse (BentoBoxer.processor b) text).
Proof.
  intros b text ledger Htext. unfold BentoBoxer.process, Spec.boxGroups.
  rewrite Htext. simpl negb. cbv iota.
  split; [apply processNodes_contents |].
  apply (groupsOfNodes_blocks b (BentoBoxer.parse (BentoBoxer.processor b) text) []).
Qed.

(** Witness of C4: [Scenario.smallDocument], whose two sections fit the
    budget; its audit passes. *)
Lemma process_keeps_blocks_except_thematic_breaks_witness :
  List.map BentoBoxer.content
    (fst (BentoBoxer.process Scenario.plainBoxer Scenario.smallDocument LocusLedger.empty))
  = List.map
      (fun g => JS.trim (BentoBoxer.stringify (BentoBoxer.processor Scenario.plainBoxer) g))
      (Spec.boxGroups Scenario.plainBoxer Scenario.smallDocument)
  /\ BentoCli.audit Scenario.smallDocument
       (BentoCli.outputText
          (fst (BentoBoxer.process Scenario.plainBoxer Scenario.smallDocument
                  LocusLedger.empty)))
     = true.
Proof.
  split; [| vm_compute; reflexivity].
  apply (process_keeps_blocks_except_thematic_breaks Scenario.plainBoxer
           Scenario.smallDocument LocusLedger.empty).
  vm_compute. reflexivity.
Defined.

(** C4 (counterexample). [Scenario.longDocument] is one group of 401
    tokens, one more than the budget: it is fractured at its thematic break
    into a box of 399 tokens and a box of 1 token, the break itself is
    dropped, and the audit of the boxed text against the source fails. *)
Theorem audit_fails_when_a_group_is_fractured_at_a_break :
  List.map BentoBoxer.tokenCount
    (fst (BentoBoxer.process Scenario.plainBoxer Scenario.longDocument LocusLedger.empty))
  = [399; 1]
  /\ List.map (List.map BentoBoxer.type)
       (Spec.boxGroups Scenario.plainBoxer Scenario.longDocument)
     = [["paragraph"]; ["paragraph"]]
  /\ List.map BentoBoxer.type
       (BentoBoxer.parse (BentoBoxer.processor Scenario.plainBoxer) Scenario.longDocument)
     = ["paragraph"; "thematicBreak"; "paragraph"]
  /\ BentoCli.audit Scenario.longDocument
       (BentoCli.outputText
          (fst (BentoBoxer.process Scenario.plainBoxer Scenario.longDocument
                  LocusLedger.empty)))
     = false.
Proof.
  vm_compute. repeat split.
Qed.

(* ------------------------------------------------------------------------- *)
(** * Further properties of the sources *)

(** ** GraphStore: upserts and lookups *)

Lemma Edge_eqb_eq :
  forall a b, Edge.eqb a b = true <-> a = b.
Proof.
  intros [s1 t1 y1] [s2 t2 y2]. unfold Edge.eqb. simpl.
  rewrite !andb_true_iff, !String.eqb_eq. split.
  - intros [[-> ->] ->]. reflexivity.
  - intros H. inversion H. auto.
Qed.

Lemma existsb_Edge_eqb :
  forall e l, existsb (Edge.eqb e) l = true <-> In e l.
Proof.
  intros e l. rewrite existsb_exists. split.
  - intros (x & Hx & H). apply Edge_eqb_eq in H. subst. exact Hx.
  - intros H. exists e. split; [exact H | apply Edge_eqb_eq; reflexivity].
Qed.

(** X1. The row that [insertNode] writes is the one read back under its
    id: [getNodeHash] gives its hash and the [read_node_content] tool its
    content (an empty string is stored as NULL), and the answers for every
    other id are what they were. *)
Theorem upserted_node_is_read_back :
  forall db node,
    ResonanceDB.getNodeHash (ResonanceDB.insertNode db node) (Node.id node)
    = truthyOrNull (Node.hash node)
    /\ McpTools.readNodeContent (ResonanceDB.insertNode db node) (Node.id node)
       = truthyOrNull (Node.content node)
    /\ (forall id,
          id <> Node.id node ->
          ResonanceDB.getNodeHash (ResonanceDB.insertNode db node) id
          = ResonanceDB.getNodeHash db id
          /\ McpTools.readNodeContent (ResonanceDB.insertNode db node) id
             = McpTools.readNodeContent db id).
Proof.
  intros db node.
  destruct (findRow_insertNode_same db node) as (row & Hf & _ & Hc & Hh).
  unfold ResonanceDB.getNodeHash, McpTools.readNodeContent.
  rewrite Hf. repeat split; try assumption;
    rewrite findRow_insertNode_other by assumption; reflexivity.
Qed.

(** ** GraphStore: the primary keys *)

Lemma map_id_filter :
  forall (l : list Row.t) (id : string),
    List.map Row.id (filter (fun r => negb (String.eqb (Row.id r) id)) l)
    = filter (fun i => negb (String.eqb i id)) (List.map Row.id l).
Proof.
  intros l id. induction l as [| r l IH]; simpl; [reflexivity |].
  destruct (String.eqb (Row.id r) id); simpl; rewrite IH; reflexivity.
Qed.

Lemma insertNode_ids :
  forall db node,
    List.map Row.id (nodes (ResonanceDB.insertNode db node))
    = (filter (fun i => negb (String.eqb i (Node.id node))) (List.map Row.id (nodes db))
         ++ [Node.id node])%list.
Proof.
  intros db node. unfold ResonanceDB.insertNode. cbn [nodes].
  rewrite map_app, map_id_filter. reflexivity.
Qed.

Lemma NoDup_snoc :
  forall (A : Type) (l : list A) (x : A), NoDup l -> ~ In x l -> NoDup (l ++ [x]).
Proof.
  intros A l x Hl Hx. induction l as [| y l IH]; simpl.
  - constructor; [intros [] | constructor].
  - inversion Hl as [| y' l' Hy Hl']; subst. constructor.
    + intros Hin. apply in_app_or in Hin as [Hin | [-> | []]].
      * exact (Hy Hin).
      * apply Hx. left. reflexivity.
    + apply IH; [exact Hl' |]. intros Hin. apply Hx. right. exact Hin.
Qed.

Lemma insertNode_wellKeyed :
  forall db node, Props.wellKeyed db -> Props.wellKeyed (ResonanceDB.insertNode db node).
Proof.
  intros db node [Hn He]. split; [| exact He].
  rewrite insertNode_ids. apply NoDup_snoc.
  - apply NoDup_filter. exact Hn.
  - intros Hin. apply filter_In in Hin as [_ Hin].
    rewrite String.eqb_refl in Hin. discriminate.
Qed.

Lemma insertEdge_wellKeyed :
  forall db s t ty, Props.wellKeyed db -> Props.wellKeyed (ResonanceDB.insertEdge db s t ty).
Proof.
  intros db s t ty [Hn He]. unfold ResonanceDB.insertEdge.
  destruct (existsb _ (edges db)) eqn:Hex; [split; assumption |].
  split; [exact Hn |]. cbn [edges]. apply NoDup_snoc; [exact He |].
  intros Hin. apply existsb_Edge_eqb in Hin. congruence.
Qed.

Lemma built_wellKeyed :
  forall db db', Props.built db db' -> Props.wellKeyed db -> Props.wellKeyed db'.
Proof.
  intros db db' H Hk. induction H.
  - exact Hk.
  - apply insertNode_wellKeyed. assumption.
  - apply insertEdge_wellKeyed. assumption.
Qed.

Lemma built_trans :
  forall db1 db2 db3, Props.built db1 db2 -> Props.built db2 db3 -> Props.built db1 db3.
Proof.
  intros db1 db2 db3 H12 H23. induction H23.
  - exact H12.
  - apply Props.built_node. assumption.
  - apply Props.built_edge. assumption.
Qed.

Lemma gated_built :
  forall db db', Spec.gated db db' -> Props.built db db'.
Proof.
  intros db db' H. induction H.
  - apply Props.built_refl.
  - apply Props.built_node. assumption.
  - apply Props.built_edge. assumption.
Qed.

Lemma built_fold :
  forall (A : Type) (f : Store -> A -> Store) (l : list A),
    (forall db x, Props.built db (f db x)) ->
    forall db, Props.built db (fold_left f l db).
Proof.
  intros A f l Hf. induction l as [| x l IH]; intros db; simpl.
  - apply Props.built_refl.
  - eapply built_trans; [apply Hf | apply IH].
Qed.

Lemma timeline_chain_built :
  forall datedNodes db, Props.built db (TimelineWeaver.chain db datedNodes).
Proof.
  induction datedNodes as [| current rest IH]; intros db; simpl.
  - apply Props.built_refl.
  - destruct rest as [| previous rest']; [apply Props.built_refl |].
    eapply built_trans; [| apply IH].
    apply Props.built_edge, Props.built_refl.
Qed.

Lemma runWeavers_built :
  forall svc db, Props.built db (Ingestor.runWeavers svc db).
Proof.
  intros svc db. unfold Ingestor.runWeavers.
  apply (built_trans _ (TimelineWeaver.weave (Ingestor.parseDate svc) db)).
  - unfold TimelineWeaver.weave.
    destruct (Nat.ltb _ _); [apply Props.built_refl | apply timeline_chain_built].
  - unfold SemanticWeaver.weave. apply built_fold.
    intros db0 orphan. unfold SemanticWeaver.rescue.
    destruct (Row.embedding orphan); [| apply Props.built_refl].
    destruct (filter _ _); [apply Props.built_refl |].
    apply Props.built_edge, Props.built_refl.
Qed.

Lemma run_built :
  forall svc corpus db, Props.built db (storeOf (Ingestor.run svc corpus db)).
Proof.
  intros svc corpus db. unfold Ingestor.run.
  destruct (Ingestor.embed svc "init") as [v | e]; [| apply Props.built_refl].
  pose proof (runPersona_gated corpus db) as H1.
  destruct (Ingestor.runPersona corpus db) as [lexiconItems db1]. simpl in H1.
  apply gated_built in H1.
  unfold Ingestor.runExperience.
  set (lexicon := if (List.length lexiconItems =? 0)%nat then _ else _).
  pose proof (processFiles_gated svc lexicon (EdgeWeaver.buildLexicon lexicon)
                (Ingestor.files corpus) db1) as H2.
  apply gated_built in H2.
  destruct (Ingestor.processFiles _ _ _ _ db1) as [[] db2 | e db2]; simpl in *.
  - eapply built_trans; [exact H1 |].
    eapply built_trans; [exact H2 | apply runWeavers_built].
  - eapply built_trans; [exact H1 | exact H2].
Qed.

(** X2. The primary keys of the store survive a whole run of the
    Ingestor, completed or interrupted by an exception: when the store has
    one row per node id and no repeated edge before the run, so it has
    after it; the same holds for a single [insertNode] or [insertEdge]. *)
Theorem run_keeps_primary_keys :
  forall svc corpus db,
    Props.wellKeyed db ->
    Props.wellKeyed (storeOf (Ingestor.run svc corpus db))
    /\ (forall node, Props.wellKeyed (ResonanceDB.insertNode db node))
    /\ (forall s t ty, Props.wellKeyed (ResonanceDB.insertEdge db s t ty)).
Proof.
  intros svc corpus db Hk. split; [| split].
  - exact (built_wellKeyed _ _ (run_built svc corpus db) Hk).
  - intros node. apply insertNode_wellKeyed, Hk.
  - intros s t ty. apply insertEdge_wellKeyed, Hk.
Qed.

Lemma run_keeps_primary_keys_witness :
  Props.wellKeyed ResonanceDB.emptyStore
  /\ Props.wellKeyed
       (storeOf (Ingestor.run Scenario.services Scenario.notesCorpus ResonanceDB.emptyStore)).
Proof.
  assert (H : Props.wellKeyed ResonanceDB.emptyStore) by (split; constructor).
  split; [exact H |].
  exact (proj1 (run_keeps_primary_keys Scenario.services Scenario.notesCorpus
                  ResonanceDB.emptyStore H)).
Defined.

(** ** GraphStore: edges *)

Lemma insertEdge_edges :
  forall db s t ty,
    let e := {| Edge.source := s; Edge.target := t; Edge.type := ty |} in
    edges (ResonanceDB.insertEdge db s t ty)
    = if existsb (Edge.eqb e) (edges db) then edges db else (edges db ++ [e])%list.
Proof.
  intros db s t ty e. unfold ResonanceDB.insertEdge. fold e.
  destruct (existsb _ _); reflexivity.
Qed.

Lemma insertEdge_In :
  forall db s t ty,
    In {| Edge.source := s; Edge.target := t; Edge.type := ty |}
      (edges (ResonanceDB.insertEdge db s t ty)).
Proof.
  intros db s t ty. rewrite insertEdge_edges. cbv zeta.
  destruct (existsb _ _) eqn:Hex.
  - apply existsb_Edge_eqb. exact Hex.
  - apply in_or_app. right. left. reflexivity.
Qed.

(** X3. [insertEdge] is an insert-or-ignore: the rows already in the table
    stay where they are, the row [(source, target, type)] is in the table
    afterwards, inserting it a second time changes nothing, and the
    [explore_links] tool lists [(target, type)] among the links of
    [source], with the relation given or without relation. *)
Theorem inserted_edge_is_listed_once :
  forall db s t ty,
    (exists added,
        edges (ResonanceDB.insertEdge db s t ty) = (edges db ++ added)%list
        /\ nodes (ResonanceDB.insertEdge db s t ty) = nodes db)
    /\ Spec.hasEdge (ResonanceDB.insertEdge db s t ty) s t ty = true
    /\ ResonanceDB.insertEdge (ResonanceDB.insertEdge db s t ty) s t ty
       = ResonanceDB.insertEdge db s t ty
    /\ In (t, ty) (McpTools.exploreLinks (ResonanceDB.insertEdge db s t ty) s (Some ty))
    /\ In (t, ty) (McpTools.exploreLinks (ResonanceDB.insertEdge db s t ty) s None).
Proof.
  intros db s t ty.
  pose proof (insertEdge_In db s t ty) as Hin.
  split; [| split; [| split; [| split]]].
  - rewrite insertEdge_edges, insertEdge_nodes. cbv zeta.
    destruct (existsb _ _).
    + exists []. split; [symmetry; apply app_nil_r | reflexivity].
    + eexists. split; reflexivity.
  - unfold Spec.hasEdge. apply existsb_Edge_eqb. exact Hin.
  - apply existsb_Edge_eqb in Hin.
    unfold ResonanceDB.insertEdge at 1. rewrite Hin. reflexivity.
  - unfold McpTools.exploreLinks. apply in_map_iff.
    eexists. split; [| apply filter_In; split; [exact Hin |]].
    + reflexivity.
    + cbn [Edge.source Edge.type]. rewrite String.eqb_refl.
      unfold truthyOrNull. destruct (JS.truthy ty); [apply String.eqb_refl | reflexivity].
  - unfold McpTools.exploreLinks. apply in_map_iff.
    eexists. split; [| apply filter_In; split; [exact Hin |]].
    + reflexivity.
    + cbn [Edge.source truthyOrNull]. rewrite String.eqb_refl. reflexivity.
Qed.

(** ** LouvainGate *)

Lemma sharesNeighbor_incl :
  forall db db' a b,
    (forall e, In e (edges db) -> In e (edges db')) ->
    LouvainGate.sharesNeighbor db a b = true ->
    LouvainGate.sharesNeighbor db' a b = true.
Proof.
  intros db db' a b Hincl H.
  apply sharesNeighbor_iff in H as (e1 & e2 & H1 & H2 & H).
  apply sharesNeighbor_iff. exists e1, e2. auto.
Qed.

(** X4. [check] refuses an edge exactly when the target has more than
    [threshold] incident edges and no edge at the source has an end in
    common with an edge at the target; there is a reason exactly when the
    edge is refused. In particular an edge is never refused when its two
    ends are already linked, in either direction. *)
Theorem check_refuses_exactly_when :
  forall db source target threshold,
    (LouvainGate.allowed (LouvainGate.check db source target threshold) = false
     <-> (threshold < LouvainGate.degree db target)%Z
         /\ ~ (exists e1 e2,
                  In e1 (edges db) /\ In e2 (edges db) /\ Spec.touch e1 e2
                  /\ (Edge.source e1 = source \/ Edge.target e1 = source)
                  /\ (Edge.source e2 = target \/ Edge.target e2 = target)))
    /\ (LouvainGate.allowed (LouvainGate.check db source target threshold) = true
        <-> LouvainGate.reason (LouvainGate.check db source target threshold) = None)
    /\ (Spec.connects db source target = true ->
        LouvainGate.allowed (LouvainGate.check db source target threshold) = true).
Proof.
  intros db source target threshold. split; [| split].
  - rewrite check_allowed, negb_false_iff, andb_true_iff, negb_true_iff.
    unfold LouvainGate.isSuperNode. rewrite Z.ltb_lt.
    rewrite <- sharesNeighbor_iff, not_true_iff_false. reflexivity.
  - unfold LouvainGate.check.
    destruct (LouvainGate.isSuperNode db target threshold); cbv zeta;
      [| split; reflexivity].
    destruct (LouvainGate.sharesNeighbor db source target); simpl;
      split; intros H; try reflexivity; discriminate H.
  - intros H. rewrite check_allowed.
    apply connects_iff in H as (e & He & H).
    assert (Hs : LouvainGate.sharesNeighbor db source target = true).
    { apply sharesNeighbor_iff. exists e, e. unfold Spec.touch.
      repeat split; try assumption; try (left; reflexivity);
        destruct H as [[? ?] | [? ?]]; auto. }
    rewrite Hs, andb_false_r. reflexivity.
Qed.

(** X5. Triadic closure is permanent: once an edge at [a] and an edge at
    [b] have an end in common, [check] allows [a -> b] on every store that
    keeps the edges of this one, whatever the degree of [b] has become and
    whatever the threshold. *)
Theorem shared_neighbor_is_permanent :
  forall db db' a b threshold,
    (forall e, In e (edges db) -> In e (edges db')) ->
    LouvainGate.sharesNeighbor db a b = true ->
    LouvainGate.allowed (LouvainGate.check db' a b threshold) = true.
Proof.
  intros db db' a b threshold Hincl H.
  rewrite check_allowed, (sharesNeighbor_incl db db' a b Hincl H), andb_false_r.
  reflexivity.
Qed.

Lemma shared_neighbor_is_permanent_witness :
  LouvainGate.sharesNeighbor Scenario.linkedHub "S" "T" = true
  /\ LouvainGate.allowed
       (LouvainGate.check
          (ResonanceDB.insertEdge Scenario.linkedHub "y" "T" "MENTIONS") "S" "T" 0)
     = true.
Proof.
  assert (H : LouvainGate.sharesNeighbor Scenario.linkedHub "S" "T" = true)
    by (vm_compute; reflexivity).
  split; [exact H |].
  apply (shared_neighbor_is_permanent Scenario.linkedHub
           (ResonanceDB.insertEdge Scenario.linkedHub "y" "T" "MENTIONS") "S" "T" 0);
    [| exact H].
  intros e He. rewrite insertEdge_edges. cbv zeta.
  destruct (existsb _ _); [exact He | apply in_or_app; left; exact He].
Defined.

(** ** LocusLedger *)

Lemma lookup_app :
  forall h rows1 rows2,
    LocusLedger.lookup h (rows1 ++ rows2)
    = match LocusLedger.lookup h rows1 with
      | Some i => Some i
      | None => LocusLedger.lookup h rows2
      end.
Proof.
  intros h rows1 rows2. induction rows1 as [| [h' i] r IH]; simpl.
  - reflexivity.
  - destruct (String.eqb h' h); [reflexivity | exact IH].
Qed.

(** What one call of [getOrMintId] leaves in the ledger. *)
Lemma getOrMintId_lookup :
  forall randomUUID ledger h id ledger',
    LocusLedger.getOrMintId randomUUID ledger h = (id, ledger') ->
    LocusLedger.lookup h (LocusLedger.bento_map ledger') = Some id
    /\ (forall h' id',
          LocusLedger.lookup h' (LocusLedger.bento_map ledger) = Some id' ->
          LocusLedger.lookup h' (LocusLedger.bento_map ledger') = Some id').
Proof.
  intros randomUUID ledger h id ledger' H. unfold LocusLedger.getOrMintId in H.
  destruct (LocusLedger.lookup h (LocusLedger.bento_map ledger)) as [i |] eqn:Hl.
  - inversion H; subst. auto.
  - inversion H; subst. cbn [LocusLedger.bento_map]. split.
    + rewrite lookup_app, Hl. simpl. rewrite String.eqb_refl. reflexivity.
    + intros h' id' H'. rewrite lookup_app, H'. reflexivity.
Qed.

Lemma getOrMintId_known :
  forall randomUUID ledger h id,
    LocusLedger.lookup h (LocusLedger.bento_map ledger) = Some id ->
    LocusLedger.getOrMintId randomUUID ledger h = (id, ledger).
Proof.
  intros randomUUID ledger h id H. unfold LocusLedger.getOrMintId. rewrite H.
  reflexivity.
Qed.

(** X6. [getOrMintId] is idempotent: asking again for the same content
    hash returns the same identifier and leaves the ledger as the first call
    left it; a call never changes the identifier recorded for a hash, and
    it draws a fresh identifier only for a hash that the ledger did not
    hold. *)
Theorem getOrMintId_is_idempotent :
  forall randomUUID ledger h,
    let first := LocusLedger.getOrMintId randomUUID ledger h in
    LocusLedger.getOrMintId randomUUID (snd first) h = first
    /\ (forall h' id',
          LocusLedger.lookup h' (LocusLedger.bento_map ledger) = Some id' ->
          LocusLedger.lookup h' (LocusLedger.bento_map (snd first)) = Some id')
    /\ LocusLedger.minted (snd first)
       = match LocusLedger.lookup h (LocusLedger.bento_map ledger) with
         | Some _ => LocusLedger.minted ledger
         | None => S (LocusLedger.minted ledger)
         end.
Proof.
  intros randomUUID ledger h first.
  destruct first as [id ledger'] eqn:Hf. subst first. cbn [snd].
  destruct (getOrMintId_lookup _ _ _ _ _ Hf) as [Hsame Hkept].
  split; [| split].
  - apply getOrMintId_known, Hsame.
  - exact Hkept.
  - unfold LocusLedger.getOrMintId in Hf.
    destruct (LocusLedger.lookup h (LocusLedger.bento_map ledger));
      inversion Hf; subst; reflexivity.
Qed.

(** ** The content hash *)

Lemma leBytes_length :
  forall n x, List.length (MD5.leBytes n x) = n.
Proof.
  induction n as [| n IH]; intros x; cbn [MD5.leBytes List.length].
  - reflexivity.
  - rewrite IH. reflexivity.
Qed.

Lemma leBytes_range :
  forall n x, Forall (fun b => (0 <= b < 256)%Z) (MD5.leBytes n x).
Proof.
  induction n as [| n IH]; intros x; cbn [MD5.leBytes].
  - constructor.
  - constructor; [apply Z.mod_pos_bound; lia | apply IH].
Qed.

Lemma hexDigit_hex :
  forall n, (0 <= n < 16)%Z -> Props.isHexDigit (MD5.hexDigit n) = true.
Proof.
  intros n Hn. rewrite <- (Z2Nat.id n) by lia.
  assert (Hlt : (Z.to_nat n < 16)%nat) by lia.
  revert Hlt. generalize (Z.to_nat n) as m. intros m Hlt.
  do 16 (destruct m as [| m]; [vm_compute; reflexivity |]). lia.
Qed.

Lemma hexBytes_shape :
  forall bs,
    Forall (fun b => (0 <= b < 256)%Z) bs ->
    String.length (MD5.hexBytes bs) = 2 * List.length bs
    /\ Spec.allChars Props.isHexDigit (MD5.hexBytes bs) = true.
Proof.
  induction bs as [| b bs IH]; intros H.
  - split; reflexivity.
  - inversion H as [| b' bs' Hb Hbs]; subst.
    destruct (IH Hbs) as [Hlen Hhex].
    cbn [MD5.hexBytes String.length List.length Spec.allChars].
    rewrite Hlen, Hhex, !hexDigit_hex.
    + split; [lia | reflexivity].
    + apply Z.mod_pos_bound. lia.
    + split; [apply Z.div_pos; lia | apply Z.div_lt_upper_bound; lia].
Qed.

Lemma trimStart_blank :
  forall ws, Props.isBlank ws = true -> JS.trimStart ws = EmptyString.
Proof.
  induction ws as [| c ws IH]; simpl; intros H; [reflexivity |].
  apply andb_true_iff in H as [Hc Hws]. rewrite Hc. apply IH, Hws.
Qed.

Lemma trimStart_blank_app :
  forall ws s, Props.isBlank ws = true -> JS.trimStart (ws ++ s) = JS.trimStart s.
Proof.
  induction ws as [| c ws IH]; simpl; intros s H; [reflexivity |].
  apply andb_true_iff in H as [Hc Hws]. rewrite Hc. apply IH, Hws.
Qed.

Lemma trimEnd_blank :
  forall ws, Props.isBlank ws = true -> JS.trimEnd ws = EmptyString.
Proof.
  induction ws as [| c ws IH]; simpl; intros H; [reflexivity |].
  apply andb_true_iff in H as [Hc Hws]. rewrite (IH Hws), Hc. reflexivity.
Qed.

Lemma trimEnd_app_blank :
  forall s ws, Props.isBlank ws = true -> JS.trimEnd (s ++ ws) = JS.trimEnd s.
Proof.
  induction s as [| c s IH]; intros ws H.
  - simpl. apply trimEnd_blank, H.
  - cbn [append JS.trimEnd]. rewrite (IH ws H). reflexivity.
Qed.

Lemma trim_app_blank :
  forall s ws, Props.isBlank ws = true -> JS.trim (s ++ ws) = JS.trim s.
Proof.
  unfold JS.trim. induction s as [| c s IH]; intros ws H.
  - simpl. rewrite (trimStart_blank ws H). reflexivity.
  - cbn [append JS.trimStart]. destruct (JS.isSpace c).
    + apply IH, H.
    + change (String c (s ++ ws)) with (String c s ++ ws).
      apply trimEnd_app_blank, H.
Qed.

Lemma trim_blank_app_blank :
  forall ws1 s ws2,
    Props.isBlank ws1 = true -> Props.isBlank ws2 = true ->
    JS.trim (ws1 ++ s ++ ws2) = JS.trim s.
Proof.
  intros ws1 s ws2 H1 H2.
  transitivity (JS.trim (s ++ ws2)); [| apply trim_app_blank, H2].
  unfold JS.trim. rewrite trimStart_blank_app by exact H1. reflexivity.
Qed.

(** X7. The content hash is always 32 lowercase hexadecimal digits, and
    it does not depend on the white space around the content. *)
Theorem hashContent_shape :
  forall text,
    String.length (LocusLedger.hashContent text) = 32
    /\ Spec.allChars Props.isHexDigit (LocusLedger.hashContent text) = true
    /\ (forall ws1 ws2,
          Props.isBlank ws1 = true -> Props.isBlank ws2 = true ->
          LocusLedger.hashContent (ws1 ++ text ++ ws2) = LocusLedger.hashContent text).
Proof.
  intros text. unfold LocusLedger.hashContent, MD5.hex.
  assert (H : Forall (fun b => (0 <= b < 256)%Z) (MD5.digest (MD5.bytesOf (JS.trim text)))
              /\ List.length (MD5.digest (MD5.bytesOf (JS.trim text))) = 16).
  { unfold MD5.digest. destruct (MD5.blocks _ _ _) as [[[a b] c] d]. split.
    - repeat (apply Forall_app; split); apply leBytes_range.
    - rewrite !length_app, !leBytes_length. reflexivity. }
  destruct H as [Hrange Hlen].
  destruct (hexBytes_shape _ Hrange) as [Hl Hh].
  split; [rewrite Hl, Hlen; reflexivity | split; [exact Hh |]].
  intros ws1 ws2 H1 H2. rewrite trim_blank_app_blank by assumption. reflexivity.
Qed.

Lemma hashContent_shape_witness :
  LocusLedger.hashContent ("  " ++ "abc" ++ Ingestor.newline) = LocusLedger.hashContent "abc".
Proof.
  apply (proj2 (proj2 (hashContent_shape "abc")) "  " Ingestor.newline); reflexivity.
Defined.

(** ** [processBox] and the embedder *)

Lemma findRow_insertNode_embedding :
  forall db node,
    exists row,
      ResonanceDB.findRow (ResonanceDB.insertNode db node) (Node.id node) = Some row
      /\ Row.embedding row = option_map Fafcas.toFafcas (Node.embedding node).
Proof.
  intros db node. unfold ResonanceDB.findRow, ResonanceDB.insertNode. simpl.
  rewrite find_app_first, find_filter_same. simpl.
  rewrite String.eqb_refl. eexists. split; reflexivity.
Qed.

(** X8. [processBox] calls the embedder only for a changed box whose
    content is longer than 50 characters. A box of at most 50 characters
    is processed to the end whatever the embedder would do, and when it is
    written its row has no embedding. When the embedder throws on a longer,
    changed box, [processBox] throws the same exception and the store is
    left as it was: the node is not written and no edge is woven. *)
Theorem processBox_embeds_changed_long_boxes_only :
  forall svc lexicon weaver id content type meta sourcePath db,
    ((String.length content <= 50)%nat ->
     exists db',
       Ingestor.processBox svc lexicon weaver id content type meta sourcePath db
       = Returned tt db'
       /\ (ResonanceDB.getNodeHash db id <> Some (LocusLedger.hashContent content) ->
           exists row,
             ResonanceDB.findRow db' id = Some row /\ Row.embedding row = None))
    /\ (forall e,
          (50 < String.length content)%nat ->
          ResonanceDB.getNodeHash db id <> Some (LocusLedger.hashContent content) ->
          Ingestor.embed svc content = Thrown e ->
          Ingestor.processBox svc lexicon weaver id content type meta sourcePath db
          = Threw e db).
Proof.
  intros svc lexicon weaver id content type meta sourcePath db.
  unfold Ingestor.processBox. split.
  - intros Hlen.
    assert (Hshort : (50 <? String.length content)%nat = false)
      by (apply Nat.ltb_ge; exact Hlen).
    rewrite Hshort.
    destruct (ResonanceDB.getNodeHash db id) as [h |] eqn:Hh.
    + destruct (String.eqb_spec h (LocusLedger.hashContent content)) as [E | N].
      * exists db. split; [reflexivity |]. intros Hne. congruence.
      * cbn [andThen]. eexists. split; [reflexivity |]. intros _.
        rewrite (findRow_same_nodes (ResonanceDB.insertNode db _)) by apply weave_nodes.
        match goal with
        | |- context [ResonanceDB.insertNode db ?n] =>
            destruct (findRow_insertNode_embedding db n) as (row & Hf & He)
        end.
        exists row. split; [exact Hf | exact He].
    + cbn [andThen]. eexists. split; [reflexivity |]. intros _.
      rewrite (findRow_same_nodes (ResonanceDB.insertNode db _)) by apply weave_nodes.
      match goal with
      | |- context [ResonanceDB.insertNode db ?n] =>
          destruct (findRow_insertNode_embedding db n) as (row & Hf & He)
      end.
      exists row. split; [exact Hf | exact He].
  - intros e Hlen Hne He.
    apply Nat.ltb_lt in Hlen. rewrite Hlen, He.
    destruct (ResonanceDB.getNodeHash db id) as [h |].
    + destruct (String.eqb_spec h (LocusLedger.hashContent content)) as [E | N];
        [congruence | reflexivity].
    + reflexivity.
Qed.

(** ** TimelineWeaver *)

Lemma insertEdge_record :
  forall db e,
    ResonanceDB.insertEdge db (Edge.source e) (Edge.target e) (Edge.type e)
    = if existsb (Edge.eqb e) (edges db) then db
      else {| nodes := nodes db; edges := (edges db ++ [e])%list |}.
Proof.
  intros db [s t ty]. reflexivity.
Qed.

Lemma insertEdges_present :
  forall es db,
    Forall (fun e => In e (edges db)) es -> Props.insertEdges db es = db.
Proof.
  unfold Props.insertEdges.
  induction es as [| e es IH]; intros db H; simpl; [reflexivity |].
  inversion H as [| e' es' He Hes]; subst.
  rewrite insertEdge_record.
  apply existsb_Edge_eqb in He. rewrite He. apply IH, Hes.
Qed.

Lemma insertEdges_incl :
  forall es db e, In e (edges db) -> In e (edges (Props.insertEdges db es)).
Proof.
  unfold Props.insertEdges.
  induction es as [| x es IH]; intros db e H; simpl; [exact H |].
  apply IH. rewrite insertEdge_record.
  destruct (existsb _ _); [exact H | apply in_or_app; left; exact H].
Qed.

Lemma insertEdges_all :
  forall es db, Forall (fun e => In e (edges (Props.insertEdges db es))) es.
Proof.
  induction es as [| x es IH]; intros db; [constructor |].
  constructor.
  - change (Props.insertEdges db (x :: es))
      with (Props.insertEdges
              (ResonanceDB.insertEdge db (Edge.source x) (Edge.target x) (Edge.type x)) es).
    apply insertEdges_incl.
    destruct x as [s t ty]. apply insertEdge_In.
  - apply IH.
Qed.

Lemma insertEdges_new :
  forall es db e,
    In e (edges (Props.insertEdges db es)) -> In e (edges db) \/ In e es.
Proof.
  unfold Props.insertEdges.
  induction es as [| x es IH]; intros db e H; simpl in *; [left; exact H |].
  apply IH in H as [H | H]; [| right; right; exact H].
  rewrite insertEdge_record in H.
  destruct (existsb _ _); [left; exact H |].
  apply in_app_or in H as [H | [-> | []]]; [left; exact H | right; left; reflexivity].
Qed.

Lemma insertEdges_nodes :
  forall es db, nodes (Props.insertEdges db es) = nodes db.
Proof.
  intros es db. unfold Props.insertEdges. apply fold_nodes.
  intros. apply insertEdge_nodes.
Qed.

Lemma insertEdges_length :
  forall es db,
    (List.length (edges (Props.insertEdges db es))
     <= List.length (edges db) + List.length es)%nat.
Proof.
  unfold Props.insertEdges.
  induction es as [| x es IH]; intros db; simpl; [lia |].
  etransitivity; [apply IH |].
  rewrite insertEdge_record.
  destruct (existsb _ _); [lia |]. cbn [edges]. rewrite length_app. simpl. lia.
Qed.

Lemma chain_insertEdges :
  forall datedNodes db,
    TimelineWeaver.chain db datedNodes
    = Props.insertEdges db (Props.successions datedNodes).
Proof.
  intros [| current rest]; [reflexivity |]. revert current.
  induction rest as [| previous rest IH]; intros current db; [reflexivity |].
  change (TimelineWeaver.chain db (current :: previous :: rest))
    with (TimelineWeaver.chain
            (ResonanceDB.insertEdge db (fst current) (fst previous) "SUCCEEDS")
            (previous :: rest)).
  rewrite IH. reflexivity.
Qed.

Lemma getNodesByType_nodes :
  forall db db' type,
    nodes db' = nodes db ->
    ResonanceDB.getNodesByType db' type = ResonanceDB.getNodesByType db type.
Proof.
  intros db db' type H. unfold ResonanceDB.getNodesByType. rewrite H. reflexivity.
Qed.

(** X9. [TimelineWeaver.weave] is idempotent: a second pass over the store
    that the first pass left adds nothing. It never touches the table of
    nodes, and it adds fewer edges than there are debriefs with a valid
    date. *)
Theorem timeline_weave_is_idempotent :
  forall parseDate db,
    TimelineWeaver.weave parseDate (TimelineWeaver.weave parseDate db)
    = TimelineWeaver.weave parseDate db
    /\ nodes (TimelineWeaver.weave parseDate db) = nodes db
    /\ (List.length (edges (TimelineWeaver.weave parseDate db))
        <= List.length (edges db) + Nat.pred (List.length (Props.datedDebriefs parseDate db)))%nat.
Proof.
  intros parseDate db. split; [| split].
  - unfold TimelineWeaver.weave at 1.
    rewrite (getNodesByType_nodes db) by apply timeline_weave_nodes.
    unfold TimelineWeaver.weave.
    destruct (Nat.ltb _ 2); [reflexivity |].
    rewrite !chain_insertEdges. apply insertEdges_present, insertEdges_all.
  - apply timeline_weave_nodes.
  - unfold TimelineWeaver.weave, Props.datedDebriefs.
    destruct (Nat.ltb _ 2); [lia |].
    rewrite chain_insertEdges.
    etransitivity; [apply insertEdges_length |].
    apply Nat.add_le_mono_l.
    set (l := sortBy _ _).
    assert (Hl : List.length l
                 = List.length
                     (TimelineWeaver.dated parseDate
                        (ResonanceDB.getNodesByType db "debrief")))
      by (apply Permutation_length, sortBy_perm).
    rewrite <- Hl. clear Hl.
    induction l as [| a l IH]; [simpl; lia |].
    destruct l as [| b l]; [simpl; lia |].
    cbn [Props.successions List.length Nat.pred] in *. lia.
Qed.

Lemma successions_sorted :
  forall (R : string * Z -> string * Z -> Prop) l e,
    StronglySorted R l ->
    In e (Props.successions l) ->
    exists x y,
      In x l /\ In y l /\ R x y
      /\ e = {| Edge.source := fst x; Edge.target := fst y; Edge.type := "SUCCEEDS" |}.
Proof.
  intros R l e Hs. induction l as [| a l IH]; intros Hin; [contradiction |].
  destruct l as [| b l]; [contradiction |].
  inversion Hs as [| a' l' Hsl Ha]; subst.
  cbn [Props.successions] in Hin. destruct Hin as [<- | Hin].
  - exists a, b. inversion Ha; subst. repeat split; simpl; auto.
  - destruct (IH Hsl Hin) as (x & y & Hx & Hy & Hr & He).
    exists x, y. repeat split; try assumption; right; assumption.
Qed.

(** X10. Every edge that [TimelineWeaver.weave] adds is a [SUCCEEDS] edge
    from a debrief with a valid date to a debrief with a valid date that is
    not newer: the chain never points forward in time, and a debrief
    without a valid date is never linked. *)
Theorem timeline_edges_point_back_in_time :
  forall parseDate db e,
    In e (edges (TimelineWeaver.weave parseDate db)) ->
    In e (edges db)
    \/ (Edge.type e = "SUCCEEDS"
        /\ exists t_source t_target,
            In (Edge.source e, t_source) (Props.datedDebriefs parseDate db)
            /\ In (Edge.target e, t_target) (Props.datedDebriefs parseDate db)
            /\ (t_target <= t_source)%Z).
Proof.
  intros parseDate db e Hin. unfold TimelineWeaver.weave in Hin.
  destruct (Nat.ltb _ 2); [left; exact Hin |].
  rewrite chain_insertEdges in Hin.
  apply insertEdges_new in Hin as [Hin | Hin]; [left; exact Hin | right].
  eapply successions_sorted in Hin;
    [| apply (sortBy_sorted _ _ (fun _ => True)) ].
  - destruct Hin as ([a ta] & [b tb] & Ha & Hb & Hr & ->). simpl in *.
    split; [reflexivity |]. exists ta, tb.
    apply Z.ltb_ge in Hr.
    split; [| split; [| exact Hr]];
      eapply Permutation_in; try apply sortBy_perm; eassumption.
  - intros a b _ _ H. apply Z.ltb_lt in H. apply Z.ltb_ge. lia.
  - intros a b c _ _ _ H1 H2. apply Z.ltb_ge in H1, H2. apply Z.ltb_ge. lia.
  - apply Forall_forall. intros; exact I.
Qed.

(** ** SemanticWeaver *)

Lemma findSimilar_sound :
  forall db queryVec limit domain m,
    In m (ResonanceDB.findSimilar db queryVec limit domain) ->
    exists row vec,
      In row (nodes db)
      /\ Row.id row = ResonanceDB.sim_id m
      /\ Row.embedding row = Some vec
      /\ ResonanceDB.sim_score m = Fafcas.dotProduct queryVec vec
      /\ ResonanceDB.sim_label m = orElse (Row.title row) (Row.id row)
      /\ (forall d, truthyOrNull domain = Some d -> Row.domain row = d).
Proof.
  intros db queryVec limit domain m Hin. unfold ResonanceDB.findSimilar in Hin.
  apply In_slice0 in Hin.
  apply (Permutation_in _ (sortBy_perm _ _ _)) in Hin.
  apply in_flat_map in Hin as (row & Hrow & Hin).
  apply filter_In in Hrow as [Hrow Hsel].
  destruct (Row.embedding row) as [vec |] eqn:Hemb; [| contradiction].
  destruct Hin as [<- | []].
  exists row, vec. repeat split; try assumption.
  intros d Hd. rewrite Hd in Hsel. apply String.eqb_eq, Hsel.
Qed.

Lemma findSimilar_nodes :
  forall db db' queryVec limit domain,
    nodes db' = nodes db ->
    ResonanceDB.findSimilar db' queryVec limit domain
    = ResonanceDB.findSimilar db queryVec limit domain.
Proof.
  intros db db' queryVec limit domain H. unfold ResonanceDB.findSimilar.
  rewrite H. reflexivity.
Qed.

(** What one rescue does to the table of edges. *)
Lemma rescue_edges :
  forall db0 db orphan,
    nodes db = nodes db0 ->
    edges (SemanticWeaver.rescue db orphan) = edges db
    \/ exists e,
        edges (SemanticWeaver.rescue db orphan) = (edges db ++ [e])%list
        /\ Props.rescueEdge db0 orphan e.
Proof.
  intros db0 db orphan Hn. unfold SemanticWeaver.rescue.
  destruct (Row.embedding orphan) as [vec |] eqn:Hemb; [| left; reflexivity].
  rewrite (findSimilar_nodes db0 db) by exact Hn.
  destruct (filter _ _) as [| best rest] eqn:Hf; [left; reflexivity |].
  assert (Hbest : In best (best :: rest)) by (left; reflexivity).
  rewrite <- Hf in Hbest. apply filter_In in Hbest as [Hbest Hok].
  apply andb_true_iff in Hok as [Hscore Hother].
  apply negb_true_iff in Hother.
  destruct (findSimilar_sound _ _ _ _ _ Hbest) as (row & v & Hrow & Hid & Hv & Hs & _ & Hd).
  rewrite insertEdge_edges. cbv zeta.
  destruct (existsb _ _); [left; reflexivity | right].
  eexists. split; [reflexivity |].
  unfold Props.rescueEdge. cbn [Edge.source Edge.target Edge.type].
  repeat split.
  - intros E. rewrite <- E, String.eqb_refl in Hother. discriminate.
  - exists row, vec, v. rewrite <- Hs.
    repeat split; try assumption. apply Hd. reflexivity.
Qed.

Lemma semantic_fold_edges :
  forall db0 l db,
    nodes db = nodes db0 ->
    exists added,
      edges (fold_left SemanticWeaver.rescue l db) = (edges db ++ added)%list
      /\ (List.length added <= List.length l)%nat
      /\ Forall (fun e => exists orphan, In orphan l /\ Props.rescueEdge db0 orphan e) added.
Proof.
  intros db0. induction l as [| orphan l IH]; intros db Hn; simpl.
  - exists []. split; [symmetry; apply app_nil_r | split; [apply Nat.le_refl | constructor]].
  - assert (Hn' : nodes (SemanticWeaver.rescue db orphan) = nodes db0).
    { unfold SemanticWeaver.rescue. destruct (Row.embedding orphan); [| exact Hn].
      destruct (filter _ _); [exact Hn |]. rewrite insertEdge_nodes. exact Hn. }
    destruct (IH _ Hn') as (added & He & Hlen & Hall).
    assert (Hweak :
              Forall (fun e => exists o, In o (orphan :: l) /\ Props.rescueEdge db0 o e)
                added).
    { eapply Forall_impl; [| exact Hall].
      intros e (o & Ho & Hr). exists o. split; [right; exact Ho | exact Hr]. }
    destruct (rescue_edges db0 db orphan Hn) as [Hsame | (e & Hadd & Hr)].
    + exists added. rewrite He, Hsame. split; [reflexivity | split; [lia | exact Hweak]].
    + exists (e :: added). rewrite He, Hadd, <- app_assoc.
      split; [reflexivity | split; [simpl; lia |]].
      constructor; [| exact Hweak].
      exists orphan. split; [left; reflexivity | exact Hr].
Qed.

(** X11. [SemanticWeaver.weave] only adds edges, at most one for each
    orphan, and leaves the nodes alone. Each edge it adds is a
    [RELATED_TO] edge from an orphan of the store it started from (a node
    without any edge, with an embedding, not of type [root] or [domain]) to a
    different node of the domain [experience], and the dot product of the
    two stored vectors is greater than 0.85: an orphan is never linked to
    itself. *)
Theorem semantic_weave_links_orphans_to_other_nodes :
  forall db,
    nodes (SemanticWeaver.weave db) = nodes db
    /\ exists added,
        edges (SemanticWeaver.weave db) = (edges db ++ added)%list
        /\ (List.length added <= List.length (SemanticWeaver.orphans db))%nat
        /\ Forall
             (fun e =>
                exists orphan,
                  In orphan (nodes db)
                  /\ SemanticWeaver.isOrphan db orphan = true
                  /\ Props.rescueEdge db orphan e)
             added.
Proof.
  intros db. split; [apply semantic_weave_nodes |].
  unfold SemanticWeaver.weave.
  destruct (semantic_fold_edges db (SemanticWeaver.orphans db) db eq_refl)
    as (added & He & Hlen & Hall).
  exists added. split; [exact He | split; [exact Hlen |]].
  eapply Forall_impl; [| exact Hall].
  intros e (o & Ho & Hr). exists o.
  apply filter_In in Ho as [Ho Hp]. auto.
Qed.

(** ** VectorEngine *)

(** X12. Every result of [VectorEngine.search] is a row with an embedding,
    carried with the content of that row; its score is the dot product of
    the query vector (the normalised vector that the model gives for the
    query) with that embedding, and it is greater than zero (so it is never
    NaN). The results are in descending order of score, at most [limit] of
    them when [limit] is not negative; and when the model fails or yields
    no vector the search returns the empty list instead of throwing. *)
Theorem vector_search_is_ranked_and_positive :
  forall model db query limit,
    Forall
      (fun r =>
         F64.gtb (VectorEngine.score r) F64.zero = true
         /\ exists queryFloats row vec,
             VectorEngine.embed model query = Some queryFloats
             /\ In row (nodes db)
             /\ Row.id row = VectorEngine.id r
             /\ Row.embedding row = Some vec
             /\ Row.content row = VectorEngine.content r
             /\ VectorEngine.score r = VectorEngine.dotProduct queryFloats vec)
      (VectorEngine.search model db query limit)
    /\ StronglySorted
         (fun a b => F64.ltb (VectorEngine.score a) (VectorEngine.score b) = false)
         (VectorEngine.search model db query limit)
    /\ ((0 <= limit)%Z ->
        (Z.of_nat (List.length (VectorEngine.search model db query limit)) <= limit)%Z)
    /\ (VectorEngine.embed model query = None ->
        VectorEngine.search model db query limit = [])
    /\ (forall e, model query = Thrown e -> VectorEngine.embed model query = None)
    /\ (forall vector,
          model query = Normal (Some vector) ->
          VectorEngine.embed model query = Some (VectorEngine.toFafcas vector)).
Proof.
  intros model db query limit.
  assert (Hall :
            forall r, In r (VectorEngine.search model db query limit) ->
                      F64.gtb (VectorEngine.score r) F64.zero = true
                      /\ exists queryFloats row vec,
                          VectorEngine.embed model query = Some queryFloats
                          /\ In row (nodes db)
                          /\ Row.id row = VectorEngine.id r
                          /\ Row.embedding row = Some vec
                          /\ Row.content row = VectorEngine.content r
                          /\ VectorEngine.score r
                             = VectorEngine.dotProduct queryFloats vec).
  { intros r Hin. unfold VectorEngine.search in Hin.
    destruct (VectorEngine.embed model query) as [q |]; [| contradiction].
    apply In_slice0 in Hin.
    apply (Permutation_in _ (sortBy_perm _ _ _)) in Hin.
    apply in_flat_map in Hin as (row & Hrow & Hin).
    destruct (Row.embedding row) as [v |] eqn:Hv; [| contradiction].
    destruct (F64.gtb _ F64.zero) eqn:Hs; [| contradiction].
    destruct Hin as [<- | []]. simpl. split; [exact Hs |].
    exists q, row, v. auto 10. }
  split; [apply Forall_forall, Hall | split; [| split; [| split; [| split]]]].
  - unfold VectorEngine.search.
    destruct (VectorEngine.embed model query) as [q |]; [| constructor].
    unfold slice0.
    match goal with
    | |- context [sortBy ?f ?l] =>
        assert (Hs : StronglySorted
                       (fun a b =>
                          F64.ltb (VectorEngine.score a) (VectorEngine.score b) = false)
                       (sortBy f l))
    end.
    { apply (sortBy_sorted _ _ (fun r => VectorEngine.score r <> S754_nan)).
      - intros a b Ha Hb H. apply ltb_asym; assumption.
      - intros a b c Ha Hb Hc H1 H2. apply (ltb_false_trans _ (VectorEngine.score b)); assumption.
      - apply Forall_forall. intros r Hin.
        apply in_flat_map in Hin as (row & _ & Hin).
        destruct (Row.embedding row) as [v |]; [| contradiction].
        destruct (F64.gtb _ F64.zero) eqn:Hpos; [| contradiction].
        destruct Hin as [<- | []]. simpl. apply gtb_zero_not_nan, Hpos. }
    destruct (limit <? 0)%Z; apply StronglySorted_firstn, Hs.
  - intros Hl. unfold VectorEngine.search.
    destruct (VectorEngine.embed model query); [apply slice0_length, Hl | simpl; lia].
  - intros He. unfold VectorEngine.search. rewrite He. reflexivity.
  - intros e He. unfold VectorEngine.embed. rewrite He. reflexivity.
  - intros vector He. unfold VectorEngine.embed. rewrite He. reflexivity.
Qed.

(** ** The errors of the hybrid search *)



(** ** The gardener *)

Lemma scanFrom_spec :
  forall (P : AutoTagger.Candidate -> Prop) (limit : Z) (nodes : list Node.t),
    (forall node source,
        In node nodes ->
        AutoTagger.sourceOf node = Some source ->
        match truthyOrNull (Node.content node) with
        | Some c => JS.includes "<!-- tags:" c
        | None => false
        end = false ->
        P {| AutoTagger.nodeId := Node.id node;
             AutoTagger.filePath := AutoTagger.metaToString source;
             AutoTagger.content := orElse (Node.content node) "";
             AutoTagger.type := Node.type node |}) ->
    forall candidates,
      Forall P candidates ->
      Forall P (AutoTagger.scanFrom limit nodes candidates)
      /\ (Z.of_nat (List.length (AutoTagger.scanFrom limit nodes candidates))
          <= Z.max limit (Z.of_nat (List.length candidates)))%Z.
Proof.
  intros P limit nodes. induction nodes as [| node rest IH]; intros HP candidates Hc.
  - simpl. split; [exact Hc | lia].
  - cbn [AutoTagger.scanFrom].
    assert (HP' : forall n source,
               In n rest ->
               AutoTagger.sourceOf n = Some source ->
               match truthyOrNull (Node.content n) with
               | Some c => JS.includes "<!-- tags:" c
               | None => false
               end = false ->
               P {| AutoTagger.nodeId := Node.id n;
                    AutoTagger.filePath := AutoTagger.metaToString source;
                    AutoTagger.content := orElse (Node.content n) "";
                    AutoTagger.type := Node.type n |})
      by (intros n source Hin; apply HP; right; exact Hin).
    destruct (Z.leb_spec limit (Z.of_nat (List.length candidates))) as [Hfull | Hroom].
    + split; [exact Hc | lia].
    + destruct (AutoTagger.sourceOf node) as [source |] eqn:Hs; [| apply IH; assumption].
      destruct (match truthyOrNull (Node.content node) with
                | Some c => JS.includes "<!-- tags:" c
                | None => false
                end) eqn:Htag; [apply IH; assumption |].
      match goal with
      | |- context [AutoTagger.scanFrom limit rest ?cs] =>
          destruct (IH HP' cs) as [HF Hlen]
      end.
      * apply Forall_app. split; [exact Hc |]. constructor; [| constructor].
        apply (HP node source); [left; reflexivity | exact Hs | exact Htag].
      * split; [exact HF |]. rewrite length_app in Hlen. simpl in Hlen. lia.
Qed.

Lemma includes_empty :
  forall c L, JS.includes (String c L) EmptyString = false.
Proof.
  reflexivity.
Qed.

(** X14. [AutoTagger.scan] returns at most [limit] candidates (none when
    [limit] is zero or negative). Every candidate is a node of one of the
    types [note], [debrief], [section] and [document], and its content does
    not contain [<!-- tags:]: a node that already carries a tag block is
    never proposed again. *)
Theorem scan_skips_tagged_nodes :
  forall db limit,
    (Z.of_nat (List.length (AutoTagger.scan db limit)) <= Z.max limit 0)%Z
    /\ Forall
         (fun c =>
            JS.includes "<!-- tags:" (AutoTagger.content c) = false
            /\ In (AutoTagger.type c) Props.gardenedTypes
            /\ exists row,
                In row (nodes db)
                /\ Row.id row = AutoTagger.nodeId c
                /\ Row.type row = AutoTagger.type c)
         (AutoTagger.scan db limit).
Proof.
  intros db limit. unfold AutoTagger.scan.
  match goal with
  | |- context [AutoTagger.scanFrom limit ?ns []] => set (fetched := ns)
  end.
  assert (Hfetched :
            forall node, In node fetched ->
                         In (Node.type node) Props.gardenedTypes
                         /\ exists row,
                             In row (nodes db) /\ Row.id row = Node.id node
                             /\ Row.type row = Node.type node).
  { intros node Hin. unfold fetched in Hin.
    assert (H : forall t, In node (ResonanceDB.getNodesByType db t) ->
                          Node.type node = t
                          /\ exists row,
                              In row (nodes db) /\ Row.id row = Node.id node
                              /\ Row.type row = Node.type node).
    { intros t Ht. unfold ResonanceDB.getNodesByType in Ht.
      apply in_map_iff in Ht as (row & <- & Hrow).
      apply filter_In in Hrow as [Hrow Hty]. apply String.eqb_eq in Hty.
      split; [exact Hty |]. exists row. auto. }
    unfold Props.gardenedTypes.
    repeat (apply in_app_or in Hin as [Hin | Hin]);
      apply H in Hin as [Hty Hrow]; (split; [rewrite Hty; simpl; tauto | exact Hrow]). }
  match goal with
  | |- _ /\ Forall ?P _ =>
      destruct (scanFrom_spec P limit fetched) with (candidates := @nil AutoTagger.Candidate)
        as [HF Hlen]
  end.
  - intros node source Hin Hs Htag. cbn [AutoTagger.content AutoTagger.type AutoTagger.nodeId].
    split; [| apply Hfetched, Hin].
    unfold orElse. destruct (truthyOrNull (Node.content node)); [exact Htag | reflexivity].
  - constructor.
  - split; [exact Hlen | exact HF].
Qed.

Lemma startsWith_app :
  forall L s, JS.startsWith L (L ++ s) = true.
Proof.
  induction L as [| c L IH]; intros s; simpl; [reflexivity |].
  rewrite Ascii.eqb_refl. apply IH.
Qed.

Lemma includes_suffix :
  forall L a s, JS.includes L s = true -> JS.includes L (a ++ s) = true.
Proof.
  intros L a s H. unfold JS.includes in *.
  induction a as [| c a IH]; [exact H |].
  cbn [append JS.indexOf].
  destruct (JS.startsWith L (String c (a ++ s))); [reflexivity |].
  destruct (JS.indexOf L (a ++ s)); [reflexivity | discriminate IH].
Qed.

Lemma includes_infix :
  forall L a b, JS.includes L (a ++ L ++ b) = true.
Proof.
  intros L a b. apply includes_suffix. unfold JS.includes.
  destruct (L ++ b) eqn:E; simpl; rewrite <- E, startsWith_app; reflexivity.
Qed.

Lemma append_assoc :
  forall a b c : string, (a ++ b) ++ c = a ++ b ++ c.
Proof.
  induction a as [| x a IH]; intros b c; simpl; [reflexivity |].
  rewrite IH. reflexivity.
Qed.

Lemma injectTags_includes :
  forall content tags, JS.includes "<!-- tags:" (McpTools.injectTags content tags) = true.
Proof.
  intros content tags. unfold McpTools.injectTags, McpTools.tagBlock.
  change ("<!-- tags: " ++ JS.join ", " tags ++ " -->" ++ Ingestor.newline)
    with ("<!-- tags:" ++ " " ++ JS.join ", " tags ++ " -->" ++ Ingestor.newline).
  destruct (McpTools.endsWith _ _).
  - apply (includes_suffix _ content), (includes_suffix _ Ingestor.newline).
    apply (includes_infix "<!-- tags:" "").
  - apply (includes_suffix _ content), (includes_suffix _ Ingestor.newline),
      (includes_suffix _ Ingestor.newline).
    apply (includes_infix "<!-- tags:" "").
Qed.

(** X15. What [AutoTagger.cultivate] writes to an atomic file is what the
    [inject_tags] tool writes for the two mock tags: the text of the file
    followed by a tag block. The new text contains [<!-- tags:], so once
    it has been ingested again the node is no longer a candidate of [scan].
    Nothing is written for a candidate of type [section], and a failure to
    read the file is passed on. *)
Theorem cultivate_appends_one_tag_block :
  forall candidate,
    (forall fileContent,
        AutoTagger.type candidate <> "section" ->
        AutoTagger.cultivate candidate (Normal fileContent)
        = Normal (Some (McpTools.injectTags fileContent (AutoTagger.mockTags candidate)))
        /\ JS.includes "<!-- tags:"
             (McpTools.injectTags fileContent (AutoTagger.mockTags candidate)) = true)
    /\ (forall fileContent,
          AutoTagger.type candidate = "section" ->
          AutoTagger.cultivate candidate (Normal fileContent) = Normal None)
    /\ (forall e, AutoTagger.cultivate candidate (Thrown e) = Thrown e).
Proof.
  intros candidate. split; [| split].
  - intros fileContent Hty. split; [| apply injectTags_includes].
    unfold AutoTagger.cultivate, McpTools.injectTags. cbn [List.length AutoTagger.mockTags Nat.eqb].
    destruct (String.eqb_spec (AutoTagger.type candidate) "section"); [contradiction |].
    reflexivity.
  - intros fileContent Hty. unfold AutoTagger.cultivate.
    cbn [List.length AutoTagger.mockTags Nat.eqb]. rewrite Hty. reflexivity.
  - intros e. reflexivity.
Qed.

(** ** The validation that closes Phase 2 *)

Lemma countRows_zero :
  forall (A : Type) (p : A -> bool) (l : list A),
    ResonanceDB.countRows p l = 0%Z <-> forall x, In x l -> p x = false.
Proof.
  intros A p l. unfold ResonanceDB.countRows. induction l as [| x l IH]; simpl.
  - split; [intros _ x [] | reflexivity].
  - destruct (p x) eqn:Hp; simpl.
    + split; [lia |]. intros H. specialize (H x (or_introl eq_refl)). congruence.
    + rewrite IH. split.
      * intros H y [<- | Hy]; auto.
      * intros H y Hy. apply H. right. exact Hy.
Qed.

Lemma countRows_nonneg :
  forall (A : Type) (p : A -> bool) (l : list A), (0 <= ResonanceDB.countRows p l)%Z.
Proof.
  intros. unfold ResonanceDB.countRows. lia.
Qed.

Lemma count_id_NoDup :
  forall (l : list Row.t) (id : string),
    NoDup (List.map Row.id l) ->
    (ResonanceDB.countRows (fun r => String.eqb (Row.id r) id) l <= 1)%Z.
Proof.
  intros l id. unfold ResonanceDB.countRows.
  induction l as [| r l IH]; simpl; intros Hnd; [lia |].
  inversion Hnd as [| x xs Hnotin Hnd']; subst.
  destruct (String.eqb_spec (Row.id r) id) as [E | N]; [| apply IH, Hnd'].
  simpl.
  assert (H0 : filter (fun r0 => String.eqb (Row.id r0) id) l = []).
  { clear IH Hnd Hnd'. induction l as [| y l IHl]; simpl; [reflexivity |].
    destruct (String.eqb_spec (Row.id y) id) as [E' | N'].
    - exfalso. apply Hnotin. left. congruence.
    - apply IHl. intros Hin. apply Hnotin. right. exact Hin. }
  rewrite H0. simpl. lia.
Qed.

(** X16. The validation that the Ingestor runs at the end of Phase 2
    captures its baseline and validates at once: on a store with one row
    per node id it always completes, its summary is the status (the
    pictograph, then PASSED or FAILED) followed by "+0 nodes, +0 edges, +0
    vectors", it has no warning, and it passes exactly when
    both ends of every edge are ids of nodes; the only error it can report
    is [orphaned_edges]. *)
Theorem closing_validation_checks_orphaned_edges_only :
  forall db,
    NoDup (List.map Row.id (nodes db)) ->
    exists report,
      Props.closingReport db = Normal report
      /\ PipelineValidator.results report = PipelineValidator.baseline report
      /\ PipelineValidator.warnings report = []
      /\ PipelineValidator.summary report
         = (if PipelineValidator.passed report
            then PipelineValidator.checkMark ++ " PASSED"
            else PipelineValidator.crossMark ++ " FAILED")
             ++ " | +0 nodes, +0 edges, +0 vectors"
      /\ (PipelineValidator.passed report = true
          <-> forall e, In e (edges db) -> Props.anchored db e = true)
      /\ Forall (fun err => PipelineValidator.rule err = "orphaned_edges")
           (PipelineValidator.errors report).
Proof.
  intros db Hnd. unfold Props.closingReport, PipelineValidator.validate.
  cbn [PipelineValidator.captureBaseline PipelineValidator.v_baseline
         PipelineValidator.v_expectations PipelineValidator.noExpectations
         PipelineValidator.min_nodes_added PipelineValidator.checkCoverage
         PipelineValidator.required_vector_coverage].
  rewrite !Z.sub_diag.
  set (orphaned := ResonanceDB.countRows _ (edges db)).
  set (duplicates := ResonanceDB.countRows _ (nodup string_dec _)).
  assert (Hdup : duplicates = 0%Z).
  { unfold duplicates. apply countRows_zero. intros id _.
    apply Z.ltb_ge. apply count_id_NoDup, Hnd. }
  rewrite Hdup. cbn [Z.ltb Z.compare app].
  assert (Horph : orphaned = 0%Z
                  <-> forall e, In e (edges db) -> Props.anchored db e = true).
  { unfold orphaned. rewrite countRows_zero. unfold Props.anchored.
    split; intros H e He; specialize (H e He).
    - apply orb_false_iff in H as [H1 H2].
      apply negb_false_iff in H1, H2. rewrite H1, H2. reflexivity.
    - apply andb_true_iff in H as [H1 H2]. rewrite H1, H2. reflexivity. }
  pose proof (countRows_nonneg _
                (fun e => negb (PipelineValidator.nodeExists db (Edge.source e))
                          || negb (PipelineValidator.nodeExists db (Edge.target e)))
                (edges db)) as Hnn.
  fold orphaned in Hnn.
  eexists. split; [reflexivity |].
  cbn [PipelineValidator.results PipelineValidator.baseline PipelineValidator.warnings
         PipelineValidator.summary PipelineValidator.passed PipelineValidator.errors].
  split; [reflexivity | split; [reflexivity | split; [reflexivity | split]]].
  - rewrite <- Horph.
    destruct (Z.ltb_spec 0 orphaned) as [Hpos | Hz]; simpl.
    + split; [discriminate | lia].
    + split; [intros _; lia | reflexivity].
  - destruct (0 <? orphaned)%Z; repeat constructor.
Qed.

(** ** TokenizerService *)

Lemma set_values :
  forall (P : string -> Prop) k v m,
    P v -> Forall (fun kv => P (snd kv)) m ->
    Forall (fun kv => P (snd kv)) (EdgeWeaver.set k v m).
Proof.
  intros P k v m Hv Hm. induction m as [| [k' v'] r IH]; simpl.
  - constructor; [exact Hv | constructor].
  - inversion Hm as [| x l Hx Hl]; subst.
    destruct (String.eqb k' k); constructor; auto.
Qed.

Lemma get_values :
  forall (P : string -> Prop) k m v,
    Forall (fun kv => P (snd kv)) m -> EdgeWeaver.get k m = Some v -> P v.
Proof.
  intros P k m v Hm. induction m as [| [k' v'] r IH]; simpl; [discriminate |].
  inversion Hm as [| x l Hx Hl]; subst.
  destruct (String.eqb k' k); [intros H; inversion H; subst; exact Hx | apply IH, Hl].
Qed.

Lemma learn_concepts :
  forall vocabulary item,
    Tokenizer.type item = None -> Tokenizer.category item = None ->
    Forall (fun kv => snd kv = "Concept") vocabulary ->
    Forall (fun kv => snd kv = "Concept") (Tokenizer.learn vocabulary item).
Proof.
  intros vocabulary item Hty Hcat Hv. unfold Tokenizer.learn, Tokenizer.tagOf, Tokenizer.set.
  rewrite Hty, Hcat. cbn [Tokenizer.isString].
  assert (H1 : Forall (fun kv => snd kv = "Concept")
                 match truthyOrNull (Tokenizer.title item) with
                 | Some t => EdgeWeaver.set (JS.toLowerCase t) "Concept" vocabulary
                 | None => vocabulary
                 end).
  { destruct (truthyOrNull (Tokenizer.title item));
      [apply (set_values (fun v => v = "Concept")); [reflexivity | exact Hv] | exact Hv]. }
  destruct (truthyOrNull (Tokenizer.id item)); [| exact H1].
  destruct (JS.includes "-" s);
    repeat (apply (set_values (fun v => v = "Concept")); [reflexivity |]); exact H1.
Qed.

Lemma StronglySorted_weaken :
  forall (A : Type) (R R' : A -> A -> Prop) (l : list A),
    (forall a b, R a b -> R' a b) -> StronglySorted R l -> StronglySorted R' l.
Proof.
  intros A R R' l HR H. induction H as [| a l Hs IH Ha]; constructor.
  - exact IH.
  - eapply Forall_impl; [| exact Ha]. intros b. apply HR.
Qed.

Lemma pushNew_NoDup :
  forall x l, NoDup l -> NoDup (Tokenizer.pushNew x l).
Proof.
  intros x l H. unfold Tokenizer.pushNew.
  destruct (existsb (String.eqb x) l) eqn:Hex; [exact H |].
  apply NoDup_snoc; [exact H |]. intros Hin.
  assert (Ht : existsb (String.eqb x) l = true)
    by (apply existsb_exists; exists x; split; [exact Hin | apply String.eqb_refl]).
  congruence.
Qed.

(** One step of the scan when every term is tagged [Concept]: only the
    list of concepts can change. *)
Lemma scanTerm_concepts :
  forall vocabulary text lowerText result term,
    Forall (fun kv => snd kv = "Concept") vocabulary ->
    let out := Tokenizer.scanTerm vocabulary text lowerText result term in
    protocols out = protocols result
    /\ money out = money result
    /\ people out = people result
    /\ places out = places result
    /\ organizations out = organizations result
    /\ topics out = topics result
    /\ (NoDup (concepts result) -> NoDup (concepts out)).
Proof.
  intros vocabulary text lowerText result term Hvoc. cbv zeta.
  unfold Tokenizer.scanTerm.
  destruct (JS.includes term lowerText); [| repeat split; auto].
  destruct (RegExp.firstMatch _ text) as [m |]; [| repeat split; auto].
  assert (Htag : Tokenizer.isString (Tokenizer.get term vocabulary) "Protocol" = false
                 /\ Tokenizer.isString (Tokenizer.get term vocabulary) "Organization"
                    = false).
  { unfold Tokenizer.get.
    destruct (EdgeWeaver.get term vocabulary) as [v |] eqn:Hg; [| split; reflexivity].
    apply (get_values (fun v => v = "Concept") _ _ _ Hvoc) in Hg. subst v.
    split; reflexivity. }
  destruct Htag as [Hp Ho]. rewrite Hp, Ho.
  destruct (Tokenizer.isString _ "Concept"); cbn [protocols money people places
    organizations topics concepts]; repeat split; auto; apply pushNew_NoDup.
Qed.

Lemma scanTerms_concepts :
  forall vocabulary text lowerText keys result,
    Forall (fun kv => snd kv = "Concept") vocabulary ->
    let out := fold_left (Tokenizer.scanTerm vocabulary text lowerText) keys result in
    protocols out = protocols result
    /\ money out = money result
    /\ people out = people result
    /\ places out = places result
    /\ organizations out = organizations result
    /\ topics out = topics result
    /\ (NoDup (concepts result) -> NoDup (concepts out)).
Proof.
  intros vocabulary text lowerText keys result Hvoc. cbv zeta. revert result.
  induction keys as [| term keys IH]; intros result; cbn [fold_left].
  - repeat split; auto.
  - destruct (IH (Tokenizer.scanTerm vocabulary text lowerText result term))
      as (H1 & H2 & H3 & H4 & H5 & H6 & H7).
    destruct (scanTerm_concepts vocabulary text lowerText result term Hvoc)
      as (G1 & G2 & G3 & G4 & G5 & G6 & G7).
    rewrite H1, H2, H3, H4, H5, H6. repeat split; auto.
Qed.

(** X17. With the lexicon as the Ingestor loads it (items that carry an
    id, a title and aliases, but neither [type] nor [category]) every term
    of the tokenizer is tagged [Concept]: [extract] then never reports a
    protocol, leaves the people, places, organizations and topics as the NLP
    library found them, and lists each concept once. The search keys are
    tried longest first. *)
Theorem ingestor_lexicon_yields_concepts_only :
  forall nlp lexicon text,
    let st := Tokenizer.loadLexicon (List.map Tokenizer.itemOfLexicon lexicon) in
    let tags := Tokenizer.extract nlp st text in
    protocols tags = []
    /\ money tags = []
    /\ people tags = Tokenizer.nlpPeople nlp text
    /\ places tags = Tokenizer.nlpPlaces nlp text
    /\ organizations tags = Tokenizer.nlpOrganizations nlp text
    /\ topics tags = Tokenizer.nlpTopics nlp text
    /\ NoDup (concepts tags)
    /\ StronglySorted (fun a b => (String.length b <= String.length a)%nat)
         (Tokenizer.searchKeys st).
Proof.
  intros nlp lexicon text st tags.
  assert (Hvoc : Forall (fun kv => snd kv = "Concept") (Tokenizer.vocabulary st)).
  { unfold st, Tokenizer.loadLexicon. cbn [Tokenizer.vocabulary].
    assert (H : forall l v,
               Forall (fun kv => snd kv = "Concept") v ->
               Forall (fun kv => snd kv = "Concept")
                 (fold_left Tokenizer.learn (List.map Tokenizer.itemOfLexicon l) v)).
    { induction l as [| item l IH]; intros v Hv; simpl; [exact Hv |].
      apply IH, learn_concepts; [reflexivity | reflexivity | exact Hv]. }
    apply H. constructor. }
  unfold tags, Tokenizer.extract.
  match goal with
  | |- context [fold_left _ (Tokenizer.searchKeys st) ?r] =>
      destruct (scanTerms_concepts (Tokenizer.vocabulary st) text (JS.toLowerCase text)
                  (Tokenizer.searchKeys st) r Hvoc)
        as (H1 & H2 & H3 & H4 & H5 & H6 & H7)
  end.
  cbv zeta in *. rewrite H1, H2, H3, H4, H5, H6.
  repeat split; auto.
  - apply H7. constructor.
  - unfold st, Tokenizer.loadLexicon. cbn [Tokenizer.searchKeys].
    eapply StronglySorted_weaken;
      [| apply (sortBy_sorted _ _ (fun _ => True))].
    + intros a b H. apply Nat.ltb_ge in H. exact H.
    + intros a b _ _ H. apply Nat.ltb_lt in H. apply Nat.ltb_ge. lia.
    + intros a b c _ _ _ Hab Hbc. apply Nat.ltb_ge in Hab, Hbc. apply Nat.ltb_ge. lia.
    + apply Forall_forall. intros; exact I.
Qed.

(** ** Regular expressions, seen from the text *)

(** The matcher depends on its continuation through the values of the
    continuation only. *)
Lemma run_ext :
  forall r prev s caps k1 k2,
    (forall p1 s1 c1, k1 p1 s1 c1 = k2 p1 s1 c1) ->
    RegExp.run r prev s caps k1 = RegExp.run r prev s caps k2.
Proof.
  induction r as [| p | a IHa b IHb | a IHa b IHb | greedy a IHa | n a IHa | a IHa | | |];
    intros prev s caps k1 k2 H; cbn [RegExp.run].
  - apply H.
  - destruct s as [| c s']; [reflexivity |]. destruct (p c); [apply H | reflexivity].
  - apply IHa. intros. apply IHb. exact H.
  - rewrite (IHa prev s caps k1 k2 H), (IHb prev s caps k1 k2 H). reflexivity.
  - generalize (String.length s) as n. intros n. revert prev s caps.
    induction n as [| n IHn]; intros prev s caps; [apply H |].
    rewrite H.
    rewrite (IHa prev s caps
               (fun p1 s1 c1 =>
                  if (String.length s1 <? String.length s)%nat
                  then
                    (fix loop (n : nat) (prev : option ascii) (s : string)
                         (caps : RegExp.Caps) {struct n} : option RegExp.Res :=
                       match n with
                       | O => k1 prev s caps
                       | S n' =>
                           if greedy then
                             match RegExp.run a prev s caps
                                     (fun p1 s1 c1 =>
                                        if (String.length s1 <? String.length s)%nat
                                        then loop n' p1 s1 c1 else None) with
                             | Some res => Some res
                             | None => k1 prev s caps
                             end
                           else
                             match k1 prev s caps with
                             | Some res => Some res
                             | None =>
                                 RegExp.run a prev s caps
                                   (fun p1 s1 c1 =>
                                      if (String.length s1 <? String.length s)%nat
                                      then loop n' p1 s1 c1 else None)
                             end
                       end) n p1 s1 c1
                  else None)
               (fun p1 s1 c1 =>
                  if (String.length s1 <? String.length s)%nat
                  then
                    (fix loop (n : nat) (prev : option ascii) (s : string)
                         (caps : RegExp.Caps) {struct n} : option RegExp.Res :=
                       match n with
                       | O => k2 prev s caps
                       | S n' =>
                           if greedy then
                             match RegExp.run a prev s caps
                                     (fun p1 s1 c1 =>
                                        if (String.length s1 <? String.length s)%nat
                                        then loop n' p1 s1 c1 else None) with
                             | Some res => Some res
                             | None => k2 prev s caps
                             end
                           else
                             match k2 prev s caps with
                             | Some res => Some res
                             | None =>
                                 RegExp.run a prev s caps
                                   (fun p1 s1 c1 =>
                                      if (String.length s1 <? String.length s)%nat
                                      then loop n' p1 s1 c1 else None)
                             end
                       end) n p1 s1 c1
                  else None)).
    + reflexivity.
    + intros p1 s1 c1. destruct (String.length s1 <? String.length s)%nat;
        [apply IHn | reflexivity].
  - apply IHa. intros. apply H.
  - destruct (RegExp.run a prev s caps _) as [[[? ?] c1] |]; [apply H | reflexivity].
  - destruct prev; [reflexivity | apply H].
  - destruct s; [apply H | reflexivity].
  - destruct (xorb _ _); [apply H | reflexivity].
Qed.

Lemma run_Star :
  forall greedy a prev s caps k,
    RegExp.run (RegExp.Star greedy a) prev s caps k
    = Props.starLoop greedy (RegExp.run a) k (String.length s) prev s caps.
Proof.
  intros greedy a prev s caps k. cbn [RegExp.run].
  generalize (String.length s) as n. intros n. revert prev s caps.
  induction n as [| n IH]; intros prev s caps; [reflexivity |].
  cbn [Props.starLoop].
  rewrite (run_ext a prev s caps _
             (fun p1 s1 c1 =>
                if (String.length s1 <? String.length s)%nat
                then Props.starLoop greedy (RegExp.run a) k n p1 s1 c1 else None)).
  - reflexivity.
  - intros p1 s1 c1. destruct (String.length s1 <? String.length s)%nat;
      [apply IH | reflexivity].
Qed.

Lemma starLoop_greedy_chars :
  forall p k n prev s caps,
    (String.length s <= n)%nat ->
    Props.starLoop true (RegExp.run (RegExp.Chr p)) k n prev s caps
    = Props.greedyChars p k prev s caps.
Proof.
  intros p k n. induction n as [| n IH]; intros prev s caps Hn.
  - destruct s; [reflexivity | simpl in Hn; lia].
  - cbn [Props.starLoop RegExp.run].
    destruct s as [| c s']; [reflexivity |].
    cbn [Props.greedyChars]. destruct (p c); [| reflexivity].
    assert (Hlt : (String.length s' <? String.length (String c s'))%nat = true)
      by (apply Nat.ltb_lt; simpl; lia).
    rewrite Hlt, IH by (simpl in Hn; lia). reflexivity.
Qed.

Lemma starLoop_lazy_chars :
  forall p k n prev s caps,
    (String.length s <= n)%nat ->
    Props.starLoop false (RegExp.run (RegExp.Chr p)) k n prev s caps
    = Props.lazyChars p k prev s caps.
Proof.
  intros p k n. induction n as [| n IH]; intros prev s caps Hn.
  - destruct s; [| simpl in Hn; lia].
    cbn [Props.starLoop Props.lazyChars]. destruct (k prev "" caps); reflexivity.
  - cbn [Props.starLoop RegExp.run].
    destruct s as [| c s'].
    + cbn [Props.lazyChars]. reflexivity.
    + cbn [Props.lazyChars]. destruct (k prev (String c s') caps); [reflexivity |].
      destruct (p c); [| reflexivity].
      assert (Hlt : (String.length s' <? String.length (String c s'))%nat = true)
        by (apply Nat.ltb_lt; simpl; lia).
      rewrite Hlt. apply IH. simpl in Hn. lia.
Qed.

Lemma run_greedy_chars :
  forall p prev s caps k,
    RegExp.run (RegExp.Star true (RegExp.Chr p)) prev s caps k
    = Props.greedyChars p k prev s caps.
Proof.
  intros. rewrite run_Star. apply starLoop_greedy_chars, Nat.le_refl.
Qed.

Lemma run_lazy_chars :
  forall p prev s caps k,
    RegExp.run (RegExp.Star false (RegExp.Chr p)) prev s caps k
    = Props.lazyChars p k prev s caps.
Proof.
  intros. rewrite run_Star. apply starLoop_lazy_chars, Nat.le_refl.
Qed.

Lemma run_Seq :
  forall a b prev s caps k,
    RegExp.run (RegExp.Seq a b) prev s caps k
    = RegExp.run a prev s caps (fun p1 s1 c1 => RegExp.run b p1 s1 c1 k).
Proof.
  reflexivity.
Qed.

Lemma run_Chr :
  forall p prev s caps k,
    RegExp.run (RegExp.Chr p) prev s caps k
    = match s with
      | String c s' => if p c then k (Some c) s' caps else None
      | EmptyString => None
      end.
Proof.
  reflexivity.
Qed.

Lemma run_Group :
  forall n a prev s caps k,
    RegExp.run (RegExp.Group n a) prev s caps k
    = RegExp.run a prev s caps
        (fun p1 s1 c1 =>
           k p1 s1 ((n, JS.take (String.length s - String.length s1) s) :: c1)).
Proof.
  reflexivity.
Qed.

Lemma run_lit :
  forall L prev s caps k,
    RegExp.run (RegExp.lit L) prev s caps k
    = if JS.startsWith L s
      then k (RegExp.lastOf prev L) (JS.drop (String.length L) s) caps
      else None.
Proof.
  induction L as [| a L IH]; intros prev s caps k.
  - destruct s; reflexivity.
  - cbn [RegExp.lit RegExp.run JS.startsWith].
    destruct s as [| b s']; [reflexivity |].
    rewrite Ascii.eqb_sym.
    destruct (Ascii.eqb_spec b a) as [-> | N]; [| reflexivity].
    cbn [andb]. rewrite IH. reflexivity.
Qed.

Lemma drop_app_length :
  forall a s, JS.drop (String.length a) (a ++ s) = s.
Proof.
  induction a as [| c a IH]; intros s; [destruct s; reflexivity | exact (IH s)].
Qed.

Lemma length_append :
  forall a s : string, String.length (a ++ s) = String.length a + String.length s.
Proof.
  induction a as [| c a IH]; intros s; simpl; [reflexivity | rewrite IH; reflexivity].
Qed.

Lemma take_app_length :
  forall a s, JS.take (String.length (a ++ s) - String.length s) (a ++ s) = a.
Proof.
  intros a s. rewrite length_append.
  replace (String.length a + String.length s - String.length s)%nat
    with (String.length a) by lia.
  induction a as [| c a IH]; simpl.
  - destruct s; reflexivity.
  - rewrite IH. reflexivity.
Qed.

(** The greedy class with the continuation that ends the match takes the
    longest run. *)
Lemma greedyChars_done :
  forall p prev s caps,
    exists prev',
      Props.greedyChars p Props.done prev s caps = Some (prev', Props.dropWhile p s, caps).
Proof.
  intros p prev s. revert prev.
  induction s as [| c s IH]; intros prev caps; simpl.
  - eexists. reflexivity.
  - destruct (p c); [| eexists; reflexivity].
    destruct (IH (Some c) caps) as [prev' ->]. eexists. reflexivity.
Qed.

Lemma takeWhile_dropWhile :
  forall p s, s = Props.takeWhile p s ++ Props.dropWhile p s.
Proof.
  intros p. induction s as [| c s IH]; simpl; [reflexivity |].
  destruct (p c); simpl; [rewrite <- IH |]; reflexivity.
Qed.

(** Scanning over the characters of a match. *)
Lemma scan_skip :
  forall r a prev s,
    RegExp.scan r prev (a ++ s) (String.length a) = RegExp.scan r (RegExp.lastOf prev a) s 0.
Proof.
  intros r. induction a as [| c a IH]; intros prev s; [reflexivity |].
  cbn [append String.length RegExp.scan RegExp.lastOf]. apply IH.
Qed.

Lemma scan_hit :
  forall r prev c t rest m,
    RegExp.matchAt r prev (String c t ++ rest) = Some m ->
    RegExp.text m = String c t ->
    RegExp.scan r prev (String c t ++ rest) 0
    = RegExp.Hit m :: RegExp.scan r (RegExp.lastOf (Some c) t) rest 0.
Proof.
  intros r prev c t rest m Hm Ht.
  cbn [append RegExp.scan]. cbn [append] in Hm. rewrite Hm, Ht.
  cbn [String.length]. rewrite scan_skip. reflexivity.
Qed.

Lemma scan_miss :
  forall r prev c s,
    RegExp.matchAt r prev (String c s) = None ->
    RegExp.scan r prev (String c s) 0 = RegExp.Out c :: RegExp.scan r (Some c) s 0.
Proof.
  intros r prev c s Hm. cbn [RegExp.scan]. rewrite Hm. reflexivity.
Qed.

Lemma rewrite_Out :
  forall by_ c ps,
    Props.rewrite by_ (RegExp.Out c :: ps) = String c (Props.rewrite by_ ps).
Proof.
  reflexivity.
Qed.

Lemma rewrite_Hit :
  forall by_ m ps,
    Props.rewrite by_ (RegExp.Hit m :: ps) = by_ ++ Props.rewrite by_ ps.
Proof.
  reflexivity.
Qed.

Lemma replaceAll_rewrite :
  forall r by_ s,
    RegExp.replaceAll r by_ s = Props.rewrite by_ (RegExp.scan r None s 0).
Proof.
  reflexivity.
Qed.

(** ** [slugify] *)

Lemma matchAt_plus_chars :
  forall p prev s,
    RegExp.matchAt (RegExp.Plus true (RegExp.Chr p)) prev s
    = match s with
      | String c s' =>
          if p c
          then Some {| RegExp.text := String c (Props.takeWhile p s'); RegExp.caps := [] |}
          else None
      | EmptyString => None
      end.
Proof.
  intros p prev s. unfold RegExp.matchAt, RegExp.Plus. rewrite run_Seq, run_Chr.
  destruct s as [| c s']; [reflexivity |].
  destruct (p c); [| reflexivity].
  rewrite run_greedy_chars.
  destruct (greedyChars_done p (Some c) s' []) as [prev' H].
  unfold Props.done in H. rewrite H.
  pose proof (take_app_length (String c (Props.takeWhile p s')) (Props.dropWhile p s')) as Ht.
  cbn [append] in Ht. rewrite <- takeWhile_dropWhile in Ht. rewrite Ht. reflexivity.
Qed.

Lemma squeeze_in_run :
  forall p by_ s,
    Props.squeeze p by_ true s = Props.squeeze p by_ false (Props.dropWhile p s).
Proof.
  intros p by_. induction s as [| c s IH]; [reflexivity |].
  cbn [Props.squeeze Props.dropWhile]. destruct (p c) eqn:Hc; [exact IH |].
  cbn [Props.squeeze]. rewrite Hc. reflexivity.
Qed.

Lemma dropWhile_length :
  forall p s, (String.length (Props.dropWhile p s) <= String.length s)%nat.
Proof.
  intros p. induction s as [| c s IH]; simpl; [lia |].
  destruct (p c); simpl; lia.
Qed.

Lemma scan_plus_chars :
  forall p by_ n s prev,
    (String.length s <= n)%nat ->
    Props.rewrite by_ (RegExp.scan (RegExp.Plus true (RegExp.Chr p)) prev s 0)
    = Props.squeeze p by_ false s.
Proof.
  intros p by_. induction n as [| n IH]; intros s prev Hn.
  - destruct s; [reflexivity | simpl in Hn; lia].
  - destruct s as [| c s']; [reflexivity |].
    destruct (p c) eqn:Hc.
    + transitivity (by_ ++ Props.squeeze p by_ false (Props.dropWhile p s')).
      * pose proof (matchAt_plus_chars p prev (String c s')) as Hm.
        cbn iota in Hm. rewrite Hc in Hm.
        assert (Hs : String c s' = String c (Props.takeWhile p s') ++ Props.dropWhile p s')
          by (cbn [append]; rewrite <- takeWhile_dropWhile; reflexivity).
        rewrite Hs in Hm |- *.
        rewrite (scan_hit _ _ _ _ _ _ Hm eq_refl), rewrite_Hit.
        f_equal. apply IH.
        pose proof (dropWhile_length p s'). simpl in Hn. lia.
      * cbn [Props.squeeze]. rewrite Hc, squeeze_in_run. reflexivity.
    + rewrite scan_miss
        by (rewrite matchAt_plus_chars, Hc; reflexivity).
      rewrite rewrite_Out. cbn [Props.squeeze].
      rewrite Hc. f_equal. apply IH. simpl in Hn. lia.
Qed.

Lemma replaceAll_plus_chars :
  forall p by_ s,
    RegExp.replaceAll (RegExp.Plus true (RegExp.Chr p)) by_ s = Props.squeeze p by_ false s.
Proof.
  intros p by_ s. rewrite replaceAll_rewrite.
  apply (scan_plus_chars p by_ (String.length s)), Nat.le_refl.
Qed.

Lemma matchAt_edge_dash_inner :
  forall x c s,
    RegExp.matchAt EdgeWeaver.reEdgeDash (Some x) (String c s)
    = if Ascii.eqb "-" c then
        match s with
        | EmptyString => Some {| RegExp.text := "-"; RegExp.caps := [] |}
        | String _ _ => None
        end
      else None.
Proof.
  intros x c s. unfold RegExp.matchAt, EdgeWeaver.reEdgeDash.
  cbn [RegExp.run RegExp.lit].
  destruct (Ascii.eqb_spec "-" c) as [<- | N]; [| reflexivity].
  destruct s; reflexivity.
Qed.

Lemma matchAt_edge_dash_start :
  forall c s,
    RegExp.matchAt EdgeWeaver.reEdgeDash None (String c s)
    = if Ascii.eqb "-" c then Some {| RegExp.text := "-"; RegExp.caps := [] |} else None.
Proof.
  intros c s. unfold RegExp.matchAt, EdgeWeaver.reEdgeDash.
  cbn [RegExp.run RegExp.lit].
  destruct (Ascii.eqb_spec "-" c) as [<- | N]; [| reflexivity].
  replace (String.length (String "-" s) - String.length s)%nat with 1%nat
    by (cbn [String.length]; lia).
  reflexivity.
Qed.

Lemma stripEnd_cons :
  forall x c d s,
    Props.stripEnd x (String c (String d s)) = String c (Props.stripEnd x (String d s)).
Proof.
  reflexivity.
Qed.

Lemma stripEnd_other :
  forall x c s, c <> x -> Props.stripEnd x (String c s) = String c (Props.stripEnd x s).
Proof.
  intros x c s N. destruct s as [| d s]; [| reflexivity].
  cbn [Props.stripEnd]. destruct (Ascii.eqb_spec c x); [contradiction | reflexivity].
Qed.

Lemma scan_edge_dash_inner :
  forall s x,
    Props.rewrite "" (RegExp.scan EdgeWeaver.reEdgeDash (Some x) s 0) = Props.stripEnd "-" s.
Proof.
  induction s as [| c s IH]; intros x; [reflexivity |].
  cbn [RegExp.scan]. rewrite matchAt_edge_dash_inner.
  destruct (Ascii.eqb_spec "-" c) as [<- | N].
  - destruct s as [| d s].
    + reflexivity.
    + rewrite rewrite_Out, IH, stripEnd_cons. reflexivity.
  - rewrite rewrite_Out, IH, stripEnd_other by congruence. reflexivity.
Qed.

Lemma replaceAll_edge_dash :
  forall s,
    RegExp.replaceAll EdgeWeaver.reEdgeDash "" s
    = Props.stripEnd "-" (Props.stripStart "-" s).
Proof.
  intros s. rewrite replaceAll_rewrite.
  destruct s as [| c s]; [reflexivity |].
  cbn [RegExp.scan]. rewrite matchAt_edge_dash_start. cbn [Props.stripStart].
  destruct (Ascii.eqb_spec "-" c) as [<- | N].
  - cbn [RegExp.text String.length Ascii.eqb Bool.eqb].
    rewrite rewrite_Hit. apply scan_edge_dash_inner.
  - destruct (Ascii.eqb_spec c "-") as [E | _]; [congruence |].
    rewrite rewrite_Out, scan_edge_dash_inner, stripEnd_other by congruence.
    reflexivity.
Qed.

(** [slugify], read off the text. *)
Lemma slugify_text :
  forall text,
    EdgeWeaver.slugify text
    = Props.stripEnd "-"
        (Props.stripStart "-"
           (Props.squeeze (RegExp.notC (RegExp.orC JS.isLower JS.isDigit)) "-" false
              (JS.toLowerCase text))).
Proof.
  intros text. unfold EdgeWeaver.slugify, EdgeWeaver.reNonAlnum.
  rewrite replaceAll_plus_chars, replaceAll_edge_dash. reflexivity.
Qed.

Lemma slugChar_not_upper :
  forall c, Spec.isSlugChar c = true -> JS.isUpper c = false.
Proof.
  intros c.
  destruct c as [[|] [|] [|] [|] [|] [|] [|] [|]]; vm_compute;
    intros H; first [reflexivity | discriminate H].
Qed.

Lemma slugChar_cases :
  forall c,
    Spec.isSlugChar c = true ->
    c = "-"%char
    \/ (c <> "-"%char /\ RegExp.notC (RegExp.orC JS.isLower JS.isDigit) c = false).
Proof.
  intros c.
  destruct c as [[|] [|] [|] [|] [|] [|] [|] [|]]; vm_compute;
    intros H; first [discriminate H | left; reflexivity | right; split; [discriminate | reflexivity]].
Qed.

Lemma alnum_slugChar :
  forall c,
    RegExp.notC (RegExp.orC JS.isLower JS.isDigit) c = false ->
    Spec.isSlugChar c = true /\ c <> "-"%char.
Proof.
  intros c.
  destruct c as [[|] [|] [|] [|] [|] [|] [|] [|]]; vm_compute;
    intros H; first [discriminate H | split; [reflexivity | discriminate]].
Qed.

Lemma toLowerChar_idem :
  forall c, JS.toLowerChar (JS.toLowerChar c) = JS.toLowerChar c.
Proof.
  intros c.
  destruct c as [[|] [|] [|] [|] [|] [|] [|] [|]]; vm_compute; reflexivity.
Qed.

Lemma toLowerCase_idem :
  forall s, JS.toLowerCase (JS.toLowerCase s) = JS.toLowerCase s.
Proof.
  unfold JS.toLowerCase.
  induction s as [| c s IH]; [reflexivity |].
  cbn [JS.map]. rewrite IH, toLowerChar_idem. reflexivity.
Qed.

Lemma toLowerCase_slug :
  forall s, Spec.allChars Spec.isSlugChar s = true -> JS.toLowerCase s = s.
Proof.
  unfold JS.toLowerCase. induction s as [| c s IH]; intros H; [reflexivity |].
  cbn [Spec.allChars] in H. apply andb_true_iff in H as [Hc Hs].
  cbn [JS.map]. rewrite (IH Hs). unfold JS.toLowerChar.
  rewrite (slugChar_not_upper c Hc). reflexivity.
Qed.

Lemma noDoubleDash_cons :
  forall a b r,
    Props.noDoubleDash (String a (String b r))
    = negb (Ascii.eqb a "-" && Ascii.eqb b "-") && Props.noDoubleDash (String b r).
Proof.
  reflexivity.
Qed.

Lemma noDoubleDash_tail :
  forall a r, Props.noDoubleDash (String a r) = true -> Props.noDoubleDash r = true.
Proof.
  intros a [| b r] H; [reflexivity |].
  rewrite noDoubleDash_cons in H. apply andb_true_iff in H as [_ H]. exact H.
Qed.

Lemma noDoubleDash_dash :
  forall r,
    Props.noDoubleDash (String "-" r) = true <->
    Props.headIs "-" r = false /\ Props.noDoubleDash r = true.
Proof.
  intros [| b r]; [split; [intros _; split; reflexivity | reflexivity] |].
  rewrite noDoubleDash_cons. cbn [Props.headIs Ascii.eqb Bool.eqb andb].
  rewrite andb_true_iff, negb_true_iff. tauto.
Qed.

Lemma noDoubleDash_other :
  forall a r,
    a <> "-"%char ->
    Props.noDoubleDash (String a r) = Props.noDoubleDash r.
Proof.
  intros a [| b r] N; [reflexivity |].
  rewrite noDoubleDash_cons.
  destruct (Ascii.eqb_spec a "-"); [contradiction | reflexivity].
Qed.

(** The text after the runs have been squeezed. *)
Lemma squeeze_shape :
  forall s inRun,
    let t := Props.squeeze (RegExp.notC (RegExp.orC JS.isLower JS.isDigit)) "-" inRun s in
    Spec.allChars Spec.isSlugChar t = true
    /\ Props.noDoubleDash t = true
    /\ (inRun = true -> Props.headIs "-" t = false).
Proof.
  induction s as [| c s IH]; intros inRun; cbv zeta.
  - repeat split.
  - cbn [Props.squeeze].
    destruct (RegExp.notC (RegExp.orC JS.isLower JS.isDigit) c) eqn:Hc.
    + destruct (IH true) as (H1 & H2 & H3). cbv zeta in *.
      destruct inRun; [auto |].
      cbn [append]. split; [| split; [| discriminate]].
      * cbn [Spec.allChars]. rewrite H1. reflexivity.
      * apply noDoubleDash_dash. auto.
    + destruct (IH false) as (H1 & H2 & _). cbv zeta in *.
      destruct (alnum_slugChar c Hc) as [Hs Hd].
      split; [| split].
      * cbn [Spec.allChars]. rewrite Hs, H1. reflexivity.
      * rewrite noDoubleDash_other by exact Hd. exact H2.
      * intros _. cbn [Props.headIs].
        destruct (Ascii.eqb_spec c "-"); [contradiction | reflexivity].
Qed.

Lemma lastIs_cons :
  forall x c d r,
    Props.lastIs x (String c (String d r)) = Props.lastIs x (String d r).
Proof.
  reflexivity.
Qed.

Lemma stripEnd_empty :
  forall x w, Props.stripEnd x w = EmptyString -> w = EmptyString \/ w = String x EmptyString.
Proof.
  intros x [| c [| d w]] H; [left; reflexivity | | discriminate H].
  cbn [Props.stripEnd] in H. destruct (Ascii.eqb_spec c x) as [E | N];
    [subst; right; reflexivity | discriminate H].
Qed.

Lemma stripEnd_allChars :
  forall p x w, Spec.allChars p w = true -> Spec.allChars p (Props.stripEnd x w) = true.
Proof.
  intros p x. induction w as [| c w IH]; intros H; [reflexivity |].
  cbn [Spec.allChars] in H. apply andb_true_iff in H as [Hc Hw].
  destruct w as [| d w].
  - cbn [Props.stripEnd]. destruct (Ascii.eqb c x); [reflexivity |].
    cbn [Spec.allChars]. rewrite Hc. reflexivity.
  - rewrite stripEnd_cons. cbn [Spec.allChars]. rewrite Hc, (IH Hw). reflexivity.
Qed.

Lemma stripEnd_head :
  forall w, Props.headIs "-" w = false -> Props.headIs "-" (Props.stripEnd "-" w) = false.
Proof.
  intros [| c w] H; [reflexivity |]. cbn [Props.headIs] in H.
  rewrite stripEnd_other by (intros ->; discriminate H). exact H.
Qed.

Lemma stripEnd_noDoubleDash :
  forall w,
    Props.noDoubleDash w = true -> Props.noDoubleDash (Props.stripEnd "-" w) = true.
Proof.
  induction w as [| c w IH]; intros H; [reflexivity |].
  destruct w as [| d w].
  - cbn [Props.stripEnd]. destruct (Ascii.eqb c "-"); reflexivity.
  - rewrite stripEnd_cons. rewrite noDoubleDash_cons in H.
    apply andb_true_iff in H as [Hcd Hw]. specialize (IH Hw).
    destruct w as [| e w].
    + cbn [Props.stripEnd]. destruct (Ascii.eqb d "-") eqn:Hd; [reflexivity |].
      rewrite noDoubleDash_cons, Hd, andb_false_r. reflexivity.
    + rewrite stripEnd_cons in IH |- *. rewrite noDoubleDash_cons, Hcd, IH. reflexivity.
Qed.

Lemma stripEnd_last :
  forall w,
    Props.noDoubleDash w = true -> Props.lastIs "-" (Props.stripEnd "-" w) = false.
Proof.
  induction w as [| c w IH]; intros H; [reflexivity |].
  destruct w as [| d w].
  - cbn [Props.stripEnd]. destruct (Ascii.eqb c "-") eqn:Hc; [reflexivity |].
    unfold Props.lastIs. cbn [RegExp.lastOf]. exact Hc.
  - rewrite stripEnd_cons. rewrite noDoubleDash_cons in H.
    apply andb_true_iff in H as [Hcd Hw]. specialize (IH Hw).
    destruct (Props.stripEnd "-" (String d w)) as [| d' w'] eqn:E.
    + apply stripEnd_empty in E as [E | E]; [discriminate E |].
      inversion E; subst. unfold Props.lastIs. cbn [RegExp.lastOf].
      cbn [Ascii.eqb Bool.eqb andb] in Hcd. rewrite andb_true_r in Hcd.
      apply negb_true_iff in Hcd. exact Hcd.
    + rewrite lastIs_cons. exact IH.
Qed.

Lemma stripEnd_fixed :
  forall w, Props.lastIs "-" w = false -> Props.stripEnd "-" w = w.
Proof.
  induction w as [| c w IH]; intros H; [reflexivity |].
  destruct w as [| d w].
  - unfold Props.lastIs in H. cbn [RegExp.lastOf] in H.
    cbn [Props.stripEnd]. rewrite H. reflexivity.
  - rewrite stripEnd_cons, IH; [reflexivity |]. rewrite lastIs_cons in H. exact H.
Qed.

Lemma stripStart_shape :
  forall t,
    Spec.allChars Spec.isSlugChar t = true ->
    Props.noDoubleDash t = true ->
    Spec.allChars Spec.isSlugChar (Props.stripStart "-" t) = true
    /\ Props.noDoubleDash (Props.stripStart "-" t) = true
    /\ Props.headIs "-" (Props.stripStart "-" t) = false.
Proof.
  intros [| c t] Ha Hn; [repeat split |].
  cbn [Props.stripStart]. cbn [Spec.allChars] in Ha.
  apply andb_true_iff in Ha as [Hc Ha].
  destruct (Ascii.eqb_spec c "-") as [-> | N].
  - apply noDoubleDash_dash in Hn as [Hh Hn]. auto.
  - repeat split.
    + cbn [Spec.allChars]. rewrite Hc, Ha. reflexivity.
    + exact Hn.
    + cbn [Props.headIs]. destruct (Ascii.eqb_spec c "-"); [contradiction | reflexivity].
Qed.

Lemma slugify_isSlug :
  forall text, Props.isSlug (EdgeWeaver.slugify text) = true.
Proof.
  intros text. rewrite slugify_text.
  destruct (squeeze_shape (JS.toLowerCase text) false) as (H1 & H2 & _). cbv zeta in *.
  destruct (stripStart_shape _ H1 H2) as (G1 & G2 & G3).
  unfold Props.isSlug.
  rewrite (stripEnd_allChars _ _ _ G1), (stripEnd_noDoubleDash _ G2),
    (stripEnd_head _ G3), (stripEnd_last _ G2).
  reflexivity.
Qed.

Lemma squeeze_fixed :
  forall u,
    Spec.allChars Spec.isSlugChar u = true ->
    Props.noDoubleDash u = true ->
    Props.squeeze (RegExp.notC (RegExp.orC JS.isLower JS.isDigit)) "-" false u = u
    /\ (Props.headIs "-" u = false ->
        Props.squeeze (RegExp.notC (RegExp.orC JS.isLower JS.isDigit)) "-" true u = u).
Proof.
  induction u as [| c u IH]; intros Ha Hn; [split; reflexivity |].
  cbn [Spec.allChars] in Ha. apply andb_true_iff in Ha as [Hc Ha].
  cbn [Props.squeeze].
  destruct (slugChar_cases c Hc) as [-> | [Nc Hq]].
  - apply noDoubleDash_dash in Hn as [Hh Hn].
    destruct (IH Ha Hn) as [_ IHt].
    change (RegExp.notC (RegExp.orC JS.isLower JS.isDigit) "-") with true. cbv iota.
    split; [rewrite (IHt Hh); reflexivity | discriminate].
  - rewrite noDoubleDash_other in Hn by exact Nc.
    destruct (IH Ha Hn) as [IHf _]. rewrite Hq, IHf. split; reflexivity.
Qed.

Lemma slug_fixed :
  forall u, Props.isSlug u = true -> EdgeWeaver.slugify u = u.
Proof.
  intros u H. unfold Props.isSlug in H.
  rewrite !andb_true_iff, !negb_true_iff in H. destruct H as [[[Ha Hn] Hh] Hl].
  rewrite slugify_text, (toLowerCase_slug u Ha).
  rewrite (proj1 (squeeze_fixed u Ha Hn)).
  assert (Hs : Props.stripStart "-" u = u).
  { destruct u as [| c u]; [reflexivity |]. cbn [Props.stripStart Props.headIs] in *.
    rewrite Hh. reflexivity. }
  rewrite Hs. apply stripEnd_fixed, Hl.
Qed.

(** X18. [slugify] always yields a slug: characters of [a-z0-9-] only, no
    dash at either end and no two dashes in a row. On a slug it is the
    identity, hence it is idempotent; and a text has the slug of its
    lower-case form, so two texts with the same lower-case form have the
    same slug. *)
Theorem slugify_yields_a_slug :
  forall text,
    Props.isSlug (EdgeWeaver.slugify text) = true
    /\ EdgeWeaver.slugify (EdgeWeaver.slugify text) = EdgeWeaver.slugify text
    /\ (Props.isSlug text = true -> EdgeWeaver.slugify text = text)
    /\ EdgeWeaver.slugify (JS.toLowerCase text) = EdgeWeaver.slugify text
    /\ (forall other,
          JS.toLowerCase other = JS.toLowerCase text ->
          EdgeWeaver.slugify other = EdgeWeaver.slugify text).
Proof.
  intros text. split; [apply slugify_isSlug | split; [| split; [| split]]].
  - apply slug_fixed, slugify_isSlug.
  - apply slug_fixed.
  - unfold EdgeWeaver.slugify. rewrite toLowerCase_idem. reflexivity.
  - intros other H. unfold EdgeWeaver.slugify. rewrite H. reflexivity.
Qed.

(** ** The lexicon of [EdgeWeaver] *)

Lemma lexicon_get_set_same :
  forall k v m, EdgeWeaver.get k (EdgeWeaver.set k v m) = Some v.
Proof.
  intros k v m. induction m as [| [k' v'] r IH]; simpl.
  - rewrite String.eqb_refl. reflexivity.
  - destruct (String.eqb k' k) eqn:E; simpl; rewrite ?String.eqb_refl, ?E; auto.
Qed.

Lemma lexicon_get_set_keeps :
  forall k k' v m,
    EdgeWeaver.get k m <> None -> EdgeWeaver.get k (EdgeWeaver.set k' v m) <> None.
Proof.
  intros k k' v m. induction m as [| [k0 v0] r IH]; simpl; [congruence |].
  destruct (String.eqb_spec k0 k') as [E | N]; simpl.
  - subst k0. destruct (String.eqb k' k); [discriminate | auto].
  - destruct (String.eqb k0 k); [discriminate | auto].
Qed.

Lemma lexicon_fold_keeps :
  forall (f : string -> string) v l k m,
    EdgeWeaver.get k m <> None ->
    EdgeWeaver.get k (fold_left (fun m a => EdgeWeaver.set (f a) v m) l m) <> None.
Proof.
  intros f v. induction l as [| a l IH]; intros k m H; simpl; [exact H |].
  apply IH, lexicon_get_set_keeps, H.
Qed.

Lemma lexicon_fold_sets :
  forall (f : string -> string) v l a m,
    In a l ->
    EdgeWeaver.get (f a) (fold_left (fun m a => EdgeWeaver.set (f a) v m) l m) <> None.
Proof.
  intros f v. induction l as [| x l IH]; intros a m Hin; simpl; [contradiction |].
  destruct Hin as [-> | Hin]; [| apply IH, Hin].
  apply lexicon_fold_keeps. rewrite lexicon_get_set_same. discriminate.
Qed.

Lemma indexItem_keeps :
  forall k m item,
    EdgeWeaver.get k m <> None -> EdgeWeaver.get k (EdgeWeaver.indexItem m item) <> None.
Proof.
  intros k m item H. unfold EdgeWeaver.indexItem.
  destruct (JS.truthy (EdgeWeaver.id item)); [| exact H]. cbn [negb].
  apply lexicon_fold_keeps.
  destruct (truthyOrNull (EdgeWeaver.title item));
    repeat apply lexicon_get_set_keeps; exact H.
Qed.

Lemma buildLexicon_keeps :
  forall k l m,
    EdgeWeaver.get k m <> None ->
    EdgeWeaver.get k (fold_left EdgeWeaver.indexItem l m) <> None.
Proof.
  intros k. induction l as [| item l IH]; intros m H; simpl; [exact H |].
  apply IH, indexItem_keeps, H.
Qed.

Lemma indexItem_values :
  forall (P : string -> Prop) m item,
    (JS.truthy (EdgeWeaver.id item) = true -> P (EdgeWeaver.id item)) ->
    Forall (fun kv => P (snd kv)) m ->
    Forall (fun kv => P (snd kv)) (EdgeWeaver.indexItem m item).
Proof.
  intros P m item Hid Hm. unfold EdgeWeaver.indexItem.
  destruct (JS.truthy (EdgeWeaver.id item)); [| exact Hm]. cbn [negb].
  specialize (Hid eq_refl).
  assert (H : forall l m0,
             Forall (fun kv => P (snd kv)) m0 ->
             Forall (fun kv => P (snd kv))
               (fold_left
                  (fun m1 alias =>
                     EdgeWeaver.set (EdgeWeaver.slugify alias) (EdgeWeaver.id item) m1)
                  l m0)).
  { induction l as [| a l IH]; intros m0 H0; simpl; [exact H0 |].
    apply IH, set_values; assumption. }
  apply H.
  destruct (truthyOrNull (EdgeWeaver.title item)); repeat apply set_values; assumption.
Qed.

Lemma buildLexicon_values :
  forall context k v,
    EdgeWeaver.get k (EdgeWeaver.buildLexicon context) = Some v ->
    JS.truthy v = true /\ exists item, In item context /\ EdgeWeaver.id item = v.
Proof.
  intros context k v Hget. unfold EdgeWeaver.buildLexicon in Hget.
  refine (get_values
            (fun v => JS.truthy v = true
                      /\ exists item, In item context /\ EdgeWeaver.id item = v)
            k _ v _ Hget).
  assert (H : forall l m,
             (forall item, In item l -> In item context) ->
             Forall
               (fun kv =>
                  JS.truthy (snd kv) = true
                  /\ exists item, In item context /\ EdgeWeaver.id item = snd kv) m ->
             Forall
               (fun kv =>
                  JS.truthy (snd kv) = true
                  /\ exists item, In item context /\ EdgeWeaver.id item = snd kv)
               (fold_left EdgeWeaver.indexItem l m)).
  { induction l as [| item l IH]; intros m Hl Hm; simpl; [exact Hm |].
    apply IH; [intros i Hi; apply Hl; right; exact Hi |].
    apply (indexItem_values
             (fun v => JS.truthy v = true
                       /\ exists item, In item context /\ EdgeWeaver.id item = v));
      [| exact Hm].
    intros Ht. split; [exact Ht |]. exists item. split; [apply Hl; left |]; reflexivity. }
  apply H; [auto | constructor].
Qed.

(** X19. In the lookup map that the constructor of [EdgeWeaver] builds,
    every value is the non-empty id of an entry of the context; and every
    entry with a non-empty id can be found under its id in lower case,
    under the slug of its title and under the slug of each of its aliases
    (possibly resolved to a later entry that claims the same key). *)
Theorem lexicon_resolves_to_context_ids :
  forall context,
    (forall k v,
        EdgeWeaver.get k (EdgeWeaver.buildLexicon context) = Some v ->
        JS.truthy v = true
        /\ exists item, In item context /\ EdgeWeaver.id item = v)
    /\ (forall item,
          In item context ->
          JS.truthy (EdgeWeaver.id item) = true ->
          EdgeWeaver.get (JS.toLowerCase (EdgeWeaver.id item))
            (EdgeWeaver.buildLexicon context) <> None
          /\ (forall t,
                truthyOrNull (EdgeWeaver.title item) = Some t ->
                EdgeWeaver.get (EdgeWeaver.slugify t) (EdgeWeaver.buildLexicon context)
                <> None)
          /\ (forall alias,
                In alias (EdgeWeaver.aliases item) ->
                EdgeWeaver.get (EdgeWeaver.slugify alias)
                  (EdgeWeaver.buildLexicon context) <> None)).
Proof.
  intros context. split.
  - intros k v Hget. exact (buildLexicon_values context k v Hget).
  - intros item Hin Hid. unfold EdgeWeaver.buildLexicon.
    apply in_split in Hin as (l1 & l2 & ->).
    rewrite fold_left_app. cbn [fold_left].
    set (m := fold_left EdgeWeaver.indexItem l1 []).
    assert (Hitem :
              EdgeWeaver.get (JS.toLowerCase (EdgeWeaver.id item))
                (EdgeWeaver.indexItem m item) <> None
              /\ (forall t,
                    truthyOrNull (EdgeWeaver.title item) = Some t ->
                    EdgeWeaver.get (EdgeWeaver.slugify t) (EdgeWeaver.indexItem m item)
                    <> None)
              /\ (forall alias,
                    In alias (EdgeWeaver.aliases item) ->
                    EdgeWeaver.get (EdgeWeaver.slugify alias)
                      (EdgeWeaver.indexItem m item) <> None)).
    { unfold EdgeWeaver.indexItem. rewrite Hid. cbn [negb]. split; [| split].
      - apply lexicon_fold_keeps.
        destruct (truthyOrNull (EdgeWeaver.title item));
          [apply lexicon_get_set_keeps |]; rewrite lexicon_get_set_same; discriminate.
      - intros t Ht. rewrite Ht. apply lexicon_fold_keeps.
        rewrite lexicon_get_set_same. discriminate.
      - intros alias Ha.
        apply (lexicon_fold_sets EdgeWeaver.slugify (EdgeWeaver.id item)
                 (EdgeWeaver.aliases item) alias _ Ha). }
    destruct Hitem as (H1 & H2 & H3).
    split; [| split]; intros; apply buildLexicon_keeps; auto.
Qed.

(** ** What [EdgeWeaver.weave] adds *)








(** *** The relation of a metadata tag *)
















(** ** Frontmatter *)

Lemma split_nonempty :
  forall sep s, JS.split sep s <> [].
Proof.
  intros sep s. destruct s as [| c s]; simpl; [discriminate |].
  destruct (Ascii.eqb c sep); [discriminate |].
  destruct (JS.split sep s); discriminate.
Qed.

Lemma join_cons :
  forall sep p q rest,
    JS.join sep (p :: q :: rest) = p ++ sep ++ JS.join sep (q :: rest).
Proof.
  reflexivity.
Qed.

(** [parts.join(sep)] undoes [s.split(sep)]. *)
Lemma join_split :
  forall sep s, JS.join (String sep EmptyString) (JS.split sep s) = s.
Proof.
  intros sep. induction s as [| c s IH]; [reflexivity |].
  cbn [JS.split]. destruct (Ascii.eqb_spec c sep) as [-> | N].
  - destruct (JS.split sep s) as [| h t] eqn:E; [exfalso; exact (split_nonempty _ _ E) |].
    rewrite join_cons, IH. reflexivity.
  - destruct (JS.split sep s) as [| h t] eqn:E; [exfalso; exact (split_nonempty _ _ E) |].
    destruct t as [| q t].
    + cbn [JS.join] in *. rewrite IH. reflexivity.
    + rewrite join_cons in *. cbn [append] in *. rewrite IH. reflexivity.
Qed.

Lemma split_without :
  forall sep s, Props.without sep s = true -> JS.split sep s = [s].
Proof.
  intros sep. unfold Props.without. induction s as [| c s IH]; intros H; [reflexivity |].
  cbn [Spec.allChars] in H. apply andb_true_iff in H as [Hc Hs].
  apply negb_true_iff in Hc. cbn [JS.split]. rewrite Hc, (IH Hs). reflexivity.
Qed.

Lemma split_app :
  forall sep a s,
    Props.without sep a = true ->
    JS.split sep (a ++ String sep s) = a :: JS.split sep s.
Proof.
  intros sep. unfold Props.without. induction a as [| c a IH]; intros s H.
  - cbn [append JS.split]. rewrite Ascii.eqb_refl. reflexivity.
  - cbn [Spec.allChars] in H. apply andb_true_iff in H as [Hc Ha].
    apply negb_true_iff in Hc. cbn [append JS.split]. rewrite Hc, (IH s Ha). reflexivity.
Qed.

Lemma split_join_lines :
  forall sep l ls,
    Forall (fun x => Props.without sep x = true) (l :: ls) ->
    JS.split sep (JS.join (String sep EmptyString) (l :: ls)) = l :: ls.
Proof.
  intros sep l ls. revert l. induction ls as [| q ls IH]; intros l H.
  - inversion H; subst. apply split_without. assumption.
  - inversion H as [| x xs Hl Hrest]; subst.
    rewrite join_cons. cbn [append].
    rewrite split_app by exact Hl. rewrite (IH q Hrest). reflexivity.
Qed.

Lemma metaSet_fresh :
  forall k v m, ~ In k (List.map fst m) -> metaSet k v m = (m ++ [(k, v)])%list.
Proof.
  intros k v m. induction m as [| [k' v'] r IH]; intros H; simpl; [reflexivity |].
  destruct (String.eqb_spec k' k) as [E | N].
  - exfalso. apply H. left. exact E.
  - rewrite IH; [reflexivity |]. intros Hin. apply H. right. exact Hin.
Qed.

(** The entry read from one well-formed line. *)
Lemma frontmatter_step :
  forall kv,
    Props.wellFormedLine kv = true ->
    JS.split ":" (Props.frontmatterLine kv) = fst kv :: JS.split ":" (snd kv).
Proof.
  intros [k v] H. unfold Props.wellFormedLine in H. cbn [fst snd] in *.
  rewrite !andb_true_iff in H. destruct H as [[[[_ Hc] _] _] _].
  unfold Props.frontmatterLine. cbn [fst snd].
  change (k ++ ":" ++ v) with (k ++ String ":" v). apply split_app, Hc.
Qed.

Lemma parse_lines :
  forall pairs meta,
    Forall (fun kv => Props.wellFormedLine kv = true) pairs ->
    NoDup (List.map fst meta ++ List.map (fun kv => JS.trim (fst kv)) pairs)%list ->
    fold_left
      (fun meta line =>
         match JS.split ":" line with
         | key :: vals =>
             if JS.truthy key && negb (List.length vals =? 0)%nat
             then Ingestor.assign (JS.trim key) (JS.trim (JS.join ":" vals)) meta
             else meta
         | [] => meta
         end)
      (List.map Props.frontmatterLine pairs) meta
    = (meta ++ List.map Props.frontmatterEntry pairs)%list.
Proof.
  induction pairs as [| kv pairs IH]; intros meta Hwf Hnd.
  - simpl. symmetry. apply app_nil_r.
  - inversion Hwf as [| x xs Hkv Hrest]; subst.
    cbn [List.map fold_left]. rewrite (frontmatter_step kv Hkv).
    assert (Hk : JS.truthy (fst kv) = true).
    { unfold Props.wellFormedLine in Hkv. rewrite !andb_true_iff in Hkv. tauto. }
    rewrite Hk. cbn [andb].
    destruct (JS.split ":" (snd kv)) as [| h t] eqn:Hs;
      [exfalso; exact (split_nonempty _ _ Hs) |].
    cbn [List.length Nat.eqb negb].
    rewrite <- Hs, join_split.
    cbn [List.map] in Hnd.
    assert (Hp : String.eqb (JS.trim (fst kv)) "__proto__" = false).
    { unfold Props.wellFormedLine in Hkv. rewrite !andb_true_iff in Hkv.
      destruct Hkv as [_ Hp]. apply negb_true_iff, Hp. }
    unfold Ingestor.assign. rewrite Hp.
    rewrite metaSet_fresh.
    + rewrite IH; [rewrite <- app_assoc; reflexivity | exact Hrest |].
      rewrite map_app. cbn [List.map fst]. rewrite <- app_assoc. exact Hnd.
    + intros Hin. apply NoDup_remove_2 in Hnd. apply Hnd.
      apply in_or_app. left. exact Hin.
Qed.

Lemma without_line :
  forall k v,
    Props.without (ascii_of_nat 10) k = true ->
    Props.without (ascii_of_nat 10) v = true ->
    Props.without (ascii_of_nat 10) (k ++ ":" ++ v) = true.
Proof.
  unfold Props.without. intros k v Hk Hv.
  induction k as [| c k IH]; cbn [append Spec.allChars] in *.
  - exact Hv.
  - apply andb_true_iff in Hk as [Hc Hk]. rewrite Hc, (IH Hk). reflexivity.
Qed.

Lemma metaGet_entries :
  forall pairs k v,
    NoDup (List.map (fun kv => JS.trim (fst kv)) pairs) ->
    In (k, v) pairs ->
    metaGet (JS.trim k) (List.map Props.frontmatterEntry pairs) = Some (MStr (JS.trim v)).
Proof.
  induction pairs as [| [k0 v0] pairs IH]; intros k v Hnd Hin; [contradiction |].
  cbn [List.map fst] in Hnd. inversion Hnd as [| x l Hfresh Hrest]; subst.
  cbn [List.map Props.frontmatterEntry metaGet]. unfold Props.frontmatterEntry at 1.
  cbn [fst snd metaGet].
  destruct Hin as [E | Hin].
  - inversion E; subst. rewrite String.eqb_refl. reflexivity.
  - destruct (String.eqb_spec (JS.trim k0) (JS.trim k)) as [E | N].
    + exfalso. apply Hfresh. rewrite E.
      apply (in_map (fun kv => JS.trim (fst kv)) pairs (k, v) Hin).
    + apply IH; assumption.
Qed.

Lemma metaGet_absent :
  forall pairs key,
    ~ In key (List.map (fun kv => JS.trim (fst kv)) pairs) ->
    metaGet key (List.map Props.frontmatterEntry pairs) = None.
Proof.
  induction pairs as [| [k0 v0] pairs IH]; intros key Hout; [reflexivity |].
  cbn [List.map fst] in Hout.
  cbn [List.map metaGet]. unfold Props.frontmatterEntry at 1. cbn [fst snd].
  destruct (String.eqb_spec (JS.trim k0) key) as [E | N].
  - exfalso. apply Hout. left. exact E.
  - apply IH. intros Hin. apply Hout. right. exact Hin.
Qed.

(** X21. [parseFrontmatter] reads back a block of [key:value] lines: when
    no key is empty, contains a colon or is [__proto__] once trimmed, and
    the keys are distinct once trimmed, every key, trimmed, is bound to its
    value, trimmed, and no other key is bound; a value keeps the colons it
    contains. A line without a colon binds nothing, and neither does a line
    whose key is [__proto__]. *)
Theorem parseFrontmatter_reads_lines_back :
  (forall pairs,
      Forall (fun kv => Props.wellFormedLine kv = true) pairs ->
      NoDup (List.map (fun kv => JS.trim (fst kv)) pairs) ->
      (forall k v,
          In (k, v) pairs ->
          metaGet (JS.trim k)
            (Ingestor.parseFrontmatter
               (JS.join Ingestor.newline (List.map Props.frontmatterLine pairs)))
          = Some (MStr (JS.trim v)))
      /\ (forall key,
            ~ In key (List.map (fun kv => JS.trim (fst kv)) pairs) ->
            metaGet key
              (Ingestor.parseFrontmatter
                 (JS.join Ingestor.newline (List.map Props.frontmatterLine pairs)))
            = None))
  /\ (forall line,
        Props.without ":" line = true ->
        Props.without (ascii_of_nat 10) line = true ->
        Ingestor.parseFrontmatter line = [])
  /\ (forall key value,
        JS.trim key = "__proto__" ->
        Props.without ":" key = true ->
        Props.without (ascii_of_nat 10) key = true ->
        Props.without (ascii_of_nat 10) value = true ->
        Ingestor.parseFrontmatter (key ++ ":" ++ value) = []).
Proof.
  split; [| split].
  - intros pairs Hwf Hnd.
    assert (E : Ingestor.parseFrontmatter
                  (JS.join Ingestor.newline (List.map Props.frontmatterLine pairs))
                = List.map Props.frontmatterEntry pairs).
    { unfold Ingestor.parseFrontmatter.
      destruct pairs as [| kv pairs]; [reflexivity |].
      cbn [List.map]. unfold Ingestor.newline.
      rewrite split_join_lines.
      + exact (parse_lines (kv :: pairs) [] Hwf Hnd).
      + change (Props.frontmatterLine kv :: List.map Props.frontmatterLine pairs)
          with (List.map Props.frontmatterLine (kv :: pairs)).
        apply Forall_forall. intros line Hin.
        apply in_map_iff in Hin as ([k v] & <- & Hin).
        rewrite Forall_forall in Hwf. specialize (Hwf _ Hin).
        unfold Props.wellFormedLine in Hwf. cbn [fst snd] in Hwf.
        rewrite !andb_true_iff in Hwf. destruct Hwf as [[[[_ _] Hk] Hv] _].
        unfold Props.frontmatterLine. cbn [fst snd].
        apply without_line; assumption. }
    rewrite E. split.
    + intros k v Hin. apply metaGet_entries; assumption.
    + intros key Hout. apply metaGet_absent, Hout.
  - intros line Hc Hn. unfold Ingestor.parseFrontmatter.
    rewrite (split_without _ _ Hn). cbn [fold_left].
    rewrite (split_without _ _ Hc). cbn [List.length Nat.eqb negb].
    rewrite andb_false_r. reflexivity.
  - intros key value Hp Hc Hk Hv. unfold Ingestor.parseFrontmatter.
    rewrite (split_without _ _ (without_line key value Hk Hv)). cbn [fold_left].
    change (key ++ ":" ++ value) with (key ++ String ":" value).
    rewrite (split_app _ _ _ Hc).
    destruct (JS.split ":" value) as [| h t] eqn:Hs;
      [exfalso; exact (split_nonempty _ _ Hs) |].
    unfold Ingestor.assign. rewrite Hp. cbn [String.eqb].
    destruct (JS.truthy key && negb (List.length (h :: t) =? 0)%nat); reflexivity.
Qed.

Lemma startsWith_app_cases :
  forall L v w,
    JS.startsWith L (v ++ w) = true ->
    JS.startsWith L v = true
    \/ exists n,
        (n < String.length L)%nat /\ v = JS.take n L
        /\ JS.startsWith (JS.drop n L) w = true.
Proof.
  induction L as [| a L IH]; intros v w H; [left; destruct v; reflexivity |].
  destruct v as [| b v].
  - right. exists 0. cbn [JS.take JS.drop String.length]. split; [lia | auto].
  - cbn [append JS.startsWith] in H. apply andb_true_iff in H as [Hab H].
    apply Ascii.eqb_eq in Hab. subst b.
    destruct (IH v w H) as [Hs | (n & Hn & Hv & Hd)].
    + left. cbn [JS.startsWith]. rewrite Ascii.eqb_refl. exact Hs.
    + right. exists (S n). cbn [JS.take JS.drop String.length].
      split; [lia | split; [rewrite Hv; reflexivity | exact Hd]].
Qed.

Lemma includes_false_suffix :
  forall L u v, JS.includes L (u ++ v) = false -> JS.startsWith L v = false.
Proof.
  intros L u v H.
  destruct (JS.startsWith L v) eqn:Hs; [| reflexivity].
  assert (Hi : JS.includes L v = true).
  { unfold JS.includes. destruct v; simpl; simpl in Hs; rewrite Hs; reflexivity. }
  rewrite (includes_suffix L u v Hi) in H. discriminate H.
Qed.

(** The lazy class passes over a text on which the continuation fails. *)
Lemma lazyChars_skip :
  forall p k x y prev caps,
    Spec.allChars p x = true ->
    (forall u v p1, x = u ++ v -> v <> EmptyString -> k p1 (v ++ y) caps = None) ->
    Props.lazyChars p k prev (x ++ y) caps = Props.lazyChars p k (RegExp.lastOf prev x) y caps.
Proof.
  intros p k. induction x as [| c x IH]; intros y prev caps Hp Hk; [reflexivity |].
  cbn [Spec.allChars] in Hp. apply andb_true_iff in Hp as [Hc Hx].
  assert (H0 : k prev (String c (x ++ y)) caps = None)
    by (apply (Hk EmptyString (String c x) prev eq_refl); discriminate).
  cbn [append Props.lazyChars RegExp.lastOf].
  rewrite H0, Hc. apply IH; [exact Hx |].
  intros u v p1 -> Hv. apply (Hk (String c u) v p1 eq_refl Hv).
Qed.

Lemma lazyChars_now :
  forall p k prev s caps res,
    k prev s caps = Some res -> Props.lazyChars p k prev s caps = Some res.
Proof.
  intros p k prev s caps res H. destruct s; cbn [Props.lazyChars]; rewrite H; reflexivity.
Qed.

Lemma allChars_any :
  forall s, Spec.allChars RegExp.any s = true.
Proof.
  induction s as [| c s IH]; [reflexivity | exact IH].
Qed.

Lemma run_Bol :
  forall prev s caps k,
    RegExp.run RegExp.Bol prev s caps k
    = match prev with None => k prev s caps | Some _ => None end.
Proof.
  reflexivity.
Qed.

Lemma hits_Bol_later :
  forall r s x,
    flat_map (fun p => match p with RegExp.Hit m => [m] | RegExp.Out _ => [] end)
      (RegExp.scan (RegExp.Seq RegExp.Bol r) (Some x) s 0) = [].
Proof.
  intros r. induction s as [| c s IH]; intros x; [reflexivity |].
  cbn [RegExp.scan]. unfold RegExp.matchAt at 1. rewrite run_Seq, run_Bol.
  cbn [flat_map app]. apply IH.
Qed.

(** X22. [processFile] finds a frontmatter block only at the very start
    of the file: a text that does not begin with [---] and a line feed has
    no frontmatter. When the file begins with such a fence, the block runs
    to the first line feed followed by [---], and what
    [parseFrontmatter] receives is exactly the text in between. *)
Theorem frontmatter_is_the_leading_fenced_block :
  (forall content,
      JS.startsWith ("---" ++ Ingestor.newline) content = false ->
      Ingestor.frontmatterOf content = [])
  /\ (forall body rest,
        JS.includes (Ingestor.newline ++ "---") body = false ->
        Ingestor.frontmatterOf
          (("---" ++ Ingestor.newline) ++ body ++ (Ingestor.newline ++ "---") ++ rest)
        = Ingestor.parseFrontmatter body).
Proof.
  split.
  - intros content H. unfold Ingestor.frontmatterOf, RegExp.firstMatch, RegExp.matchAll,
      RegExp.pieces.
    destruct content as [| c s].
    + reflexivity.
    + cbn [RegExp.scan].
      assert (Hm : RegExp.matchAt Ingestor.reFrontmatter None (String c s) = None).
      { unfold RegExp.matchAt, Ingestor.reFrontmatter.
        rewrite run_Seq, run_Bol, run_Seq, run_lit, H. reflexivity. }
      rewrite Hm. cbn [flat_map app].
      unfold Ingestor.reFrontmatter. rewrite hits_Bol_later. reflexivity.
  - intros body rest Hbody.
    set (content := ("---" ++ Ingestor.newline) ++ body ++ (Ingestor.newline ++ "---") ++ rest).
    assert (Hm : exists m,
               RegExp.matchAt Ingestor.reFrontmatter None content = Some m
               /\ RegExp.group 1 m = body).
    { unfold RegExp.matchAt, Ingestor.reFrontmatter.
      rewrite run_Seq, run_Bol, run_Seq, run_lit. unfold content at 1. rewrite startsWith_app.
      unfold content at 1. rewrite drop_app_length.
      rewrite run_Seq, run_Group, run_lazy_chars.
      rewrite lazyChars_skip.
      - rewrite (lazyChars_now _ _ _ _ _
                   (RegExp.lastOf
                      (RegExp.lastOf (RegExp.lastOf None ("---" ++ Ingestor.newline)) body)
                      (Ingestor.newline ++ "---"),
                    rest,
                    [(1, body)])).
        + eexists. split; [reflexivity |]. reflexivity.
        + rewrite run_lit, startsWith_app, drop_app_length, take_app_length. reflexivity.
      - apply allChars_any.
      - intros u v p1 Hu Hv. rewrite run_lit.
        destruct (JS.startsWith (Ingestor.newline ++ "---")
                    (v ++ (Ingestor.newline ++ "---") ++ rest)) eqn:Hs; [| reflexivity].
        exfalso.
        apply startsWith_app_cases in Hs as [Hs | (n & Hn & Hvn & Hd)].
        + rewrite Hu in Hbody. rewrite (includes_false_suffix _ _ _ Hbody) in Hs.
          discriminate Hs.
        + cbn [String.length Ingestor.newline append] in Hn.
          destruct n as [| [| [| [| n]]]]; try lia;
            [apply Hv; exact Hvn | discriminate Hd | discriminate Hd | discriminate Hd]. }
    destruct Hm as (m & Hm & Hg).
    unfold Ingestor.frontmatterOf, RegExp.firstMatch, RegExp.matchAll, RegExp.pieces.
    assert (Hc : exists c s, content = String c s) by (eexists; eexists; reflexivity).
    destruct Hc as (c & s & Hc). rewrite Hc in *.
    cbn [RegExp.scan]. rewrite Hm. cbn [flat_map app]. rewrite Hg.
    destruct body; reflexivity.
Qed.

Lemma run_Alt :
  forall a b prev s caps k,
    RegExp.run (RegExp.Alt a b) prev s caps k
    = match RegExp.run a prev s caps k with
      | Some res => Some res
      | None => RegExp.run b prev s caps k
      end.
Proof.
  reflexivity.
Qed.

Lemma run_Look :
  forall a prev s caps k,
    RegExp.run (RegExp.Look a) prev s caps k
    = match RegExp.run a prev s caps Props.done with
      | Some (_, _, c1) => k prev s c1
      | None => None
      end.
Proof.
  reflexivity.
Qed.

Lemma append_empty :
  forall s : string, s ++ EmptyString = s.
Proof.
  induction s as [| c s IH]; simpl; [| rewrite IH]; reflexivity.
Qed.

Lemma append_eq_append :
  forall a b u v : string,
    a ++ b = u ++ v ->
    (exists w, v = w ++ b /\ a = u ++ w) \/ (exists w, b = w ++ v).
Proof.
  induction a as [| c a IH]; intros b u v H.
  - right. exists u. exact H.
  - destruct u as [| d u].
    + left. exists (String c a). split; [symmetry; exact H | reflexivity].
    + cbn [append] in H. injection H as Hc H.
      destruct (IH b u v H) as [(w & Hv & Ha) | (w & Hb)].
      * left. exists w. split; [exact Hv | cbn [append]; congruence].
      * right. exists w. exact Hb.
Qed.

(** The greedy class takes a whole word when what follows it is not of the
    class and the continuation accepts. *)
Lemma greedyChars_all :
  forall p k a s prev caps res,
    Spec.allChars p a = true ->
    match s with String c _ => p c = false | EmptyString => True end ->
    k (RegExp.lastOf prev a) s caps = Some res ->
    Props.greedyChars p k prev (a ++ s) caps = Some res.
Proof.
  intros p k. induction a as [| c a IH]; intros s prev caps res Ha Hs Hk.
  - cbn [append RegExp.lastOf] in *.
    destruct s as [| d s]; cbn [Props.greedyChars]; [exact Hk | rewrite Hs; exact Hk].
  - cbn [Spec.allChars] in Ha. apply andb_true_iff in Ha as [Hc Ha].
    cbn [append Props.greedyChars]. rewrite Hc.
    rewrite (IH s (Some c) caps res Ha Hs Hk). reflexivity.
Qed.

Lemma run_plus_chars :
  forall p k a s prev caps res,
    JS.truthy a = true ->
    Spec.allChars p a = true ->
    match s with String c _ => p c = false | EmptyString => True end ->
    k (RegExp.lastOf prev a) s caps = Some res ->
    RegExp.run (RegExp.Plus true (RegExp.Chr p)) prev (a ++ s) caps k = Some res.
Proof.
  intros p k a s prev caps res Ht Ha Hs Hk.
  destruct a as [| c a]; [discriminate Ht |].
  cbn [Spec.allChars] in Ha. apply andb_true_iff in Ha as [Hc Ha].
  unfold RegExp.Plus. rewrite run_Seq. cbn [append]. rewrite run_Chr, Hc, run_greedy_chars.
  apply greedyChars_all; assumption.
Qed.

Lemma lookahead_at :
  forall y prev caps k,
    y = EmptyString \/ JS.startsWith "<!-- locus:" y = true ->
    RegExp.run (RegExp.Look (RegExp.Alt (RegExp.lit "<!-- locus:") RegExp.Eol)) prev y caps k
    = k prev y caps.
Proof.
  intros y prev caps k H. rewrite run_Look, run_Alt, run_lit.
  destruct H as [-> | H]; [reflexivity | rewrite H; reflexivity].
Qed.

Lemma lookahead_fails :
  forall s prev caps k,
    s <> EmptyString ->
    JS.startsWith "<!-- locus:" s = false ->
    RegExp.run (RegExp.Look (RegExp.Alt (RegExp.lit "<!-- locus:") RegExp.Eol)) prev s caps k
    = None.
Proof.
  intros s prev caps k Hs H. rewrite run_Look, run_Alt, run_lit, H.
  destruct s; [contradiction | reflexivity].
Qed.

(** The match of the box pattern at the start of a box: the id, then the
    text up to the next locus marker or to the end. *)
Lemma boxRegex_run :
  forall id x y prev,
    JS.truthy id = true ->
    Spec.allChars Props.locusChar id = true ->
    (y = EmptyString \/ JS.startsWith "<!-- locus:" y = true) ->
    (forall u v, x = u ++ v -> v <> EmptyString ->
                 JS.startsWith "<!-- locus:" (v ++ y) = false) ->
    exists prev',
      RegExp.run Ingestor.boxRegex prev
        ("<!-- locus:" ++ id ++ (" -->" ++ Ingestor.newline) ++ x ++ y) [] Props.done
      = Some (prev', y, [(2, x); (1, id)]).
Proof.
  intros id x y prev Ht Hid Hy Hx. eexists.
  unfold Ingestor.boxRegex.
  rewrite run_Seq, run_lit, startsWith_app, drop_app_length, run_Seq, run_Group.
  apply run_plus_chars; [exact Ht | exact Hid | reflexivity |].
  rewrite take_app_length.
  rewrite run_Seq, run_lit, startsWith_app, drop_app_length, run_Seq, run_Group,
    run_lazy_chars.
  rewrite lazyChars_skip.
  - apply lazyChars_now. rewrite take_app_length, lookahead_at by exact Hy. reflexivity.
  - apply allChars_any.
  - intros u v p1 Hu Hv. apply lookahead_fails.
    + destruct v; [contradiction | discriminate].
    + apply (Hx u v Hu Hv).
Qed.

Lemma boxRegex_match :
  forall id x y prev,
    JS.truthy id = true ->
    Spec.allChars Props.locusChar id = true ->
    (y = EmptyString \/ JS.startsWith "<!-- locus:" y = true) ->
    (forall u v, x = u ++ v -> v <> EmptyString ->
                 JS.startsWith "<!-- locus:" (v ++ y) = false) ->
    RegExp.matchAt Ingestor.boxRegex prev (Props.boxText id x ++ y)
    = Some {| RegExp.text := Props.boxText id x; RegExp.caps := [(2, x); (1, id)] |}.
Proof.
  intros id x y prev Ht Hid Hy Hx.
  destruct (boxRegex_run id x y prev Ht Hid Hy Hx) as [prev' Hrun].
  assert (E : Props.boxText id x ++ y
              = "<!-- locus:" ++ id ++ (" -->" ++ Ingestor.newline) ++ x ++ y).
  { unfold Props.boxText. rewrite !append_assoc. reflexivity. }
  unfold RegExp.matchAt. rewrite E.
  change (fun p1 s1 c1 => Some (p1, s1, c1)) with Props.done.
  rewrite Hrun, <- E, take_app_length. reflexivity.
Qed.

Lemma scan_box :
  forall id x y prev,
    JS.truthy id = true ->
    Spec.allChars Props.locusChar id = true ->
    (y = EmptyString \/ JS.startsWith "<!-- locus:" y = true) ->
    (forall u v, x = u ++ v -> v <> EmptyString ->
                 JS.startsWith "<!-- locus:" (v ++ y) = false) ->
    exists prev',
      RegExp.scan Ingestor.boxRegex prev (Props.boxText id x ++ y) 0
      = RegExp.Hit {| RegExp.text := Props.boxText id x; RegExp.caps := [(2, x); (1, id)] |}
          :: RegExp.scan Ingestor.boxRegex prev' y 0.
Proof.
  intros id x y prev Ht Hid Hy Hx. eexists.
  apply (scan_hit Ingestor.boxRegex prev "<"
           ("!-- locus:" ++ id ++ (" -->" ++ Ingestor.newline) ++ x) y).
  - exact (boxRegex_match id x y prev Ht Hid Hy Hx).
  - reflexivity.
Qed.

Lemma assembleBox_untagged :
  forall box,
    match BentoBoxer.tags box with Some (_ :: _) => false | _ => true end = true ->
    BentoCli.assembleBox box
    = Props.boxText (BentoBoxer.locusId box) (BentoBoxer.content box).
Proof.
  intros [id content tc leaf tags] H. unfold BentoCli.assembleBox, Props.boxText.
  cbn [BentoBoxer.tags BentoBoxer.locusId BentoBoxer.content] in *.
  destruct tags as [[| t ts] |]; try discriminate H;
    unfold BentoCli.newline; rewrite !append_assoc; reflexivity.
Qed.

Lemma readable_parts :
  forall box,
    Props.readable box = true ->
    JS.truthy (BentoBoxer.locusId box) = true
    /\ Spec.allChars Props.locusChar (BentoBoxer.locusId box) = true
    /\ JS.truthy (BentoBoxer.content box) = true
    /\ JS.includes "<!-- locus:" (BentoBoxer.content box) = false
    /\ BentoCli.assembleBox box
       = Props.boxText (BentoBoxer.locusId box) (BentoBoxer.content box).
Proof.
  intros box H. unfold Props.readable in H.
  rewrite !andb_true_iff in H. destruct H as [[[[H1 H2] H3] H4] H5].
  apply negb_true_iff in H4.
  repeat split; try assumption. apply assembleBox_untagged, H5.
Qed.

Lemma outputText_starts :
  forall box boxes,
    Props.readable box = true ->
    JS.startsWith "<!-- locus:" (BentoCli.outputText (box :: boxes)) = true.
Proof.
  intros box boxes H. destruct (readable_parts box H) as (_ & _ & _ & _ & E).
  unfold BentoCli.outputText. cbn [List.map].
  destruct boxes as [| b bs]; cbn [List.map].
  - cbn [JS.join]. rewrite E. unfold Props.boxText. apply startsWith_app.
  - rewrite join_cons, E. unfold Props.boxText. rewrite append_assoc. apply startsWith_app.
Qed.

Lemma marker_not_after_content :
  forall content v y,
    JS.includes "<!-- locus:" content = false ->
    (exists u, content = u ++ v) ->
    JS.startsWith "<!-- locus:" (v ++ (Ingestor.newline ++ Ingestor.newline) ++ y) = false.
Proof.
  intros content v y Hc [u Hu].
  destruct (JS.startsWith "<!-- locus:" (v ++ (Ingestor.newline ++ Ingestor.newline) ++ y))
    eqn:Hs; [| reflexivity].
  exfalso. apply startsWith_app_cases in Hs as [Hs | (n & Hn & Hv & Hd)].
  - rewrite Hu in Hc. rewrite (includes_false_suffix _ _ _ Hc) in Hs. discriminate Hs.
  - cbn [String.length] in Hn.
    do 11 (destruct n as [| n]; [discriminate Hd |]). lia.
Qed.

(** The boxes read from the text of a list of readable boxes. *)
Lemma boxes_of_scan :
  forall boxes prev,
    Forall (fun box => Props.readable box = true) boxes ->
    flat_map
      (fun m =>
         if negb (JS.truthy (RegExp.group 1 m)) || negb (JS.truthy (RegExp.group 2 m))
         then []
         else [(RegExp.group 1 m, JS.trim (RegExp.group 2 m))])
      (flat_map (fun p => match p with RegExp.Hit m => [m] | RegExp.Out _ => [] end)
         (RegExp.scan Ingestor.boxRegex prev (BentoCli.outputText boxes) 0))
    = List.map (fun box => (BentoBoxer.locusId box, JS.trim (BentoBoxer.content box))) boxes.
Proof.
  induction boxes as [| box boxes IH]; intros prev H; [reflexivity |].
  inversion H as [| b bs Hbox Hrest]; subst.
  destruct (readable_parts box Hbox) as (Hid & Hchars & Hcontent & Hmarker & E).
  destruct boxes as [| next boxes].
  - unfold BentoCli.outputText. cbn [List.map JS.join]. rewrite E.
    rewrite <- (append_empty (Props.boxText _ _)).
    destruct (scan_box (BentoBoxer.locusId box) (BentoBoxer.content box) EmptyString prev
                Hid Hchars (or_introl eq_refl)) as [prev' Hscan].
    { intros u v Hu Hv. rewrite append_empty.
      rewrite Hu in Hmarker. apply (includes_false_suffix _ _ _ Hmarker). }
    rewrite Hscan. cbn [flat_map app RegExp.scan].
    unfold RegExp.group at 1 2 3 4. cbn [RegExp.caps RegExp.cap Nat.eqb].
    rewrite Hid, Hcontent. reflexivity.
  - assert (Hy : JS.startsWith "<!-- locus:" (BentoCli.outputText (next :: boxes)) = true).
    { inversion Hrest; subst. apply outputText_starts. assumption. }
    assert (Eo : BentoCli.outputText (box :: next :: boxes)
                 = Props.boxText (BentoBoxer.locusId box)
                     (BentoBoxer.content box ++ Ingestor.newline ++ Ingestor.newline)
                   ++ BentoCli.outputText (next :: boxes)).
    { unfold BentoCli.outputText at 1. cbn [List.map]. rewrite join_cons, E.
      unfold Props.boxText, BentoCli.outputText, BentoCli.newline. cbn [List.map].
      rewrite !append_assoc. reflexivity. }
    rewrite Eo.
    destruct (scan_box (BentoBoxer.locusId box)
                (BentoBoxer.content box ++ Ingestor.newline ++ Ingestor.newline)
                (BentoCli.outputText (next :: boxes)) prev
                Hid Hchars (or_intror Hy)) as [prev' Hscan].
    { intros u v Hu Hv.
      apply append_eq_append in Hu as [(w & Hvw & Hcw) | (w & Hw)].
      - rewrite Hvw, append_assoc.
        apply (marker_not_after_content (BentoBoxer.content box)); [exact Hmarker |].
        exists u. exact Hcw.
      - destruct v as [| c v]; [contradiction |].
        assert (Hc : c = ascii_of_nat 10).
        { destruct w as [| c1 [| c2 w]]; cbn [append Ingestor.newline] in Hw.
          - injection Hw as Hc _. symmetry. exact Hc.
          - injection Hw as _ Hc _. symmetry. exact Hc.
          - injection Hw as _ _ Hw. destruct w; discriminate Hw. }
        subst c. reflexivity. }
    rewrite Hscan. cbn [flat_map app List.map].
    rewrite (IH prev' Hrest).
    unfold RegExp.group at 1 2 3 4. cbn [RegExp.caps RegExp.cap Nat.eqb].
    rewrite Hid. rewrite trim_app_blank by reflexivity.
    destruct (BentoBoxer.content box); [discriminate Hcontent | reflexivity].
Qed.

(** X23. The Ingestor reads back what the [box] command writes: for
    boxes written without tags, whose ids are non-empty words of
    [[a-zA-Z0-9-]] and whose contents are not empty and hold no locus
    marker, the boxes found in the output text are the boxes written, in
    order, each with its id and its content trimmed. *)
Theorem ingestor_reads_back_written_boxes :
  forall boxes,
    Forall (fun box => Props.readable box = true) boxes ->
    Ingestor.boxesOf (BentoCli.outputText boxes)
    = List.map (fun box => (BentoBoxer.locusId box, JS.trim (BentoBoxer.content box))) boxes.
Proof.
  intros boxes H. unfold Ingestor.boxesOf, RegExp.matchAll, RegExp.pieces.
  apply boxes_of_scan, H.
Qed.

(** ** Stable locus ids *)

Lemma keeps_refl :
  forall l, Props.keeps l l.
Proof.
  intros l h id H. exact H.
Qed.

Lemma keeps_trans :
  forall l1 l2 l3, Props.keeps l1 l2 -> Props.keeps l2 l3 -> Props.keeps l1 l3.
Proof.
  intros l1 l2 l3 H12 H23 h id H. apply H23, H12, H.
Qed.

Lemma stable_ext :
  forall f g, (forall l, f l = g l) -> Props.stable f -> Props.stable g.
Proof.
  intros f g E H l. rewrite <- E. destruct (H l) as (K & R & S).
  split; [exact K | split; [exact R |]].
  intros l1 Hk. rewrite <- E. apply S, Hk.
Qed.

Lemma stable_nothing :
  Props.stable (fun l => ([], l)).
Proof.
  intros l. cbn [fst snd]. split; [apply keeps_refl | split; [constructor |]].
  reflexivity.
Qed.

Lemma stable_createBox :
  forall b content tokenCount,
    Props.stable
      (fun l => let '(box, l') := BentoBoxer.createBox b l content tokenCount in ([box], l')).
Proof.
  intros b content tokenCount l. unfold BentoBoxer.createBox.
  destruct (LocusLedger.getOrMintId (BentoBoxer.randomUUID b) l
              (LocusLedger.hashContent content)) as [id l'] eqn:H.
  cbn [fst snd].
  destruct (getOrMintId_lookup _ _ _ _ _ H) as [Hsame Hkept].
  split; [exact Hkept | split].
  - constructor; [exact Hsame | constructor].
  - intros l1 Hk. rewrite (getOrMintId_known _ l1 _ id (Hk _ _ Hsame)). reflexivity.
Qed.

Lemma stable_seq :
  forall f g,
    Props.stable f -> Props.stable g ->
    Props.stable
      (fun l => let '(a, l1) := f l in let '(c, l2) := g l1 in ((a ++ c)%list, l2)).
Proof.
  intros f g Hf Hg l. cbv beta.
  destruct (Hf l) as (K1 & R1 & S1). destruct (f l) as [a l1] eqn:Ef.
  cbn [fst snd] in *.
  destruct (Hg l1) as (K2 & R2 & S2). destruct (g l1) as [c l2] eqn:Eg.
  cbn [fst snd] in *.
  split; [apply (keeps_trans _ _ _ K1 K2) | split].
  - apply Forall_app. split; [| exact R2].
    apply (Forall_impl _ (fun box Hbox => K2 _ _ Hbox) R1).
  - intros l3 Hk. rewrite (S1 l3 (keeps_trans _ _ _ K2 Hk)), (S2 l3 Hk). reflexivity.
Qed.

Lemma stable_packageContentFrom :
  forall b fuel nodes, Props.stable (BentoBoxer.packageContentFrom fuel b nodes).
Proof.
  intros b. induction fuel as [| fuel IH]; intros nodes.
  - apply (stable_ext
             (fun l =>
                let '(box, l') :=
                  BentoBoxer.createBox b l
                    (JS.trim (BentoBoxer.stringify (BentoBoxer.processor b) nodes))
                    (BentoBoxer.countTokens
                       (JS.trim (BentoBoxer.stringify (BentoBoxer.processor b) nodes))) in
                ([box], l'))); [| apply stable_createBox].
    intros l. cbn [BentoBoxer.packageContentFrom].
    destruct (_ <=? _)%nat; reflexivity.
  - destruct (BentoBoxer.countTokens
                (JS.trim (BentoBoxer.stringify (BentoBoxer.processor b) nodes))
              <=? BentoBoxer.MAX_SIZE b)%nat eqn:Hfit.
    + apply (stable_ext
               (fun l =>
                  let '(box, l') :=
                    BentoBoxer.createBox b l
                      (JS.trim (BentoBoxer.stringify (BentoBoxer.processor b) nodes))
                      (BentoBoxer.countTokens
                         (JS.trim (BentoBoxer.stringify (BentoBoxer.processor b) nodes))) in
                  ([box], l'))); [| apply stable_createBox].
      intros l. cbn [BentoBoxer.packageContentFrom]. rewrite Hfit. reflexivity.
    + destruct (BentoBoxer.findIndex BentoBoxer.isThematicBreak nodes) as [hrIndex |] eqn:Hhr.
      * apply (stable_ext
                 (fun l =>
                    let '(a, l1) :=
                      BentoBoxer.packageContentFrom fuel b (firstn hrIndex nodes) l in
                    let '(c, l2) :=
                      BentoBoxer.packageContentFrom fuel b (skipn (hrIndex + 1) nodes) l1 in
                    ((a ++ c)%list, l2))); [| apply stable_seq; apply IH].
        intros l. cbn [BentoBoxer.packageContentFrom]. rewrite Hfit, Hhr. reflexivity.
      * destruct (1 <? List.length nodes)%nat eqn:Hlen.
        -- apply (stable_ext
                    (fun l =>
                       let '(a, l1) :=
                         BentoBoxer.packageContentFrom fuel b
                           (firstn (Nat.div (List.length nodes) 2) nodes) l in
                       let '(c, l2) :=
                         BentoBoxer.packageContentFrom fuel b
                           (skipn (Nat.div (List.length nodes) 2) nodes) l1 in
                       ((a ++ c)%list, l2))); [| apply stable_seq; apply IH].
           intros l. cbn [BentoBoxer.packageContentFrom]. rewrite Hfit, Hhr, Hlen.
           reflexivity.
        -- apply (stable_ext
                    (fun l =>
                       let '(box, l') :=
                         BentoBoxer.createBox b l
                           (JS.trim (BentoBoxer.stringify (BentoBoxer.processor b) nodes))
                           (BentoBoxer.countTokens
                              (JS.trim (BentoBoxer.stringify (BentoBoxer.processor b) nodes))) in
                       ([box], l'))); [| apply stable_createBox].
           intros l. cbn [BentoBoxer.packageContentFrom]. rewrite Hfit, Hhr, Hlen.
           reflexivity.
Qed.

(** The boxes already collected are passed through. *)
Lemma processNodes_acc :
  forall b children currentNodes boxes l,
    BentoBoxer.processNodes b children currentNodes boxes l
    = let '(new, l') := BentoBoxer.processNodes b children currentNodes [] l in
      ((boxes ++ new)%list, l').
Proof.
  intros b. induction children as [| node rest IH]; intros currentNodes boxes l.
  - cbn [BentoBoxer.processNodes]. destruct currentNodes as [| n ns].
    + rewrite app_nil_r. reflexivity.
    + destruct (BentoBoxer.packageContent b (n :: ns) l) as [bs l']. reflexivity.
  - cbn [BentoBoxer.processNodes]. destruct (BentoBoxer.opensGroup node).
    + destruct currentNodes as [| n ns]; [apply IH |].
      destruct (BentoBoxer.packageContent b (n :: ns) l) as [bs l'].
      rewrite (IH [node] (boxes ++ bs)%list l'), (IH [node] ([] ++ bs)%list l').
      destruct (BentoBoxer.processNodes b rest [node] [] l') as [new l''].
      cbn [app]. rewrite app_assoc. reflexivity.
    + apply IH.
Qed.

Lemma stable_processNodes :
  forall b children currentNodes,
    Props.stable (BentoBoxer.processNodes b children currentNodes []).
Proof.
  intros b. induction children as [| node rest IH]; intros currentNodes.
  - destruct currentNodes as [| n ns]; [apply stable_nothing |].
    apply (stable_ext (BentoBoxer.packageContentFrom (List.length (n :: ns)) b (n :: ns)));
      [| apply stable_packageContentFrom].
    intros l. cbn [BentoBoxer.processNodes]. unfold BentoBoxer.packageContent.
    destruct (BentoBoxer.packageContentFrom _ b (n :: ns) l) as [bs l']. reflexivity.
  - destruct (BentoBoxer.opensGroup node) eqn:Hopen.
    + destruct currentNodes as [| n ns].
      * apply (stable_ext (BentoBoxer.processNodes b rest [node] [])); [| apply IH].
        intros l. cbn [BentoBoxer.processNodes]. rewrite Hopen. reflexivity.
      * apply (stable_ext
                 (fun l =>
                    let '(a, l1) :=
                      BentoBoxer.packageContentFrom (List.length (n :: ns)) b (n :: ns) l in
                    let '(c, l2) := BentoBoxer.processNodes b rest [node] [] l1 in
                    ((a ++ c)%list, l2)));
          [| apply stable_seq; [apply stable_packageContentFrom | apply IH]].
        intros l. cbn [BentoBoxer.processNodes]. rewrite Hopen.
        unfold BentoBoxer.packageContent.
        destruct (BentoBoxer.packageContentFrom _ b (n :: ns) l) as [bs l'].
        rewrite (processNodes_acc b rest [node] ([] ++ bs)%list l').
        destruct (BentoBoxer.processNodes b rest [node] [] l') as [new l''].
        reflexivity.
    + apply (stable_ext (BentoBoxer.processNodes b rest (currentNodes ++ [node])%list []));
        [| apply IH].
      intros l. cbn [BentoBoxer.processNodes]. rewrite Hopen. reflexivity.
Qed.

Lemma stable_process :
  forall b text, Props.stable (BentoBoxer.process b text).
Proof.
  intros b text. unfold BentoBoxer.process.
  destruct (negb (JS.truthy (JS.trim text))); [apply stable_nothing |].
  apply stable_processNodes.
Qed.

(** X24. Locus ids are stable. [process] only adds to the ledger; every
    box it returns carries the id that the resulting ledger holds for the
    hash of its content; and boxing the same text again, with the ledger
    left by the first run or any ledger that still resolves what it
    resolved, returns the same boxes with the same ids and mints nothing. *)
Theorem process_gives_stable_locus_ids :
  forall b text ledger,
    let first := BentoBoxer.process b text ledger in
    (forall h id,
        LocusLedger.lookup h (LocusLedger.bento_map ledger) = Some id ->
        LocusLedger.lookup h (LocusLedger.bento_map (snd first)) = Some id)
    /\ Forall
         (fun box =>
            LocusLedger.lookup (LocusLedger.hashContent (BentoBoxer.content box))
              (LocusLedger.bento_map (snd first)) = Some (BentoBoxer.locusId box))
         (fst first)
    /\ BentoBoxer.process b text (snd first) = first
    /\ (forall later,
          Props.keeps (snd first) later ->
          BentoBoxer.process b text later = (fst first, later)).
Proof.
  intros b text ledger first. subst first.
  destruct (stable_process b text ledger) as (K & R & S).
  split; [exact K | split; [exact R | split; [| exact S]]].
  rewrite (S _ (keeps_refl _)). destruct (BentoBoxer.process b text ledger); reflexivity.
Qed.

(** ** [findSimilar] *)

Lemma findSimilar_rows :
  forall (p : Row.t -> bool) (q : list F32.single) (rows : list Row.t),
    (forall r, p r = true -> Row.embedding r <> None) ->
    List.length
      (flat_map
         (fun r =>
            match Row.embedding r with
            | Some vec =>
                [ {| ResonanceDB.sim_id := Row.id r;
                     ResonanceDB.sim_label := orElse (Row.title r) (Row.id r);
                     ResonanceDB.sim_score := Fafcas.dotProduct q vec |} ]
            | None => []
            end)
         (filter p rows))
    = List.length (filter p rows).
Proof.
  intros p q rows Hp. induction rows as [| r rows IH]; [reflexivity |].
  cbn [filter]. destruct (p r) eqn:Hr; [| exact IH].
  cbn [flat_map]. rewrite length_app, IH.
  destruct (Row.embedding r) eqn:He; [reflexivity | exfalso; exact (Hp r Hr He)].
Qed.

(** X25. Every result of [findSimilar] is a row that has an embedding,
    with its id, its title (or its id when the title is empty or NULL) and
    the dot product of the query with that embedding, and it is of the
    given domain when one is given. An empty domain is no filter. At most
    [limit] results are returned when [limit] is not negative, and no
    result is left out on account of its score: with no domain and a limit
    that is large enough, there is one result per row with an embedding. *)
Theorem findSimilar_scores_embedded_rows :
  forall db queryVec limit domain,
    Forall
      (fun r =>
         exists row vec,
           In row (nodes db)
           /\ Row.embedding row = Some vec
           /\ ResonanceDB.sim_id r = Row.id row
           /\ ResonanceDB.sim_label r = orElse (Row.title row) (Row.id row)
           /\ ResonanceDB.sim_score r = Fafcas.dotProduct queryVec vec
           /\ (forall d, domain = Some d -> d <> EmptyString -> Row.domain row = d))
      (ResonanceDB.findSimilar db queryVec limit domain)
    /\ ResonanceDB.findSimilar db queryVec limit (Some EmptyString)
       = ResonanceDB.findSimilar db queryVec limit None
    /\ ((0 <= limit)%Z ->
        (Z.of_nat (List.length (ResonanceDB.findSimilar db queryVec limit domain)) <= limit)%Z)
    /\ ((ResonanceDB.countRows ResonanceDB.hasEmbedding (nodes db) <= limit)%Z ->
        Z.of_nat (List.length (ResonanceDB.findSimilar db queryVec limit None))
        = ResonanceDB.countRows ResonanceDB.hasEmbedding (nodes db)).
Proof.
  intros db queryVec limit domain. split; [| split; [| split]].
  - apply Forall_forall. intros r Hin. unfold ResonanceDB.findSimilar in Hin.
    apply In_slice0 in Hin.
    apply (Permutation_in _ (sortBy_perm _ _ _)) in Hin.
    apply in_flat_map in Hin as (row & Hrow & Hin).
    apply filter_In in Hrow as [Hrow Hkeep].
    destruct (Row.embedding row) as [vec |] eqn:Hv; [| contradiction].
    destruct Hin as [<- | []]. exists row, vec.
    cbn [ResonanceDB.sim_id ResonanceDB.sim_label ResonanceDB.sim_score].
    repeat split; try assumption.
    intros d -> Hd. destruct d as [| c d]; [contradiction |].
    cbn [truthyOrNull] in Hkeep. apply String.eqb_eq, Hkeep.
  - reflexivity.
  - intros Hl. apply slice0_length, Hl.
  - intros Hl. unfold ResonanceDB.findSimilar, ResonanceDB.countRows in *.
    cbn [truthyOrNull].
    assert (Hlen :
              List.length
                (filter
                   (fun r => match Row.embedding r with Some _ => true | None => false end)
                   (nodes db))
              = List.length (filter ResonanceDB.hasEmbedding (nodes db))) by reflexivity.
    unfold slice0. destruct (Z.ltb_spec limit 0) as [Hneg | Hpos]; [lia |].
    rewrite firstn_all2.
    + rewrite (Permutation_length (sortBy_perm _ _ _)), findSimilar_rows, Hlen;
        [reflexivity |].
      intros r Hr. destruct (Row.embedding r); [discriminate | discriminate Hr].
    + rewrite (Permutation_length (sortBy_perm _ _ _)), findSimilar_rows, Hlen; [lia |].
      intros r Hr. destruct (Row.embedding r); [discriminate | discriminate Hr].
Qed.

(** ** Instances *)

Lemma timeline_edges_point_back_in_time_witness :
  In (Scenario.edge "d2" "d1" "SUCCEEDS")
    (edges (TimelineWeaver.weave Samples.dayOf Samples.twoDebriefs))
  /\ (In (Scenario.edge "d2" "d1" "SUCCEEDS") (edges Samples.twoDebriefs)
      \/ (Edge.type (Scenario.edge "d2" "d1" "SUCCEEDS") = "SUCCEEDS"
          /\ exists t_source t_target,
              In (Edge.source (Scenario.edge "d2" "d1" "SUCCEEDS"), t_source)
                (Props.datedDebriefs Samples.dayOf Samples.twoDebriefs)
              /\ In (Edge.target (Scenario.edge "d2" "d1" "SUCCEEDS"), t_target)
                   (Props.datedDebriefs Samples.dayOf Samples.twoDebriefs)
              /\ (t_target <= t_source)%Z)).
Proof.
  assert (H : In (Scenario.edge "d2" "d1" "SUCCEEDS")
                (edges (TimelineWeaver.weave Samples.dayOf Samples.twoDebriefs)))
    by (vm_compute; left; reflexivity).
  split; [exact H |].
  exact (timeline_edges_point_back_in_time Samples.dayOf Samples.twoDebriefs _ H).
Defined.


Lemma closing_validation_checks_orphaned_edges_only_witness :
  NoDup (List.map Row.id (nodes Scenario.foxStore))
  /\ exists report,
      Props.closingReport Scenario.foxStore = Normal report
      /\ PipelineValidator.results report = PipelineValidator.baseline report
      /\ PipelineValidator.warnings report = []
      /\ PipelineValidator.summary report
         = (if PipelineValidator.passed report
            then PipelineValidator.checkMark ++ " PASSED"
            else PipelineValidator.crossMark ++ " FAILED")
             ++ " | +0 nodes, +0 edges, +0 vectors"
      /\ (PipelineValidator.passed report = true
          <-> forall e, In e (edges Scenario.foxStore) -> Props.anchored Scenario.foxStore e = true)
      /\ Forall (fun err => PipelineValidator.rule err = "orphaned_edges")
           (PipelineValidator.errors report).
Proof.
  assert (H : NoDup (List.map Row.id (nodes Scenario.foxStore))).
  { vm_compute. repeat constructor; simpl; intuition discriminate. }
  split; [exact H |].
  exact (closing_validation_checks_orphaned_edges_only Scenario.foxStore H).
Defined.

Lemma parseFrontmatter_reads_lines_back_witness :
  metaGet "date"
    (Ingestor.parseFrontmatter
       (JS.join Ingestor.newline (List.map Props.frontmatterLine Samples.planLines)))
  = Some (MStr "2025-01-02T10:00").
Proof.
  apply (proj1 (proj1 parseFrontmatter_reads_lines_back Samples.planLines
                  ltac:(repeat constructor)
                  ltac:(vm_compute; repeat constructor; simpl; intuition discriminate))
           "date" " 2025-01-02T10:00").
  right. left. reflexivity.
Defined.

Lemma ingestor_reads_back_written_boxes_witness :
  Forall (fun box => Props.readable box = true) Samples.twoBoxes
  /\ Ingestor.boxesOf (BentoCli.outputText Samples.twoBoxes)
     = List.map (fun box => (BentoBoxer.locusId box, JS.trim (BentoBoxer.content box)))
         Samples.twoBoxes.
Proof.
  assert (H : Forall (fun box => Props.readable box = true) Samples.twoBoxes)
    by (repeat constructor).
  split; [exact H |].
  exact (ingestor_reads_back_written_boxes Samples.twoBoxes H).
Defined.
